(** * Upstream feature analyser: streaming JSON reader, graph constructor,
      articulation-point traversal and feature emitter.

    The development embeds [json.h], [json_fast.h], [read_graph.h] and
    [upstream_features.cpp].  Conventions of the embedding:

    - a file is the list of its remaining bytes; reading past its end yields
      the byte 255 (the value of [(char)EOF]) and leaves the file at its end;
    - the scanner counters [braces] and [brackets] are [uint_fast32_t]: they
      are integers in [[0, uintf_modulus)] and wrap around;
    - vertex and edge indices are natural numbers (they index vectors that
      live in memory, so they never reach the modulus);
    - every [while] loop that reads the file takes a fuel argument; a result
      [None] stands for a run that does not return normally (it keeps reading
      past the end of the file, or it indexes a table out of its range). *)

From Stdlib Require Import ZArith Ascii String.
From stdpp Require Import base option list gmap strings.

Open Scope Z_scope.
Open Scope nat_scope.

(** ** Characters and C strings *)

Abbreviation text := (list ascii).

Definition NUL : ascii := "000"%char.
Definition EOF_char : ascii := "255"%char.
Definition quote : ascii := "034"%char.
Definition newline : ascii := "010"%char.
Definition lbrace : ascii := "{"%char.
Definition rbrace : ascii := "}"%char.
Definition lbracket : ascii := "["%char.
Definition rbracket : ascii := "]"%char.

Definition lit (s : string) : text := list_ascii_of_string s.

(** The text of a key as it stands in the file, between double quotes. *)
Definition quoted (s : string) : text := quote :: lit s ++ [quote].

(** [key_char k p] is [k[p]] for the string literal whose characters are [k]:
    position [length k] holds the terminator, later positions lie outside the
    literal. *)
Definition key_char (k : text) (p : nat) : option ascii := (k ++ [NUL]) !! p.

(** [key_at] is the same read where the position is known to be in range. *)
Definition key_at (k : text) (p : nat) : ascii := default NUL (k !! p).

(** ** The scanner state ([braces], [brackets], [instring] and the file) *)

Definition uintf_modulus : Z := 2 ^ 64.
Definition wrap (z : Z) : Z := z mod uintf_modulus.

Record scanner := Scanner {
  input : text;
  braces : Z;
  brackets : Z;
  instring : bool
}.

Definition open_file (bytes : text) : scanner :=
  {| input := bytes; braces := 0; brackets := 0; instring := false |}.

Definition fgetc (bytes : text) : ascii * text :=
  match bytes with
  | [] => (EOF_char, [])
  | c :: rest => (c, rest)
  end.

Definition readc (sc : scanner) : ascii * scanner :=
  let '(c, rest) := fgetc (input sc) in
  if Ascii.eqb c quote then
    (c, {| input := rest; braces := braces sc; brackets := brackets sc;
           instring := negb (instring sc) |})
  else if instring sc then
    (c, {| input := rest; braces := braces sc; brackets := brackets sc;
           instring := true |})
  else if Ascii.eqb c lbrace then
    (c, {| input := rest; braces := wrap (braces sc + 1);
           brackets := brackets sc; instring := false |})
  else if Ascii.eqb c rbrace then
    (c, {| input := rest; braces := wrap (braces sc - 1);
           brackets := brackets sc; instring := false |})
  else if Ascii.eqb c lbracket then
    (c, {| input := rest; braces := braces sc;
           brackets := wrap (brackets sc + 1); instring := false |})
  else if Ascii.eqb c rbracket then
    (c, {| input := rest; braces := braces sc;
           brackets := wrap (brackets sc - 1); instring := false |})
  else
    (c, {| input := rest; braces := braces sc; brackets := brackets sc;
           instring := false |}).

(** ** [extract_string] (the same text in [json.h] and [json_fast.h]) *)

Fixpoint to_next_string (fuel : nat) (sc : scanner) : option scanner :=
  if instring sc then Some sc
  else match fuel with
       | 0 => None
       | S f => to_next_string f (readc sc).2
       end.

Fixpoint copy_string (fuel : nat) (out : text) (sc : scanner)
  : option (text * scanner) :=
  match fuel with
  | 0 => None
  | S f =>
      let '(c, sc') := readc sc in
      if instring sc' then copy_string f (out ++ [c]) sc'
      else Some (out, sc')
  end.

Definition extract_string (fuel : nat) (sc : scanner)
  : option (text * scanner) :=
  sc1 ← to_next_string fuel sc;
  '(out, sc2) ← copy_string fuel [] sc1;
  Some (out ++ [newline], sc2).

(** ** The order-dependent reader, [json_fast.h] *)

Module Fast.

Fixpoint read_to_key_loop (fuel : nat) (key : text) (level : Z) (m : nat)
    (sc : scanner) : option (bool * scanner) :=
  if negb (Ascii.eqb (key_at key m) NUL) && (level <=? braces sc)%Z then
    match fuel with
    | 0 => None
    | S f =>
        let '(c, sc') := readc sc in
        read_to_key_loop f key level
          (if Ascii.eqb c (key_at key m) then S m else 0) sc'
    end
  else Some (Ascii.eqb (key_at key m) NUL, sc).

Definition read_to_key (fuel : nat) (key : text) (sc : scanner)
  : option (bool * scanner) :=
  read_to_key_loop fuel key (braces sc) 0 sc.

Fixpoint begin_field_loop (fuel : nat) (level stop : Z) (sc : scanner)
  : option (bool * scanner) :=
  if (level =? braces sc)%Z && (stop <=? brackets sc)%Z then
    match fuel with
    | 0 => None
    | S f => begin_field_loop f level stop (readc sc).2
    end
  else Some ((stop <=? brackets sc)%Z, sc).

Definition begin_field (fuel : nat) (sc : scanner) : option (bool * scanner) :=
  begin_field_loop fuel (braces sc) (brackets sc) sc.

Fixpoint end_field_loop (fuel : nat) (level : Z) (sc : scanner)
  : option scanner :=
  if (level <=? braces sc)%Z then
    match fuel with
    | 0 => None
    | S f => end_field_loop f level (readc sc).2
    end
  else Some sc.

Definition end_field (fuel : nat) (sc : scanner) : option scanner :=
  end_field_loop fuel (braces sc) sc.

Fixpoint begin_list_loop (fuel : nat) (level stop : Z) (sc : scanner)
  : option (bool * scanner) :=
  if (level =? brackets sc)%Z && (stop <=? braces sc)%Z then
    match fuel with
    | 0 => None
    | S f => begin_list_loop f level stop (readc sc).2
    end
  else Some ((stop <=? braces sc)%Z, sc).

Definition begin_list (fuel : nat) (sc : scanner) : option (bool * scanner) :=
  begin_list_loop fuel (brackets sc) (braces sc) sc.

Fixpoint end_list_loop (fuel : nat) (level : Z) (sc : scanner)
  : option scanner :=
  if (level <=? brackets sc)%Z then
    match fuel with
    | 0 => None
    | S f => end_list_loop f level (readc sc).2
    end
  else Some sc.

Definition end_list (fuel : nat) (sc : scanner) : option scanner :=
  end_list_loop fuel (brackets sc) sc.

End Fast.

(** ** The order-independent reader, [json.h]

    The handlers are closures over the file and over the caller's variables:
    a handler is a partial function on the scanner paired with those
    variables. *)

(** The test that makes [scan_field] pass over a character without comparing
    it: the scanner is inside a nested object or a nested list. *)
Definition nested (bracelevel bracketlevel : Z) (sc : scanner) : bool :=
  (wrap (bracelevel + 1) <? braces sc)%Z || (bracketlevel <? brackets sc)%Z.

Module Robust.

Section Handlers.
Context {U : Type}.

Definition handler : Type := nat → scanner * U → option (scanner * U).
Definition thunk : Type := scanner * U → option (scanner * U).

(** The inner [for] loop of [scan_field]: one pass over the keys for the
    character [c], key [i] being the head of [keys]. *)
Fixpoint match_keys (action : handler) (c : ascii) (i : nat)
    (keys : list text) (pos : list nat) (st : scanner * U)
  : option (list nat * (scanner * U)) :=
  match keys, pos with
  | k :: keys', p :: pos' =>
      kc ← key_char k p;
      if Ascii.eqb c kc then
        kc' ← key_char k (S p);
        st' ← (if Ascii.eqb kc' NUL then action i st else Some st);
        '(pos'', st'') ← match_keys action c (S i) keys' pos' st';
        Some (S p :: pos'', st'')
      else
        '(pos'', st'') ← match_keys action c (S i) keys' pos' st;
        Some (0 :: pos'', st'')
  | _, _ => Some ([], st)
  end.

Fixpoint enter_field (fuel : nat) (bracelevel bracketlevel : Z)
    (sc : scanner) : option (bool * scanner) :=
  if (bracelevel =? braces sc)%Z then
    match fuel with
    | 0 => None
    | S f =>
        let sc' := (readc sc).2 in
        if (brackets sc' <? bracketlevel)%Z then Some (false, sc')
        else enter_field f bracelevel bracketlevel sc'
    end
  else Some (true, sc).

Fixpoint scan_keys (fuel : nat) (action : handler) (keys : list text)
    (bracelevel bracketlevel : Z) (pos : list nat) (st : scanner * U)
  : option (scanner * U) :=
  if (bracelevel <? braces st.1)%Z then
    match fuel with
    | 0 => None
    | S f =>
        let '(c, sc') := readc st.1 in
        if nested bracelevel bracketlevel sc'
        then scan_keys f action keys bracelevel bracketlevel pos (sc', st.2)
        else
          '(pos', st') ← match_keys action c 0 keys pos (sc', st.2);
          scan_keys f action keys bracelevel bracketlevel pos' st'
    end
  else Some st.

Definition scan_field (fuel : nat) (keys : list text) (action : handler)
    (st : scanner * U) : option (bool * (scanner * U)) :=
  let bracelevel := braces st.1 in
  let bracketlevel := brackets st.1 in
  match enter_field fuel bracelevel bracketlevel st.1 with
  | None => None
  | Some (false, sc1) => Some (false, (sc1, st.2))
  | Some (true, sc1) =>
      st' ← scan_keys fuel action keys bracelevel bracketlevel
              (replicate (length keys) 0) (sc1, st.2);
      Some (true, st')
  end.

Fixpoint enter_list (fuel : nat) (bracketlevel bracelevel : Z)
    (sc : scanner) : option (bool * scanner) :=
  if (bracketlevel =? brackets sc)%Z then
    match fuel with
    | 0 => None
    | S f =>
        let sc' := (readc sc).2 in
        if (braces sc' <? bracelevel)%Z then Some (false, sc')
        else enter_list f bracketlevel bracelevel sc'
    end
  else Some (true, sc).

Fixpoint run_list (fuel : nat) (action : thunk) (bracketlevel : Z)
    (st : scanner * U) : option (scanner * U) :=
  if (bracketlevel <? brackets st.1)%Z then
    match fuel with
    | 0 => None
    | S f => st' ← action st; run_list f action bracketlevel st'
    end
  else Some st.

Definition scan_list (fuel : nat) (action : thunk) (st : scanner * U)
  : option (bool * (scanner * U)) :=
  let bracketlevel := brackets st.1 in
  let bracelevel := braces st.1 in
  match enter_list fuel bracketlevel bracelevel st.1 with
  | None => None
  | Some (false, sc1) => Some (false, (sc1, st.2))
  | Some (true, sc1) =>
      st' ← run_list fuel action bracketlevel (sc1, st.2);
      Some (true, st')
  end.

End Handlers.
Arguments handler : clear implicits.
Arguments thunk : clear implicits.

End Robust.

(** ** The graph tables of [read_graph.h] *)

Definition HEAD : nat := 0.
Definition TAIL : nat := 1.

Abbreviation adjacency := (list (list (nat * nat))).

Record tables := Tables {
  graph : adjacency;                 (* graph[v]: <neighbour, edge> pairs *)
  name : list text;
  edgename : list text;
  badedge : list bool;
  nodes : nat;
  edges : nat;                       (* local of read_graph *)
  controllers : nat;                 (* local of read_graph *)
  edgenodes : list (list (nat * nat));
  idx : gmap text nat;
  edgeidx : gmap text nat;
  edgevtx : gmap nat (list nat)
}.

Definition set_graph (g : adjacency) (t : tables) : tables :=
  {| graph := g; name := name t; edgename := edgename t;
     badedge := badedge t; nodes := nodes t; edges := edges t;
     controllers := controllers t; edgenodes := edgenodes t; idx := idx t;
     edgeidx := edgeidx t; edgevtx := edgevtx t |}.

(** [graph[u].emplace_back(v, e)]; undefined when [u] is out of range. *)
Definition link (u : nat) (p : nat * nat) (g : adjacency) : option adjacency :=
  l ← g !! u; Some (<[u := l ++ [p]]> g).

(** The mirrored pair [graph[u].emplace_back(v, e); graph[v].emplace_back(u, e)]. *)
Definition link2 (u v e : nat) (g : adjacency) : option adjacency :=
  g1 ← link u (v, e) g; link v (u, e) g1.

(** The state on entry to the parse: HEAD and TAIL exist and are unnamed. *)
Definition init_tables : tables :=
  {| graph := [[]; []]; name := [[]; []]; edgename := []; badedge := [];
     nodes := 2; edges := 0; controllers := 0; edgenodes := [];
     idx := ∅; edgeidx := ∅; edgevtx := ∅ |}.

(** [idx.find(id)], allocating a vertex on the first sighting. *)
Definition vertex_of (id : text) (t : tables) : nat * tables :=
  match idx t !! id with
  | Some v => (v, t)
  | None =>
      (nodes t,
       {| graph := graph t ++ [[]]; name := name t ++ [id];
          edgename := edgename t; badedge := badedge t;
          nodes := S (nodes t); edges := edges t;
          controllers := controllers t; edgenodes := edgenodes t;
          idx := <[id := nodes t]> (idx t); edgeidx := edgeidx t;
          edgevtx := edgevtx t |})
  end.

(** [edgeidx.find(id)], allocating an edge record on the first sighting. *)
Definition edge_of (id : text) (t : tables) : nat * tables :=
  match edgeidx t !! id with
  | Some e => (e, t)
  | None =>
      (edges t,
       {| graph := graph t; name := name t;
          edgename := edgename t ++ [id]; badedge := badedge t ++ [false];
          nodes := nodes t; edges := S (edges t);
          controllers := controllers t; edgenodes := edgenodes t ++ [[]];
          idx := idx t; edgeidx := <[id := edges t]> (edgeidx t);
          edgevtx := edgevtx t |})
  end.

(** The body of the "rows" loop once the three identifiers are known. *)
Definition add_row (edge source target : text) (t : tables) : option tables :=
  let '(sourcev, t1) := vertex_of source t in
  let '(targetv, t2) := vertex_of target t1 in
  let '(edgev, t3) := edge_of edge t2 in
  segs ← edgenodes t3 !! edgev;
  g ← link2 sourcev targetv edgev (graph t3);
  Some {| graph := g; name := name t3; edgename := edgename t3;
          badedge := badedge t3; nodes := nodes t3; edges := edges t3;
          controllers := controllers t3;
          edgenodes := <[edgev := segs ++ [(sourcev, targetv)]]> (edgenodes t3);
          idx := idx t3; edgeidx := edgeidx t3; edgevtx := edgevtx t3 |}.

(** The dummy edge appended after the rows. *)
Definition add_dummy (t : tables) : tables :=
  {| graph := graph t; name := name t; edgename := edgename t ++ [[]];
     badedge := badedge t ++ [false]; nodes := nodes t; edges := edges t;
     controllers := controllers t; edgenodes := edgenodes t; idx := idx t;
     edgeidx := edgeidx t; edgevtx := edgevtx t |}.

(** Reduction 1 for one segment [p] of an edge named [id]: a fresh vertex
    wired to the sentinel [s] and to both endpoints.  Returns the new vertex. *)
Definition explode_segment (s : nat) (id : text) (p : nat * nat) (t : tables)
  : option (nat * tables) :=
  let source := nodes t in
  let g0 := graph t ++ [[]] in
  g1 ← link2 s source (edges t) g0;
  g2 ← link2 source p.1 (edges t) g1;
  g3 ← link2 source p.2 (edges t) g2;
  Some (source,
        {| graph := g3; name := name t ++ [id]; edgename := edgename t;
           badedge := badedge t; nodes := S (nodes t); edges := edges t;
           controllers := controllers t; edgenodes := edgenodes t;
           idx := idx t; edgeidx := edgeidx t; edgevtx := edgevtx t |}).

Fixpoint explode (s : nat) (id : text) (segs : list (nat * nat))
    (made : list nat) (t : tables) : option (list nat * tables) :=
  match segs with
  | [] => Some (made, t)
  | p :: segs' =>
      '(v, t') ← explode_segment s id p t;
      explode s id segs' (made ++ [v]) t'
  end.

(** Reduction 2 for an edge that is already exploded. *)
Fixpoint wire_all (s : nat) (e : nat) (vs : list nat) (g : adjacency)
  : option adjacency :=
  match vs with
  | [] => Some g
  | v :: vs' => g' ← link2 s v e g; wire_all s e vs' g'
  end.

(** What is done for one controller ([s = TAIL]) or one starting point
    ([s = HEAD]) whose identifier is [id]. *)
Definition designate (s : nat) (id : text) (t : tables) : option tables :=
  t1 ← match idx t !! id with
        | Some v => g ← link2 s v (edges t) (graph t); Some (set_graph g t)
        | None => Some t
        end;
  match edgeidx t1 !! id with
  | None => Some t1
  | Some e =>
      match badedge t1 !! e with
      | None => None
      | Some true =>
          let vs := default [] (edgevtx t1 !! e) in
          g ← wire_all s (edges t1) vs (graph t1);
          Some {| graph := g; name := name t1; edgename := edgename t1;
                  badedge := badedge t1; nodes := nodes t1; edges := edges t1;
                  controllers := controllers t1; edgenodes := edgenodes t1;
                  idx := idx t1; edgeidx := edgeidx t1;
                  edgevtx := <[e := vs]> (edgevtx t1) |}
      | Some false =>
          segs ← edgenodes t1 !! e;
          let t2 :=
            {| graph := graph t1; name := name t1; edgename := edgename t1;
               badedge := <[e := true]> (badedge t1); nodes := nodes t1;
               edges := edges t1; controllers := controllers t1;
               edgenodes := edgenodes t1; idx := idx t1;
               edgeidx := edgeidx t1; edgevtx := edgevtx t1 |} in
          '(made, t3) ← explode s id segs (default [] (edgevtx t1 !! e)) t2;
          Some {| graph := graph t3; name := name t3; edgename := edgename t3;
                  badedge := badedge t3; nodes := nodes t3; edges := edges t3;
                  controllers := controllers t3; edgenodes := edgenodes t3;
                  idx := idx t3; edgeidx := edgeidx t3;
                  edgevtx := <[e := made]> (edgevtx t3) |}
      end
  end.

Definition count_controller (t : tables) : tables :=
  {| graph := graph t; name := name t; edgename := edgename t;
     badedge := badedge t; nodes := nodes t; edges := edges t;
     controllers := S (controllers t); edgenodes := edgenodes t;
     idx := idx t; edgeidx := edgeidx t; edgevtx := edgevtx t |}.

Definition add_controller (ctrl : text) (t : tables) : option tables :=
  designate TAIL ctrl (count_controller t).

(** A line of the starting-points file, as [getline] returns it. *)
Definition start_key (line : text) : text := line ++ [newline].

Definition add_start (line : text) (t : tables) : option tables :=
  designate HEAD (start_key line) t.

Fixpoint add_starts (lines : list text) (t : tables) : option tables :=
  match lines with
  | [] => Some t
  | l :: lines' => t' ← add_start l t; add_starts lines' t'
  end.

(** ** [read_graph], default build (ROBUST undefined) *)

Module FastBuild.
Import Fast.

Definition read_row (fuel : nat) (sc : scanner) (t : tables)
  : option (scanner * tables) :=
  '(_, sc1) ← read_to_key fuel (quoted "viaGlobalId") sc;
  '(edge, sc2) ← extract_string fuel sc1;
  '(_, sc3) ← read_to_key fuel (quoted "fromGlobalId") sc2;
  '(source, sc4) ← extract_string fuel sc3;
  '(_, sc5) ← read_to_key fuel (quoted "toGlobalId") sc4;
  '(target, sc6) ← extract_string fuel sc5;
  t' ← add_row edge source target t;
  Some (sc6, t').

Definition read_controller (fuel : nat) (sc : scanner) (t : tables)
  : option (scanner * tables) :=
  '(_, sc1) ← read_to_key fuel (quoted "globalId") sc;
  '(ctrl, sc2) ← extract_string fuel sc1;
  t' ← add_controller ctrl t;
  Some (sc2, t').

(** [for (begin_list(file); begin_field(file); end_field(file)) body]
    after its initialiser. *)
Fixpoint fields_loop (fuel n : nat)
    (body : scanner → tables → option (scanner * tables))
    (sc : scanner) (t : tables) : option (scanner * tables) :=
  match n with
  | 0 => None
  | S n' =>
      match begin_field fuel sc with
      | None => None
      | Some (false, sc1) => Some (sc1, t)
      | Some (true, sc1) =>
          '(sc2, t') ← body sc1 t;
          sc3 ← end_field fuel sc2;
          fields_loop fuel n' body sc3 t'
      end
  end.

Definition parse (fuel : nat) (bytes : text) : option tables :=
  '(_, sc1) ← begin_field fuel (open_file bytes);
  '(_, sc2) ← read_to_key fuel (quoted "rows") sc1;
  '(_, sc3) ← begin_list fuel sc2;
  '(sc4, t1) ← fields_loop fuel fuel (read_row fuel) sc3 init_tables;
  let t2 := add_dummy t1 in
  '(_, sc5) ← read_to_key fuel (quoted "controllers") sc4;
  '(_, sc6) ← begin_list fuel sc5;
  '(sc7, t3) ← fields_loop fuel fuel (read_controller fuel) sc6 t2;
  _ ← end_field fuel sc7;
  Some t3.

Definition read_graph (fuel : nat) (bytes : text) (startingpoints : list text)
  : option tables :=
  t ← parse fuel bytes; add_starts startingpoints t.

End FastBuild.

(** ** [read_graph], ROBUST build *)

Module RobustBuild.
Import Robust.

(** The three locals [edge], [source], [target] of the row handler. *)
Definition row_vars : Type := text * text * text.

Definition row_keys : list text :=
  [quoted "viaGlobalId"; quoted "fromGlobalId"; quoted "toGlobalId"].

Definition row_key_action (fuel : nat) : handler row_vars :=
  λ i st,
    let '(sc, (edge, source, target)) := st in
    match i with
    | 0 => '(s, sc') ← extract_string fuel sc; Some (sc', (s, source, target))
    | 1 => '(s, sc') ← extract_string fuel sc; Some (sc', (edge, s, target))
    | 2 => '(s, sc') ← extract_string fuel sc; Some (sc', (edge, source, s))
    | _ => Some st
    end.

Definition row_action (fuel : nat) : thunk tables :=
  λ st,
    match scan_field fuel row_keys (row_key_action fuel) (st.1, ([], [], []))
    with
    | None => None
    | Some (true, (sc', (edge, source, target))) =>
        t' ← add_row edge source target st.2; Some (sc', t')
    | Some (false, (sc', _)) => Some (sc', st.2)
    end.

Definition controller_key_action (fuel : nat) : handler text :=
  λ _ st, '(s, sc') ← extract_string fuel st.1; Some (sc', s).

Definition controller_action (fuel : nat) : thunk tables :=
  λ st,
    match scan_field fuel [quoted "globalId"] (controller_key_action fuel)
            (st.1, [])
    with
    | None => None
    | Some (true, (sc', ctrl)) => t' ← add_controller ctrl st.2; Some (sc', t')
    | Some (false, (sc', _)) => Some (sc', st.2)
    end.

Definition top_keys : list text := [quoted "rows"; quoted "controllers"].

Definition top_action (fuel : nat) : handler tables :=
  λ i st,
    match i with
    | 0 =>
        '(_, st') ← scan_list fuel (row_action fuel) st;
        Some (st'.1, add_dummy st'.2)
    | 1 =>
        '(_, st') ← scan_list fuel (controller_action fuel) st;
        Some st'
    | _ => Some st
    end.

Definition parse (fuel : nat) (bytes : text) : option tables :=
  '(_, st) ← scan_field fuel top_keys (top_action fuel)
               (open_file bytes, init_tables);
  Some st.2.

Definition read_graph (fuel : nat) (bytes : text) (startingpoints : list text)
  : option tables :=
  t ← parse fuel bytes; add_starts startingpoints t.

End RobustBuild.

(** ** [traverse]: the non-recursive articulation-point search *)

Record frame := Frame {
  fv : nat;          (* the vertex *)
  fi : nat;          (* index of the edge last looked at *)
  fbest : nat;
  freached : bool;
  fstarted : bool
}.

Record search := MkSearch {
  dfs : list (nat * nat);   (* <dfs_count, dfs_low> *)
  upstream : list bool;
  acc : list nat;           (* top of the stack first *)
  stk : list frame;         (* top of the stack first *)
  count : nat;
  child_reached : bool
}.

Section Traverse.
Variable g : adjacency.
Variable bad : list bool.

(** [upstream[v] = upstream[v] | b] *)
Definition mark (b : bool) (v : nat) (up : list bool) : option (list bool) :=
  old ← up !! v; Some (<[v := old || b]> up).

(** The component pop: [while (acc.top() != u) { mark; pop } mark u; pop].
    Reading the top of an empty stack is undefined. *)
Fixpoint pop_component (b : bool) (u : nat) (ac : list nat) (up : list bool)
  : option (list nat * list bool) :=
  match ac with
  | [] => None
  | w :: ac' =>
      up' ← mark b w up;
      if w =? u then Some (ac', up') else pop_component b u ac' up'
  end.

(** The loop that skips the edges already recursed on or deleted; [rest] is
    what is left of [graph[v]] from index [i] on. *)
Fixpoint skip_edges (d : list (nat * nat)) (rest : list (nat * nat))
    (i best : nat) (reached : bool) : option (nat * nat * bool) :=
  match rest with
  | [] => Some (i, best, reached)
  | (u, e) :: rest' =>
      du ← d !! u;
      be ← bad !! e;
      if (0 <? du.1) || be then
        if be then skip_edges d rest' (S i) best reached
        else skip_edges d rest' (S i) (best `min` du.2)
               (reached || (u =? TAIL))
      else Some (i, best, reached)
  end.

(** The two branches of [if (fm.started)] for the frame [fm] just popped:
    back from the recursion on edge [fm.i], or at the vertex for the first
    time.  Returns [fm.i], [fm.best], [dfs], [acc] and [upstream]. *)
Definition resume (adj : list (nat * nat)) (fm : frame) (st : search)
  : option (nat * nat * list (nat * nat) * list nat * list bool) :=
  if fstarted fm then
    p ← adj !! fi fm;
    du ← dfs st !! p.1;
    dv ← dfs st !! fv fm;
    if dv.1 <=? du.2 then
      '(ac', up') ← pop_component (child_reached st) p.1 (acc st)
                      (upstream st);
      Some (S (fi fm), fbest fm, dfs st, ac', up')
    else
      Some (S (fi fm), fbest fm `min` du.2, dfs st, acc st, upstream st)
  else
    _ ← dfs st !! fv fm;
    Some (fi fm, fbest fm, <[fv fm := (fbest fm, fbest fm)]> (dfs st),
          fv fm :: acc st, upstream st).

(** One turn of the main loop, for the frame [fm] just popped. *)
Definition step (fm : frame) (st : search) : option search :=
  let reached0 := freached fm || child_reached st in
  adj ← g !! fv fm;
  '(i1, best1, d1, ac1, up1) ← resume adj fm st;
  '(i2, best2, reached2) ← skip_edges d1 (drop i1 adj) i1 best1 reached0;
  if i2 =? length adj then
    dv ← d1 !! fv fm;
    Some {| dfs := <[fv fm := (dv.1, best2)]> d1; upstream := up1;
            acc := ac1; stk := stk st; count := count st;
            child_reached := reached2 |}
  else
    p ← adj !! i2;
    Some {| dfs := d1; upstream := up1; acc := ac1;
            stk := {| fv := p.1; fi := 0; fbest := count st;
                      freached := false; fstarted := false |}
                   :: {| fv := fv fm; fi := i2; fbest := best2;
                         freached := reached2 || (p.1 =? TAIL);
                         fstarted := true |}
                   :: stk st;
            count := S (count st); child_reached := false |}.

Fixpoint run (fuel : nat) (st : search) : option search :=
  match stk st with
  | [] => Some st
  | fm :: below =>
      match fuel with
      | 0 => None
      | S f =>
          st' ← step fm {| dfs := dfs st; upstream := upstream st;
                           acc := acc st; stk := below; count := count st;
                           child_reached := child_reached st |};
          run f st'
      end
  end.

(** [while (!acc.empty()) { upstream[acc.top()] = true; acc.pop(); }] *)
Fixpoint mark_rest (ac : list nat) (up : list bool) : option (list bool) :=
  match ac with
  | [] => Some up
  | w :: ac' => _ ← up !! w; mark_rest ac' (<[w := true]> up)
  end.

(** The state [main] sets up before the call, and the first frame. *)
Definition start_search (n : nat) : search :=
  {| dfs := replicate n (0, 0); upstream := replicate n false; acc := [];
     stk := [{| fv := 0; fi := 0; fbest := 1; freached := false;
                fstarted := false |}];
     count := 2; child_reached := false |}.

Definition traverse (fuel n : nat) : option (list (nat * nat) * list bool) :=
  st ← run fuel (start_search n);
  up ← mark_rest (acc st) (upstream st);
  Some (dfs st, up).

End Traverse.

(** ** The emitter loop of [main] *)

Section Emit.
Variable g : adjacency.
Variable names edgenames : list text.
Variable up : list bool.

(** The [for] loop over [graph[v]]: returns [dfs], the stack and what was
    written. *)
Fixpoint emit_edges (v : nat) (adj : list (nat * nat)) (d : list (nat * nat))
    (stack : list nat) (out : list text)
  : option (list (nat * nat) * list nat * list text) :=
  match adj with
  | [] => Some (d, stack, out)
  | (u, e) :: adj' =>
      match up !! u with
      | None => None
      | Some false => emit_edges v adj' d stack out
      | Some true =>
          out1 ← (if v <? u then en ← edgenames !! e; Some (out ++ [en])
                  else Some out);
          du ← d !! u;
          if 0 <? du.1 then
            nu ← names !! u;
            emit_edges v adj' (<[u := (0, du.2)]> d) (u :: stack)
              (out1 ++ [nu])
          else emit_edges v adj' d stack out1
      end
  end.

Fixpoint emit_loop (fuel : nat) (d : list (nat * nat)) (stack : list nat)
    (out : list text) : option (list text) :=
  match stack with
  | [] => Some out
  | v :: stack' =>
      match fuel with
      | 0 => None
      | S f =>
          nv ← names !! v;
          adj ← g !! v;
          '(d', stack'', out') ← emit_edges v adj d stack' (out ++ [nv]);
          emit_loop f d' stack'' out'
      end
  end.

Definition emit (fuel : nat) (d : list (nat * nat)) : option (list text) :=
  d0 ← d !! 0;
  emit_loop fuel (<[0 := (0, d0.2)]> d) [0] [].

End Emit.

(** [main] after the argument check: the pieces written to the output file,
    in order. *)
Definition analyse (fuel : nat) (t : tables) : option (list text) :=
  '(d, up) ← traverse (graph t) (badedge t) fuel (nodes t);
  emit (graph t) (name t) (edgename t) up fuel d.

Definition main_fast (fuel : nat) (bytes : text) (startingpoints : list text)
  : option (list text) :=
  t ← FastBuild.read_graph fuel bytes startingpoints; analyse fuel t.

Definition main_robust (fuel : nat) (bytes : text) (startingpoints : list text)
  : option (list text) :=
  t ← RobustBuild.read_graph fuel bytes startingpoints; analyse fuel t.

(** ** Vocabulary of the properties *)

(** [graph[u]], empty when [u] is not a vertex. *)
Definition adj (g : adjacency) (u : nat) : list (nat * nat) :=
  default [] (g !! u).

(** How many times the pair [p] occurs in an adjacency list. *)
Definition occurrences (p : nat * nat) (l : list (nat * nat)) : nat :=
  length (filter (λ q, q = p) l).

(** Undirectedness, with multiplicities. *)
Definition mirrored (g : adjacency) : Prop :=
  ∀ u v e, occurrences (v, e) (adj g u) = occurrences (u, e) (adj g v).

(** Every adjacency entry names a vertex below [n] and an edge up to [m]. *)
Definition entries_below (g : adjacency) (n m : nat) : Prop :=
  ∀ v u e, (u, e) ∈ adj g v → u < n ∧ e ≤ m.


(** The canonical form of an identifier: it ends with the terminator. *)
Definition terminated (s : text) : Prop := last s = Some newline.

(** An identifier variable of the ROBUST row handler: never assigned, or
    assigned by [extract_string]. *)
Definition blank_or_terminated (s : text) : Prop := s = [] ∨ terminated s.

(** The substitute vertices recorded for edge [e]. *)
Definition substitutes (t : tables) (e : nat) : list nat :=
  default [] (edgevtx t !! e).

(** The steps of the graph constructor: a row, the dummy edge, a controller
    (counted, then designated with TAIL), a line of the starting-points file
    (designated with HEAD). *)
Inductive operation :=
  | op_row (edge source target : text)
  | op_dummy
  | op_controller (ctrl : text)
  | op_start (line : text).

Definition perform (o : operation) (t : tables) : option tables :=
  match o with
  | op_row edge source target => add_row edge source target t
  | op_dummy => Some (add_dummy t)
  | op_controller ctrl => add_controller ctrl t
  | op_start line => add_start line t
  end.

Fixpoint perform_all (os : list operation) (t : tables) : option tables :=
  match os with
  | [] => Some t
  | o :: os' => t' ← perform o t; perform_all os' t'
  end.

(** The step [o] designates the identifier [id], with the sentinel [s]. *)
Definition designates (o : operation) (s : nat) (id : text) : Prop :=
  match o with
  | op_controller ctrl => s = TAIL ∧ id = ctrl
  | op_start line => s = HEAD ∧ id = start_key line
  | _ => False
  end.

(** A handler that only records its calls: the key index and the scanner
    state it is called in. *)
Definition record : Robust.handler (list (nat * scanner)) :=
  λ i st, Some (st.1, st.2 ++ [(i, st.1)]).

(** Characters that move the depth counters. *)
Definition structural (c : ascii) : Prop :=
  c = lbrace ∨ c = rbrace ∨ c = lbracket ∨ c = rbracket.

(** A key a caller may pass: a C string without structural characters. *)
Definition plain_key (k : text) : Prop :=
  (NUL ∉ k) ∧ (∀ c, c ∈ k → ¬ structural c).

(** A counter value of the scanner. *)
Definition uintf_range (z : Z) : Prop := (0 ≤ z < uintf_modulus)%Z.

(** JSON text written with apostrophes for the double quotes. *)
Definition json (s : string) : text :=
  map (λ c, if Ascii.eqb c "'"%char then quote else c) (lit s).

(** *** Graph vocabulary for the traversal *)

Section GraphVocabulary.
Variable g : adjacency.
Variable bad : list bool.

(** [v] is a neighbour of [u] through an edge that is not deleted. *)
Definition joined (u v : nat) : Prop :=
  ∃ e, (v, e) ∈ adj g u ∧ bad !! e = Some false.

(** Reachable from HEAD through edges that are not deleted. *)
Inductive reachable : nat → Prop :=
  | reach_head : reachable HEAD
  | reach_step u v : reachable u → joined u v → reachable v.

(** A walk: consecutive vertices are joined. *)
Fixpoint walk (p : list nat) : Prop :=
  match p with
  | [] => True
  | u :: p' => match p' with
               | [] => True
               | v :: _ => joined u v ∧ walk p'
               end
  end.

(** A simple path from HEAD to TAIL. *)
Definition simple_path (p : list nat) : Prop :=
  head p = Some HEAD ∧ last p = Some TAIL ∧ NoDup p ∧ walk p.

Definition on_simple_path (v : nat) : Prop :=
  ∃ p, simple_path p ∧ v ∈ p.

(** The graph handed to [traverse]: [n] vertices, HEAD among them, every
    entry within the tables. *)
Definition well_formed (n : nat) : Prop :=
  0 < n ∧ length g = n ∧
  ∀ v u e, (u, e) ∈ adj g v → u < n ∧ e < length bad.

(** [S] holds of HEAD and is closed under the non-deleted edges that do not
    enter TAIL. *)
Definition closed_before_tail (S : nat → bool) : Prop :=
  S HEAD = true ∧
  ∀ u v, S u = true → joined u v → v = TAIL ∨ S v = true.

End GraphVocabulary.

(** A vertex has a discovery number. *)
Definition visited (d : list (nat * nat)) (v : nat) : Prop :=
  ∃ p, d !! v = Some p ∧ 0 < p.1.

(** The number of vertices with a discovery number. *)
Definition visited_count (d : list (nat * nat)) : nat :=
  length (filter (λ p, 0 < p.1) d).

(** *** States the graph constructor can be in *)

(** Any state built from the initial one by the constructor's operations,
    the identifiers satisfying [P]. *)
Inductive assembled (P : text → Prop) : tables → Prop :=
  | as_init : assembled P init_tables
  | as_row t edge source target t' :
      assembled P t → P edge → P source → P target →
      add_row edge source target t = Some t' → assembled P t'
  | as_dummy t : assembled P t → assembled P (add_dummy t)
  | as_count t : assembled P t → assembled P (count_controller t)
  | as_designate t s id t' :
      assembled P t → s = HEAD ∨ s = TAIL → P id →
      designate s id t = Some t' → assembled P t'.

(** The default build adds all rows first ... *)
Inductive rows_phase : tables → Prop :=
  | rp_init : rows_phase init_tables
  | rp_row t edge source target t' :
      rows_phase t → terminated edge → terminated source →
      terminated target →
      add_row edge source target t = Some t' → rows_phase t'.

(** ... then the dummy edge, then the controllers and starting points. *)
Inductive wired_phase : tables → Prop :=
  | wp_dummy t : rows_phase t → wired_phase (add_dummy t)
  | wp_count t : wired_phase t → wired_phase (count_controller t)
  | wp_designate t s id t' :
      wired_phase t → s = HEAD ∨ s = TAIL → terminated id →
      designate s id t = Some t' → wired_phase t'.

(** *** The invariant of the graph constructor *)

Record sound (P : text → Prop) (t : tables) : Prop := Sound {
  sound_mirrored : mirrored (graph t);
  sound_name : length (name t) = nodes t;
  sound_graph : length (graph t) = nodes t;
  sound_sentinels : 2 ≤ nodes t;
  sound_head : name t !! HEAD = Some [];
  sound_tail : name t !! TAIL = Some [];
  sound_idx : ∀ id v, idx t !! id = Some v → 2 ≤ v < nodes t ∧ P id;
  sound_edgeidx : ∀ id e, edgeidx t !! id = Some e → e < edges t ∧ P id;
  sound_edgenodes : length (edgenodes t) = edges t;
  sound_segments :
    ∀ e segs p, edgenodes t !! e = Some segs → p ∈ segs →
                p.1 < nodes t ∧ p.2 < nodes t;
  sound_edgevtx :
    ∀ e vs v, edgevtx t !! e = Some vs → v ∈ vs → 2 ≤ v < nodes t;
  sound_entries : entries_below (graph t) (nodes t) (edges t);
  sound_edgename : length (edgename t) = length (badedge t);
  sound_edges : edges t ≤ length (edgename t)
}.

(** The three identifier variables of the ROBUST row handler. *)
Definition row_vars_ok (v : RobustBuild.row_vars) : Prop :=
  blank_or_terminated v.1.1 ∧ blank_or_terminated v.1.2 ∧
  blank_or_terminated v.2.


(** *** Sample inputs *)

(** One row A-B, controller B. *)
Definition doc_pair : text :=
  json "{'rows':[{'viaGlobalId':'E1','fromGlobalId':'A','toGlobalId':'B'}],'controllers':[{'globalId':'B'}]}".

(** Rows A-C and B-D, controllers A and B. *)
Definition doc_detached : text :=
  json "{'rows':[{'viaGlobalId':'E1','fromGlobalId':'A','toGlobalId':'C'},{'viaGlobalId':'E2','fromGlobalId':'B','toGlobalId':'D'}],'controllers':[{'globalId':'A'},{'globalId':'B'}]}".

(** A first row without "toGlobalId", then a complete row B-C. *)
Definition doc_short_row : text :=
  json "{'rows':[{'viaGlobalId':'E1','fromGlobalId':'A'},{'viaGlobalId':'E2','fromGlobalId':'B','toGlobalId':'C'}],'controllers':[{'globalId':'B'}]}".

(** Edge E1 with two segments A-B and B-C. *)
Definition doc_two_segments : text :=
  json "{'rows':[{'viaGlobalId':'E1','fromGlobalId':'A','toGlobalId':'B'},{'viaGlobalId':'E1','fromGlobalId':'B','toGlobalId':'C'}],'controllers':[{'globalId':'E1'}]}".

(** Rows A-B and B-C, both of edge E1, controller C. *)
Definition doc_chain : text :=
  json "{'rows':[{'viaGlobalId':'E1','fromGlobalId':'A','toGlobalId':'B'},{'viaGlobalId':'E1','fromGlobalId':'B','toGlobalId':'C'}],'controllers':[{'globalId':'C'}]}".

(** An identifier as the tables hold it. *)
Definition ident (s : string) : text := lit s ++ [newline].

(** Two rows of edge E1 and no controller. *)
Definition doc_segments : text :=
  json "{'rows':[{'viaGlobalId':'E1','fromGlobalId':'A','toGlobalId':'B'},{'viaGlobalId':'E1','fromGlobalId':'B','toGlobalId':'C'}],'controllers':[]}".

(** *** Vocabulary for the matchers *)

(** For the file [bytes], the text read so far ends with the first [p]
    characters of the key. *)
Definition partial_match (bytes : text) (sc : scanner) (k : text) (p : nat)
  : Prop :=
  ∃ pre, bytes = (pre ++ take p k) ++ input sc.

(** A boolean test for [plain_key]. *)
Definition plain_keyb (k : text) : bool :=
  forallb (λ c, negb (Ascii.eqb c NUL || Ascii.eqb c lbrace ||
                      Ascii.eqb c rbrace || Ascii.eqb c lbracket ||
                      Ascii.eqb c rbracket)) k.

(** The tables after the parse of [doc_segments] (the empty tables if the
    parse did not return). *)
Definition tables_segments : tables :=
  default init_tables (FastBuild.parse 150 doc_segments).

(** Discharges a decidable closed goal by evaluation. *)
Ltac evaluated := apply (bool_decide_unpack _); vm_compute; exact I.

(** *** The invariant of the main loop of [traverse] *)

Section TraverseInvariant.
Variable g : adjacency.
Variable bad : list bool.
Variable n : nat.

(** The vertex a started frame has recursed on. *)
Definition child_of (f : frame) (u : nat) : Prop :=
  ∃ e, adj g (fv f) !! fi f = Some (u, e).

(** The accumulator holds, for every frame of the stack from the top down,
    the vertex that frame recursed on, in that order, above HEAD. *)
Fixpoint acc_ok (fs : list frame) (ac : list nat) : Prop :=
  match fs with
  | [] => ac = [HEAD]
  | f :: fs' =>
      ∃ above u rest, ac = above ++ u :: rest ∧ child_of f u ∧ acc_ok fs' rest
  end.

(** Each frame is the recursion of the frame below it; the bottom frame is
    the one of HEAD. *)
Fixpoint chain (fs : list frame) : Prop :=
  match fs with
  | [] => True
  | f :: fs' =>
      match fs' with
      | [] => fv f = HEAD
      | p :: _ => child_of p (fv f)
      end ∧ chain fs'
  end.

(** The edges before [fi] lead to visited vertices or are deleted. *)
Definition passed (d : list (nat * nat)) (v i : nat) : Prop :=
  ∀ j u e, j < i → adj g v !! j = Some (u, e) →
           bad !! e = Some true ∨ visited d u.

Definition started_ok (d : list (nat * nat)) (f : frame) : Prop :=
  fstarted f = true ∧ visited d (fv f) ∧ fi f < length (adj g (fv f)) ∧
  1 ≤ fbest f ∧ passed d (fv f) (fi f).

Definition fresh_ok (d : list (nat * nat)) (cnt : nat) (f : frame) : Prop :=
  fstarted f = false ∧ fi f = 0 ∧ (∃ x, d !! fv f = Some (0, x)) ∧
  S (fbest f) = cnt ∧ reachable g bad (fv f).

(** All non-deleted edges of [v] lead to visited vertices. *)
Definition closed (d : list (nat * nat)) (v : nat) : Prop :=
  ∀ u e, (u, e) ∈ adj g v → bad !! e = Some false → visited d u.

(** A frame not yet entered is on top of the stack. *)
Definition pending (fs : list frame) : nat :=
  match fs with
  | f :: _ => if fstarted f then 0 else 1
  | [] => 0
  end.

Definition stack_ok (st : search) : Prop :=
  match stk st with
  | [] => acc st = [HEAD]
  | top :: below =>
      Forall (started_ok (dfs st)) below ∧
      if fstarted top then
        started_ok (dfs st) top ∧
        (∀ u, child_of top u → visited (dfs st) u) ∧
        acc_ok (top :: below) (acc st)
      else
        fresh_ok (dfs st) (count st) top ∧
        match below with
        | [] => acc st = [] ∧ fbest top = 1
        | _ :: below' => acc_ok below' (acc st)
        end
  end.

Record search_ok (st : search) : Prop := SearchOk {
  ok_dfs : length (dfs st) = n;
  ok_upstream : length (upstream st) = n;
  ok_low : ∀ v p, dfs st !! v = Some p → 0 < p.1 → 1 ≤ p.2;
  ok_head : ∀ p, dfs st !! HEAD = Some p → 0 < p.1 → p.1 = 1;
  ok_reach : ∀ v, visited (dfs st) v → reachable g bad v;
  ok_marked :
    ∀ v, upstream st !! v = Some true →
         visited (dfs st) v ∧ reachable g bad TAIL;
  ok_child_reached : child_reached st = true → reachable g bad TAIL;
  ok_reached : ∀ f, f ∈ stk st → freached f = true → reachable g bad TAIL;
  ok_acc_nodup : NoDup (acc st);
  ok_acc : ∀ w, w ∈ acc st → visited (dfs st) w;
  ok_closed :
    ∀ v, visited (dfs st) v →
         (∃ f, f ∈ stk st ∧ fv f = v) ∨ closed (dfs st) v;
  ok_count : count st = S (visited_count (dfs st)) + pending (stk st);
  ok_chain : chain (stk st);
  ok_stack : stack_ok st
}.

(** What [resume] leaves behind for the frame [fm] above the frames
    [below]: the state in the middle of a turn of the loop. *)
Record resumed_ok (st : search) (fm : frame) (below : list frame)
    (i1 best1 : nat) (d1 : list (nat * nat)) (ac1 : list nat)
    (up1 : list bool) : Prop := ResumedOk {
  mid_dfs : length d1 = n;
  mid_upstream : length up1 = n;
  mid_low : ∀ v p, d1 !! v = Some p → 0 < p.1 → 1 ≤ p.2;
  mid_head : ∀ p, d1 !! HEAD = Some p → 0 < p.1 → p.1 = 1;
  mid_mono : ∀ w, visited (dfs st) w → visited d1 w;
  mid_reach : ∀ v, visited d1 v → reachable g bad v;
  mid_marked :
    ∀ v, up1 !! v = Some true → visited d1 v ∧ reachable g bad TAIL;
  mid_acc_nodup : NoDup ac1;
  mid_acc : ∀ w, w ∈ ac1 → visited d1 w;
  mid_acc_ok : acc_ok below ac1;
  mid_passed : passed d1 (fv fm) i1;
  mid_index : i1 ≤ length (adj g (fv fm));
  mid_best : 1 ≤ best1;
  mid_here : visited d1 (fv fm);
  mid_count : count st = S (visited_count d1);
  mid_closed :
    ∀ v, visited d1 v →
         v = fv fm ∨ (∃ f, f ∈ below ∧ fv f = v) ∨ closed d1 v
}.

(** What bounds the number of turns the loop still takes. *)
Definition turns_left (st : search) : nat :=
  2 * (S n - count st) + length (stk st).

End TraverseInvariant.

(** A boolean test for [closed_before_tail] on a concrete graph. *)
Definition closed_before_tailb (g : adjacency) (bad : list bool)
    (S : nat → bool) : bool :=
  S HEAD &&
  forallb (λ u, implb (S u)
                  (forallb (λ p : nat * nat,
                              (p.1 =? TAIL) || S p.1 ||
                              negb (bool_decide (bad !! p.2 = Some false)))
                           (adj g u)))
          (seq 0 (length g)).

(** A boolean test for [well_formed]. *)
Definition well_formedb (g : adjacency) (bad : list bool) (n : nat) : bool :=
  (0 <? n) && (length g =? n) &&
  forallb (forallb (λ p : nat * nat, (p.1 <? n) && (p.2 <? length bad))) g.

(** The graph built from [doc_pair] with starting point A:
    HEAD, TAIL, A, B; edge 0 is E1, edge 1 the dummy edge. *)
Definition graph_pair : adjacency :=
  [[(2, 1)]; [(3, 1)]; [(3, 0); (0, 1)]; [(2, 0); (1, 1)]].

(** The graph built from [doc_pair] without starting points. *)
Definition graph_unstarted : adjacency :=
  [[]; [(3, 1)]; [(3, 0)]; [(2, 0); (1, 1)]].

(** The graph built from [doc_detached] with starting point A:
    HEAD, TAIL, A, C, B, D; edges E1, E2 and the dummy edge 2. *)
Definition graph_detached : adjacency :=
  [[(2, 2)]; [(2, 2); (4, 2)]; [(3, 0); (1, 2); (0, 2)]; [(2, 0)];
   [(5, 1); (1, 2)]; [(4, 1)]].

(** The parts of the tables that [main] goes on to use. *)
Definition built (t : tables)
  : adjacency * list bool * nat * list text * list text :=
  (graph t, badedge t, nodes t, name t, edgename t).

(** *** The designations of the default build *)

(** The states of the default build after the rows, with the identifiers
    designated so far as starting points ([hs]) and as controllers ([ts]). *)
Inductive wired_by : list text → list text → tables → Prop :=
  | wb_dummy t : rows_phase t → wired_by [] [] (add_dummy t)
  | wb_controller hs ts t id t' :
      wired_by hs ts t → terminated id → add_controller id t = Some t' →
      wired_by hs (ts ++ [id]) t'
  | wb_start hs ts t id t' :
      wired_by hs ts t → terminated id → designate HEAD id t = Some t' →
      wired_by (hs ++ [id]) ts t'.

(** What the identifier tables say about the vectors, in every state of the
    constructor. *)
Record indexed (t : tables) : Prop := Indexed {
  ix_vertex : ∀ id v, idx t !! id = Some v → name t !! v = Some id;
  ix_cover :
    ∀ v, 2 ≤ v < nodes t →
         (∃ id, idx t !! id = Some v) ∨
         (∃ id e, edgeidx t !! id = Some e ∧ v ∈ substitutes t e ∧
                  name t !! v = Some id);
  ix_edges : ∀ e, e < edges t → ∃ id, edgeidx t !! id = Some e;
  ix_edge_inj :
    ∀ id id' e, edgeidx t !! id = Some e → edgeidx t !! id' = Some e →
                id = id';
  ix_rows :
    ∀ e segs a b, edgenodes t !! e = Some segs → (a, b) ∈ segs →
                  2 ≤ a ∧ 2 ≤ b ∧ (b, e) ∈ adj (graph t) a ∧
                  (a, e) ∈ adj (graph t) b;
  ix_deleted : ∀ e, badedge t !! e = Some true ↔ is_Some (edgevtx t !! e)
}.

(** The sentinel [s] is wired to exactly the vertices the identifiers [ids]
    stand for. *)
Record wired_to (s : nat) (ids : list text) (t : tables) : Prop := WiredTo {
  wt_only :
    ∀ u e, (u, e) ∈ adj (graph t) s →
           e = edges t ∧ 2 ≤ u ∧ ∃ id, id ∈ ids ∧ name t !! u = Some id;
  wt_vertex :
    ∀ id v, id ∈ ids → idx t !! id = Some v →
            (v, edges t) ∈ adj (graph t) s;
  wt_edge :
    ∀ id e v, id ∈ ids → edgeidx t !! id = Some e → v ∈ substitutes t e →
              (v, edges t) ∈ adj (graph t) s
}.

(** What reduction 1 has done in a state of the default build, [D] holding
    of the identifiers designated so far. *)
Record exploded (D : text → Prop) (t : tables) : Prop := Exploded {
  ex_edgename : ∀ id e, edgeidx t !! id = Some e → edgename t !! e = Some id;
  ex_entries :
    ∀ v u e, (u, e) ∈ adj (graph t) v → e < edges t →
             ∃ segs, edgenodes t !! e = Some segs ∧
                     ((v, u) ∈ segs ∨ (u, v) ∈ segs);
  ex_deleted :
    ∀ e, badedge t !! e = Some true ↔
         ∃ id, D id ∧ edgeidx t !! id = Some e;
  ex_subst :
    ∀ e vs segs, edgevtx t !! e = Some vs → edgenodes t !! e = Some segs →
      length vs = length segs ∧
      ∀ i s p, vs !! i = Some s → segs !! i = Some p →
               (p.1, edges t) ∈ adj (graph t) s ∧
               (p.2, edges t) ∈ adj (graph t) s;
  ex_named :
    ∀ id e v, edgeidx t !! id = Some e → v ∈ substitutes t e →
              name t !! v = Some id
}.

(** What reductions 1 and 2 have done in a state of the default build. *)
Record reduced (hs ts : list text) (t : tables) : Prop := Reduced {
  rd_exploded : exploded (λ id, id ∈ hs ++ ts) t;
  rd_head : wired_to HEAD hs t;
  rd_tail : wired_to TAIL ts t
}.

(** The six adjacency entries reduction 1 adds for segment [p], the new
    vertex being [src]. *)
Definition segment_entry (s src : nat) (p : nat * nat) (m : nat)
    (w : nat) (x : nat * nat) : Prop :=
  (w = s ∧ x = (src, m)) ∨ (w = src ∧ x = (s, m)) ∨
  (w = src ∧ x = (p.1, m)) ∨ (w = p.1 ∧ x = (src, m)) ∨
  (w = src ∧ x = (p.2, m)) ∨ (w = p.2 ∧ x = (src, m)).

(** The adjacency entries a designation of [id] with sentinel [s] adds. *)
Definition designated_entry (s : nat) (id : text) (t : tables)
    (w : nat) (x : nat * nat) : Prop :=
  (∃ v, idx t !! id = Some v ∧
        ((w = s ∧ x = (v, edges t)) ∨ (w = v ∧ x = (s, edges t)))) ∨
  (∃ e v, edgeidx t !! id = Some e ∧ badedge t !! e = Some true ∧
          v ∈ substitutes t e ∧
          ((w = s ∧ x = (v, edges t)) ∨ (w = v ∧ x = (s, edges t)))) ∨
  (∃ e segs i p, edgeidx t !! id = Some e ∧ badedge t !! e = Some false ∧
                 edgenodes t !! e = Some segs ∧ segs !! i = Some p ∧
                 segment_entry s (nodes t + i) p (edges t) w x).

(** The rows of the default build, before the dummy edge. *)
Record rows_only (t : tables) : Prop := RowsOnly {
  ro_edgename : ∀ id e, edgeidx t !! id = Some e → edgename t !! e = Some id;
  ro_entries :
    ∀ v u e, (u, e) ∈ adj (graph t) v →
             e < edges t ∧
             ∃ segs, edgenodes t !! e = Some segs ∧
                     ((v, u) ∈ segs ∨ (u, v) ∈ segs);
  ro_badedge : ∀ e, badedge t !! e ≠ Some true;
  ro_edgevtx : edgevtx t = ∅;
  ro_controllers : controllers t = 0;
  ro_edgenames : length (edgename t) = edges t;
  ro_badedges : length (badedge t) = edges t
}.

(** *** Vocabulary for the emitter *)

Section EmitVocabulary.
Variable g : adjacency.
Variable names edgenames : list text.
Variable up : list bool.

(** A vertex the emitter may stand on: HEAD, or a vertex marked upstream. *)
Definition emitted_vertex (v : nat) : Prop := v = HEAD ∨ up !! v = Some true.

(** A piece the emitter may write: the name of such a vertex, or the name
    of an edge from such a vertex to a vertex marked upstream of larger
    index. *)
Definition emitted_piece (s : text) : Prop :=
  (∃ v, emitted_vertex v ∧ names !! v = Some s) ∨
  (∃ v u e, emitted_vertex v ∧ (u, e) ∈ adj g v ∧ up !! u = Some true ∧
            v < u ∧ edgenames !! e = Some s).

(** A vertex on the emitter's stack, the graph having [n] vertices. *)
Definition stacked_vertex (n w : nat) : Prop := w < n ∧ emitted_vertex w.

End EmitVocabulary.

(** *** What the analysis needs of the tables, in either build *)

(** Every adjacency entry names an edge that has a name. *)
Definition edge_entries_named (t : tables) : Prop :=
  ∀ v u e, (u, e) ∈ adj (graph t) v → e < length (edgename t).

(** The index [edges] is free for the dummy edge, or no identifier is known
    yet. *)
Definition dummy_ready (t : tables) : Prop :=
  edges t < length (edgename t) ∨ (idx t = ∅ ∧ edgeidx t = ∅).

(** Every edge name is empty or a known edge identifier. *)
Definition edgenames_known (t : tables) : Prop :=
  ∀ e s, edgename t !! e = Some s → s = [] ∨ is_Some (edgeidx t !! s).

(** HEAD has no neighbour: no starting point has been wired yet. *)
Definition head_free (t : tables) : Prop :=
  ∀ u e, (u, e) ∉ adj (graph t) HEAD.

(** *** What the emitter covers *)

(** The vertices the emitter gets to: HEAD, and from a vertex it got to,
    every neighbour that is marked upstream (deleted edges included). *)
Inductive emitter_reaches (g : adjacency) (up : list bool) : nat → Prop :=
  | er_head : emitter_reaches g up HEAD
  | er_step u v e :
      emitter_reaches g up u → (v, e) ∈ adj g u → up !! v = Some true →
      emitter_reaches g up v.

(** [dfs[v].first] is zero: the emitter has taken [v] up, or the traversal
    never visited it. *)
Definition zeroed (d : list (nat * nat)) (v : nat) : Prop :=
  ∃ x, d !! v = Some (0, x).

(** The name at index [i] of [l] has been written. *)
Definition written (l out : list text) (i : nat) : Prop :=
  ∃ s, l !! i = Some s ∧ s ∈ out.

(** The emitter is done with [v]: each neighbour marked upstream has been
    taken up, and the edge to it written if the neighbour has the larger
    index. *)
Definition settled (g : adjacency) (edgenames : list text) (up : list bool)
    (d : list (nat * nat)) (out : list text) (v : nat) : Prop :=
  ∀ u e, (u, e) ∈ adj g v → up !! u = Some true →
         zeroed d u ∧ (v < u → written edgenames out e).

(** The state of the emitter loop: the stacked vertices have been taken up,
    and every vertex taken up is on the stack or settled and written. *)
Definition covering (g : adjacency) (names edgenames : list text)
    (up : list bool) (d : list (nat * nat)) (stack : list nat)
    (out : list text) : Prop :=
  (∀ v, v ∈ stack → zeroed d v ∧ (v = HEAD ∨ up !! v = Some true)) ∧
  zeroed d HEAD ∧
  (∀ v, (v = HEAD ∨ up !! v = Some true) → zeroed d v →
        v ∈ stack ∨ (settled g edgenames up d out v ∧ written names out v)) ∧
  (∀ v, up !! v = Some true → v ≠ HEAD → zeroed d v → written names out v).

(** *** Texts the scanners pass over *)

(** A character that neither opens or closes a string nor moves a depth
    counter. *)
Definition plain_char (c : ascii) : Prop := c ≠ quote ∧ ¬ structural c.

(** Text without depth: plain characters and whole strings. *)
Inductive passive : text → Prop :=
  | passive_nil : passive []
  | passive_char c w : plain_char c → passive w → passive (c :: w)
  | passive_string s w :
      quote ∉ s → passive w → passive (quote :: s ++ quote :: w).

(** Text balanced in braces: plain characters, brackets, whole strings and
    whole objects. *)
Inductive braced : text → Prop :=
  | braced_nil : braced []
  | braced_char c w :
      c ≠ quote → c ≠ lbrace → c ≠ rbrace → braced w → braced (c :: w)
  | braced_string s w :
      quote ∉ s → braced w → braced (quote :: s ++ quote :: w)
  | braced_object o w :
      braced o → braced w → braced (lbrace :: o ++ rbrace :: w).

(** Text balanced in brackets, likewise. *)
Inductive bracketed : text → Prop :=
  | bracketed_nil : bracketed []
  | bracketed_char c w :
      c ≠ quote → c ≠ lbracket → c ≠ rbracket → bracketed w →
      bracketed (c :: w)
  | bracketed_string s w :
      quote ∉ s → bracketed w → bracketed (quote :: s ++ quote :: w)
  | bracketed_list o w :
      bracketed o → bracketed w → bracketed (lbracket :: o ++ rbracket :: w).

(** The common shape of the loops of [json_fast.h]: read while [cond]
    holds. *)
Fixpoint read_while (cond : scanner → bool) (fuel : nat) (sc : scanner)
  : option scanner :=
  if cond sc then
    match fuel with
    | 0 => None
    | S f => read_while cond f (readc sc).2
    end
  else Some sc.

(** A loop condition that looks at the depth counters only. *)
Definition depth_only (cond : scanner → bool) : Prop :=
  ∀ sc1 sc2, braces sc1 = braces sc2 → brackets sc1 = brackets sc2 →
             cond sc1 = cond sc2.

(** *** Documents in the order the default build expects *)

(** A row of the document: the three identifiers as they stand between the
    double quotes. *)
Record row := Row { row_via : text; row_from : text; row_to : text }.

(** White space of a JSON text. *)
Definition blank (c : ascii) : Prop :=
  c = " "%char ∨ c = "009"%char ∨ c = newline ∨ c = "013"%char.

Section Documents.
Variable ws : text.   (* the white space put between two tokens *)

Definition string_text (s : text) : text := quote :: s ++ [quote].

Definition member (key : string) (value : text) : text :=
  ws ++ quoted key ++ ws ++ ":"%char :: ws ++ value ++ ws.

Definition row_text (r : row) : text :=
  lbrace :: member "viaGlobalId" (string_text (row_via r)) ++
  ","%char :: member "fromGlobalId" (string_text (row_from r)) ++
  ","%char :: member "toGlobalId" (string_text (row_to r)) ++ [rbrace].

Definition controller_text (c : text) : text :=
  lbrace :: member "globalId" (string_text c) ++ [rbrace].

(** The elements of a list after the first, each behind its comma. *)
Fixpoint more (items : list text) : text :=
  match items with
  | [] => []
  | x :: items' => ","%char :: ws ++ x ++ ws ++ more items'
  end.

(** The elements of a list, separated by commas. *)
Definition elements (items : list text) : text :=
  match items with
  | [] => ws
  | x :: items' => ws ++ x ++ ws ++ more items'
  end.

Definition list_text (items : list text) : text :=
  lbracket :: elements items ++ [rbracket].

Definition document (rows : list row) (ctrls : list text) : text :=
  ws ++ lbrace :: member "rows" (list_text (map row_text rows)) ++
  ","%char :: member "controllers" (list_text (map controller_text ctrls)) ++
  rbrace :: ws.

End Documents.

(** An identifier as [extract_string] hands it to the constructor. *)
Definition stored (s : text) : text := s ++ [newline].

(** A step that can fail applied to the elements of a list, in order. *)
Fixpoint fold_items {A U : Type} (act : A → U → option U)
    (items : list A) (t : U) : option U :=
  match items with
  | [] => Some t
  | a :: items' => t' ← act a t; fold_items act items' t'
  end.

Definition row_act (r : row) : tables → option tables :=
  add_row (stored (row_via r)) (stored (row_from r)) (stored (row_to r)).

Definition controller_act (c : text) : tables → option tables :=
  add_controller (stored c).

(** The tables of a document with the rows [rows] and the controllers
    [ctrls]: all rows, the dummy edge, all controllers. *)
Definition build (rows : list row) (ctrls : list text) : option tables :=
  t ← fold_items row_act rows init_tables;
  fold_items controller_act ctrls (add_dummy t).

(** The identifiers of a row hold no double quote. *)
Definition row_ok (r : row) : Prop :=
  (quote ∉ row_via r) ∧ (quote ∉ row_from r) ∧ (quote ∉ row_to r).

(** Lengths and equalities of texts built with [++]. *)
Ltac text_len :=
  repeat (rewrite ?length_app; cbn [length]); lia.

Ltac text_eq :=
  repeat (rewrite <-?(assoc_L (++)); cbn [app]); reflexivity.

(** *** The matcher of [scan_field] on quoted words *)

(** A letter of a key. *)
Definition letter (c : ascii) : bool :=
  let n := nat_of_ascii c in
  (65 <=? n) && (n <=? 90) || (97 <=? n) && (n <=? 122).

(** A key: a word of letters between double quotes. *)
Definition key_of (body : text) : text := quote :: body ++ [quote].

(** A character that moves no depth and matches no key. *)
Definition idle (c : ascii) : Prop :=
  plain_char c ∧ letter c = false ∧ c ≠ NUL.

(** Match positions within the keys. *)
Definition valid_pos (bodies : list text) (pos : list nat) : Prop :=
  Forall2 (λ b p, p ≤ length b + 2) bodies pos.

(** The members of an object after the first, each behind its comma. *)
Fixpoint after (ms : list text) : text :=
  match ms with
  | [] => []
  | m :: ms' => ","%char :: m ++ after ms'
  end.

(** The members of an object, separated by commas. *)
Definition fields (gap : text) (ms : list text) : text :=
  match ms with
  | [] => gap
  | m :: ms' => m ++ after ms'
  end.

(** The match position of the key of [body] once the opening quote and the
    first [m] letters of the key of [word] have been read. *)
Definition track (word : text) (m : nat) (body : text) : nat :=
  if bool_decide (take m word `prefix_of` body) then S m else 0.

(** The match position once the closing quote of the key of [word] has been
    read. *)
Definition matched (word body : text) : nat :=
  if bool_decide (body = word) then length word + 2
  else if bool_decide (word `prefix_of` body) then 0 else 1.

(** The state of a scan of an object entered at the depths [bl], [bkl]. *)
Abbreviation inside bl bkl w s := (Scanner w (bl + 1)%Z bkl s).

(** The keys of the words [bodies], and the positions before any match. *)
Abbreviation keys_of bodies := (map key_of bodies).
Abbreviation zeros bodies := (replicate (length bodies) 0).

(** The loop of [scan_field] over the keys of [bodies]. *)
Abbreviation scan_from action bodies bl bkl f pos st :=
  (Robust.scan_keys f action (map key_of bodies) bl bkl pos st).

(** The text of a member: its key, what the handler takes, white space. *)
Abbreviation member_of bodies ix payload gap :=
  (λ m, gap ++ key_of (default [] (bodies !! ix m)) ++ payload m ++ gap).

(** *** Documents as the ROBUST build reads them *)

Definition row_words : list text :=
  [lit "viaGlobalId"; lit "fromGlobalId"; lit "toGlobalId"].
Definition controller_words : list text := [lit "globalId"].
Definition top_words : list text := [lit "rows"; lit "controllers"].

(** A member of a row or of a controller: the index of its key among the
    keys of the scan, and the string that is its value. *)
Definition entry : Type := nat * text.

(** A member of the document: a list of rows or a list of controllers, each
    an object with members in any order. *)
Inductive part :=
  | Rows (rs : list (list entry))
  | Controllers (cs : list (list entry)).

Section RobustText.
Variable ws : text.

Definition value_text (value : text) : text :=
  ws ++ ":"%char :: ws ++ value.

Definition entry_text (words : list text) (e : entry) : text :=
  ws ++ key_of (default [] (words !! e.1))
     ++ value_text (string_text e.2) ++ ws.

Definition object_text (ms : list text) : text :=
  lbrace :: fields ws ms ++ [rbrace].

Definition record_text (words : list text) (es : list entry) : text :=
  object_text (map (entry_text words) es).

Definition part_index (p : part) : nat :=
  match p with Rows _ => 0 | Controllers _ => 1 end.

Definition part_value (p : part) : text :=
  match p with
  | Rows rs => value_text (list_text ws (map (record_text row_words) rs))
  | Controllers cs =>
      value_text (list_text ws (map (record_text controller_words) cs))
  end.

Definition part_text (p : part) : text :=
  ws ++ key_of (default [] (top_words !! part_index p)) ++ part_value p ++ ws.

Definition robust_document (ps : list part) : text :=
  ws ++ object_text (map part_text ps) ++ ws.

End RobustText.

(** What the handler of a row does with a member. *)
Definition assign (e : entry) (vars : RobustBuild.row_vars)
  : RobustBuild.row_vars :=
  let '(edge, source, target) := vars in
  match e.1 with
  | 0 => (stored e.2, source, target)
  | 1 => (edge, stored e.2, target)
  | 2 => (edge, source, stored e.2)
  | _ => vars
  end.

(** The constructor's work for a row with the members [es]. *)
Definition row_entries_act (es : list entry) (t : tables) : option tables :=
  let '(edge, source, target) := foldl (λ v e, assign e v) ([], [], []) es in
  add_row edge source target t.

(** ... and for a controller with the members [es]. *)
Definition controller_entries_act (es : list entry) (t : tables)
  : option tables :=
  add_controller (foldl (λ _ e, stored e.2) [] es) t.

Definition part_act (p : part) (t : tables) : option tables :=
  match p with
  | Rows rs => t' ← fold_items row_entries_act rs t; Some (add_dummy t')
  | Controllers cs => fold_items controller_entries_act cs t
  end.

(** A member that names one of the keys [words] and whose value holds no
    double quote. *)
Definition entry_ok (words : list text) (e : entry) : Prop :=
  e.1 < length words ∧ quote ∉ e.2.

Definition part_ok (p : part) : Prop :=
  match p with
  | Rows rs => Forall (Forall (entry_ok row_words)) rs
  | Controllers cs => Forall (Forall (entry_ok controller_words)) cs
  end.

(** The members of a row of the default build's documents. *)
Definition row_entries (r : row) : list entry :=
  [(0, row_via r); (1, row_from r); (2, row_to r)].

(** *** Documents with members the ROBUST build passes over *)

(** Text balanced in braces, brackets and double quotes: a JSON value, or
    several with what stands between them. *)
Inductive balanced : text → Prop :=
  | bal_nil : balanced []
  | bal_char c w : plain_char c → balanced w → balanced (c :: w)
  | bal_string s w : quote ∉ s → balanced w → balanced (quote :: s ++ quote ::
      w)
  | bal_object o w :
      balanced o → balanced w → balanced (lbrace :: o ++ rbrace :: w)
  | bal_list o w :
      balanced o → balanced w → balanced (lbracket :: o ++ rbracket :: w).

Section Grammar.
Context {M : Type}.
Variable words : list text.
Variable payload : nat → text → M → Prop.

(** [members z w ms]: the text [w], between the braces of an object, holds
    the members [ms] under keys of [words], in this order, and besides them
    only what the scan passes over: characters outside strings, strings that
    are no key, nested objects and lists.  [payload i p m] says that [p] is
    what the handler of key [i] takes for the member [m].  The flag [z] is
    false directly behind a string or a payload, where the next character can
    only be one that matches no key, or an opening brace or bracket. *)
Inductive members : bool → text → list M → Prop :=
  | mb_end z : members z [] []
  | mb_idle z c w ms : idle c → members true w ms → members z (c :: w) ms
  | mb_plain c w ms :
      plain_char c → members true w ms → members true (c :: w) ms
  | mb_string s w ms :
      quote ∉ s → s ∉ words → members false w ms →
      members true (quote :: s ++ quote :: w) ms
  | mb_object z o w ms :
      balanced o → members true w ms →
      members z (lbrace :: o ++ rbrace :: w) ms
  | mb_list z o w ms :
      balanced o → members true w ms →
      members z (lbracket :: o ++ rbracket :: w) ms
  | mb_key i word p m w ms :
      words !! i = Some word → payload i p m → members false w ms →
      members true (key_of word ++ p ++ w) (m :: ms).

End Grammar.

(** [items obj w l]: the text [w], between the brackets of a list, holds the
    objects [l], each between its braces, with plain characters around
    them. *)
Inductive items {A : Type} (obj : text → A → Prop) : text → list A → Prop :=
  | it_end g : Forall plain_char g → items obj g []
  | it_object g o a w l :
      Forall plain_char g → obj o a → items obj w l →
      items obj (g ++ lbrace :: o ++ rbrace :: w) (a :: l).

(** What the handler of a row or of a controller takes for the member [e]:
    plain characters, then the value between its double quotes. *)
Definition string_payload (n i : nat) (p : text) (e : entry) : Prop :=
  i < n ∧ e.1 = i ∧ (quote ∉ e.2) ∧
  ∃ g, Forall plain_char g ∧ p = g ++ quote :: e.2 ++ [quote].

(** What the handler of "rows" and of "controllers" takes: plain characters,
    then the list between its brackets. *)
Definition list_payload (i : nat) (p : text) (x : part) : Prop :=
  ∃ g l, Forall plain_char g ∧ p = g ++ lbracket :: l ++ [rbracket] ∧
    match x with
    | Rows rs =>
        i = 0 ∧ items (members row_words (string_payload 3) true) l rs
    | Controllers cs =>
        i = 1 ∧
        items (members controller_words (string_payload 1) true) l cs
    end.

(** A document of the ROBUST build: an object with lists under "rows" and
    "controllers" among whatever else. *)
Definition robust_text (w : text) (ps : list part) : Prop :=
  ∃ g body rest,
    Forall plain_char g ∧ members top_words list_payload true body ps ∧
    w = g ++ lbrace :: body ++ rbrace :: rest.

(** A position of the scanner at which every character is passed over:
    inside a nested object, or inside a list. *)
Definition deep (bl bkl b k : Z) : Prop :=
  (bl + 1 ≤ b)%Z ∧ ((bl + 2 ≤ b)%Z ∨ (bkl + 1 ≤ k)%Z).

(** A document with members of other keys, as the data sets have them. *)
Definition doc_mixed : text :=
  json "{'type':'x','rows':[{'viaNetworkSourceId':14,'viaGlobalId':'E1','viaGeometry':{'p':[1,2]},'fromGlobalId':'A','toGlobalId':'B'}],'controllers':[{'networkSourceId':4,'globalId':'B'}]}".

(** Evaluates the text of a goal of the grammar. *)
Ltac eval_text :=
  match goal with
  | |- members ?W ?P ?z ?t ?ms =>
      let t' := eval vm_compute in t in change (members W P z t' ms)
  | |- items ?O ?t ?l =>
      let t' := eval vm_compute in t in change (items O t' l)
  | |- balanced ?t =>
      let t' := eval vm_compute in t in change (balanced t')
  end.

(** Side conditions of the grammar on given characters and texts. *)
Ltac plain_solved := split; [done|intros [?|[?|[?|?]]]; done].
Ltac idle_solved := split; [plain_solved|split; done].
Ltac string_payload_solved :=
  split; [lia|split; [done|split; [evaluated|]]];
  exists [":"%char]; split; [constructor; [plain_solved|constructor]|];
  vm_compute; reflexivity.

(** *** Documents with members the default build passes over *)

(** The text [w] holds the key. *)
Definition occurs (key w : text) : Prop := ∃ pre post, w = pre ++ key ++ post.

(** The same as a test. *)
Definition occursb (key w : text) : bool :=
  existsb (λ i, bool_decide (take (length key) (drop i w) = key))
    (seq 0 (S (length w))).

(** What [read_to_key] reads before it finds its key: balanced text that
    does not hold the key and does not end with a character of the key. *)
Definition skipped (key w : text) : Prop :=
  balanced w ∧ ¬ occurs key w ∧ ∀ c, last w = Some c → c ∉ key.

(** The matcher of [read_to_key] has matched the first [m] characters of
    the key at the end of the text [t] read so far. *)
Definition matching (key t : text) (m : nat) : Prop :=
  m ≤ length key ∧ take m key `suffix_of` t.

(** The text up to the value [v] of the key: what is passed over, the key,
    plain characters, and the value between its double quotes. *)
Definition sought (key : string) (v w : text) : Prop :=
  ∃ s g, skipped (quoted key) s ∧ Forall plain_char g ∧ (quote ∉ v) ∧
         w = s ++ quoted key ++ g ++ quote :: v ++ [quote].

(** A row of the default build, between its braces: the three keys in their
    order, with anything balanced that does not hold the key sought before
    each of them, and anything balanced behind the last value. *)
Definition ordered_row (o : text) (r : row) : Prop :=
  ∃ w1 w2 w3 w4,
    sought "viaGlobalId" (row_via r) w1 ∧
    sought "fromGlobalId" (row_from r) w2 ∧
    sought "toGlobalId" (row_to r) w3 ∧ balanced w4 ∧
    o = w1 ++ w2 ++ w3 ++ w4.

Definition ordered_controller (o : text) (c : text) : Prop :=
  ∃ w1 w4, sought "globalId" c w1 ∧ balanced w4 ∧ o = w1 ++ w4.

(** A document of the default build: the list of rows, then the list of
    controllers, among whatever else. *)
Definition ordered_text (w : text) (rows : list row) (ctrls : list text)
  : Prop :=
  ∃ g s1 g1 l1 s2 g2 l2 w3 rest,
    Forall plain_char g ∧
    skipped (quoted "rows") s1 ∧ Forall plain_char g1 ∧
    items ordered_row l1 rows ∧
    skipped (quoted "controllers") s2 ∧ Forall plain_char g2 ∧
    items ordered_controller l2 ctrls ∧ balanced w3 ∧
    w = g ++ lbrace :: s1 ++ quoted "rows" ++ g1 ++ lbracket :: l1
          ++ rbracket :: s2 ++ quoted "controllers" ++ g2 ++ lbracket :: l2
          ++ rbracket :: w3 ++ rbrace :: rest.

(** Side conditions of [skipped] on given texts. *)
Ltac last_solved :=
  let c := fresh in
  let H := fresh in
  intros c H; vm_compute in H;
  first [discriminate H | injection H as <-; evaluated].

(** *** More sample inputs *)

(** One row of the edge E\1 between A and B, no controller. *)
Definition doc_backslash : text :=
  json "{'rows':[{'viaGlobalId':'E\1','fromGlobalId':'A','toGlobalId':'B'}],'controllers':[]}".

(** The tables after the parse of [doc_backslash] (the empty tables if the
    parse did not return). *)
Definition tables_backslash : tables :=
  default init_tables (FastBuild.parse 150 doc_backslash).

(** A document in which the characters of the key "controllers" are split
    by the list of the rows: its opening double quote is the one that closes
    "rows". *)
Definition doc_split_key : text :=
  json "{'rows':[]controllers' '[{'globalId':'B'}]}".

(** *** The identifiers of a row *)

(** The identifier the members [es] of a row give for key [i]: the value of
    the last member with that key, with the newline appended, or the empty
    string when no member has the key. *)
Definition value_of (i : nat) (es : list entry) : text :=
  match last (filter (λ e : entry, e.1 = i) es) with
  | Some e => stored e.2
  | None => []
  end.

(** *** The matcher of [scan_field], as the specification describes it *)

(** One key with [p] of its characters matched: the next character compared
    continues the match, or else the match starts over, and the character is
    not looked at again. *)
Definition advance (k : text) (p : nat) (c : ascii) : nat :=
  if decide (k !! p = Some c) then S p else 0.

(** How many characters of the key are matched once the text [w] has been
    compared, nothing being matched at its start. *)
Definition matched_length (k w : text) : nat := foldl (advance k) 0 w.

(** The character [c], compared behind the text [w], completes the key: all
    characters before its last are matched and [c] is the last. *)
Definition completes (k w : text) (c : ascii) : Prop :=
  k !! matched_length k w = Some c ∧ S (matched_length k w) = length k.

#[global] Instance completes_dec k w c : Decision (completes k w c).
Proof. unfold completes. apply _. Defined.

(** The indices, counted from [i], of the keys that [c] completes, in the
    order of the keys. *)
Fixpoint completed_from (i : nat) (keys : list text) (w : text) (c : ascii)
  : list nat :=
  match keys with
  | [] => []
  | k :: keys' =>
      if decide (completes k w c) then i :: completed_from (S i) keys' w c
      else completed_from (S i) keys' w c
  end.

Definition completed (keys : list text) (w : text) (c : ascii) : list nat :=
  completed_from 0 keys w c.

(** The comparison would read behind the terminator of a key: a key is
    matched to its end and the next character compared is the terminator
    itself. *)
Definition overrun (keys : list text) (w : text) (c : ascii) : Prop :=
  c = NUL ∧ ∃ k, k ∈ keys ∧ matched_length k w = length k.

Section Scans.
Context {U : Type} (action : Robust.handler U) (keys : list text).
Context (bl bkl : Z).

(** The handlers of the keys [ixs], one after the other. *)
Fixpoint call_all (ixs : list nat) (st : scanner * U)
  : option (scanner * U) :=
  match ixs with
  | [] => Some st
  | i :: ixs' => st' ← action i st; call_all ixs' st'
  end.

(** [scans n w st st']: the scan of a field entered at the depths [bl] and
    [bkl], in the state [st] and with the text [w] compared so far, reads [n]
    more characters itself and ends in the state [st'].  A character read
    inside a nested object or list is passed over; any other is compared, and
    the handlers of the keys it completes are called, in the order of the
    keys, each on the state its predecessor left; the scan goes on from the
    state the last of them left. *)
Inductive scans : nat → text → scanner * U → scanner * U → Prop :=
  | scans_leave w st : (braces st.1 ≤ bl)%Z → scans 0 w st st
  | scans_pass n w sc u st' :
      (bl < braces sc)%Z →
      (bl + 1 < braces (readc sc).2 ∨ bkl < brackets (readc sc).2)%Z →
      scans n w ((readc sc).2, u) st' →
      scans (S n) w (sc, u) st'
  | scans_compare n w sc u st1 st' :
      (bl < braces sc)%Z →
      (braces (readc sc).2 ≤ bl + 1)%Z → (brackets (readc sc).2 ≤ bkl)%Z →
      ¬ overrun keys w (readc sc).1 →
      call_all (completed keys w (readc sc).1) ((readc sc).2, u) = Some st1 →
      scans n (w ++ [(readc sc).1]) st1 st' →
      scans (S n) w (sc, u) st'.

End Scans.

(** * Adjacency updates *)

Lemma adj_grow (g : adjacency) u : adj (g ++ [[]]) u = adj g u.
Proof.
  unfold adj. destruct (decide (u < length g)) as [Hlt|Hge].
  - by rewrite lookup_app_l.
  - rewrite lookup_app_r by lia. rewrite (lookup_ge_None_2 g u) by lia.
    by destruct (u - length g).
Qed.

Lemma link_spec u p (g g' : adjacency) :
  link u p g = Some g' →
  u < length g ∧ length g' = length g ∧
  ∀ w, adj g' w = adj g w ++ (if decide (w = u) then [p] else []).
Proof.
  unfold link. intros H.
  destruct (g !! u) as [l|] eqn:Hl; simplify_eq/=.
  apply lookup_lt_Some in Hl as Hlt. split; [done|].
  split; [by rewrite length_insert|].
  intros w. unfold adj. case_decide as Hw.
  - subst w. rewrite list_lookup_insert_eq by done. by rewrite Hl.
  - rewrite list_lookup_insert_ne by done. by rewrite app_nil_r.
Qed.

Lemma link2_spec u v e (g g' : adjacency) :
  link2 u v e g = Some g' →
  u < length g ∧ v < length g ∧ length g' = length g ∧
  ∀ w, adj g' w = adj g w ++ (if decide (w = u) then [(v, e)] else [])
                         ++ (if decide (w = v) then [(u, e)] else []).
Proof.
  unfold link2. intros H.
  destruct (link u (v, e) g) as [g1|] eqn:H1; simplify_eq/=.
  apply link_spec in H1 as (Hu & Hlen1 & Hadj1).
  apply link_spec in H as (Hv & Hlen2 & Hadj2).
  repeat split; [done|lia|lia|].
  intros w. by rewrite Hadj2, Hadj1, <-(assoc_L (++)).
Qed.

Lemma occurrences_app p l1 l2 :
  occurrences p (l1 ++ l2) = occurrences p l1 + occurrences p l2.
Proof. unfold occurrences. by rewrite filter_app, length_app. Qed.

Lemma mirrored_grow g : mirrored g → mirrored (g ++ [[]]).
Proof. intros H u v e. rewrite !adj_grow. apply H. Qed.

Lemma mirrored_link2 a b x g g' :
  mirrored g → link2 a b x g = Some g' → mirrored g'.
Proof.
  intros Hm (_ & _ & _ & Hadj)%link2_spec u v e.
  rewrite !Hadj, !occurrences_app, (Hm u v e).
  unfold occurrences.
  repeat case_decide; simplify_eq/=; rewrite ?filter_cons, ?filter_nil;
    repeat case_decide; simplify_eq/=; lia.
Qed.

Lemma mirrored_init : mirrored (graph init_tables).
Proof. intros u v e. unfold adj. simpl. by destruct u as [|[|u]], v as [|[|v]]. Qed.
Lemma entries_grow g n m :
  entries_below g n m → entries_below (g ++ [[]]) (S n) m.
Proof. intros H v u e. rewrite adj_grow. intros ?%H. lia. Qed.

Lemma entries_link2 a b x g g' n m :
  entries_below g n m → link2 a b x g = Some g' → length g = n → x ≤ m →
  entries_below g' n m.
Proof.
  intros He (Ha & Hb & _ & Hadj)%link2_spec Hn Hx v u e.
  rewrite Hadj, !elem_of_app. intros [Hin|[Hin|Hin]].
  - exact (He v u e Hin).
  - case_decide; [|by apply elem_of_nil in Hin].
    apply list_elem_of_singleton in Hin. simplify_eq. lia.
  - case_decide; [|by apply elem_of_nil in Hin].
    apply list_elem_of_singleton in Hin. simplify_eq. lia.
Qed.

Lemma entries_mono g n m n' m' :
  entries_below g n m → n ≤ n' → m ≤ m' → entries_below g n' m'.
Proof. intros H ?? v u e ?%H. lia. Qed.

Section Constructor.
Context (P : text → Prop).

Lemma sound_init : sound P init_tables.
Proof.
  constructor; simpl; try done.
  - apply mirrored_init.
  - intros v u e. unfold adj. destruct v as [|[|v]]; simpl; by intros ?%elem_of_nil.
Qed.

Lemma vertex_of_sound id t v t1 :
  sound P t → P id → vertex_of id t = (v, t1) →
  sound P t1 ∧ 2 ≤ v < nodes t1 ∧ edges t1 = edges t ∧
  edgenodes t1 = edgenodes t ∧ edgeidx t1 = edgeidx t ∧
  edgename t1 = edgename t ∧ badedge t1 = badedge t.
Proof.
  intros [Hmir Hname Hgraph Htwo Hhead Htail Hidx Heidx Hen Hseg Hsub Hent Hbn Hle] HP. unfold vertex_of.
  destruct (idx t !! id) as [w|] eqn:Hid; intros; simplify_eq.
  - split; [by constructor|]. split; [|done].
    by eapply proj1, Hidx.
  - split; [|simpl; split; [lia|done]].
    constructor; simpl; try done.
    + by apply mirrored_grow.
    + rewrite length_app. simpl. lia.
    + rewrite length_app. simpl. lia.
    + lia.
    + by rewrite lookup_app_l by (rewrite Hname; unfold HEAD, TAIL; lia).
    + by rewrite lookup_app_l by (rewrite Hname; unfold HEAD, TAIL; lia).
    + intros id' v'. rewrite lookup_insert.
      case_decide; intros; simplify_eq; [split; [lia|done]|].
      destruct (Hidx id' v') as [? ?]; [done|]. split; [lia|done].
    + intros e segs p Hs Hp.
      destruct (Hseg e segs p Hs Hp). lia.
    + intros e vs w Hs Hw. destruct (Hsub e vs w Hs Hw). lia.
    + by apply entries_grow.
Qed.

Lemma edge_of_sound id t e t1 :
  sound P t → P id → edge_of id t = (e, t1) →
  sound P t1 ∧ e < edges t1 ∧ nodes t1 = nodes t ∧
  graph t1 = graph t ∧ idx t1 = idx t.
Proof.
  intros [Hmir Hname Hgraph Htwo Hhead Htail Hidx Heidx Hen Hseg Hsub Hent Hbn Hle] HP. unfold edge_of.
  destruct (edgeidx t !! id) as [w|] eqn:Hid; intros; simplify_eq.
  - split; [by constructor|]. split; [|done].
    by eapply proj1, Heidx.
  - split; [|simpl; split; [lia|done]].
    constructor; simpl; try done.
    + intros id' e'. rewrite lookup_insert.
      case_decide; intros; simplify_eq; [split; [lia|done]|].
      destruct (Heidx id' e') as [? ?]; [done|]. split; [lia|done].
    + rewrite length_app. simpl. lia.
    + intros e segs p Hs Hp.
      apply lookup_app_Some in Hs as [Hs|[_ Hs]].
      * by eapply Hseg.
      * destruct (e - length (edgenodes t)) as [|k]; simplify_eq/=.
        by apply elem_of_nil in Hp.
    + eapply entries_mono; [done|lia..].
    + rewrite !length_app. simpl. lia.
    + rewrite !length_app. simpl. lia.
Qed.

Lemma add_row_sound edge source target t t' :
  sound P t → P edge → P source → P target →
  add_row edge source target t = Some t' → sound P t'.
Proof.
  intros Ht He Hs Hg. unfold add_row.
  destruct (vertex_of source t) as [sv t1] eqn:H1.
  destruct (vertex_of target t1) as [tv t2] eqn:H2.
  destruct (edge_of edge t2) as [ev t3] eqn:H3.
  apply vertex_of_sound in H1 as (Ht1 & Hsv & _); [|done..].
  apply vertex_of_sound in H2 as (Ht2 & Htv & _); [|done..].
  apply edge_of_sound in H3 as (Ht3 & Hev & Hn3 & Hg3 & _); [|done..].
  intros H. destruct (edgenodes t3 !! ev) as [segs|] eqn:Hsegs; simplify_eq/=.
  destruct (link2 sv tv ev (graph t3)) as [g|] eqn:Hl; simplify_eq/=.
  pose proof (link2_spec _ _ _ _ _ Hl) as (Hsv' & Htv' & Hlen & _).
  destruct Ht3 as [Hmir Hname Hgraph Htwo Hhead Htail Hidx Heidx Hen Hseg Hsub Hent Hbn Hle].
  rewrite Hgraph in Hsv', Htv'.
  constructor; simpl; try done.
  - by eapply mirrored_link2.
  - by rewrite Hlen.
  - by rewrite length_insert.
  - intros e segs' p Hs' Hp.
    destruct (decide (e = ev)) as [->|Hne].
    + rewrite list_lookup_insert_eq in Hs' by (by eapply lookup_lt_Some).
      simplify_eq. apply elem_of_app in Hp as [Hp|Hp].
      * by eapply Hseg.
      * apply list_elem_of_singleton in Hp. by subst p.
    + rewrite list_lookup_insert_ne in Hs' by done.
      by eapply Hseg.
  - eapply entries_link2; [done..|lia].
Qed.

Lemma add_dummy_sound t : sound P t → sound P (add_dummy t).
Proof.
  intros [Hmir Hname Hgraph Htwo Hhead Htail Hidx Heidx Hen Hseg Hsub Hent Hbn Hle].
  constructor; simpl; try done; rewrite !length_app; simpl; lia.
Qed.

Lemma count_controller_sound t : sound P t → sound P (count_controller t).
Proof. intros [Hmir Hname Hgraph Htwo Hhead Htail Hidx Heidx Hen Hseg Hsub Hent Hbn Hle]. by constructor. Qed.

Lemma set_graph_link2_sound s v t g :
  sound P t → link2 s v (edges t) (graph t) = Some g →
  sound P (set_graph g t).
Proof.
  intros [Hmir Hname Hgraph Htwo Hhead Htail Hidx Heidx Hen Hseg Hsub Hent Hbn Hle] Hl. constructor; simpl; try done.
  - by eapply mirrored_link2.
  - by apply link2_spec in Hl as (_ & _ & -> & _).
  - by eapply entries_link2.
Qed.

Lemma wire_all_spec s e vs (g g' : adjacency) n m :
  wire_all s e vs g = Some g' →
  mirrored g → entries_below g n m → length g = n → e ≤ m →
  mirrored g' ∧ entries_below g' n m ∧ length g' = n.
Proof.
  revert g. induction vs as [|v vs IH]; intros g H Hm He Hn Hle;
    simplify_eq/=; [done|].
  destruct (link2 s v e g) as [g1|] eqn:Hl; simplify_eq/=.
  eapply IH; [done| | | |done].
  - by eapply mirrored_link2.
  - by eapply entries_link2.
  - by apply link2_spec in Hl as (_ & _ & -> & _).
Qed.

Lemma explode_segment_spec s id p t v t' :
  explode_segment s id p t = Some (v, t') →
  v = nodes t ∧ nodes t' = S (nodes t) ∧ name t' = name t ++ [id] ∧
  edgename t' = edgename t ∧ badedge t' = badedge t ∧
  edges t' = edges t ∧ controllers t' = controllers t ∧
  edgenodes t' = edgenodes t ∧ idx t' = idx t ∧ edgeidx t' = edgeidx t ∧
  edgevtx t' = edgevtx t.
Proof.
  unfold explode_segment. intros H.
  destruct (link2 s _ _ _) as [g1|]; simplify_eq/=.
  destruct (link2 _ p.1 _ _) as [g2|]; simplify_eq/=.
  destruct (link2 _ p.2 _ _) as [g3|]; simplify_eq/=. done.
Qed.

Lemma explode_segment_sound s id p t v t' :
  sound P t → explode_segment s id p t = Some (v, t') → sound P t'.
Proof.
  intros [Hmir Hname Hgraph Htwo Hhead Htail Hidx Heidx Hen Hseg Hsub Hent Hbn Hle] H.
  unfold explode_segment in H.
  destruct (link2 s _ _ _) as [g1|] eqn:H1; simplify_eq/=.
  destruct (link2 _ p.1 _ _) as [g2|] eqn:H2; simplify_eq/=.
  destruct (link2 _ p.2 _ _) as [g3|] eqn:H3; simplify_eq/=.
  assert (length (graph t ++ [[]]) = S (nodes t)) as Hlen0
    by (rewrite length_app; simpl; lia).
  pose proof (link2_spec _ _ _ _ _ H1) as (_ & _ & Hlen1 & _).
  pose proof (link2_spec _ _ _ _ _ H2) as (_ & _ & Hlen2 & _).
  pose proof (link2_spec _ _ _ _ _ H3) as (_ & _ & Hlen3 & _).
  constructor; simpl; try done.
  - do 3 (eapply mirrored_link2; [|done]). by apply mirrored_grow.
  - rewrite length_app. simpl. lia.
  - lia.
  - lia.
  - by rewrite lookup_app_l by (rewrite Hname; unfold HEAD, TAIL; lia).
  - by rewrite lookup_app_l by (rewrite Hname; unfold HEAD, TAIL; lia).
  - intros id' v' Hv'. destruct (Hidx id' v' Hv'). split; [lia|done].
  - intros e segs q Hs Hq. destruct (Hseg e segs q Hs Hq). lia.
  - intros e vs w Hs Hw. destruct (Hsub e vs w Hs Hw). lia.
  - eapply entries_link2; [|done|lia|done].
    eapply entries_link2; [|done|lia|done].
    eapply entries_link2; [|done|lia|done].
    by apply entries_grow.
Qed.

Lemma explode_spec s id segs made t made' t' :
  explode s id segs made t = Some (made', t') →
  made' = made ++ seq (nodes t) (length segs) ∧
  nodes t' = nodes t + length segs ∧
  name t' = name t ++ replicate (length segs) id ∧
  edgename t' = edgename t ∧ badedge t' = badedge t ∧
  edges t' = edges t ∧ controllers t' = controllers t ∧
  edgenodes t' = edgenodes t ∧ idx t' = idx t ∧ edgeidx t' = edgeidx t ∧
  edgevtx t' = edgevtx t.
Proof.
  revert made t. induction segs as [|p segs IH]; intros made t H;
    simplify_eq/=.
  - rewrite !app_nil_r, Nat.add_0_r. done.
  - destruct (explode_segment s id p t) as [[v t1]|] eqn:H1; simplify_eq/=.
    apply explode_segment_spec in H1
      as (-> & Hn & Hname & <- & <- & <- & <- & <- & <- & <- & <-).
    apply IH in H as (-> & -> & -> & -> & -> & -> & -> & -> & -> & -> & ->).
    rewrite Hn, Hname, <-!(assoc_L (++)). simpl.
    repeat split; try done; lia.
Qed.

Lemma explode_sound s id segs made t made' t' :
  sound P t → explode s id segs made t = Some (made', t') → sound P t'.
Proof.
  revert made t. induction segs as [|p segs IH]; intros made t Ht H;
    simplify_eq/=; [done|].
  destruct (explode_segment s id p t) as [[v t1]|] eqn:H1; simplify_eq/=.
  eapply IH; [|done]. by eapply explode_segment_sound.
Qed.

Lemma designate_sound s id t t' :
  sound P t → designate s id t = Some t' → sound P t'.
Proof.
  intros Ht. unfold designate. intros H.
  destruct (match idx t !! id with Some _ => _ | None => _ end)
    as [t1|] eqn:H1; simplify_eq/=.
  assert (sound P t1) as Ht1.
  { destruct (idx t !! id) as [v|]; simplify_eq/=; [|done].
    destruct (link2 _ _ _ _) as [g|] eqn:Hl; simplify_eq/=.
    by eapply set_graph_link2_sound. }
  clear H1 Ht.
  destruct (edgeidx t1 !! id) as [e|] eqn:He; simplify_eq/=; [|done].
  destruct (badedge t1 !! e) as [[]|] eqn:Hb; simplify_eq/=.
  - destruct (wire_all _ _ _ _) as [g|] eqn:Hw; simplify_eq/=.
    destruct Ht1 as [Hmir Hname Hgraph Htwo Hhead Htail Hidx Heidx Hen Hseg Hsub Hent Hbn Hle].
    eapply wire_all_spec in Hw as (? & ? & ?); [|done..].
    constructor; simpl; try done.
    intros e' vs v. rewrite lookup_insert. case_decide; [|by eauto].
    intros ? Hv. simplify_eq.
    destruct (edgevtx t1 !! e') as [vs|] eqn:Hvs; simpl in Hv;
      [by eauto|by apply elem_of_nil in Hv].
  - destruct (edgenodes t1 !! e) as [segs|] eqn:Hsegs; simplify_eq/=.
    destruct (explode _ _ _ _ _) as [[made t3]|] eqn:Hx; simplify_eq/=.
    pose proof Hx as Hspec%explode_spec. simpl in Hspec.
    destruct Hspec as (-> & Hn & _).
    eapply explode_sound in Hx.
    2:{ destruct Ht1. constructor; simpl; try done.
        by rewrite length_insert. }
    destruct Hx as [Hmir Hname Hgraph Htwo Hhead Htail Hidx Heidx Hen Hseg Hsub Hent Hbn Hle].
    destruct Ht1 as [_ _ _ Htwo1 _ _ _ _ _ _ Hsub1 _ _ _]. constructor; simpl; try done.
    intros e' vs v. rewrite lookup_insert. case_decide; [|by eauto].
    intros ? Hv. simplify_eq. apply elem_of_app in Hv as [Hv|Hv].
    + destruct (edgevtx t1 !! e') as [vs|] eqn:Hvs; simpl in Hv;
        [|by apply elem_of_nil in Hv].
      destruct (Hsub1 e' vs v Hvs Hv). lia.
    + apply elem_of_seq in Hv. lia.
Qed.

Lemma assembled_sound t : assembled P t → sound P t.
Proof.
  induction 1;
    eauto using sound_init, add_row_sound, add_dummy_sound,
      count_controller_sound, designate_sound.
Qed.

End Constructor.

(** * What each operation leaves alone *)

Lemma add_row_edges edge source target t t' :
  add_row edge source target t = Some t' →
  (edges t' = edges t ∧ edgename t' = edgename t ∧ badedge t' = badedge t) ∨
  (edges t' = S (edges t) ∧ edgename t' = edgename t ++ [edge] ∧
   badedge t' = badedge t ++ [false]).
Proof.
  unfold add_row, vertex_of, edge_of. intros H.
  repeat case_match; simplify_option_eq; auto.
Qed.

Lemma wire_all_length s e vs (g g' : adjacency) :
  wire_all s e vs g = Some g' → length g' = length g.
Proof.
  revert g. induction vs as [|v vs IH]; intros g H; simplify_eq/=; [done|].
  destruct (link2 s v e g) as [g1|] eqn:Hl; simplify_eq/=.
  apply link2_spec in Hl as (_ & _ & <- & _). by apply IH.
Qed.

Lemma designate_frame s id t t' :
  designate s id t = Some t' →
  edges t' = edges t ∧ edgename t' = edgename t ∧
  controllers t' = controllers t ∧ idx t' = idx t ∧
  edgeidx t' = edgeidx t ∧ edgenodes t' = edgenodes t ∧
  length (badedge t') = length (badedge t) ∧
  (∀ e, edgeidx t !! id ≠ Some e → badedge t' !! e = badedge t !! e) ∧
  (∀ e, edgeidx t !! id ≠ Some e → edgevtx t' !! e = edgevtx t !! e).
Proof.
  unfold designate. intros H.
  destruct (match idx t !! id with Some _ => _ | None => _ end)
    as [t1|] eqn:H1; simplify_eq/=.
  assert (edges t1 = edges t ∧ edgename t1 = edgename t ∧
          controllers t1 = controllers t ∧ idx t1 = idx t ∧
          edgeidx t1 = edgeidx t ∧ edgenodes t1 = edgenodes t ∧
          badedge t1 = badedge t ∧ edgevtx t1 = edgevtx t)
    as (E1 & E2 & E3 & E4 & E5 & E6 & E7 & E8).
  { destruct (idx t !! id) as [v|]; simplify_eq/=; [|done].
    destruct (link2 _ _ _ _) as [g|]; by simplify_eq/=. }
  rewrite <-E1, <-E2, <-E3, <-E4, <-E5, <-E6, <-E7, <-E8. clear H1.
  destruct (edgeidx t1 !! id) as [e|] eqn:He; simplify_eq/=; [|done].
  destruct (badedge t1 !! e) as [[]|] eqn:Hb; simplify_eq/=.
  - destruct (wire_all _ _ _ _) as [g|] eqn:Hw; simplify_eq/=.
    repeat split; try done.
    intros e' Hne. rewrite lookup_insert_ne; [done|congruence].
  - destruct (edgenodes t1 !! e) as [segs|] eqn:Hsegs; simplify_eq/=.
    destruct (explode _ _ _ _ _) as [[made t3]|] eqn:Hx; simplify_eq/=.
    apply explode_spec in Hx
      as (-> & Hn & Hname & -> & -> & -> & -> & -> & -> & -> & ->).
    simpl. repeat split; try done.
    + by rewrite length_insert.
    + intros e' Hne. rewrite list_lookup_insert_ne; [done|congruence].
    + intros e' Hne. rewrite lookup_insert_ne; [done|congruence].
Qed.

(** * The phases of the default build *)

Lemma rows_phase_assembled t : rows_phase t → assembled terminated t.
Proof.
  induction 1 as [|t edge source target t' _ IH ? ? ? Hrow]; [apply as_init|].
  by apply (as_row _ t edge source target).
Qed.

Lemma wired_phase_assembled t : wired_phase t → assembled terminated t.
Proof.
  induction 1.
  - by apply as_dummy, rows_phase_assembled.
  - by apply as_count.
  - eapply as_designate; eassumption.
Qed.

Lemma rows_phase_sizes t :
  rows_phase t →
  length (edgename t) = edges t ∧ length (badedge t) = edges t.
Proof.
  induction 1 as [|t edge source target t' _ [IH1 IH2] _ _ _ Hrow]; [done|].
  apply add_row_edges in Hrow as [(-> & -> & ->)|(-> & -> & ->)]; [done|].
  rewrite !length_app. simpl. lia.
Qed.

Lemma wired_phase_dummy t :
  wired_phase t →
  length (edgename t) = S (edges t) ∧ length (badedge t) = S (edges t) ∧
  edgename t !! edges t = Some [] ∧ badedge t !! edges t = Some false.
Proof.
  induction 1 as [t Hrows|t _ IH|t s id t' Hw IH _ _ Hd].
  - apply rows_phase_sizes in Hrows as [H1 H2]. simpl.
    rewrite !length_app, <-H1 at 1. rewrite <-H2 at 3. simpl.
    repeat split; try lia.
    + rewrite lookup_app_r by lia. by rewrite H1, Nat.sub_diag.
    + rewrite lookup_app_r by lia. by rewrite H2, Nat.sub_diag.
  - done.
  - destruct IH as (H1 & H2 & H3 & H4).
    apply wired_phase_assembled, (assembled_sound terminated) in Hw.
    pose proof (designate_frame _ _ _ _ Hd)
      as (-> & -> & _ & _ & _ & _ & -> & Hbad & _).
    repeat split; try done.
    rewrite Hbad; [done|].
    intros Hid. apply (sound_edgeidx _ _ Hw) in Hid. lia.
Qed.

(** * What the readers hand to the constructor *)

Lemma terminated_snoc (s : text) : terminated (s ++ [newline]).
Proof. unfold terminated. by rewrite last_snoc. Qed.

Lemma extract_string_terminated fuel sc s sc' :
  extract_string fuel sc = Some (s, sc') → terminated s.
Proof.
  unfold extract_string. intros H.
  destruct (to_next_string fuel sc) as [sc1|]; simplify_eq/=.
  destruct (copy_string fuel [] sc1) as [[out sc2]|]; simplify_eq/=.
  apply terminated_snoc.
Qed.

Lemma add_starts_wired lines t t' :
  wired_phase t → add_starts lines t = Some t' → wired_phase t'.
Proof.
  revert t. induction lines as [|l lines IH]; intros t Ht H; simplify_eq/=;
    [done|].
  destruct (add_start l t) as [t1|] eqn:H1; simplify_eq/=.
  eapply IH; [|done]. eapply wp_designate; [done|by left| |done].
  apply terminated_snoc.
Qed.

Lemma add_starts_assembled (P : text → Prop) lines t t' :
  (∀ s, P (s ++ [newline])) →
  assembled P t → add_starts lines t = Some t' → assembled P t'.
Proof.
  intros HP. revert t.
  induction lines as [|l lines IH]; intros t Ht H; simplify_eq/=; [done|].
  destruct (add_start l t) as [t1|] eqn:H1; simplify_eq/=.
  eapply IH; [|done]. eapply as_designate; [done|by left| |done].
  apply HP.
Qed.

Module FastFacts.
Import Fast FastBuild.

Lemma read_row_adds fuel sc t sc' t' :
  read_row fuel sc t = Some (sc', t') →
  ∃ edge source target,
    terminated edge ∧ terminated source ∧ terminated target ∧
    add_row edge source target t = Some t'.
Proof.
  unfold read_row. intros H.
  destruct (read_to_key fuel _ sc) as [[? sc1]|]; simplify_eq/=.
  destruct (extract_string fuel sc1) as [[edge sc2]|] eqn:E1; simplify_eq/=.
  destruct (read_to_key fuel _ sc2) as [[? sc3]|]; simplify_eq/=.
  destruct (extract_string fuel sc3) as [[source sc4]|] eqn:E2; simplify_eq/=.
  destruct (read_to_key fuel _ sc4) as [[? sc5]|]; simplify_eq/=.
  destruct (extract_string fuel sc5) as [[target sc6]|] eqn:E3; simplify_eq/=.
  destruct (add_row edge source target t) as [t1|] eqn:E4; simplify_eq/=.
  exists edge, source, target.
  repeat split; try done; by eapply extract_string_terminated.
Qed.

Lemma read_controller_adds fuel sc t sc' t' :
  read_controller fuel sc t = Some (sc', t') →
  ∃ ctrl, terminated ctrl ∧ add_controller ctrl t = Some t'.
Proof.
  unfold read_controller. intros H.
  destruct (read_to_key fuel _ sc) as [[? sc1]|]; simplify_eq/=.
  destruct (extract_string fuel sc1) as [[ctrl sc2]|] eqn:E1; simplify_eq/=.
  destruct (add_controller ctrl t) as [t1|] eqn:E4; simplify_eq/=.
  exists ctrl. split; [by eapply extract_string_terminated|done].
Qed.

Lemma fields_loop_preserves (Q : tables → Prop) fuel n body sc t sc' t' :
  (∀ sc t sc' t', Q t → body sc t = Some (sc', t') → Q t') →
  Q t → fields_loop fuel n body sc t = Some (sc', t') → Q t'.
Proof.
  intros Hbody. revert sc t.
  induction n as [|n IH]; intros sc t Ht H; simplify_eq/=.
  destruct (begin_field fuel sc) as [[[] sc1]|]; simplify_eq/=; [|done].
  destruct (body sc1 t) as [[sc2 t1]|] eqn:Hb; simplify_eq/=.
  destruct (end_field fuel sc2) as [sc3|]; simplify_eq/=.
  eapply IH; [|done]. by eapply Hbody.
Qed.

Lemma parse_wired fuel bytes t : parse fuel bytes = Some t → wired_phase t.
Proof.
  unfold parse. intros H.
  destruct (begin_field fuel _) as [[? sc1]|]; simplify_eq/=.
  destruct (read_to_key fuel _ sc1) as [[? sc2]|]; simplify_eq/=.
  destruct (begin_list fuel sc2) as [[? sc3]|]; simplify_eq/=.
  destruct (fields_loop fuel fuel (read_row fuel) sc3 init_tables)
    as [[sc4 t1]|] eqn:Hrows; simplify_eq/=.
  destruct (read_to_key fuel _ sc4) as [[? sc5]|]; simplify_eq/=.
  destruct (begin_list fuel sc5) as [[? sc6]|]; simplify_eq/=.
  destruct (fields_loop fuel fuel (read_controller fuel) sc6 (add_dummy t1))
    as [[sc7 t3]|] eqn:Hctrl; simplify_eq/=.
  destruct (end_field fuel sc7) as [sc8|]; simplify_eq/=.
  eapply (fields_loop_preserves wired_phase) in Hctrl; [done| |].
  - intros sc ta sc' tb Hta (ctrl & Hc & Hadd)%read_controller_adds.
    eapply wp_designate; [by apply wp_count, Hta|by right|done|done].
  - apply wp_dummy.
    eapply (fields_loop_preserves rows_phase) in Hrows; [done| |constructor].
    intros sc ta sc' tb Hta (e & s & g & ? & ? & ? & Hadd)%read_row_adds.
    by eapply (rp_row ta e s g).
Qed.

Lemma read_graph_wired fuel bytes startingpoints t :
  read_graph fuel bytes startingpoints = Some t → wired_phase t.
Proof.
  unfold read_graph. intros H.
  destruct (parse fuel bytes) as [t0|] eqn:Hp; simplify_eq/=.
  eapply add_starts_wired; [|done]. by eapply parse_wired.
Qed.

End FastFacts.

Module RobustFacts.
Import Robust RobustBuild.

Section Preservation.
Context {U : Type} (Q : U → Prop).

Lemma match_keys_preserves action c i keys pos st pos' st' :
  (∀ i st st', Q st.2 → action i st = Some st' → Q st'.2) →
  Q st.2 → match_keys action c i keys pos st = Some (pos', st') → Q st'.2.
Proof.
  intros Hact. revert i pos st pos' st'.
  induction keys as [|k keys IH]; intros i pos st pos' st' Hst H;
    simplify_eq/=; [done|].
  destruct pos as [|p pos]; simplify_eq/=; [done|].
  destruct (key_char k p) as [kc|]; simplify_eq/=.
  destruct (Ascii.eqb c kc).
  - destruct (key_char k (S p)) as [kc'|]; simplify_eq/=.
    destruct (if Ascii.eqb kc' NUL then action i st else Some st)
      as [st1|] eqn:H1; simplify_eq/=.
    destruct (match_keys action c (S i) keys pos st1) as [[pos1 st2]|] eqn:H2;
      simplify_eq/=.
    eapply IH; [|done].
    destruct (Ascii.eqb kc' NUL); simplify_eq/=; [by eapply Hact|done].
  - destruct (match_keys action c (S i) keys pos st) as [[pos1 st2]|] eqn:H2;
      simplify_eq/=.
    by eapply IH.
Qed.

Lemma scan_keys_preserves fuel action keys bl bkl pos st st' :
  (∀ i st st', Q st.2 → action i st = Some st' → Q st'.2) →
  Q st.2 → scan_keys fuel action keys bl bkl pos st = Some st' → Q st'.2.
Proof.
  intros Hact. revert pos st.
  induction fuel as [|fuel IH]; intros pos st Hst H; simpl in H.
  - by destruct (bl <? braces st.1)%Z; simplify_eq.
  - destruct (bl <? braces st.1)%Z; simplify_eq; [|done].
    destruct (readc st.1) as [c sc1].
    destruct (nested _ _ _).
    + by eapply IH in H.
    + destruct (match_keys action c 0 keys pos (sc1, st.2))
        as [[pos1 st1]|] eqn:Hm; simplify_eq/=.
      eapply IH; [|done]. by eapply match_keys_preserves in Hm.
Qed.

Lemma scan_field_preserves fuel keys action st b st' :
  (∀ i st st', Q st.2 → action i st = Some st' → Q st'.2) →
  Q st.2 → scan_field fuel keys action st = Some (b, st') → Q st'.2.
Proof.
  intros Hact Hst. unfold scan_field. intros H.
  destruct (enter_field fuel _ _ _) as [[[] sc1]|]; simplify_eq/=; [|done].
  destruct (scan_keys _ _ _ _ _ _ _) as [st1|] eqn:Hs; simplify_eq/=.
  by eapply scan_keys_preserves in Hs.
Qed.

Lemma run_list_preserves fuel action bkl st st' :
  (∀ st st', Q st.2 → action st = Some st' → Q st'.2) →
  Q st.2 → run_list fuel action bkl st = Some st' → Q st'.2.
Proof.
  intros Hact. revert st.
  induction fuel as [|fuel IH]; intros st Hst H; simpl in H.
  - by destruct (bkl <? brackets st.1)%Z; simplify_eq.
  - destruct (bkl <? brackets st.1)%Z; simplify_eq; [|done].
    destruct (action st) as [st1|] eqn:Ha; simplify_eq/=.
    eapply IH; [|done]. by eapply Hact.
Qed.

Lemma scan_list_preserves fuel action st b st' :
  (∀ st st', Q st.2 → action st = Some st' → Q st'.2) →
  Q st.2 → scan_list fuel action st = Some (b, st') → Q st'.2.
Proof.
  intros Hact Hst. unfold scan_list. intros H.
  destruct (enter_list fuel _ _ _) as [[[] sc1]|]; simplify_eq/=; [|done].
  destruct (run_list _ _ _ _) as [st1|] eqn:Hs; simplify_eq/=.
  by eapply run_list_preserves in Hs.
Qed.

End Preservation.

Lemma row_key_action_ok fuel i st st' :
  row_vars_ok st.2 → row_key_action fuel i st = Some st' → row_vars_ok st'.2.
Proof.
  destruct st as [sc [[edge source] target]]. intros (He & Hs & Hg) H.
  unfold row_key_action in H.
  destruct i as [|[|[|i]]]; simplify_eq/=; [..|done];
    destruct (extract_string fuel sc) as [[s sc1]|] eqn:E; simplify_eq/=;
    apply extract_string_terminated in E; repeat split; simpl;
    try done; by right.
Qed.

Lemma row_action_adds fuel st st' :
  row_action fuel st = Some st' →
  st'.2 = st.2 ∨
  ∃ edge source target,
    blank_or_terminated edge ∧ blank_or_terminated source ∧
    blank_or_terminated target ∧ add_row edge source target st.2 = Some st'.2.
Proof.
  unfold row_action. intros H.
  destruct (scan_field fuel row_keys (row_key_action fuel) _)
    as [[[] [sc1 [[edge source] target]]]|] eqn:Hs; simplify_eq/=; [|by left].
  destruct (add_row edge source target st.2) as [t1|] eqn:Ha; simplify_eq/=.
  right. exists edge, source, target.
  eapply (scan_field_preserves row_vars_ok) in Hs as (? & ? & ?);
    [done|apply row_key_action_ok|].
  repeat split; by left.
Qed.

Lemma controller_action_adds fuel st st' :
  controller_action fuel st = Some st' →
  st'.2 = st.2 ∨
  ∃ ctrl, blank_or_terminated ctrl ∧ add_controller ctrl st.2 = Some st'.2.
Proof.
  unfold controller_action. intros H.
  destruct (scan_field fuel _ (controller_key_action fuel) _)
    as [[[] [sc1 ctrl]]|] eqn:Hs; simplify_eq/=; [|by left].
  destruct (add_controller ctrl st.2) as [t1|] eqn:Ha; simplify_eq/=.
  right. exists ctrl. split; [|done].
  eapply (scan_field_preserves blank_or_terminated) in Hs; [done| |by left].
  intros i [sc u] st2 _ H. unfold controller_key_action in H. simpl in H.
  destruct (extract_string fuel sc) as [[s sc2]|] eqn:E; simplify_eq/=.
  right. by eapply extract_string_terminated.
Qed.

Lemma top_action_assembled fuel i st st' :
  assembled blank_or_terminated st.2 → top_action fuel i st = Some st' →
  assembled blank_or_terminated st'.2.
Proof.
  intros Hst H. unfold top_action in H.
  destruct i as [|[|i]]; simplify_eq/=; [..|done].
  - destruct (scan_list fuel (row_action fuel) st) as [[b st1]|] eqn:Hs;
      simplify_eq/=.
    apply as_dummy.
    eapply (scan_list_preserves (assembled blank_or_terminated)) in Hs;
      [done| |done].
    intros sa sb Hsa [->|(e & s & g & ? & ? & ? & Hadd)]%row_action_adds;
      [done|].
    by apply (as_row _ sa.2 e s g).
  - destruct (scan_list fuel (controller_action fuel) st) as [[b st1]|] eqn:Hs;
      simplify_eq/=.
    eapply (scan_list_preserves (assembled blank_or_terminated)) in Hs;
      [done| |done].
    intros sa sb Hsa [->|(c & ? & Hadd)]%controller_action_adds; [done|].
    eapply as_designate; [by apply as_count, Hsa|by right|done|done].
Qed.

Lemma read_graph_assembled fuel bytes startingpoints t :
  read_graph fuel bytes startingpoints = Some t →
  assembled blank_or_terminated t.
Proof.
  unfold read_graph, parse. intros H.
  destruct (scan_field fuel top_keys (top_action fuel) _)
    as [[b st]|] eqn:Hs; simplify_eq/=.
  eapply (add_starts_assembled blank_or_terminated); [| |done].
  - intros s. right. apply terminated_snoc.
  - eapply (scan_field_preserves (assembled blank_or_terminated)) in Hs;
      [done|apply top_action_assembled|constructor].
Qed.

End RobustFacts.

(** * The string extractor *)

Lemma readc_quote sc rest :
  input sc = quote :: rest →
  readc sc = (quote, {| input := rest; braces := braces sc;
                        brackets := brackets sc;
                        instring := negb (instring sc) |}).
Proof. unfold readc. by intros ->. Qed.

Lemma readc_inside sc c rest :
  input sc = c :: rest → c ≠ quote → instring sc = true →
  readc sc = (c, {| input := rest; braces := braces sc;
                    brackets := brackets sc; instring := true |}).
Proof.
  unfold readc. intros -> Hc ->. simpl.
  by apply Ascii.eqb_neq in Hc as ->.
Qed.

Lemma readc_outside sc c rest :
  input sc = c :: rest → c ≠ quote → instring sc = false →
  input (readc sc).2 = rest ∧ instring (readc sc).2 = false.
Proof.
  unfold readc. intros -> Hc ->. simpl.
  apply Ascii.eqb_neq in Hc as ->. by repeat case_match.
Qed.

Lemma to_next_string_reaches fuel sc pre rest :
  instring sc = false → quote ∉ pre → input sc = pre ++ quote :: rest →
  length pre < fuel →
  ∃ sc', to_next_string fuel sc = Some sc' ∧ input sc' = rest ∧
         instring sc' = true.
Proof.
  revert sc fuel. induction pre as [|c pre IH]; intros sc fuel Hin Hq Hsc Hf;
    (destruct fuel as [|fuel]; [simpl in Hf; lia|]); simpl; rewrite Hin.
  - rewrite (readc_quote sc rest) by done. simpl. rewrite Hin. simpl.
    destruct fuel; eauto.
  - apply not_elem_of_cons in Hq as [Hc Hq].
    destruct (readc_outside sc c (pre ++ quote :: rest)) as [H1 H2];
      [done..|].
    apply IH; [done..|simpl in Hf; lia].
Qed.

Lemma copy_string_copies fuel out sc body rest :
  instring sc = true → quote ∉ body → input sc = body ++ quote :: rest →
  length body < fuel →
  ∃ sc', copy_string fuel out sc = Some (out ++ body, sc') ∧
         input sc' = rest ∧ instring sc' = false ∧
         braces sc' = braces sc ∧ brackets sc' = brackets sc.
Proof.
  revert sc fuel out.
  induction body as [|c body IH]; intros sc fuel out Hin Hq Hsc Hf;
    (destruct fuel as [|fuel]; [simpl in Hf; lia|]); simpl.
  - rewrite (readc_quote sc rest) by done. simpl. rewrite Hin. simpl.
    rewrite app_nil_r. eauto 10.
  - apply not_elem_of_cons in Hq as [Hc Hq].
    rewrite (readc_inside sc c (body ++ quote :: rest)) by done. simpl.
    edestruct (IH {| input := body ++ quote :: rest; braces := braces sc;
                     brackets := brackets sc; instring := true |} fuel
                  (out ++ [c])) as (sc' & -> & ? & ? & ? & ?);
      [done..|simpl in Hf; lia|].
    rewrite <-(assoc_L (++)). simpl. eauto 10.
Qed.

(** [extract_string] on a text that holds a string: what precedes the
    opening double quote is passed over, the body is copied. *)
Lemma extract_string_copies fuel sc pre body rest :
  instring sc = false → quote ∉ pre → quote ∉ body →
  input sc = pre ++ quote :: body ++ quote :: rest →
  length pre < fuel → length body < fuel →
  ∃ sc', extract_string fuel sc = Some (body ++ [newline], sc') ∧
         input sc' = rest ∧ instring sc' = false.
Proof.
  intros Hin Hpre Hbody Hsc Hf1 Hf2. unfold extract_string.
  destruct (to_next_string_reaches fuel sc pre (body ++ quote :: rest))
    as (sc1 & -> & Hsc1 & Hin1); [done..|]. simpl.
  destruct (copy_string_copies fuel [] sc1 body rest)
    as (sc2 & -> & Hsc2 & Hin2 & _); [done..|]. simpl.
  by exists sc2.
Qed.

(** * Properties of the constructed graph *)

(** C5: after [read_graph] returns, in either build, the adjacency structure
    is symmetric with multiplicities: [(v, e)] occurs in [graph[u]] as often
    as [(u, e)] occurs in [graph[v]]. *)
Theorem read_graph_mirrored fuel bytes startingpoints t :
  FastBuild.read_graph fuel bytes startingpoints = Some t ∨
  RobustBuild.read_graph fuel bytes startingpoints = Some t →
  mirrored (graph t).
Proof.
  intros [H|H].
  - apply FastFacts.read_graph_wired, wired_phase_assembled in H.
    by apply (assembled_sound terminated).
  - apply RobustFacts.read_graph_assembled in H.
    by apply (assembled_sound blank_or_terminated).
Qed.

Lemma read_graph_mirrored_witness :
  ∃ t, FastBuild.read_graph 100 doc_pair [lit "A"] = Some t ∧
       mirrored (graph t).
Proof.
  assert (is_Some (FastBuild.read_graph 100 doc_pair [lit "A"])) as [t Ht]
    by evaluated.
  exists t. split; [exact Ht|].
  apply (read_graph_mirrored 100 doc_pair [lit "A"]). left. exact Ht.
Defined.




(** C10 (amended): in the default build every identifier in [idx] and
    [edgeidx] ends with the newline, [idx] maps no identifier to HEAD or TAIL,
    whose names are empty, and [edgeidx] maps no identifier to the dummy edge,
    which is unnamed and not deleted; in the ROBUST build an identifier is
    empty (its key was missing from the row) or ends with the newline, and
    again no identifier resolves to HEAD, TAIL or an index from [edges] on. *)
Theorem identifiers_terminated fuel bytes startingpoints t :
  (FastBuild.read_graph fuel bytes startingpoints = Some t →
   (∀ id v, idx t !! id = Some v → terminated id ∧ 2 ≤ v) ∧
   (∀ id e, edgeidx t !! id = Some e → terminated id ∧ e < edges t) ∧
   name t !! HEAD = Some [] ∧ name t !! TAIL = Some [] ∧
   edgename t !! edges t = Some [] ∧ badedge t !! edges t = Some false) ∧
  (RobustBuild.read_graph fuel bytes startingpoints = Some t →
   (∀ id v, idx t !! id = Some v → blank_or_terminated id ∧ 2 ≤ v) ∧
   (∀ id e, edgeidx t !! id = Some e → blank_or_terminated id ∧ e < edges t) ∧
   name t !! HEAD = Some [] ∧ name t !! TAIL = Some []).
Proof.
  split; intros H.
  - apply FastFacts.read_graph_wired in H.
    pose proof (wired_phase_dummy t H) as (_ & _ & H3 & H4).
    apply wired_phase_assembled, (assembled_sound terminated) in H.
    destruct H as [? ? ? ? ? ? Hidx Heidx]. repeat split; try done.
    + by eapply Hidx.
    + eapply proj1, Hidx. done.
    + by eapply Heidx.
    + by eapply Heidx.
  - apply RobustFacts.read_graph_assembled,
      (assembled_sound blank_or_terminated) in H.
    destruct H as [? ? ? ? ? ? Hidx Heidx]. repeat split; try done.
    + by eapply Hidx.
    + eapply proj1, Hidx. done.
    + by eapply Heidx.
    + by eapply Heidx.
Qed.

Lemma identifiers_terminated_witness :
  ∃ t, FastBuild.read_graph 100 doc_pair [lit "A"] = Some t ∧
       edgename t !! edges t = Some [] ∧ badedge t !! edges t = Some false.
Proof.
  assert (is_Some (FastBuild.read_graph 100 doc_pair [lit "A"])) as [t Ht]
    by evaluated.
  exists t. split; [exact Ht|].
  exact (proj2 (proj2 (proj2 (proj2
           (proj1 (identifiers_terminated 100 doc_pair [lit "A"] t) Ht))))).
Defined.

(** C10 as stated fails in the ROBUST build: the row without "toGlobalId"
    of [doc_short_row] stores the empty identifier in [idx]. *)
Lemma identifiers_terminated_counterexample :
  (λ t, idx t !! []) <$> RobustBuild.read_graph 100 doc_short_row [] =
    Some (Some 3) ∧
  ¬ terminated [].
Proof. split; [vm_compute; reflexivity|]. intros H. discriminate H. Qed.

(** * Reduction 1 is applied once per edge *)

(** The vertex part of [designate]: it changes the adjacency only. *)
Lemma designate_vertex_part s id t t1 :
  match idx t !! id with
  | Some v => g ← link2 s v (edges t) (graph t); Some (set_graph g t)
  | None => Some t
  end = Some t1 →
  nodes t1 = nodes t ∧ name t1 = name t ∧ edges t1 = edges t ∧
  badedge t1 = badedge t ∧ edgenodes t1 = edgenodes t ∧
  edgeidx t1 = edgeidx t ∧ edgevtx t1 = edgevtx t ∧ idx t1 = idx t ∧
  (graph t1 = graph t ∨
   ∃ v, idx t !! id = Some v ∧
        link2 s v (edges t) (graph t) = Some (graph t1)).
Proof.
  intros H. destruct (idx t !! id) as [v|]; simplify_eq/=.
  - destruct (link2 _ _ _ _) as [g|] eqn:Hl; simplify_eq/=.
    repeat split; try done. right. by exists v.
  - repeat split; try done. by left.
Qed.

Lemma designate_first s id e segs t t1 :
  edgeidx t !! id = Some e → badedge t !! e = Some false →
  edgevtx t !! e = None → edgenodes t !! e = Some segs →
  designate s id t = Some t1 →
  badedge t1 !! e = Some true ∧
  substitutes t1 e = seq (nodes t) (length segs) ∧
  nodes t1 = nodes t + length segs ∧
  name t1 = name t ++ replicate (length segs) id ∧
  edgeidx t1 = edgeidx t.
Proof.
  intros He Hb Hv Hs. unfold designate. intros H.
  destruct (match idx t !! id with Some _ => _ | None => _ end)
    as [t0|] eqn:H0; simplify_eq/=.
  apply designate_vertex_part in H0
    as (En & Ena & Ee & Eb & Een & Eei & Eev & _ & _).
  rewrite Eei, He in H. rewrite Eb, Hb in H. rewrite Een, Hs in H.
  simpl in H. rewrite Eev, Hv in H. simpl in H.
  destruct (explode _ _ _ _ _) as [[made t3]|] eqn:Hx; simplify_eq/=.
  apply explode_spec in Hx
    as (-> & Hn & Hname & _ & Hbad & _ & _ & _ & _ & Hei & _).
  simpl in *. unfold substitutes. simpl.
  rewrite lookup_insert_eq. simpl.
  rewrite Hbad, Hn, Hname, Hei, En, Ena.
  repeat split; try done.
  apply list_lookup_insert_eq. by eapply lookup_lt_Some.
Qed.

Lemma designate_again s id e t t3 :
  edgeidx t !! id = Some e → badedge t !! e = Some true →
  designate s id t = Some t3 →
  nodes t3 = nodes t ∧ name t3 = name t ∧
  substitutes t3 e = substitutes t e ∧
  ∃ g, (g = graph t ∨
        ∃ v, idx t !! id = Some v ∧
             link2 s v (edges t) (graph t) = Some g) ∧
       wire_all s (edges t) (substitutes t e) g = Some (graph t3).
Proof.
  intros He Hb. unfold designate. intros H.
  destruct (match idx t !! id with Some _ => _ | None => _ end)
    as [t0|] eqn:H0; simplify_eq/=.
  apply designate_vertex_part in H0
    as (En & Ena & Ee & Eb & Een & Eei & Eev & _ & Hg).
  rewrite Eei, He in H. rewrite Eb, Hb in H. rewrite Eev, Ee in H.
  destruct (wire_all _ _ _ _) as [g|] eqn:Hw; simplify_eq/=.
  unfold substitutes at 1. simpl. rewrite lookup_insert_eq. simpl.
  repeat split; try done. by exists (graph t0).
Qed.

(** A designation of any identifier leaves an exploded edge exploded, with
    the same substitute vertices. *)
Lemma designate_keeps s id e t t' :
  badedge t !! e = Some true → designate s id t = Some t' →
  badedge t' !! e = Some true ∧ substitutes t' e = substitutes t e ∧
  edgeidx t' = edgeidx t.
Proof.
  intros Hb H. pose proof (designate_frame _ _ _ _ H)
    as (_ & _ & _ & _ & Hei & _ & _ & Hbad & Hvtx).
  destruct (decide (edgeidx t !! id = Some e)) as [He|Hne].
  - destruct (designate_again s id e t t' He Hb H) as (_ & _ & Hsub & _).
    split; [|done].
    unfold designate in H.
    destruct (match idx t !! id with Some _ => _ | None => _ end)
      as [t0|] eqn:H0; simplify_eq/=.
    apply designate_vertex_part in H0
      as (_ & _ & _ & Eb & _ & Eei & _ & _ & _).
    rewrite Eei, He in H. rewrite Eb, Hb in H.
    destruct (wire_all _ _ _ _) as [g|]; simplify_eq/=. congruence.
  - unfold substitutes. rewrite Hbad, Hvtx by done. done.
Qed.

(** * The field scan of [json.h] *)

Module ScanFacts.
Import Robust.

Lemma readc_step sc c rest :
  input sc = c :: rest → (readc sc).1 = c ∧ input (readc sc).2 = rest.
Proof. unfold readc. intros ->. simpl. by repeat case_match. Qed.

Lemma readc_eof sc : input sc = [] → readc sc = (EOF_char, sc).
Proof.
  destruct sc as [inp b k s]. simpl. intros ->. unfold readc. simpl.
  by destruct s.
Qed.

Lemma readc_plain sc :
  ¬ structural (readc sc).1 →
  braces (readc sc).2 = braces sc ∧ brackets (readc sc).2 = brackets sc.
Proof.
  unfold readc, structural. destruct (fgetc (input sc)) as [c rest].
  repeat case_match; simpl; try done;
    repeat match goal with
           | H : Ascii.eqb _ _ = true |- _ => apply Ascii.eqb_eq in H
           end; subst; tauto.
Qed.

Lemma readc_consumes sc : ∃ l, input sc = l ++ input (readc sc).2.
Proof.
  destruct (input sc) as [|c rest] eqn:E.
  - exists []. by rewrite (readc_eof sc E).
  - exists [c]. by destruct (readc_step sc c rest E) as [_ ->].
Qed.

Lemma plain_keyb_correct k : plain_keyb k = true → plain_key k.
Proof.
  unfold plain_keyb. rewrite forallb_forall. intros H.
  assert (∀ c, c ∈ k → c ≠ NUL ∧ ¬ structural c) as H'.
  { intros c Hc%list_elem_of_In%H.
    apply negb_true_iff in Hc. repeat apply orb_false_iff in Hc as [Hc ?].
    repeat match goal with
           | H : Ascii.eqb _ _ = false |- _ => apply Ascii.eqb_neq in H
           end.
    unfold structural. tauto. }
  split.
  - intros Hn. by destruct (H' NUL Hn).
  - intros c Hc. by destruct (H' c Hc).
Qed.

End ScanFacts.

(** * Rows that lack a key *)

Lemma enter_field_refused fuel bl bkl sc sc' :
  Robust.enter_field fuel bl bkl sc = Some (false, sc') →
  (brackets sc' < bkl)%Z.
Proof.
  revert sc. induction fuel as [|fuel IH]; intros sc H; simpl in H.
  - destruct (bl =? braces sc)%Z; discriminate H.
  - destruct (bl =? braces sc)%Z; [|discriminate H].
    destruct (brackets (readc sc).2 <? bkl)%Z eqn:Hlt.
    + injection H as <-. by apply Z.ltb_lt.
    + by eapply IH.
Qed.

Lemma row_action_outcome fuel st st' :
  RobustBuild.row_action fuel st = Some st' →
  (st'.2 = st.2 ∧ (brackets st'.1 < brackets st.1)%Z) ∨
  ∃ edge source target,
    blank_or_terminated edge ∧ blank_or_terminated source ∧
    blank_or_terminated target ∧
    add_row edge source target st.2 = Some st'.2.
Proof.
  unfold RobustBuild.row_action. intros H.
  destruct (Robust.scan_field fuel RobustBuild.row_keys
              (RobustBuild.row_key_action fuel) _)
    as [[[] [sc1 [[edge source] target]]]|] eqn:Hs; simplify_eq/=.
  - destruct (add_row edge source target st.2) as [t1|] eqn:Ha; simplify_eq/=.
    right. exists edge, source, target.
    eapply (RobustFacts.scan_field_preserves row_vars_ok) in Hs
      as (? & ? & ?); [done|apply RobustFacts.row_key_action_ok|].
    repeat split; by left.
  - left. split; [done|].
    unfold Robust.scan_field in Hs. simpl in Hs.
    destruct (Robust.enter_field fuel (braces st.1) (brackets st.1) st.1)
      as [[[] sc2]|] eqn:Henter; simplify_eq/=.
    + destruct (Robust.scan_keys _ _ _ _ _ _ _); simplify_eq/=.
    + by eapply enter_field_refused.
Qed.

(** C6 as stated fails in both builds on [doc_short_row], whose first row
    has no "toGlobalId".  ROBUST build: the row adds edge E1 from A to a
    vertex with the empty name.  Default build: the row adds edge E1 from A
    to a vertex named after the next string of the file, "viaGlobalId", and
    the complete row that follows is lost. *)
Lemma short_row_counterexample :
  built <$> RobustBuild.read_graph 100 doc_short_row [] =
    Some ([[]; [(4, 2)]; [(3, 0)]; [(2, 0)]; [(5, 1); (1, 2)]; [(4, 1)]],
          [false; false; false], 6,
          [[]; []; ident "A"; []; ident "B"; ident "C"],
          [ident "E1"; ident "E2"; []]) ∧
  built <$> FastBuild.read_graph 100 doc_short_row [] =
    Some ([[]; []; [(3, 0)]; [(2, 0)]], [false; false], 4,
          [[]; []; ident "A"; ident "viaGlobalId"], [ident "E1"; []]).
Proof. split; vm_compute; reflexivity. Qed.

(** * The emitter *)

(** C2 fails on the code: for the graph of [doc_pair] with starting point A
    the output holds the name of A twice and the name of B twice (each name
    is written when the vertex is pushed and again when it is popped), the
    name of edge E1 once; for [doc_chain], where E1 names two segments, the
    name of E1 is written twice as well.  The two leading empty pieces are
    the name of HEAD and the name of the dummy edge. *)
Lemma emitter_repeats_names :
  main_fast 100 doc_pair [lit "A"] =
    Some [[]; []; ident "A"; ident "A"; ident "E1"; ident "B"; ident "B"] ∧
  main_robust 100 doc_pair [lit "A"] =
    Some [[]; []; ident "A"; ident "A"; ident "E1"; ident "B"; ident "B"] ∧
  main_fast 150 doc_chain [lit "A"] =
    Some [[]; []; ident "A"; ident "A"; ident "E1"; ident "B"; ident "B";
          ident "E1"; ident "C"; ident "C"].
Proof. repeat split; vm_compute; reflexivity. Qed.

(** * The traversal *)

Lemma visited_count_insert_new (d : list (nat * nat)) v x b :
  d !! v = Some (0, x) → 0 < b →
  visited_count (<[v := (b, b)]> d) = S (visited_count d).
Proof.
  unfold visited_count. revert v.
  induction d as [|p d IH]; intros v Hv Hb; [by rewrite lookup_nil in Hv|].
  destruct v as [|v]; simpl in *.
  - injection Hv as ->. rewrite !filter_cons. simpl.
    repeat case_decide; simpl in *; lia.
  - rewrite !filter_cons. case_decide; simpl; by rewrite (IH v).
Qed.

Lemma visited_count_insert_same (d : list (nat * nat)) v p b :
  d !! v = Some p → visited_count (<[v := (p.1, b)]> d) = visited_count d.
Proof.
  unfold visited_count. revert v.
  induction d as [|q d IH]; intros v Hv; [by rewrite lookup_nil in Hv|].
  destruct v as [|v]; simpl in *.
  - injection Hv as ->. rewrite !filter_cons. simpl.
    by repeat case_decide.
  - rewrite !filter_cons. case_decide; simpl; by rewrite (IH v).
Qed.

Lemma visited_count_room (d : list (nat * nat)) v x :
  d !! v = Some (0, x) → visited_count d < length d.
Proof.
  unfold visited_count. revert v.
  induction d as [|q d IH]; intros v Hv; [by rewrite lookup_nil in Hv|].
  destruct v as [|v]; simpl in *.
  - injection Hv as ->. rewrite filter_cons. simpl.
    pose proof (length_filter (λ p : nat * nat, 0 < p.1) d).
    repeat case_decide; simpl in *; lia.
  - rewrite filter_cons. specialize (IH v Hv).
    case_decide; simpl; lia.
Qed.

Lemma visited_insert_new (d : list (nat * nat)) v x b w :
  d !! v = Some (0, x) → 0 < b →
  visited (<[v := (b, b)]> d) w ↔ w = v ∨ visited d w.
Proof.
  intros Hv Hb. unfold visited. apply lookup_lt_Some in Hv as Hlt.
  destruct (decide (w = v)) as [->|Hne].
  - rewrite list_lookup_insert_eq by done. split; [by left|].
    intros _. by exists (b, b).
  - rewrite list_lookup_insert_ne by done. split; [by right|].
    by intros [?|?].
Qed.

Lemma visited_insert_same (d : list (nat * nat)) v p b w :
  d !! v = Some p → visited (<[v := (p.1, b)]> d) w ↔ visited d w.
Proof.
  intros Hv. unfold visited. apply lookup_lt_Some in Hv as Hlt.
  destruct (decide (w = v)) as [->|Hne].
  - rewrite list_lookup_insert_eq by done. split.
    + intros (q & [= <-] & Hq). by exists p.
    + intros (q & Hq & Hpos). simplify_eq. by exists (p.1, b).
  - by rewrite list_lookup_insert_ne by done.
Qed.

Section TraverseFacts.
Context (g : adjacency) (bad : list bool) (n : nat).
Hypothesis Hwf : well_formed g bad n.

Lemma adj_lookup v l : g !! v = Some l → adj g v = l.
Proof. unfold adj. by intros ->. Qed.

Lemma reachable_below v : reachable g bad v → v < n.
Proof.
  destruct Hwf as (Hn & _ & Hent).
  induction 1 as [|u v _ _ (e & Hin & _)]; [done|].
  by destruct (Hent u v e Hin).
Qed.

(** ** The loop that skips edges *)

Lemma skip_edges_spec d rest i best reached :
  length d = n →
  (∀ u e, (u, e) ∈ rest → u < n ∧ e < length bad) →
  (∀ v p, d !! v = Some p → 0 < p.1 → 1 ≤ p.2) →
  ∃ k best' reached',
    skip_edges bad d rest i best reached = Some (i + k, best', reached') ∧
    k ≤ length rest ∧
    (∀ j u e, j < k → rest !! j = Some (u, e) →
              bad !! e = Some true ∨ visited d u) ∧
    (k < length rest →
     ∃ u e x, rest !! k = Some (u, e) ∧ d !! u = Some (0, x) ∧
              bad !! e = Some false) ∧
    (1 ≤ best → 1 ≤ best') ∧
    (reached' = true →
     reached = true ∨ ∃ e, (TAIL, e) ∈ rest ∧ bad !! e = Some false).
Proof.
  intros Hd Hrest Hlow. revert i best reached.
  induction rest as [|[u e] rest IH]; intros i best reached; simpl.
  { exists 0, best, reached. rewrite Nat.add_0_r.
    repeat split; try done; try lia. by left. }
  destruct (Hrest u e) as [Hu He]; [by left|].
  destruct (lookup_lt_is_Some_2 d u) as [du Hdu]; [lia|].
  destruct (lookup_lt_is_Some_2 bad e He) as [be Hbe].
  rewrite Hdu, Hbe. simpl.
  assert (∀ u' e', (u', e') ∈ rest → u' < n ∧ e' < length bad) as Hrest'.
  { intros u' e' Hin. apply Hrest. by right. }
  destruct ((0 <? du.1) || be) eqn:Hskip.
  - assert (bad !! e = Some true ∨ visited d u) as Hpassed.
    { destruct be; [by left|right]. rewrite orb_false_r in Hskip.
      apply Nat.ltb_lt in Hskip. by exists du. }
    destruct be.
    + destruct (IH Hrest' (S i) best reached)
        as (k & best' & reached' & -> & Hk & Hj & Hstop & Hb & Hr).
      exists (S k), best', reached'.
      replace (S i + k) with (i + S k) by lia.
      repeat split; try done; simpl; try lia.
      * intros [|j] u' e' Hlt Hl; simplify_eq/=; [done|].
        apply (Hj j); [lia|done].
      * intros Hlt. apply Hstop. lia.
      * intros [?|(e' & Hin & ?)]%Hr; [by left|right].
        exists e'. split; [by right|done].
    + destruct (IH Hrest' (S i) (best `min` du.2) (reached || (u =? TAIL)))
        as (k & best' & reached' & -> & Hk & Hj & Hstop & Hb & Hr).
      exists (S k), best', reached'.
      replace (S i + k) with (i + S k) by lia.
      repeat split; try done; simpl; try lia.
      * intros [|j] u' e' Hlt Hl; simplify_eq/=; [done|].
        apply (Hj j); [lia|done].
      * intros Hlt. apply Hstop. lia.
      * intros Hbest. apply Hb.
        rewrite orb_false_r in Hskip. apply Nat.ltb_lt in Hskip.
        specialize (Hlow u du Hdu Hskip). lia.
      * intros [Hor|(e' & Hin & ?)]%Hr.
        -- apply orb_true_iff in Hor as [?|Heq]; [by left|right].
           apply Nat.eqb_eq in Heq as ->. exists e. split; [by left|done].
        -- right. exists e'. split; [by right|done].
  - apply orb_false_iff in Hskip as [Hz ->]. apply Nat.ltb_ge in Hz.
    exists 0, best, reached. rewrite Nat.add_0_r.
    repeat split; try done; simpl; try lia.
    + intros _. exists u, e, du.2. split; [done|]. split; [|done].
      destruct du as [a b]. simpl in *.
      assert (a = 0) as -> by lia. done.
    + by left.
Qed.


(** ** The accumulator and the stack *)

Lemma child_of_functional f u u' :
  child_of g f u → child_of g f u' → u = u'.
Proof. intros [e He] [e' He']. congruence. Qed.

Lemma acc_ok_absorb fs above ac :
  fs ≠ [] → acc_ok g fs ac → acc_ok g fs (above ++ ac).
Proof.
  destruct fs as [|f fs]; [done|]. intros _ (Y & u & rest & -> & Hc & Hok).
  exists (above ++ Y), u, rest. by rewrite <-(assoc_L (++)).
Qed.

Lemma chain_tail f fs : chain g (f :: fs) → chain g fs.
Proof. by intros [_ ?]. Qed.

Lemma chain_same_vertex f f' fs :
  fv f = fv f' → chain g (f :: fs) → chain g (f' :: fs).
Proof. intros Hv [H1 H2]. split; [|done]. by rewrite <-Hv. Qed.

Lemma chain_bottom_visited d f fs :
  chain g (f :: fs) → Forall (started_ok g bad d) fs → fs ≠ [] →
  visited d HEAD.
Proof.
  revert f. induction fs as [|p fs IH]; intros f Hc Hok Hne; [done|].
  apply Forall_cons in Hok as [Hp Hok].
  destruct fs as [|q fs].
  - destruct Hc as (_ & Hbottom & _). destruct Hp as (_ & Hv & _).
    by rewrite <-Hbottom.
  - eapply (IH p); [by eapply chain_tail|done|done].
Qed.

Lemma visited_lookup d v : visited d v → v < length d.
Proof. intros (p & Hp & _). by eapply lookup_lt_Some. Qed.

Lemma passed_mono d d' v i :
  (∀ w, visited d w → visited d' w) → passed g bad d v i → passed g bad d' v i.
Proof. intros Hm Hp j u e Hj Hl. destruct (Hp j u e Hj Hl); auto. Qed.

Lemma started_ok_mono d d' f :
  (∀ w, visited d w → visited d' w) →
  started_ok g bad d f → started_ok g bad d' f.
Proof.
  intros Hm (? & ? & ? & ? & ?). repeat split; auto.
  by eapply passed_mono.
Qed.

Lemma closed_mono d d' v :
  (∀ w, visited d w → visited d' w) → closed g bad d v → closed g bad d' v.
Proof. intros Hm Hc u e Hin Hb. by apply Hm, (Hc u e). Qed.

Lemma pop_component_spec b u above rest up :
  NoDup (above ++ u :: rest) →
  (∀ w, w ∈ above ++ [u] → w < length up) →
  ∃ up', pop_component b u (above ++ u :: rest) up = Some (rest, up') ∧
         length up' = length up ∧
         ∀ x, up' !! x = Some true →
              up !! x = Some true ∨ (b = true ∧ x ∈ above ++ [u]).
Proof.
  revert up. induction above as [|w above IH]; intros up Hnd Hlen; simpl.
  - destruct (lookup_lt_is_Some_2 up u) as [old Hold];
      [apply Hlen; by left|].
    unfold mark. rewrite Hold. simpl. rewrite Nat.eqb_refl.
    eexists. split; [done|]. split; [by rewrite length_insert|].
    intros x. destruct (decide (x = u)) as [->|Hne].
    + rewrite list_lookup_insert_eq by (by eapply lookup_lt_Some).
      intros [= Hor]. apply orb_true_iff in Hor as [->| ->]; [by left|].
      right. split; [done|]. by left.
    + rewrite list_lookup_insert_ne by done. by left.
  - apply NoDup_cons in Hnd as [Hw Hnd].
    destruct (lookup_lt_is_Some_2 up w) as [old Hold];
      [apply Hlen; by left|].
    unfold mark at 1. rewrite Hold. simpl.
    assert (w ≠ u) as Hwu.
    { intros ->. apply Hw. apply elem_of_app. right. by left. }
    apply Nat.eqb_neq in Hwu as Hwu'. rewrite Hwu'.
    destruct (IH (<[w := old || b]> up) Hnd) as (up' & -> & Hl & Hx).
    { intros x Hin. rewrite length_insert. apply Hlen. by right. }
    exists up'. split; [done|]. split; [by rewrite Hl, length_insert|].
    intros x Hup. destruct (Hx x Hup) as [Hold'|[? ?]].
    + destruct (decide (x = w)) as [->|Hne].
      * rewrite list_lookup_insert_eq in Hold'
          by (by eapply lookup_lt_Some).
        injection Hold' as Hor.
        apply orb_true_iff in Hor as [->| ->]; [by left|].
        right. split; [done|]. by left.
      * rewrite list_lookup_insert_ne in Hold' by done. by left.
    + right. split; [done|]. by right.
Qed.

Lemma mark_rest_spec ac up :
  (∀ w, w ∈ ac → w < length up) →
  ∃ up', mark_rest ac up = Some up' ∧ length up' = length up ∧
         ∀ x, up' !! x = Some true ↔ up !! x = Some true ∨ x ∈ ac.
Proof.
  revert up. induction ac as [|w ac IH]; intros up Hlen; simpl.
  - exists up. repeat split; try done; [by left|].
    by intros [?|?%elem_of_nil].
  - destruct (lookup_lt_is_Some_2 up w) as [old ->]; [apply Hlen; by left|].
    simpl. destruct (IH (<[w := true]> up)) as (up' & -> & Hl & Hx).
    { intros x Hin. rewrite length_insert. apply Hlen. by right. }
    exists up'. split; [done|]. split; [by rewrite Hl, length_insert|].
    intros x. rewrite Hx, elem_of_cons.
    destruct (decide (x = w)) as [->|Hne].
    + rewrite list_lookup_insert_eq by (apply Hlen; by left).
      split; [intros _; right; by left|intros _; by left].
    + rewrite list_lookup_insert_ne by done.
      split; [intros [?|?]; [by left|right; by right]|].
      intros [?|[?|?]]; [by left|done|by right].
Qed.

(** ** One turn of the loop *)

Lemma resume_ok st fm below :
  search_ok g bad n st → stk st = fm :: below →
  ∃ adjl i1 best1 d1 ac1 up1,
    g !! fv fm = Some adjl ∧
    resume adjl fm
      {| dfs := dfs st; upstream := upstream st; acc := acc st;
         stk := below; count := count st;
         child_reached := child_reached st |}
    = Some (i1, best1, d1, ac1, up1) ∧
    resumed_ok g bad n st fm below i1 best1 d1 ac1 up1.
Proof.
  intros [Hd Hup Hlow Hhead Hreach Hmarked Hcr Hfr Hnd Hacc Hclosed Hcount
            Hchain Hstack] Hstk.
  unfold stack_ok in Hstack. rewrite Hstk in *. simpl in Hcount.
  destruct Hstack as [Hbelow Htop].
  destruct Hwf as (Hn & Hg & Hent).
  unfold resume. simpl.
  destruct (fstarted fm) eqn:Hstarted.
  - (* back from the recursion on edge [fi fm] *)
    destruct Htop as ((_ & Hv & Hi & Hbest & Hpassed) & Hchild & Hok).
    destruct (lookup_lt_is_Some_2 g (fv fm)) as [adjl Hadj];
      [rewrite Hg, <-Hd; by apply visited_lookup|].
    pose proof (adj_lookup _ _ Hadj) as Hadj'. rewrite Hadj' in *.
    destruct (lookup_lt_is_Some_2 adjl (fi fm) Hi) as [[u e] Hue].
    assert (child_of g fm u) as Hcu by (exists e; by rewrite Hadj').
    pose proof (Hchild u Hcu) as (du & Hdu & Hdupos).
    destruct Hv as (dv & Hdv & Hdvpos).
    exists adjl. rewrite Hue. simpl. rewrite Hdu, Hdv. simpl.
    destruct Hok as (above & u' & rest & Hacc_eq & Hcu' & Hok).
    pose proof (child_of_functional _ _ _ Hcu' Hcu) as ->.
    assert (passed g bad (dfs st) (fv fm) (S (fi fm))) as Hpassed'.
    { intros j u0 e0 Hj Hl. destruct (decide (j = fi fm)) as [->|Hne].
      - rewrite Hadj', Hue in Hl. injection Hl as <- <-. right.
        by exists du.
      - apply (Hpassed j); [lia|done]. }
    assert (∀ v, visited (dfs st) v →
                 v = fv fm ∨ (∃ f, f ∈ below ∧ fv f = v) ∨
                 closed g bad (dfs st) v) as Hclosed'.
    { intros v [(f & [->|Hf]%elem_of_cons & <-)|?]%Hclosed; auto.
      right. left. by exists f. }
    destruct (dv.1 <=? du.2) eqn:Hart.
    + (* an articulation point: the component is popped *)
      destruct (pop_component_spec (child_reached st) u above rest
                  (upstream st)) as (up' & Hpop & Hlen & Hmarks).
      { by rewrite <-Hacc_eq. }
      { intros w Hw. rewrite Hup, <-Hd. apply visited_lookup, Hacc.
        rewrite Hacc_eq. apply elem_of_app in Hw as [?|Hw].
        - apply elem_of_app. by left.
        - apply list_elem_of_singleton in Hw as ->.
          apply elem_of_app. right. by left. }
      rewrite Hacc_eq, Hpop. simpl.
      eexists _, _, _, _, _. split; [done|]. split; [done|].
      rewrite Hacc_eq in Hnd.
      apply NoDup_app in Hnd as (_ & _ & [_ Hnd]%NoDup_cons).
      constructor; try done.
      * by rewrite Hlen.
      * intros v [Hold|[Hb Hin]]%Hmarks; [by apply Hmarked|].
        split; [|by apply Hcr]. apply Hacc. rewrite Hacc_eq.
        apply elem_of_app in Hin as [?|Hin].
        -- apply elem_of_app. by left.
        -- apply list_elem_of_singleton in Hin as ->.
           apply elem_of_app. right. by left.
      * intros w Hw. apply Hacc. rewrite Hacc_eq.
        apply elem_of_app. right. by right.
      * rewrite Hadj'. lia.
      * by exists dv.
      * lia.
    + (* no articulation point: the low-link is folded in *)
      apply Nat.leb_gt in Hart.
      eexists _, _, _, _, _. split; [done|]. split; [done|].
      assert (below ≠ []) as Hne.
      { intros ->. destruct Hchain as [Hroot _]. rewrite Hroot in Hdv.
        specialize (Hhead dv Hdv Hdvpos).
        specialize (Hlow u du Hdu Hdupos). lia. }
      constructor; try done.
      * rewrite Hacc_eq.
        replace (above ++ u :: rest) with ((above ++ [u]) ++ rest)
          by (by rewrite <-(assoc_L (++))).
        by apply acc_ok_absorb.
      * rewrite Hadj'. lia.
      * specialize (Hlow u du Hdu Hdupos). lia.
      * by exists dv.
      * lia.
  - (* at the vertex for the first time *)
    destruct Htop as ((_ & Hi & [x Hx] & Hbest & Hrv) & Hshape).
    apply lookup_lt_Some in Hx as Hlt.
    destruct (lookup_lt_is_Some_2 g (fv fm)) as [adjl Hadj];
      [rewrite Hg, <-Hd; done|].
    exists adjl. rewrite Hx. simpl.
    eexists _, _, _, _, _. split; [done|]. split; [done|].
    assert (0 < fbest fm) as Hbpos by lia.
    pose proof (visited_insert_new (dfs st) (fv fm) x (fbest fm)) as Hvis.
    assert (¬ visited (dfs st) (fv fm)) as Hnew.
    { intros (p & Hp & Hpos). rewrite Hx in Hp. injection Hp as <-.
      simpl in Hpos. lia. }
    assert (below = [] → fv fm = HEAD ∧ fbest fm = 1 ∧ acc st = [])
      as Hroot.
    { intros ->. destruct Hchain as [? _]. by destruct Hshape. }
    assert (fv fm = HEAD → below = []) as Hroot'.
    { intros Hv. destruct below as [|p below]; [done|]. exfalso.
      apply Hnew. rewrite Hv.
      by eapply (chain_bottom_visited (dfs st) fm (p :: below)). }
    constructor; try done.
    + by rewrite length_insert.
    + intros v p. destruct (decide (v = fv fm)) as [->|Hne].
      * rewrite list_lookup_insert_eq by done. intros [= <-] _. simpl. lia.
      * rewrite list_lookup_insert_ne by done. apply Hlow.
    + intros p. destruct (decide (HEAD = fv fm)) as [Heq|Hne].
      * rewrite Heq, list_lookup_insert_eq by done. intros [= <-] _.
        simpl. by destruct (Hroot (Hroot' (eq_sym Heq))) as (_ & ? & _).
      * rewrite list_lookup_insert_ne by done. apply Hhead.
    + intros w Hw. apply Hvis; [done..|by right].
    + intros v [->|?]%Hvis; [done|by apply Hreach|done..].
    + intros v [? ?]%Hmarked. split; [|done]. apply Hvis; [done..|by right].
    + apply NoDup_cons. split; [|done]. by intros ?%Hacc.
    + intros w [->|?%Hacc]%elem_of_cons; apply Hvis; try done;
        [by left|by right].
    + destruct below as [|p below].
      * destruct (Hroot eq_refl) as (-> & _ & ->). done.
      * destruct Hchain as [Hc _]. exists [], (fv fm), (acc st).
        split; [done|]. split; [done|]. done.
    + intros j u e Hj. lia.
    + rewrite Hi. apply Nat.le_0_l.
    + apply Hvis; [done..|by left].
    + rewrite (visited_count_insert_new _ _ x) by done. lia.
    + intros v [->|Hv]%Hvis; [by left|right|done..].
      destruct (Hclosed v Hv) as [(f & [->|Hf]%elem_of_cons & <-)|Hc].
      * done.
      * left. by exists f.
      * right. eapply closed_mono; [|done].
        intros w Hw. apply Hvis; [done..|by right].
Qed.

Lemma pending_started below d :
  Forall (started_ok g bad d) below → pending below = 0.
Proof.
  destruct below as [|p below]; [done|].
  intros [(Hs & _) _]%Forall_cons. simpl. by rewrite Hs.
Qed.

Lemma step_ok st fm below :
  search_ok g bad n st → stk st = fm :: below →
  ∃ st',
    step g bad fm
      {| dfs := dfs st; upstream := upstream st; acc := acc st;
         stk := below; count := count st;
         child_reached := child_reached st |} = Some st' ∧
    search_ok g bad n st' ∧ S (turns_left n st') = turns_left n st.
Proof.
  intros Hok Hstk.
  destruct (resume_ok st fm below Hok Hstk)
    as (adjl & i1 & best1 & d1 & ac1 & up1 & Hadj & Hres & Hmid).
  destruct Hok as [Hd Hup Hlow Hhead Hreach Hmarked Hcr Hfr Hnd Hacc Hclosed
                     Hcount Hchain Hstack].
  unfold stack_ok in Hstack. rewrite Hstk in *.
  destruct Hstack as [Hbelow _].
  destruct Hmid as [Md Mup Mlow Mhead Mmono Mreach Mmarked Mnd Macc Maccok
                      Mpassed Mindex Mbest Mhere Mcount Mclosed].
  pose proof (adj_lookup _ _ Hadj) as Hadj'. rewrite Hadj' in *.
  pose proof Hwf as (Hn & Hg & Hent).
  unfold step. simpl. rewrite Hadj. simpl. rewrite Hres. simpl.
  assert (∀ u e, (u, e) ∈ adjl → u < n ∧ e < length bad) as Hrange.
  { intros u e Hin. apply (Hent (fv fm)). by rewrite Hadj'. }
  assert (reachable g bad (fv fm)) as Hrv by (by apply Mreach).
  assert (∀ u e, (u, e) ∈ adjl → bad !! e = Some false →
                 reachable g bad u) as Hnext.
  { intros u e Hin Hb. apply (reach_step g bad (fv fm)); [done|].
    exists e. by rewrite Hadj'. }
  destruct (skip_edges_spec d1 (drop i1 adjl) i1 best1
              (freached fm || child_reached st) Md)
    as (k & best2 & reached2 & -> & Hk & Hskipped & Hstop & Hbest2 & Hr2);
    [|done|].
  { intros u e Hin%subseteq_drop. by apply Hrange. }
  simpl. rewrite length_drop in Hk.
  assert (reached2 = true → reachable g bad TAIL) as Hr2'.
  { intros [Hor|(e & Hin%subseteq_drop & Hb)]%Hr2; [|by eapply Hnext].
    apply orb_true_iff in Hor as [?|?]; [|by apply Hcr].
    apply (Hfr fm); [by left|done]. }
  assert (passed g bad d1 (fv fm) (i1 + k)) as Hpassed.
  { intros j u e Hj Hl. destruct (decide (j < i1)) as [?|Hge].
    - by apply (Mpassed j).
    - apply (Hskipped (j - i1)); [lia|]. rewrite lookup_drop.
      rewrite Hadj' in Hl. by replace (i1 + (j - i1)) with j by lia. }
  assert (Forall (started_ok g bad d1) below) as Hbelow1.
  { eapply Forall_impl; [done|]. intros f. by apply started_ok_mono. }
  destruct (i1 + k =? length adjl) eqn:Hend.
  - (* the edges of the vertex are exhausted *)
    apply Nat.eqb_eq in Hend.
    destruct Mhere as (dv & Hdv & Hdvpos). rewrite Hdv. simpl.
    eexists. split; [done|].
    pose proof (visited_insert_same d1 (fv fm) dv best2) as Hsame.
    assert (∀ w, visited d1 w →
                 visited (<[fv fm := (dv.1, best2)]> d1) w) as Hmono.
    { intros w Hw. by apply Hsame. }
    assert (closed g bad d1 (fv fm)) as Hhere_closed.
    { intros u e Hin Hb. rewrite Hadj' in Hin.
      apply list_elem_of_lookup in Hin as [j Hj].
      apply lookup_lt_Some in Hj as Hjlt.
      destruct (Hpassed j u e) as [?|?]; [lia|by rewrite Hadj'| |done].
      congruence. }
    split.
    + constructor; simpl.
      * by rewrite length_insert.
      * done.
      * intros v p. destruct (decide (v = fv fm)) as [->|Hne].
        -- rewrite list_lookup_insert_eq by (by eapply lookup_lt_Some).
           intros [= <-] _. simpl. by apply Hbest2.
        -- rewrite list_lookup_insert_ne by done. apply Mlow.
      * intros p. destruct (decide (HEAD = fv fm)) as [Heq|Hne].
        -- rewrite Heq, list_lookup_insert_eq by (by eapply lookup_lt_Some).
           intros [= <-] Hpos. simpl in *. apply (Mhead dv); [|done].
           by rewrite Heq.
        -- rewrite list_lookup_insert_ne by done. apply Mhead.
      * intros v Hv%Hsame; [|done]. by apply Mreach.
      * intros v [? ?]%Mmarked. split; [|done]. by apply Hmono.
      * done.
      * intros f Hf. apply Hfr. by right.
      * done.
      * intros w Hw. by apply Hmono, Macc.
      * intros v Hv%Hsame; [|done].
        destruct (Mclosed v Hv) as [->|[?|Hc]].
        -- right. by eapply closed_mono.
        -- by left.
        -- right. by eapply closed_mono.
      * rewrite (visited_count_insert_same d1 _ dv) by done.
        rewrite (pending_started below d1) by done. lia.
      * by eapply chain_tail.
      * unfold stack_ok. simpl. destruct below as [|p below]; [done|].
        apply Forall_cons in Hbelow1 as [Hp Hbelow1].
        split.
        { eapply Forall_impl; [done|]. intros f. by apply started_ok_mono. }
        pose proof Hp as (Hps & _). rewrite Hps.
        split; [by eapply started_ok_mono|]. split; [|done].
        intros u Hu. destruct Hchain as [Hc _].
        rewrite (child_of_functional _ _ _ Hu Hc).
        apply Hmono. by exists dv.
    + unfold turns_left. simpl. rewrite Hstk. simpl. lia.
  - (* recursion through the edge at [i1 + k] *)
    apply Nat.eqb_neq in Hend.
    destruct Hstop as (u & e & x & Hue & Hux & Hb);
      [rewrite length_drop; lia|].
    rewrite lookup_drop in Hue. rewrite Hue. simpl.
    eexists. split; [done|].
    assert ((u, e) ∈ adjl) as Hin by (by eapply list_elem_of_lookup_2).
    assert (reachable g bad u) as Hru by (by eapply Hnext).
    split.
    + constructor; simpl; try done.
      * intros f [->|[->|Hf]%elem_of_cons]%elem_of_cons; simpl.
        -- done.
        -- intros [?|Heq]%orb_true_iff; [by apply Hr2'|].
           apply Nat.eqb_eq in Heq. by rewrite <-Heq.
        -- apply Hfr. by right.
      * intros v Hv. destruct (Mclosed v Hv) as [->|[(f & Hf & <-)|Hc]].
        -- left. eexists. split; [right; by left|done].
        -- left. exists f. split; [by do 2 right|done].
        -- by right.
      * lia.
      * split; [exists e; simpl; by rewrite Hadj'|].
        by eapply (chain_same_vertex fm).
      * unfold stack_ok. simpl. split.
        { apply Forall_cons. split; [|done]. repeat split; simpl; try done.
          - rewrite Hadj'. lia.
          - by apply Hbest2. }
        split; [|done]. repeat split; simpl; try done. by exists x.
    + unfold turns_left. simpl. rewrite Hstk. simpl.
      pose proof (visited_count_room d1 u x Hux). lia.
Qed.

(** ** The whole loop *)

Lemma run_ok fuel st :
  search_ok g bad n st → turns_left n st ≤ fuel →
  ∃ st', run g bad fuel st = Some st' ∧ search_ok g bad n st' ∧
         stk st' = [].
Proof.
  revert st. induction fuel as [|fuel IH]; intros st Hok Hfuel.
  - unfold turns_left in Hfuel.
    destruct (stk st) as [|fm below] eqn:Hstk; [|simpl in Hfuel; lia].
    exists st. simpl. by rewrite Hstk.
  - destruct (stk st) as [|fm below] eqn:Hstk.
    + exists st. simpl. by rewrite Hstk.
    + destruct (step_ok st fm below Hok Hstk) as (st1 & Hstep & Hok1 & Hturns).
      simpl. rewrite Hstk, Hstep. simpl. apply IH; [done|lia].
Qed.

Lemma start_search_ok : search_ok g bad n (start_search n).
Proof.
  destruct Hwf as (Hn & Hg & Hent).
  assert (∀ v p, replicate n (0, 0) !! v = Some p → p = (0, 0)) as Hzero.
  { by intros v p [-> _]%lookup_replicate. }
  assert (∀ v, ¬ visited (replicate n (0, 0)) v) as Hnone.
  { intros v (p & ->%Hzero & Hpos). simpl in Hpos. lia. }
  assert (visited_count (replicate n (0, 0)) = 0) as Hcount.
  { unfold visited_count. clear. induction n as [|m IH]; [done|].
    simpl. rewrite filter_cons. simpl. repeat case_decide; simpl in *; lia. }
  constructor; simpl; try done.
  - by rewrite length_replicate.
  - by rewrite length_replicate.
  - intros v p ->%Hzero. simpl. lia.
  - intros p ->%Hzero. simpl. lia.
  - by intros v ?%Hnone.
  - intros v [Hv _]%lookup_replicate. discriminate Hv.
  - intros f ->%list_elem_of_singleton. simpl. discriminate.
  - constructor.
  - by intros w ?%elem_of_nil.
  - by intros v ?%Hnone.
  - by rewrite Hcount.
  - unfold stack_ok. simpl. split; [done|]. split; [|done].
    repeat split; simpl; try done; [|constructor].
    exists 0. apply lookup_replicate. split; [done|lia].
Qed.

Lemma run_completes fuel :
  2 * n ≤ fuel →
  ∃ st, run g bad fuel (start_search n) = Some st ∧
        search_ok g bad n st ∧ stk st = [] ∧ acc st = [HEAD].
Proof.
  intros Hfuel. destruct Hwf as (Hn & _).
  destruct (run_ok fuel (start_search n) start_search_ok)
    as (st & Hrun & Hok & Hstk).
  { unfold turns_left. simpl. lia. }
  exists st. split; [done|]. split; [done|]. split; [done|].
  pose proof (ok_stack _ _ _ _ Hok) as Hstack.
  unfold stack_ok in Hstack. rewrite Hstk in Hstack. exact Hstack.
Qed.

Lemma finished_visits_reachable st :
  search_ok g bad n st → stk st = [] → acc st = [HEAD] →
  ∀ v, visited (dfs st) v ↔ reachable g bad v.
Proof.
  intros Hok Hstk Hacc v. split; [apply (ok_reach _ _ _ _ Hok)|].
  induction 1 as [|u v _ IH (e & Hin & Hb)].
  - apply (ok_acc _ _ _ _ Hok). rewrite Hacc. by left.
  - destruct (ok_closed _ _ _ _ Hok u IH) as [(f & Hf & _)|Hc].
    + rewrite Hstk in Hf. by apply elem_of_nil in Hf.
    + by apply (Hc v e).
Qed.

(** C7: on a graph of [n] vertices with all entries in range, [traverse]
    given [2 * n] turns of its loop runs until the frame stack is empty and
    returns; the vertices with a discovery number are then exactly those
    reachable from HEAD through non-deleted edges, the number of discovery
    numbers handed out ([count - 1]) is the number of visited vertices, so
    none is visited twice, and no unreachable vertex is marked upstream. *)
Theorem traverse_visits_reachable fuel :
  2 * n ≤ fuel →
  ∃ st up,
    run g bad fuel (start_search n) = Some st ∧ stk st = [] ∧
    traverse g bad fuel n = Some (dfs st, up) ∧
    (∀ v, visited (dfs st) v ↔ reachable g bad v) ∧
    count st = S (visited_count (dfs st)) ∧
    length up = n ∧
    (∀ v, ¬ reachable g bad v → ¬ visited (dfs st) v ∧ up !! v ≠ Some true).
Proof.
  intros Hfuel.
  destruct (run_completes fuel Hfuel) as (st & Hrun & Hok & Hstk & Hacc).
  pose proof (finished_visits_reachable st Hok Hstk Hacc) as Hiff.
  destruct (mark_rest_spec (acc st) (upstream st)) as (up & Hmark & Hl & Hup).
  { intros w Hw. rewrite (ok_upstream _ _ _ _ Hok), <-(ok_dfs _ _ _ _ Hok).
    by apply visited_lookup, (ok_acc _ _ _ _ Hok). }
  exists st, up. unfold traverse. rewrite Hrun. simpl. rewrite Hmark. simpl.
  repeat split; try done.
  - by apply Hiff.
  - by apply Hiff.
  - pose proof (ok_count _ _ _ _ Hok) as Hc. rewrite Hstk in Hc.
    simpl in Hc. lia.
  - by rewrite Hl, (ok_upstream _ _ _ _ Hok).
  - intros Hv. by apply H, Hiff.
  - intros [Hold|Hin]%Hup; apply H.
    + by apply (ok_reach _ _ _ _ Hok), (ok_marked _ _ _ _ Hok).
    + rewrite Hacc in Hin. apply list_elem_of_singleton in Hin as ->.
      constructor.
Qed.

(** What a mark implies: when [traverse] returns, the accumulator is left
    holding HEAD alone, which is then marked upstream whether or not TAIL can
    be reached; every vertex marked upstream is reachable from HEAD through
    non-deleted edges, and if any vertex other than HEAD is marked then TAIL
    is reachable from HEAD as well. *)
Lemma traverse_marks fuel :
  2 * n ≤ fuel →
  ∃ st up,
    run g bad fuel (start_search n) = Some st ∧ acc st = [HEAD] ∧
    traverse g bad fuel n = Some (dfs st, up) ∧
    up !! HEAD = Some true ∧
    (∀ v, up !! v = Some true → reachable g bad v) ∧
    (∀ v, up !! v = Some true → v ≠ HEAD → reachable g bad TAIL).
Proof.
  intros Hfuel.
  destruct (run_completes fuel Hfuel) as (st & Hrun & Hok & Hstk & Hacc).
  destruct (mark_rest_spec (acc st) (upstream st)) as (up & Hmark & Hl & Hup).
  { intros w Hw. rewrite (ok_upstream _ _ _ _ Hok), <-(ok_dfs _ _ _ _ Hok).
    by apply visited_lookup, (ok_acc _ _ _ _ Hok). }
  exists st, up. unfold traverse. rewrite Hrun. simpl. rewrite Hmark. simpl.
  repeat split; try done.
  - apply Hup. right. rewrite Hacc. by left.
  - intros v [Hold|Hin]%Hup.
    + by apply (ok_reach _ _ _ _ Hok), (ok_marked _ _ _ _ Hok).
    + rewrite Hacc in Hin. apply list_elem_of_singleton in Hin as ->.
      constructor.
  - intros v [Hold|Hin]%Hup Hne.
    + by apply (ok_marked _ _ _ _ Hok v).
    + rewrite Hacc in Hin. by apply list_elem_of_singleton in Hin.
Qed.

(** ** Simple paths *)

Lemma simple_path_before_tail S p v :
  closed_before_tail g bad S → simple_path g bad p → v ∈ p →
  v = TAIL ∨ S v = true.
Proof.
  intros [Hhead Hclosed] (Hfirst & Hlast & Hnd & Hwalk).
  destruct p as [|u p]; [done|]. injection Hfirst as ->.
  revert Hhead Hlast Hnd Hwalk. generalize HEAD as u.
  induction p as [|w p IH]; intros u Hu Hlast Hnd Hwalk Hv.
  - apply list_elem_of_singleton in Hv as ->. by right.
  - apply elem_of_cons in Hv as [->|Hv]; [by right|].
    destruct Hwalk as [Hj Hwalk]. apply NoDup_cons in Hnd as [_ Hnd].
    destruct (Hclosed u w Hu Hj) as [->|Hw].
    + destruct p as [|x p].
      * apply list_elem_of_singleton in Hv as ->. by left.
      * exfalso. apply NoDup_cons in Hnd as [Hnot _]. apply Hnot.
        change (last (u :: TAIL :: x :: p)) with (last (x :: p)) in Hlast.
        by apply last_Some_elem_of.
    + by apply (IH w).
Qed.

End TraverseFacts.

(** * The traversal on the graphs of [read_graph] *)

Lemma read_graph_well_formed fuel bytes startingpoints t :
  FastBuild.read_graph fuel bytes startingpoints = Some t →
  well_formed (graph t) (badedge t) (nodes t).
Proof.
  intros H%FastFacts.read_graph_wired.
  pose proof (wired_phase_dummy t H) as (_ & Hb & _).
  apply wired_phase_assembled, (assembled_sound terminated) in H.
  destruct H as [_ _ Hg Htwo _ _ _ _ _ _ _ Hent _ _].
  split; [lia|]. split; [done|]. intros v u e Hin.
  destruct (Hent v u e Hin). rewrite Hb. lia.
Qed.

Lemma closed_before_tailb_correct g bad S :
  closed_before_tailb g bad S = true → closed_before_tail g bad S.
Proof.
  unfold closed_before_tailb. intros [Hhead Hall]%andb_true_iff.
  split; [done|]. intros u v Hu (e & Hin & Hb).
  rewrite forallb_forall in Hall.
  assert (u < length g) as Hlt.
  { unfold adj in Hin. destruct (g !! u) eqn:E; [by eapply lookup_lt_Some|].
    by apply elem_of_nil in Hin. }
  assert (In u (seq 0 (length g))) as Hu' by (apply in_seq; lia).
  specialize (Hall u Hu'). rewrite Hu in Hall. simpl in Hall.
  rewrite forallb_forall in Hall.
  assert (In (v, e) (adj g u)) as Hin' by (by apply list_elem_of_In).
  specialize (Hall (v, e) Hin'). simpl in Hall.
  rewrite (bool_decide_eq_true_2 _ Hb) in Hall. simpl in Hall.
  rewrite orb_false_r in Hall.
  apply orb_true_iff in Hall as [Heq|?]; [|by right].
  left. by apply Nat.eqb_eq.
Qed.

Lemma well_formedb_correct g bad n :
  well_formedb g bad n = true → well_formed g bad n.
Proof.
  unfold well_formedb.
  intros [[Hn%Nat.ltb_lt Hg%Nat.eqb_eq]%andb_true_iff Hall]%andb_true_iff.
  repeat split; try done; unfold adj in *;
    destruct (g !! v) as [l|] eqn:E; try (by apply elem_of_nil in H);
    rewrite forallb_forall in Hall;
    apply list_elem_of_lookup_2, list_elem_of_In, Hall in E;
    rewrite forallb_forall in E;
    apply list_elem_of_In, E in H; simpl in H;
    apply andb_true_iff in H as [?%Nat.ltb_lt ?%Nat.ltb_lt]; done.
Qed.

Lemma traverse_visits_reachable_witness :
  ∃ st up,
    run graph_pair [false; false] 8 (start_search 4) = Some st ∧
    stk st = [] ∧
    traverse graph_pair [false; false] 8 4 = Some (dfs st, up) ∧
    (∀ v, visited (dfs st) v ↔ reachable graph_pair [false; false] v) ∧
    count st = S (visited_count (dfs st)) ∧
    length up = 4 ∧
    (∀ v, ¬ reachable graph_pair [false; false] v →
          ¬ visited (dfs st) v ∧ up !! v ≠ Some true).
Proof.
  apply (traverse_visits_reachable graph_pair [false; false] 4).
  - apply well_formedb_correct. reflexivity.
  - lia.
Defined.

(** C1 fails on the code.  On [doc_detached] with starting point A (rows
    A-C and B-D, controllers A and B) the controller B, vertex 4, hangs off
    TAIL only: it lies on no simple path from HEAD to TAIL.  [traverse] marks
    it upstream all the same (it is a child of TAIL in the search, sees TAIL
    as a visited neighbour and so sets its [reached] flag), and the program
    writes its name, in either build. *)
Theorem traverse_marks_detached :
  built <$> FastBuild.read_graph 150 doc_detached [lit "A"] =
    Some (graph_detached, [false; false; false], 6,
          [[]; []; ident "A"; ident "C"; ident "B"; ident "D"],
          [ident "E1"; ident "E2"; []]) ∧
  RobustBuild.read_graph 150 doc_detached [lit "A"] =
    FastBuild.read_graph 150 doc_detached [lit "A"] ∧
  snd <$> traverse graph_detached [false; false; false] 12 6 =
    Some [true; true; true; false; true; false] ∧
  ¬ on_simple_path graph_detached [false; false; false] 4 ∧
  main_fast 150 doc_detached [lit "A"] =
    Some [[]; []; ident "A"; ident "A"; []; []; []; []; ident "B";
          ident "B"] ∧
  main_robust 150 doc_detached [lit "A"] =
    main_fast 150 doc_detached [lit "A"].
Proof.
  split; [vm_compute; reflexivity|]. split; [vm_compute; reflexivity|].
  split; [vm_compute; reflexivity|]. split.
  - intros (p & Hp & Hin).
    eapply (simple_path_before_tail _ _
              (λ v, (v =? 0) || (v =? 2) || (v =? 3))) in Hin
      as [Heq|Heq]; [discriminate Heq|discriminate Heq| |done].
    apply closed_before_tailb_correct. reflexivity.
  - split; vm_compute; reflexivity.
Qed.

(** Two more departures from "marked exactly when on a simple path", both
    of them harmless since HEAD and TAIL have no name.  On [doc_pair] with
    starting point A, TAIL ends the simple path HEAD, A, B, TAIL and is not
    marked.  On [doc_pair] without starting points HEAD has no edge, so
    there is no path at all, and HEAD is marked. *)
Lemma sentinel_marks :
  (built <$> FastBuild.read_graph 100 doc_pair [lit "A"] =
     Some (graph_pair, [false; false], 4,
           [[]; []; ident "A"; ident "B"], [ident "E1"; []]) ∧
   snd <$> traverse graph_pair [false; false] 8 4 =
     Some [true; false; true; true] ∧
   on_simple_path graph_pair [false; false] TAIL) ∧
  (built <$> FastBuild.read_graph 100 doc_pair [] =
     Some (graph_unstarted, [false; false], 4,
           [[]; []; ident "A"; ident "B"], [ident "E1"; []]) ∧
   snd <$> traverse graph_unstarted [false; false] 8 4 =
     Some [true; false; false; false] ∧
   ¬ on_simple_path graph_unstarted [false; false] HEAD).
Proof.
  split.
  - split; [vm_compute; reflexivity|]. split; [vm_compute; reflexivity|].
    exists [0; 2; 3; 1]. split; [|by apply (bool_decide_unpack _)].
    split; [reflexivity|]. split; [reflexivity|].
    split; [by apply (bool_decide_unpack _)|].
    repeat split.
    + exists 1. split; [by apply (bool_decide_unpack _)|reflexivity].
    + exists 0. split; [by apply (bool_decide_unpack _)|reflexivity].
    + exists 1. split; [by apply (bool_decide_unpack _)|reflexivity].
  - split; [vm_compute; reflexivity|]. split; [vm_compute; reflexivity|].
    intros (p & (Hfirst & Hlast & _ & Hwalk) & _).
    destruct p as [|u [|w p]]; [done|..].
    + injection Hfirst as ->. discriminate Hlast.
    + injection Hfirst as ->. destruct Hwalk as [(e & Hin & _) _].
      by apply elem_of_nil in Hin.
Qed.

(** * The identifier tables and the vectors *)

Lemma link2_grows u v e (g g' : adjacency) w x :
  link2 u v e g = Some g' → x ∈ adj g w → x ∈ adj g' w.
Proof.
  intros (_ & _ & _ & Hadj)%link2_spec Hx. rewrite Hadj, !elem_of_app. auto.
Qed.

Lemma link2_adds u v e (g g' : adjacency) :
  link2 u v e g = Some g' → (v, e) ∈ adj g' u ∧ (u, e) ∈ adj g' v.
Proof.
  intros (_ & _ & _ & Hadj)%link2_spec. rewrite !Hadj, !elem_of_app.
  split.
  - right. left. rewrite decide_True by done. by left.
  - right. right. rewrite decide_True by done. by left.
Qed.

Lemma link2_only u v e (g g' : adjacency) w x :
  link2 u v e g = Some g' → x ∈ adj g' w →
  x ∈ adj g w ∨ (w = u ∧ x = (v, e)) ∨ (w = v ∧ x = (u, e)).
Proof.
  intros (_ & _ & _ & Hadj)%link2_spec. rewrite Hadj, !elem_of_app.
  intros [H|[H|H]]; [by left| |]; case_decide;
    try (by apply elem_of_nil in H);
    apply list_elem_of_singleton in H; auto.
Qed.

Lemma link2_defined u v e (g : adjacency) :
  u < length g → v < length g → is_Some (link2 u v e g).
Proof.
  intros Hu Hv. unfold link2, link.
  destruct (lookup_lt_is_Some_2 g u Hu) as [l ->]. simpl.
  destruct (lookup_lt_is_Some_2 (<[u := l ++ [(v, e)]]> g) v) as [l' ->];
    [by rewrite length_insert|]. simpl. eauto.
Qed.

Lemma link2_iff u v e (g g' : adjacency) w x :
  link2 u v e g = Some g' →
  x ∈ adj g' w ↔
  x ∈ adj g w ∨ (w = u ∧ x = (v, e)) ∨ (w = v ∧ x = (u, e)).
Proof.
  intros H. split; [by apply (link2_only u v e g g')|].
  intros [Hx|[[-> ->]|[-> ->]]].
  - by eapply link2_grows.
  - exact (proj1 (link2_adds _ _ _ _ _ H)).
  - exact (proj2 (link2_adds _ _ _ _ _ H)).
Qed.

Lemma wire_all_iff s e vs (g g' : adjacency) w x :
  wire_all s e vs g = Some g' →
  x ∈ adj g' w ↔
  x ∈ adj g w ∨ ∃ v, v ∈ vs ∧ ((w = s ∧ x = (v, e)) ∨ (w = v ∧ x = (s, e))).
Proof.
  revert g. induction vs as [|v vs IH]; intros g H; simplify_eq/=.
  - split; [by left|]. intros [?|(v & Hv & _)]; [done|].
    by apply elem_of_nil in Hv.
  - destruct (link2 s v e g) as [g1|] eqn:Hl; simplify_eq/=.
    rewrite (IH g1 H), (link2_iff _ _ _ _ _ _ _ Hl). split.
    + intros [[?|?]|(v' & Hv' & ?)]; [by left| |].
      * right. exists v. split; [by left|done].
      * right. exists v'. split; [by right|done].
    + intros [?|(v' & [->|Hv']%elem_of_cons & ?)]; [by left; left| |].
      * left. by right.
      * right. by exists v'.
Qed.

Lemma explode_segment_iff s id p t v t' w x :
  explode_segment s id p t = Some (v, t') →
  x ∈ adj (graph t') w ↔
  x ∈ adj (graph t) w ∨ segment_entry s (nodes t) p (edges t) w x.
Proof.
  unfold explode_segment, segment_entry. intros H.
  destruct (link2 s _ _ _) as [g1|] eqn:H1; simplify_eq/=.
  destruct (link2 _ p.1 _ _) as [g2|] eqn:H2; simplify_eq/=.
  destruct (link2 _ p.2 _ _) as [g3|] eqn:H3; simplify_eq/=.
  rewrite (link2_iff _ _ _ _ _ _ _ H3), (link2_iff _ _ _ _ _ _ _ H2),
    (link2_iff _ _ _ _ _ _ _ H1), adj_grow.
  tauto.
Qed.

Lemma explode_iff s id segs made t made' t' w x :
  explode s id segs made t = Some (made', t') →
  x ∈ adj (graph t') w ↔
  x ∈ adj (graph t) w ∨
  ∃ i p, segs !! i = Some p ∧
         segment_entry s (nodes t + i) p (edges t) w x.
Proof.
  revert made t. induction segs as [|p segs IH]; intros made t H;
    simplify_eq/=.
  - split; [by left|]. by intros [?|(i & q & ? & _)].
  - destruct (explode_segment s id p t) as [[v t1]|] eqn:H1; simplify_eq/=.
    rewrite (IH _ _ H), (explode_segment_iff _ _ _ _ _ _ _ _ H1).
    apply explode_segment_spec in H1
      as (_ & -> & _ & _ & _ & -> & _).
    split.
    + intros [[?|?]|(i & q & Hq & Hs)]; [by left| |].
      * right. exists 0, p. by rewrite Nat.add_0_r.
      * right. exists (S i), q. split; [done|].
        by replace (nodes t + S i) with (S (nodes t) + i) by lia.
    + intros [?|([|i] & q & Hq & Hs)]; [by left; left| |].
      * simplify_eq/=. rewrite Nat.add_0_r in Hs. left. by right.
      * right. exists i, q. split; [done|].
        by replace (S (nodes t) + i) with (nodes t + S i) by lia.
Qed.

(** [designate] taken apart: the vertex part, then one of the three cases
    of the edge part. *)
Lemma designate_cases s id t t' :
  designate s id t = Some t' →
  ∃ g1,
    (match idx t !! id with
     | Some v => link2 s v (edges t) (graph t) = Some g1
     | None => g1 = graph t
     end) ∧
    match edgeidx t !! id with
    | None => t' = set_graph g1 t
    | Some e =>
        match badedge t !! e with
        | None => False
        | Some true =>
            ∃ g2, wire_all s (edges t) (substitutes t e) g1 = Some g2 ∧
                  t' = {| graph := g2; name := name t;
                          edgename := edgename t; badedge := badedge t;
                          nodes := nodes t; edges := edges t;
                          controllers := controllers t;
                          edgenodes := edgenodes t; idx := idx t;
                          edgeidx := edgeidx t;
                          edgevtx := <[e := substitutes t e]> (edgevtx t) |}
        | Some false =>
            ∃ segs made t3,
              edgenodes t !! e = Some segs ∧
              explode s id segs (substitutes t e)
                {| graph := g1; name := name t; edgename := edgename t;
                   badedge := <[e := true]> (badedge t); nodes := nodes t;
                   edges := edges t; controllers := controllers t;
                   edgenodes := edgenodes t; idx := idx t;
                   edgeidx := edgeidx t; edgevtx := edgevtx t |}
                = Some (made, t3) ∧
              t' = {| graph := graph t3; name := name t3;
                      edgename := edgename t3; badedge := badedge t3;
                      nodes := nodes t3; edges := edges t3;
                      controllers := controllers t3;
                      edgenodes := edgenodes t3; idx := idx t3;
                      edgeidx := edgeidx t3;
                      edgevtx := <[e := made]> (edgevtx t3) |}
        end
    end.
Proof.
  unfold designate, substitutes. intros H.
  destruct (match idx t !! id with Some _ => _ | None => _ end)
    as [t1|] eqn:H1; simplify_eq/=.
  assert (∃ g1, t1 = set_graph g1 t ∧
                match idx t !! id with
                | Some v => link2 s v (edges t) (graph t) = Some g1
                | None => g1 = graph t
                end) as (g1 & -> & Hg1).
  { destruct (idx t !! id) as [v|]; simplify_eq/=.
    - destruct (link2 _ _ _ _) as [g|] eqn:Hl; simplify_eq/=. by exists g.
    - exists (graph t1). split; [by destruct t1|done]. }
  clear H1. exists g1. split; [done|]. simpl in H.
  destruct (edgeidx t !! id) as [e|]; simplify_eq/=; [|done].
  destruct (badedge t !! e) as [[]|]; simplify_eq/=.
  - destruct (wire_all _ _ _ _) as [g2|] eqn:Hw; simplify_eq/=. by exists g2.
  - destruct (edgenodes t !! e) as [segs|]; simplify_eq/=.
    destruct (explode _ _ _ _ _) as [[made t3]|] eqn:Hx; simplify_eq/=.
    by exists segs, made, t3.
Qed.

Lemma designate_entries s id t t' w x :
  designate s id t = Some t' → x ∈ adj (graph t) w → x ∈ adj (graph t') w.
Proof.
  intros (g1 & Hg1 & H)%designate_cases Hx.
  assert (x ∈ adj g1 w) as Hx1.
  { destruct (idx t !! id) as [v|]; [|by subst].
    by eapply link2_grows. }
  destruct (edgeidx t !! id) as [e|]; [|by subst].
  destruct (badedge t !! e) as [[]|]; [| |done].
  - destruct H as (g2 & Hw & ->). simpl.
    apply (wire_all_iff _ _ _ _ _ _ _ Hw). by left.
  - destruct H as (segs & made & t3 & _ & Hx3 & ->). simpl.
    apply (explode_iff _ _ _ _ _ _ _ _ _ Hx3). by left.
Qed.

Lemma designate_names s id t t' :
  designate s id t = Some t' →
  ∃ k, name t' = name t ++ replicate k id ∧ nodes t' = nodes t + k.
Proof.
  intros (g1 & Hg1 & H)%designate_cases.
  destruct (edgeidx t !! id) as [e|].
  - destruct (badedge t !! e) as [[]|]; [| |done].
    + destruct H as (g2 & _ & ->). exists 0. simpl.
      by rewrite app_nil_r, Nat.add_0_r.
    + destruct H as (segs & made & t3 & _ & Hx & ->).
      apply explode_spec in Hx as (_ & Hn & Hname & _). simpl in *.
      by exists (length segs).
  - subst t'. exists 0. simpl. by rewrite app_nil_r, Nat.add_0_r.
Qed.

Lemma designate_substitutes s id t t' e :
  designate s id t = Some t' →
  (edgeidx t !! id = Some e ∧ badedge t !! e = Some false ∧
   ∃ segs, edgenodes t !! e = Some segs ∧
           substitutes t' e = substitutes t e ++ seq (nodes t) (length segs) ∧
           name t' = name t ++ replicate (length segs) id ∧
           nodes t' = nodes t + length segs ∧
           badedge t' = <[e := true]> (badedge t)) ∨
  (substitutes t' e = substitutes t e ∧ name t' = name t ∧
   nodes t' = nodes t ∧ badedge t' = badedge t ∧
   (edgeidx t !! id = Some e → badedge t !! e = Some true) ∧
   (edgevtx t' !! e = edgevtx t !! e ∨
    edgeidx t !! id = Some e)) ∨
  (edgeidx t !! id ≠ Some e ∧ substitutes t' e = substitutes t e ∧
   edgevtx t' !! e = edgevtx t !! e).
Proof.
  intros (g1 & Hg1 & H)%designate_cases.
  destruct (edgeidx t !! id) as [e'|] eqn:He'.
  - destruct (badedge t !! e') as [[]|] eqn:Hb; [| |done].
    + destruct H as (g2 & _ & ->). right. left. unfold substitutes. simpl.
      destruct (decide (e = e')) as [->|Hne].
      * rewrite lookup_insert_eq. repeat split; auto.
      * rewrite lookup_insert_ne by done. repeat split; auto.
        intros ?. by simplify_eq.
    + destruct H as (segs & made & t3 & Hs & Hx & ->).
      apply explode_spec in Hx
        as (-> & Hn & Hname & _ & Hbad & _ & _ & _ & _ & _ & Hvtx).
      simpl in *. destruct (decide (e = e')) as [->|Hne].
      * left. repeat split; try done. exists segs.
        unfold substitutes at 1. simpl. rewrite lookup_insert_eq. done.
      * right. right. unfold substitutes. simpl.
        rewrite lookup_insert_ne, Hvtx by done.
        split; [congruence|done].
  - subst t'. right. right. done.
Qed.

Section Indexed.
Context (P : text → Prop).

Lemma indexed_init : indexed init_tables.
Proof.
  constructor; simpl.
  - done.
  - intros v Hv. lia.
  - intros e He. lia.
  - done.
  - intros e segs a b He. by destruct e.
  - intros e. rewrite lookup_empty. split; [by destruct e|by intros []].
Qed.

Lemma vertex_of_indexed id t v t1 :
  sound P t → indexed t → vertex_of id t = (v, t1) → indexed t1.
Proof.
  intros Hs [Hv Hc He Hi Hr Hd]. unfold vertex_of.
  destruct (idx t !! id) as [w|] eqn:Hid; intros; simplify_eq; [done|].
  pose proof (sound_name _ _ Hs) as Hlen.
  constructor; simpl; try done.
  - intros id' v'. rewrite lookup_insert. case_decide.
    + intros. simplify_eq. rewrite lookup_app_r by lia.
      by rewrite Hlen, Nat.sub_diag.
    + intros Hv'. rewrite lookup_app_l; [by apply Hv|].
      rewrite Hlen. apply (sound_idx _ _ Hs) in Hv' as [? _]. lia.
  - intros v' Hv'. destruct (decide (v' = nodes t)) as [->|Hne].
    + left. exists id. by rewrite lookup_insert_eq.
    + destruct (Hc v') as [(id' & Hid')|(id' & e & ? & ? & Hn)];
        [simpl in Hv'; lia| |].
      * left. exists id'. rewrite lookup_insert_ne; [done|]. congruence.
      * right. exists id', e. split; [done|]. split; [done|].
        rewrite lookup_app_l; [done|]. by eapply lookup_lt_Some.
  - intros e segs a b Hsegs Hin.
    destruct (Hr e segs a b Hsegs Hin) as (? & ? & ? & ?).
    by rewrite !adj_grow.
Qed.

Lemma edge_of_indexed id t e t1 :
  sound P t → indexed t → edge_of id t = (e, t1) → indexed t1.
Proof.
  intros Hs [Hv Hc He Hi Hr Hd]. unfold edge_of.
  destruct (edgeidx t !! id) as [w|] eqn:Hid; intros; simplify_eq; [done|].
  constructor; simpl; try done.
  - intros v' Hv'.
    destruct (Hc v' Hv') as [?|(id' & e & ? & ? & ?)]; [by left|].
    right. exists id', e. split; [|done].
    rewrite lookup_insert_ne; [done|]. congruence.
  - intros e Hlt. destruct (decide (e = edges t)) as [->|Hne].
    + exists id. by rewrite lookup_insert_eq.
    + destruct (He e) as [id' Hid']; [simpl in Hlt; lia|]. exists id'.
      rewrite lookup_insert_ne; [done|]. congruence.
  - intros id1 id2 e. rewrite !lookup_insert.
    repeat case_decide; intros; simplify_eq; try done.
    + by apply (sound_edgeidx _ _ Hs) in H2 as [? _]; lia.
    + by apply (sound_edgeidx _ _ Hs) in H1 as [? _]; lia.
    + by eapply Hi.
  - intros e segs a b Hsegs Hin.
    apply lookup_app_Some in Hsegs as [Hsegs|[_ Hsegs]]; [by eapply Hr|].
    destruct (e - length (edgenodes t)) as [|k]; simplify_eq/=.
    by apply elem_of_nil in Hin.
  - intros e. rewrite <-Hd. split.
    + intros [Hb|[_ Hb]]%lookup_app_Some; [done|].
      by destruct (e - length (badedge t)) as [|k].
    + intros Hb. by rewrite lookup_app_l by (by eapply lookup_lt_Some).
Qed.

Lemma add_row_indexed edge source target t t' :
  sound P t → P edge → P source → P target → indexed t →
  add_row edge source target t = Some t' → indexed t'.
Proof.
  intros Ht He Hs Hg Hix. unfold add_row.
  destruct (vertex_of source t) as [sv t1] eqn:H1.
  destruct (vertex_of target t1) as [tv t2] eqn:H2.
  destruct (edge_of edge t2) as [ev t3] eqn:H3.
  pose proof (vertex_of_indexed _ _ _ _ Ht Hix H1) as Hix1.
  apply (vertex_of_sound P) in H1 as (Ht1 & Hsv & _); [|done..].
  pose proof (vertex_of_indexed _ _ _ _ Ht1 Hix1 H2) as Hix2.
  apply (vertex_of_sound P) in H2 as (Ht2 & Htv & _); [|done..].
  pose proof (edge_of_indexed _ _ _ _ Ht2 Hix2 H3) as Hix3.
  apply (edge_of_sound P) in H3 as (Ht3 & Hev & Hn3 & Hg3 & _); [|done..].
  intros H. destruct (edgenodes t3 !! ev) as [segs|] eqn:Hsegs; simplify_eq/=.
  destruct (link2 sv tv ev (graph t3)) as [g|] eqn:Hl; simplify_eq/=.
  destruct Hix3 as [Hv Hc Hed Hi Hr Hd].
  constructor; simpl; try done.
  intros e segs' a b Hs' Hin.
  assert (∀ e' segs' a b, edgenodes t3 !! e' = Some segs' → (a, b) ∈ segs' →
            2 ≤ a ∧ 2 ≤ b ∧ (b, e') ∈ adj g a ∧ (a, e') ∈ adj g b) as Hold.
  { intros e' s' a' b' H1 H2. destruct (Hr e' s' a' b' H1 H2) as (?&?&?&?).
    repeat split; try done; by eapply link2_grows. }
  destruct (decide (e = ev)) as [->|Hne].
  - rewrite list_lookup_insert_eq in Hs' by (by eapply lookup_lt_Some).
    simplify_eq. apply elem_of_app in Hin as [Hin|Hin]; [by eapply Hold|].
    apply list_elem_of_singleton in Hin. simplify_eq.
    destruct (link2_adds _ _ _ _ _ Hl). repeat split; try done; lia.
  - rewrite list_lookup_insert_ne in Hs' by done. by eapply Hold.
Qed.

Lemma add_dummy_indexed t : indexed t → indexed (add_dummy t).
Proof.
  intros [Hv Hc He Hi Hr Hd]. constructor; simpl; try done.
  intros e. rewrite <-Hd. split.
  - intros [Hb|[_ Hb]]%lookup_app_Some; [done|].
    by destruct (e - length (badedge t)) as [|k].
  - intros Hb. by rewrite lookup_app_l by (by eapply lookup_lt_Some).
Qed.

Lemma count_controller_indexed t : indexed t → indexed (count_controller t).
Proof. intros [Hv Hc He Hi Hr Hd]. by constructor. Qed.

Lemma designate_indexed s id t t' :
  sound P t → indexed t → designate s id t = Some t' → indexed t'.
Proof.
  intros Hs [Hv Hc He Hi Hr Hd] H.
  pose proof (designate_frame _ _ _ _ H)
    as (Ee & Een & _ & Eidx & Eei & Eseg & _ & _ & _).
  pose proof (designate_names _ _ _ _ H) as (k & Ename & Enodes).
  pose proof (sound_name _ _ Hs) as Hlen.
  assert (∀ v x, name t !! v = Some x → name t' !! v = Some x) as Hkeep.
  { intros v x Hx. rewrite Ename. by apply lookup_app_l_Some. }
  constructor.
  - intros id' v Hv'. rewrite Eidx in Hv'. by apply Hkeep, Hv.
  - intros v Hlt. rewrite Eidx, Eei.
    destruct (decide (v < nodes t)) as [Hold|Hnew].
    + destruct (Hc v) as [?|(id' & e & Hid' & Hin & Hn)]; [lia|by left|].
      right. exists id', e. split; [done|]. split; [|by apply Hkeep].
      destruct (designate_substitutes _ _ _ _ e H)
        as [(_ & _ & segs & _ & -> & _)|[(-> & _)|(_ & -> & _)]];
        try done.
      apply elem_of_app. by left.
    + right. destruct (edgeidx t !! id) as [e|] eqn:Hid.
      * destruct (designate_substitutes _ _ _ _ e H)
          as [(_ & _ & segs & _ & Hsub & Hname & Hn & _)
             |[(_ & _ & Hn & _)|(Hne & _)]]; [|lia|done].
        exists id, e. split; [done|]. split.
        -- rewrite Hsub. apply elem_of_app. right.
           apply elem_of_seq. lia.
        -- rewrite Hname, lookup_app_r by lia.
           apply lookup_replicate. split; [done|lia].
      * apply designate_cases in H as (g1 & _ & H). rewrite Hid in H.
        subst t'. simpl in *. lia.
  - intros e Hlt. rewrite Eei. apply He. lia.
  - intros id1 id2 e. rewrite Eei. apply Hi.
  - intros e segs a b. rewrite Eseg. intros Hsegs Hin.
    destruct (Hr e segs a b Hsegs Hin) as (? & ? & ? & ?).
    repeat split; try done; by eapply designate_entries.
  - intros e.
    destruct (designate_substitutes _ _ _ _ e H)
      as [(Hid & Hb & segs & Hsegs & _ & _ & _ & Hbad)
         |[(_ & _ & _ & Hbad & Htrue & [Hvtx|Hid])|(Hne & _ & Hvtx)]].
    + rewrite Hbad.
      rewrite list_lookup_insert_eq by (by eapply lookup_lt_Some).
      split; [|done]. intros _.
      apply designate_cases in H as (g1 & _ & H).
      rewrite Hid, Hb in H. destruct H as (? & ? & ? & _ & _ & ->).
      simpl. rewrite lookup_insert_eq. eauto.
    + by rewrite Hbad, Hvtx.
    + rewrite Hbad. split; [|by intros; apply Htrue].
      intros _. apply designate_cases in H as (g1 & _ & H).
      rewrite Hid, (Htrue Hid) in H. destruct H as (? & _ & ->).
      simpl. rewrite lookup_insert_eq. eauto.
    + rewrite Hvtx, <-Hd.
      pose proof (designate_frame _ _ _ _ H)
        as (_ & _ & _ & _ & _ & _ & _ & Hb & _).
      by rewrite Hb.
Qed.

Lemma assembled_indexed t : assembled P t → indexed t.
Proof.
  induction 1 as [|t edge source target t' Ha IH ? ? ? Hrow|t Ha IH|t Ha IH
                 |t s id t' Ha IH ? ? Hd].
  - apply indexed_init.
  - apply (add_row_indexed edge source target t t'); try done.
    by apply assembled_sound.
  - by apply add_dummy_indexed.
  - by apply count_controller_indexed.
  - apply (designate_indexed s id t t'); try done.
    by apply assembled_sound.
Qed.

End Indexed.

Lemma designate_graph s id t t' w x :
  designate s id t = Some t' →
  x ∈ adj (graph t') w ↔ x ∈ adj (graph t) w ∨ designated_entry s id t w x.
Proof.
  intros (g1 & Hg1 & H)%designate_cases. unfold designated_entry.
  assert (x ∈ adj g1 w ↔
          x ∈ adj (graph t) w ∨
          ∃ v, idx t !! id = Some v ∧
               ((w = s ∧ x = (v, edges t)) ∨ (w = v ∧ x = (s, edges t))))
    as Hfirst.
  { destruct (idx t !! id) as [v|].
    - rewrite (link2_iff _ _ _ _ _ _ _ Hg1). split.
      + intros [?|?]; [by left|]. right. by exists v.
      + intros [?|(v' & ? & ?)]; [by left|]. simplify_eq. by right.
    - subst g1. split; [by left|]. by intros [?|(? & ? & _)]. }
  destruct (edgeidx t !! id) as [e|].
  - destruct (badedge t !! e) as [[]|] eqn:Hb; [| |done].
    + destruct H as (g2 & Hw & ->). simpl.
      rewrite (wire_all_iff _ _ _ _ _ _ _ Hw), Hfirst. split.
      * intros [[?|?]|(v & Hv & ?)]; [by left|by right; left|].
        right. right. left. by exists e, v.
      * intros [?|[?|[(e' & v & ? & _ & ? & ?)
                     |(e' & ? & ? & ? & ? & ? & _)]]];
          [by left; left|by left; right| |congruence].
        simplify_eq. right. by exists v.
    + destruct H as (segs & made & t3 & Hsegs & Hx & ->). simpl.
      rewrite (explode_iff _ _ _ _ _ _ _ _ _ Hx). simpl. rewrite Hfirst.
      split.
      * intros [[?|?]|(i & p & Hp & ?)]; [by left|by right; left|].
        right. right. right. by exists e, segs, i, p.
      * intros [?|[?|[(e' & v & ? & ? & _)
                     |(e' & segs' & i & p & ? & _ & ? & ? & ?)]]];
          [by left; left|by left; right|congruence|].
        simplify_eq. right. by exists i, p.
  - subst t'. simpl. rewrite Hfirst. split.
    + intros [?|?]; [by left|by right; left].
    + intros [?|[?|[(? & ? & ? & _)|(? & ? & ? & ? & ? & _)]]];
        [by left|by right|done..].
Qed.

(** * The rows of the default build *)

Lemma rows_only_init : rows_only init_tables.
Proof.
  constructor; simpl; try done.
  intros v u e. unfold adj. destruct v as [|[|v]]; simpl;
    by intros ?%elem_of_nil.
Qed.

Lemma vertex_of_rows_only id t v t1 :
  rows_only t → vertex_of id t = (v, t1) → rows_only t1.
Proof.
  intros [Hn He Hb Hv Hc Hl1 Hl2]. unfold vertex_of.
  destruct (idx t !! id) as [w|] eqn:Hid; intros; simplify_eq; [done|].
  constructor; simpl; try done.
  intros v u e. rewrite adj_grow. apply He.
Qed.

Lemma edge_of_rows_only P id t e t1 :
  sound P t → rows_only t → edge_of id t = (e, t1) → rows_only t1.
Proof.
  intros Hs [Hn He Hb Hv Hc Hl1 Hl2]. unfold edge_of.
  destruct (edgeidx t !! id) as [w|] eqn:Hid; intros; simplify_eq; [done|].
  constructor; simpl; try done.
  - intros id' e'. rewrite lookup_insert. case_decide.
    + intros. simplify_eq. rewrite lookup_app_r by lia.
      by rewrite Hl1, Nat.sub_diag.
    + intros He'. rewrite lookup_app_l; [by apply Hn|].
      rewrite Hl1. apply (sound_edgeidx _ _ Hs) in He'. lia.
  - intros v u e' Hin. destruct (He v u e' Hin) as (Hlt & segs & Hsegs & ?).
    split; [lia|]. exists segs. split; [|done].
    by apply lookup_app_l_Some.
  - intros e' [Hb'|[_ Hb']]%lookup_app_Some; [by apply (Hb e')|].
    by destruct (e' - length (badedge t)) as [|k].
  - rewrite length_app. simpl. lia.
  - rewrite length_app. simpl. lia.
Qed.

Lemma add_row_rows_only P edge source target t t' :
  sound P t → P edge → P source → P target → rows_only t →
  add_row edge source target t = Some t' → rows_only t'.
Proof.
  intros Ht He Hs Hg Hro. unfold add_row.
  destruct (vertex_of source t) as [sv t1] eqn:H1.
  destruct (vertex_of target t1) as [tv t2] eqn:H2.
  destruct (edge_of edge t2) as [ev t3] eqn:H3.
  pose proof (vertex_of_rows_only _ _ _ _ Hro H1) as Hro1.
  apply (vertex_of_sound P) in H1 as (Ht1 & Hsv & _); [|done..].
  pose proof (vertex_of_rows_only _ _ _ _ Hro1 H2) as Hro2.
  apply (vertex_of_sound P) in H2 as (Ht2 & Htv & _); [|done..].
  pose proof (edge_of_rows_only P _ _ _ _ Ht2 Hro2 H3) as Hro3.
  apply (edge_of_sound P) in H3 as (Ht3 & Hev & Hn3 & Hg3 & _); [|done..].
  intros H. destruct (edgenodes t3 !! ev) as [segs|] eqn:Hsegs; simplify_eq/=.
  destruct (link2 sv tv ev (graph t3)) as [g|] eqn:Hl; simplify_eq/=.
  destruct Hro3 as [Hn Hen Hb Hv Hc Hl1 Hl2].
  constructor; simpl; try done.
  intros v u e Hin.
  apply (link2_iff _ _ _ _ _ _ _ Hl) in Hin as [Hin|Hnew].
  - destruct (Hen v u e Hin) as (Hlt & segs' & Hsegs' & Hor).
    split; [done|]. destruct (decide (e = ev)) as [->|Hne].
    + simplify_eq. exists (segs ++ [(sv, tv)]).
      rewrite list_lookup_insert_eq by (by eapply lookup_lt_Some).
      split; [done|]. rewrite !elem_of_app. tauto.
    + exists segs'. by rewrite list_lookup_insert_ne.
  - split; [by destruct Hnew as [[_ ?]|[_ ?]]; simplify_eq|].
    exists (segs ++ [(sv, tv)]).
    assert (e = ev) as -> by (by destruct Hnew as [[_ ?]|[_ ?]]; simplify_eq).
    rewrite list_lookup_insert_eq by (by eapply lookup_lt_Some).
    split; [done|]. rewrite !elem_of_app, !list_elem_of_singleton.
    destruct Hnew as [[-> ?]|[-> ?]]; simplify_eq; auto.
Qed.

Lemma rows_phase_rows_only t : rows_phase t → rows_only t.
Proof.
  induction 1 as [|t edge source target t' Hr IH ? ? ? Hrow].
  - apply rows_only_init.
  - apply (add_row_rows_only terminated edge source target t t');
      try done.
    by apply (assembled_sound terminated), rows_phase_assembled.
Qed.

(** * Reductions 1 and 2 in the default build *)

Lemma substitutes_elem t e v :
  v ∈ substitutes t e → ∃ vs, edgevtx t !! e = Some vs ∧ v ∈ vs.
Proof.
  unfold substitutes. destruct (edgevtx t !! e) as [vs|]; simpl.
  - by exists vs.
  - by intros ?%elem_of_nil.
Qed.

Lemma segment_ends t e segs i p :
  indexed t → edgenodes t !! e = Some segs → segs !! i = Some p →
  2 ≤ p.1 ∧ 2 ≤ p.2.
Proof.
  intros Hix Hsegs Hp. apply list_elem_of_lookup_2 in Hp.
  destruct p as [a b].
  destruct (ix_rows _ Hix e segs a b Hsegs Hp) as (? & ? & _). done.
Qed.

Section Reduced.
Context (P : text → Prop).

Lemma designate_wired_same s id ids t t' :
  sound P t → indexed t →
  (∀ id e v, edgeidx t !! id = Some e → v ∈ substitutes t e →
             name t !! v = Some id) →
  s < 2 → wired_to s ids t → designate s id t = Some t' →
  wired_to s (ids ++ [id]) t'.
Proof.
  intros Hs Hix Hnamed Hlt [Honly Hvert Hedge] H.
  pose proof (designate_frame _ _ _ _ H)
    as (Ee & _ & _ & Eidx & Eei & Eseg & _ & _ & _).
  pose proof (designate_names _ _ _ _ H) as (k & Ename & Enodes).
  assert (∀ v x, name t !! v = Some x → name t' !! v = Some x) as Hkeep.
  { intros v x Hx. rewrite Ename. by apply lookup_app_l_Some. }
  constructor.
  - intros u e [Hold|Hnew]%(designate_graph _ _ _ _ _ _ H).
    { destruct (Honly u e Hold) as (-> & ? & id' & ? & ?).
      split; [done|]. split; [done|]. exists id'.
      split; [apply elem_of_app; by left|by apply Hkeep]. }
    assert (id ∈ ids ++ [id]) as Hid
      by (apply elem_of_app; right; by left).
    destruct Hnew as [(v & Hv & Hor)
                     |[(e0 & v & He0 & Hb & Hin & Hor)
                      |(e0 & segs & i & q & He0 & Hb & Hsegs & Hq & Hor)]].
    + apply (sound_idx _ _ Hs) in Hv as Hv2.
      destruct Hor as [[_ ?]|[? _]]; simplify_eq; [|lia].
      rewrite Ee. split; [done|]. split; [lia|]. exists id.
      split; [done|]. by apply Hkeep, (ix_vertex _ Hix).
    + destruct (substitutes_elem _ _ _ Hin) as (vs & Hvs & Hin').
      pose proof (sound_edgevtx _ _ Hs _ _ _ Hvs Hin') as Hv2.
      destruct Hor as [[_ ?]|[? _]]; simplify_eq; [|lia].
      rewrite Ee. split; [done|]. split; [lia|]. exists id.
      split; [done|]. by apply Hkeep, (Hnamed id e0).
    + destruct (segment_ends _ _ _ _ _ Hix Hsegs Hq) as [Hq1 Hq2].
      pose proof (sound_sentinels _ _ Hs) as Htwo.
      destruct Hor as [[_ ?]|[[? _]|[[? _]|[[? _]|[[? _]|[? _]]]]]];
        simplify_eq; try lia.
      rewrite Ee. split; [done|]. split; [lia|]. exists id.
      split; [done|].
      destruct (designate_substitutes _ _ _ _ e0 H)
        as [(_ & _ & segs' & Hsegs' & _ & Hname & _)
           |[(_ & _ & _ & _ & Htrue & _)|(Hne & _)]];
        [|by apply Htrue in He0; congruence|done].
      simplify_eq. rewrite Hname, lookup_app_r
        by (rewrite (sound_name _ _ Hs); lia).
      apply lookup_replicate. split; [done|].
      apply lookup_lt_Some in Hq. rewrite (sound_name _ _ Hs). lia.
  - intros id' v Hin Hv. rewrite Eidx in Hv. rewrite Ee.
    apply (designate_graph _ _ _ _ _ _ H).
    apply elem_of_app in Hin as [Hin|Hin].
    + left. by apply (Hvert id').
    + apply list_elem_of_singleton in Hin as ->.
      right. left. exists v. split; [done|]. by left.
  - intros id' e v Hin He Hv. rewrite Eei in He. rewrite Ee.
    apply (designate_graph _ _ _ _ _ _ H).
    destruct (designate_substitutes _ _ _ _ e H)
      as [(Hid & Hb & segs & Hsegs & Hsub & _)
         |[(Hsub & _ & _ & _ & Htrue & _)|(Hne & Hsub & _)]].
    + assert (substitutes t e = []) as Hnone.
      { unfold substitutes.
        destruct (edgevtx t !! e) as [vs|] eqn:Hvs; [|done].
        assert (badedge t !! e = Some true)
          by (by apply (ix_deleted _ Hix)). congruence. }
      rewrite Hsub, Hnone in Hv. simpl in Hv.
      apply elem_of_seq in Hv as [Hv1 Hv2].
      destruct (lookup_lt_is_Some_2 segs (v - nodes t)) as [q Hq]; [lia|].
      right. right. right. exists e, segs, (v - nodes t), q.
      repeat split; try done. left.
      by replace (nodes t + (v - nodes t)) with v by lia.
    + rewrite Hsub in Hv.
      destruct (decide (id' = id)) as [->|Hne].
      * right. right. left. exists e, v. repeat split; auto.
      * left. apply (Hedge id' e); [|done..].
        apply elem_of_app in Hin as [?|?%list_elem_of_singleton]; done.
    + rewrite Hsub in Hv. left. apply (Hedge id' e); [|done..].
      apply elem_of_app in Hin as [?|?%list_elem_of_singleton]; [done|].
      by subst.
Qed.

Lemma designate_wired_other s s' id ids t t' :
  sound P t → indexed t → s' < 2 → s' ≠ s →
  (∀ id' e, id' ∈ ids → edgeidx t !! id' = Some e →
            badedge t !! e = Some true) →
  wired_to s' ids t → designate s id t = Some t' → wired_to s' ids t'.
Proof.
  intros Hs Hix Hlt Hne Hdel [Honly Hvert Hedge] H.
  pose proof (designate_frame _ _ _ _ H)
    as (Ee & _ & _ & Eidx & Eei & Eseg & _ & _ & _).
  pose proof (designate_names _ _ _ _ H) as (k & Ename & Enodes).
  assert (∀ v x, name t !! v = Some x → name t' !! v = Some x) as Hkeep.
  { intros v x Hx. rewrite Ename. by apply lookup_app_l_Some. }
  constructor.
  - intros u e [Hold|Hnew]%(designate_graph _ _ _ _ _ _ H).
    { destruct (Honly u e Hold) as (-> & ? & id' & ? & ?).
      split; [done|]. split; [done|]. exists id'.
      split; [done|by apply Hkeep]. }
    exfalso.
    destruct Hnew as [(v & Hv & Hor)
                     |[(e0 & v & He0 & Hb & Hin & Hor)
                      |(e0 & segs & i & q & He0 & Hb & Hsegs & Hq & Hor)]].
    + apply (sound_idx _ _ Hs) in Hv as Hv2.
      destruct Hor as [[? _]|[? _]]; simplify_eq; lia.
    + destruct (substitutes_elem _ _ _ Hin) as (vs & Hvs & Hin').
      pose proof (sound_edgevtx _ _ Hs _ _ _ Hvs Hin') as Hv2.
      destruct Hor as [[? _]|[? _]]; simplify_eq; lia.
    + destruct (segment_ends _ _ _ _ _ Hix Hsegs Hq) as [Hq1 Hq2].
      pose proof (sound_sentinels _ _ Hs) as Htwo.
      destruct Hor as [[? _]|[[? _]|[[? _]|[[? _]|[[? _]|[? _]]]]]];
        simplify_eq; lia.
  - intros id' v Hin Hv. rewrite Eidx in Hv. rewrite Ee.
    apply (designate_graph _ _ _ _ _ _ H). left. by apply (Hvert id').
  - intros id' e v Hin He Hv. rewrite Eei in He. rewrite Ee.
    apply (designate_graph _ _ _ _ _ _ H). left.
    apply (Hedge id' e); [done..|].
    destruct (designate_substitutes _ _ _ _ e H)
      as [(Hid & Hb & _)|[(Hsub & _)|(_ & Hsub & _)]];
      [|by rewrite <-Hsub..].
    pose proof (Hdel id' e Hin He). congruence.
Qed.

Lemma exploded_ext (D D' : text → Prop) t :
  (∀ id, D id ↔ D' id) → exploded D t → exploded D' t.
Proof.
  intros HD [H1 H2 H3 H4 H5]. constructor; try done.
  intros e. rewrite H3. split; intros (id & ? & ?); exists id;
    (split; [by apply HD|done]).
Qed.

Lemma designated_entry_dummy s id t w x :
  designated_entry s id t w x → x.2 = edges t.
Proof.
  intros [(v & _ & [[_ ->]|[_ ->]])
         |[(e & v & _ & _ & _ & [[_ ->]|[_ ->]])
          |(e & segs & i & q & _ & _ & _ & _ & Hor)]]; try done.
  by destruct Hor as [[_ ->]|[[_ ->]|[[_ ->]|[[_ ->]|[[_ ->]|[_ ->]]]]]].
Qed.

Lemma designate_exploded (D : text → Prop) s id t t' :
  sound P t → indexed t → exploded D t → designate s id t = Some t' →
  exploded (λ x, D x ∨ x = id) t'.
Proof.
  intros Hs Hix [Hen Hent Hdel Hsub Hnamed] H.
  pose proof (designate_frame _ _ _ _ H)
    as (Ee & Een & _ & Eidx & Eei & Eseg & _ & Hbad & _).
  pose proof (designate_names _ _ _ _ H) as (k & Ename & Enodes).
  assert (∀ v x, name t !! v = Some x → name t' !! v = Some x) as Hkeep.
  { intros v x Hx. rewrite Ename. by apply lookup_app_l_Some. }
  assert (∀ e, badedge t !! e = Some false → substitutes t e = [])
    as Hnone.
  { intros e Hb. unfold substitutes.
    destruct (edgevtx t !! e) as [vs|] eqn:Hvs; [|done].
    assert (badedge t !! e = Some true)
      by (by apply (ix_deleted _ Hix)). congruence. }
  constructor.
  - intros id' e. rewrite Eei, Een. apply Hen.
  - intros v u e [Hold|Hnew]%(designate_graph _ _ _ _ _ _ H) Hlt.
    + rewrite Eseg. apply Hent; [done|]. by rewrite <-Ee.
    + apply designated_entry_dummy in Hnew. simpl in Hnew. lia.
  - intros e. rewrite Eei.
    destruct (designate_substitutes _ _ _ _ e H)
      as [(Hid & Hb & segs & Hsegs & _ & _ & _ & Hbad')
         |[(_ & _ & _ & Hbad' & Htrue & _)|(Hne & _)]].
    + rewrite Hbad'.
      rewrite list_lookup_insert_eq by (by eapply lookup_lt_Some).
      split; [|done]. intros _. exists id. auto.
    + rewrite Hbad', Hdel. split.
      * intros (id' & ? & ?). exists id'. auto.
      * intros (id' & [?| ->] & Hid'); [by exists id'|].
        by apply Hdel, Htrue.
    + rewrite Hbad, Hdel by done. split.
      * intros (id' & ? & ?). exists id'. auto.
      * intros (id' & [?| ->] & Hid'); [by exists id'|done].
  - intros e vs segs Hvs. rewrite Eseg, Ee. intros Hsegs.
    assert (substitutes t' e = vs) as Hvs'
      by (unfold substitutes; by rewrite Hvs).
    assert (∀ vs0, edgevtx t !! e = Some vs0 → vs0 = vs →
              length vs = length segs ∧
              ∀ i s0 p, vs !! i = Some s0 → segs !! i = Some p →
                (p.1, edges t) ∈ adj (graph t') s0 ∧
                (p.2, edges t) ∈ adj (graph t') s0) as Hsame.
    { intros vs0 Hvs0 ->. destruct (Hsub e vs segs Hvs0 Hsegs) as [Hl Ha].
      split; [done|]. intros i s0 q Hi Hq.
      destruct (Ha i s0 q Hi Hq).
      split; by eapply designate_entries. }
    destruct (designate_substitutes _ _ _ _ e H)
      as [(Hid & Hb & segs' & Hsegs' & Hsubst & _)
         |[(Hsubst & _ & _ & _ & Htrue & [Hvtx|Hid])|(Hne & _ & Hvtx)]].
    + assert (segs' = segs) as -> by congruence.
      rewrite (Hnone e Hb) in Hsubst. simpl in Hsubst.
      rewrite <-Hvs', Hsubst. split; [by rewrite length_seq|].
      intros i s0 q Hi Hq. apply lookup_seq in Hi as [-> _].
      split; apply (designate_graph _ _ _ _ _ _ H); right; right; right;
        exists e, segs, i, q; repeat split; try done.
      * right. right. by left.
      * do 4 right. by left.
    + apply (Hsame vs); [|done]. by rewrite <-Hvtx.
    + assert (is_Some (edgevtx t !! e)) as [vs0 Hvs0]
        by (by apply (ix_deleted _ Hix), Htrue).
      apply (Hsame vs0); [done|].
      rewrite <-Hvs', Hsubst. unfold substitutes. by rewrite Hvs0.
    + apply (Hsame vs); [|done]. by rewrite <-Hvtx.
  - intros id' e v. rewrite Eei. intros Hid' Hv.
    destruct (designate_substitutes _ _ _ _ e H)
      as [(Hid & Hb & segs & Hsegs & Hsubst & Hname & _)
         |[(Hsubst & _)|(_ & Hsubst & _)]].
    + assert (id' = id) as -> by (by eapply (ix_edge_inj _ Hix)).
      rewrite Hsubst, (Hnone e Hb) in Hv. simpl in Hv.
      apply elem_of_seq in Hv.
      rewrite Hname, lookup_app_r by (rewrite (sound_name _ _ Hs); lia).
      apply lookup_replicate. split; [done|].
      rewrite (sound_name _ _ Hs). lia.
    + rewrite Hsubst in Hv. by apply Hkeep, (Hnamed id' e).
    + rewrite Hsubst in Hv. by apply Hkeep, (Hnamed id' e).
Qed.

End Reduced.

Lemma wired_by_wired hs ts t : wired_by hs ts t → wired_phase t.
Proof.
  induction 1 as [t Hr|hs ts t id t' _ IH Hid Hc|hs ts t id t' _ IH Hid Hd].
  - by apply wp_dummy.
  - apply (wp_designate (count_controller t) TAIL id t'); try done.
    + by apply wp_count.
    + by right.
  - apply (wp_designate t HEAD id t'); try done. by left.
Qed.

Lemma wired_by_counter hs ts t : wired_by hs ts t → controllers t = length ts.
Proof.
  induction 1 as [t Hr|hs ts t id t' _ IH Hid Hc|hs ts t id t' _ IH Hid Hd].
  - simpl. by apply ro_controllers, rows_phase_rows_only.
  - apply designate_frame in Hc as (_ & _ & -> & _). simpl.
    rewrite length_app. simpl. lia.
  - by apply designate_frame in Hd as (_ & _ & -> & _).
Qed.

Lemma reduced_dummy t : rows_phase t → reduced [] [] (add_dummy t).
Proof.
  intros Hr. pose proof (rows_phase_rows_only t Hr) as [Hn He Hb Hv Hc Hl1 Hl2].
  pose proof (assembled_indexed terminated t (rows_phase_assembled t Hr))
    as Hix.
  assert (∀ s u e, s < 2 → (u, e) ∈ adj (graph t) s → False) as Hnone.
  { intros s u e Hs Hin. destruct (He s u e Hin) as (_ & segs & Hsegs & Hor).
    destruct Hor as [Hin'|Hin'];
      destruct (ix_rows _ Hix e segs _ _ Hsegs Hin') as (? & ? & _); lia. }
  constructor.
  - constructor; simpl.
    + intros id e Hid. by apply lookup_app_l_Some, Hn.
    + intros v u e Hin _. by destruct (He v u e Hin) as (_ & ?).
    + intros e. split.
      * intros [Hb'|[_ Hb']]%lookup_app_Some; [by apply Hb in Hb'|].
        by destruct (e - length (badedge t)) as [|k].
      * by intros (id & ?%elem_of_nil & _).
    + intros e vs segs. by rewrite Hv, lookup_empty.
    + intros id e v _. unfold substitutes. simpl.
      rewrite Hv, lookup_empty. by intros ?%elem_of_nil.
  - constructor; simpl.
    + intros u e Hin. destruct (Hnone HEAD u e); [unfold HEAD; lia|done].
    + by intros id v ?%elem_of_nil.
    + by intros id e v ?%elem_of_nil.
  - constructor; simpl.
    + intros u e Hin. destruct (Hnone TAIL u e); [unfold TAIL; lia|done].
    + by intros id v ?%elem_of_nil.
    + by intros id e v ?%elem_of_nil.
Qed.

Lemma reduced_count hs ts t : reduced hs ts t → reduced hs ts
    (count_controller t).
Proof.
  intros [[H1 H2 H3 H4 H5] [H6 H7 H8] [H9 H10 H11]].
  constructor; constructor; assumption.
Qed.

Lemma designate_reduced_tail hs ts id t t' :
  sound terminated t → indexed t → reduced hs ts t →
  designate TAIL id t = Some t' → reduced hs (ts ++ [id]) t'.
Proof.
  intros Hs Hix [Hex Hh Ht] H. constructor.
  - apply (designate_exploded terminated _ TAIL id t t') in Hex; try done.
    eapply exploded_ext; [|done]. intros x. simpl.
    rewrite !elem_of_app, list_elem_of_singleton. tauto.
  - apply (designate_wired_other terminated TAIL HEAD id hs t t'); try done.
    + unfold HEAD. lia.
    + intros id' e Hin He. apply (ex_deleted _ _ Hex). exists id'.
      split; [|done]. apply elem_of_app. by left.
  - apply (designate_wired_same terminated TAIL id ts t t'); try done.
    + apply (ex_named _ _ Hex).
    + unfold TAIL. lia.
Qed.

Lemma designate_reduced_head hs ts id t t' :
  sound terminated t → indexed t → reduced hs ts t →
  designate HEAD id t = Some t' → reduced (hs ++ [id]) ts t'.
Proof.
  intros Hs Hix [Hex Hh Ht] H. constructor.
  - apply (designate_exploded terminated _ HEAD id t t') in Hex; try done.
    eapply exploded_ext; [|done]. intros x. simpl.
    rewrite !elem_of_app, list_elem_of_singleton. tauto.
  - apply (designate_wired_same terminated HEAD id hs t t'); try done.
    + apply (ex_named _ _ Hex).
    + unfold HEAD. lia.
  - apply (designate_wired_other terminated HEAD TAIL id ts t t'); try done.
    + unfold TAIL. lia.
    + intros id' e Hin He. apply (ex_deleted _ _ Hex). exists id'.
      split; [|done]. apply elem_of_app. by right.
Qed.

Lemma wired_by_reduced hs ts t : wired_by hs ts t → reduced hs ts t.
Proof.
  induction 1 as [t Hr|hs ts t id t' Hw IH Hid Hc|hs ts t id t' Hw IH Hid Hd].
  - by apply reduced_dummy.
  - pose proof (wired_phase_assembled _ (wired_by_wired _ _ _ Hw)) as Ha.
    apply (designate_reduced_tail hs ts id (count_controller t) t');
      try done.
    + by apply (assembled_sound terminated), as_count.
    + by apply (assembled_indexed terminated), as_count.
    + by apply reduced_count.
  - pose proof (wired_phase_assembled _ (wired_by_wired _ _ _ Hw)) as Ha.
    apply (designate_reduced_head hs ts id t t'); try done.
    + by apply (assembled_sound terminated).
    + by apply (assembled_indexed terminated).
Qed.

Lemma add_starts_wired_by hs ts lines t t' :
  wired_by hs ts t → add_starts lines t = Some t' →
  wired_by (hs ++ map start_key lines) ts t'.
Proof.
  revert hs t. induction lines as [|l lines IH]; intros hs t Ht H;
    simplify_eq/=.
  - by rewrite app_nil_r.
  - destruct (add_start l t) as [t1|] eqn:H1; simplify_eq/=.
    rewrite (cons_middle _ hs), (assoc_L (++)). apply (IH _ t1); [|done].
    apply (wb_start hs ts t (start_key l) t1); try done.
    apply terminated_snoc.
Qed.

Lemma parse_wired_by fuel bytes t :
  FastBuild.parse fuel bytes = Some t → ∃ ts, wired_by [] ts t.
Proof.
  unfold FastBuild.parse. intros H.
  destruct (Fast.begin_field fuel _) as [[? sc1]|]; simplify_eq/=.
  destruct (Fast.read_to_key fuel _ sc1) as [[? sc2]|]; simplify_eq/=.
  destruct (Fast.begin_list fuel sc2) as [[? sc3]|]; simplify_eq/=.
  destruct (FastBuild.fields_loop fuel fuel (FastBuild.read_row fuel) sc3
              init_tables) as [[sc4 t1]|] eqn:Hrows; simplify_eq/=.
  destruct (Fast.read_to_key fuel _ sc4) as [[? sc5]|]; simplify_eq/=.
  destruct (Fast.begin_list fuel sc5) as [[? sc6]|]; simplify_eq/=.
  destruct (FastBuild.fields_loop fuel fuel (FastBuild.read_controller fuel)
              sc6 (add_dummy t1)) as [[sc7 t3]|] eqn:Hctrl; simplify_eq/=.
  destruct (Fast.end_field fuel sc7) as [sc8|]; simplify_eq/=.
  eapply (FastFacts.fields_loop_preserves (λ t, ∃ ts, wired_by [] ts t))
    in Hctrl; [done| |].
  - intros sc ta sc' tb (ts & Hta)
      (ctrl & Hc & Hadd)%FastFacts.read_controller_adds.
    exists (ts ++ [ctrl]). by apply (wb_controller [] ts ta ctrl tb).
  - exists []. apply wb_dummy.
    eapply (FastFacts.fields_loop_preserves rows_phase) in Hrows;
      [done| |constructor].
    intros sc ta sc' tb Hta
      (e & s & g & ? & ? & ? & Hadd)%FastFacts.read_row_adds.
    by eapply (rp_row ta e s g).
Qed.

Lemma read_graph_wired_by fuel bytes startingpoints t :
  FastBuild.read_graph fuel bytes startingpoints = Some t →
  ∃ ts, wired_by (map start_key startingpoints) ts t.
Proof.
  unfold FastBuild.read_graph. intros H.
  destruct (FastBuild.parse fuel bytes) as [t0|] eqn:Hp; simplify_eq/=.
  apply parse_wired_by in Hp as (ts & Hw). exists ts.
  by apply (add_starts_wired_by [] ts startingpoints t0 t).
Qed.

Lemma read_graph_indexed fuel bytes startingpoints t :
  FastBuild.read_graph fuel bytes startingpoints = Some t ∨
  RobustBuild.read_graph fuel bytes startingpoints = Some t →
  indexed t.
Proof.
  intros [H|H].
  - apply FastFacts.read_graph_wired, wired_phase_assembled in H.
    by apply (assembled_indexed terminated).
  - apply RobustFacts.read_graph_assembled in H.
    by apply (assembled_indexed blank_or_terminated).
Qed.

(** * Bounds of the constructor *)

Lemma vertex_of_nodes id t v t1 :
  vertex_of id t = (v, t1) → nodes t ≤ nodes t1.
Proof.
  unfold vertex_of. destruct (idx t !! id); intros; simplify_eq/=; lia.
Qed.

Lemma add_row_defined P edge source target t :
  sound P t → P edge → P source → P target →
  is_Some (add_row edge source target t).
Proof.
  intros Ht He Hs Hg. unfold add_row.
  destruct (vertex_of source t) as [sv t1] eqn:H1.
  destruct (vertex_of target t1) as [tv t2] eqn:H2.
  destruct (edge_of edge t2) as [ev t3] eqn:H3.
  apply (vertex_of_sound P) in H1 as (Ht1 & Hsv & _); [|done..].
  pose proof (vertex_of_nodes _ _ _ _ H2) as Hmono.
  apply (vertex_of_sound P) in H2 as (Ht2 & Htv & _); [|done..].
  apply (edge_of_sound P) in H3 as (Ht3 & Hev & Hn3 & Hg3 & _); [|done..].
  destruct (lookup_lt_is_Some_2 (edgenodes t3) ev) as [segs ->];
    [by rewrite (sound_edgenodes _ _ Ht3)|]. simpl.
  destruct (link2_defined sv tv ev (graph t3)) as [g ->];
    [rewrite (sound_graph _ _ Ht3); lia..|]. simpl. eauto.
Qed.

Lemma wire_all_defined s e vs (g : adjacency) :
  s < length g → (∀ v, v ∈ vs → v < length g) → is_Some (wire_all s e vs g).
Proof.
  revert g. induction vs as [|v vs IH]; intros g Hs Hvs; simpl; [eauto|].
  destruct (link2_defined s v e g) as [g1 Hg1];
    [done|apply Hvs; by left|].
  rewrite Hg1. simpl.
  apply link2_spec in Hg1 as (_ & _ & Hlen & _).
  apply IH; rewrite Hlen; [done|]. intros v' Hv'. apply Hvs. by right.
Qed.

Lemma explode_defined s id segs made t :
  length (graph t) = nodes t → s < nodes t →
  (∀ p, p ∈ segs → p.1 < nodes t ∧ p.2 < nodes t) →
  is_Some (explode s id segs made t).
Proof.
  revert made t. induction segs as [|p segs IH]; intros made t Hlen Hs Hsegs;
    simpl; [eauto|].
  destruct (Hsegs p) as [Hp1 Hp2]; [by left|].
  unfold explode_segment.
  assert (length (graph t ++ [[]]) = S (nodes t)) as Hl0
    by (rewrite length_app; simpl; lia).
  destruct (link2_defined s (nodes t) (edges t) (graph t ++ [[]]))
    as [g1 Hg1]; [lia..|]. rewrite Hg1. simpl.
  pose proof (link2_spec _ _ _ _ _ Hg1) as (_ & _ & Hl1 & _).
  destruct (link2_defined (nodes t) p.1 (edges t) g1) as [g2 Hg2]; [lia..|].
  rewrite Hg2. simpl.
  pose proof (link2_spec _ _ _ _ _ Hg2) as (_ & _ & Hl2 & _).
  destruct (link2_defined (nodes t) p.2 (edges t) g2) as [g3 Hg3]; [lia..|].
  rewrite Hg3. simpl.
  pose proof (link2_spec _ _ _ _ _ Hg3) as (_ & _ & Hl3 & _).
  apply IH; simpl; [lia|lia|].
  intros q Hq. destruct (Hsegs q); [by right|]. lia.
Qed.

Lemma designate_defined P s id t :
  sound P t → s < 2 → is_Some (designate s id t).
Proof.
  intros Hs Hlt. unfold designate.
  pose proof (sound_sentinels _ _ Hs) as Htwo.
  pose proof (sound_graph _ _ Hs) as Hlen.
  assert (∃ g1, match idx t !! id with
                | Some v => g ← link2 s v (edges t) (graph t);
                            Some (set_graph g t)
                | None => Some t
                end = Some (set_graph g1 t) ∧ length g1 = nodes t)
    as (g1 & -> & Hlen1).
  { destruct (idx t !! id) as [v|] eqn:Hv.
    - apply (sound_idx _ _ Hs) in Hv as [Hv _].
      destruct (link2_defined s v (edges t) (graph t)) as [g Hg]; [lia..|].
      exists g. rewrite Hg. simpl. split; [done|].
      apply link2_spec in Hg as (_ & _ & -> & _). done.
    - exists (graph t). split; [by destruct t|done]. }
  simpl. destruct (edgeidx t !! id) as [e|] eqn:He; [|eauto].
  apply (sound_edgeidx _ _ Hs) in He as [He _].
  destruct (lookup_lt_is_Some_2 (badedge t) e) as [b ->].
  { rewrite <-(sound_edgename _ _ Hs).
    pose proof (sound_edges _ _ Hs). lia. }
  destruct b.
  - destruct (wire_all_defined s (edges t)
                (default [] (edgevtx t !! e)) g1) as [g2 ->]; [lia| |].
    + intros v Hv. rewrite Hlen1.
      destruct (edgevtx t !! e) as [vs|] eqn:Hvs; simpl in Hv;
        [|by apply elem_of_nil in Hv].
      apply (sound_edgevtx _ _ Hs e vs v Hvs Hv).
    + simpl. eauto.
  - destruct (lookup_lt_is_Some_2 (edgenodes t) e) as [segs Hsegs];
      [by rewrite (sound_edgenodes _ _ Hs)|].
    rewrite Hsegs. simpl.
    edestruct (explode_defined s id segs (default [] (edgevtx t !! e)))
      as [[made t3] ->]; [| | |simpl; eauto]; simpl; [done|lia|].
    intros p Hp. apply (sound_segments _ _ Hs e segs p Hsegs Hp).
Qed.

Lemma add_starts_defined P lines t :
  (∀ s, P (s ++ [newline])) → assembled P t → is_Some (add_starts lines t).
Proof.
  intros HP. revert t. induction lines as [|l lines IH]; intros t Ht; simpl;
    [eauto|].
  destruct (designate_defined P HEAD (start_key l) t) as [t1 H1].
  { by apply assembled_sound. }
  { unfold HEAD. lia. }
  unfold add_start. rewrite H1. simpl. apply IH.
  apply (as_designate P t HEAD (start_key l) t1); try done; [by left|].
  apply HP.
Qed.

(** * The tables [read_graph] returns *)

Lemma occurrences_elem (p : nat * nat) l : p ∈ l ↔ 0 < occurrences p l.
Proof.
  unfold occurrences. induction l as [|q l IH]; simpl.
  - split; [by intros ?%elem_of_nil|lia].
  - rewrite filter_cons, elem_of_cons, IH.
    case_decide; simpl; [split; [lia|by left; subst]|].
    split; [intros [?|?]; [by subst|done]|by right].
Qed.

Lemma mirrored_elem g u v e :
  mirrored g → (v, e) ∈ adj g u → (u, e) ∈ adj g v.
Proof. intros Hm. rewrite !occurrences_elem, (Hm u v e). done. Qed.

(** X1: in either build, a vertex identifier and its vertex determine each
    other: [idx[id] = v] implies [name[v] = id] with [v] neither HEAD nor
    TAIL, no two identifiers share a vertex, and every vertex other than HEAD
    and TAIL is named, either by the identifier [idx] maps to it or, for a
    substitute vertex of an exploded edge, by the identifier of that edge. *)
Theorem vertex_identifiers_round_trip fuel bytes startingpoints t :
  FastBuild.read_graph fuel bytes startingpoints = Some t ∨
  RobustBuild.read_graph fuel bytes startingpoints = Some t →
  (∀ id v, idx t !! id = Some v → 2 ≤ v < nodes t ∧ name t !! v = Some id) ∧
  (∀ id id' v, idx t !! id = Some v → idx t !! id' = Some v → id = id') ∧
  (∀ v, 2 ≤ v < nodes t →
        ∃ id, name t !! v = Some id ∧
              (idx t !! id = Some v ∨
               ∃ e, edgeidx t !! id = Some e ∧ v ∈ substitutes t e)).
Proof.
  intros H. pose proof (read_graph_indexed _ _ _ _ H) as Hix.
  assert (∃ P, sound P t) as [P Hs].
  { destruct H as [H|H].
    - exists terminated.
      by apply assembled_sound, wired_phase_assembled,
        (FastFacts.read_graph_wired fuel bytes startingpoints).
    - exists blank_or_terminated.
      by apply assembled_sound,
        (RobustFacts.read_graph_assembled fuel bytes startingpoints). }
  split; [|split].
  - intros id v Hv. split; [by apply (sound_idx _ _ Hs) in Hv as [? _]|].
    by apply (ix_vertex _ Hix).
  - intros id id' v Hv Hv'. apply (ix_vertex _ Hix) in Hv, Hv'. congruence.
  - intros v Hv.
    destruct (ix_cover _ Hix v Hv) as [(id & Hid)|(id & e & ? & ? & ?)].
    + exists id. split; [by apply (ix_vertex _ Hix)|by left].
    + exists id. split; [done|]. right. by exists e.
Qed.

Lemma vertex_identifiers_round_trip_witness :
  ∃ t, FastBuild.read_graph 100 doc_pair [lit "A"] = Some t ∧
       ∀ id v, idx t !! id = Some v → 2 ≤ v < nodes t ∧ name t !! v = Some id.
Proof.
  assert (is_Some (FastBuild.read_graph 100 doc_pair [lit "A"])) as [t Ht]
    by evaluated.
  exists t. split; [exact Ht|].
  apply (vertex_identifiers_round_trip 100 doc_pair [lit "A"] t).
  left. exact Ht.
Defined.

(** X2: in the default build an edge identifier and its edge record
    determine each other: [edgeidx[id] = e] implies [e < edges] and
    [edgename[e] = id], no two identifiers share an edge record, and every
    index below [edges] is the record of some identifier. *)
Theorem edge_identifiers_round_trip fuel bytes startingpoints t :
  FastBuild.read_graph fuel bytes startingpoints = Some t →
  (∀ id e, edgeidx t !! id = Some e →
           e < edges t ∧ edgename t !! e = Some id) ∧
  (∀ id id' e, edgeidx t !! id = Some e → edgeidx t !! id' = Some e →
               id = id') ∧
  (∀ e, e < edges t → ∃ id, edgeidx t !! id = Some e).
Proof.
  intros H.
  pose proof (read_graph_indexed _ _ _ _ (or_introl H)) as Hix.
  destruct (read_graph_wired_by _ _ _ _ H) as (ts & Hw).
  pose proof (rd_exploded _ _ _ (wired_by_reduced _ _ _ Hw)) as Hex.
  apply wired_by_wired, wired_phase_assembled,
    (assembled_sound terminated) in Hw.
  split; [|split].
  - intros id e He. split; [by apply (sound_edgeidx _ _ Hw) in He as [? _]|].
    by apply (ex_edgename _ _ Hex).
  - apply (ix_edge_inj _ Hix).
  - apply (ix_edges _ Hix).
Qed.

Lemma edge_identifiers_round_trip_witness :
  ∃ t, FastBuild.read_graph 100 doc_pair [lit "A"] = Some t ∧
       ∀ e, e < edges t → ∃ id, edgeidx t !! id = Some e.
Proof.
  assert (is_Some (FastBuild.read_graph 100 doc_pair [lit "A"])) as [t Ht]
    by evaluated.
  exists t. split; [exact Ht|].
  apply (edge_identifiers_round_trip 100 doc_pair [lit "A"] t). exact Ht.
Defined.

(** X3: in the default build the adjacency entries of the edges read from
    the rows are exactly the recorded segments: a segment [(a, b)] of
    edge [e] puts [(b, e)] into [graph[a]] and [(a, e)] into [graph[b]], with
    [a] and [b] neither HEAD nor TAIL, and every adjacency entry whose edge
    index is below [edges] stems from such a segment (all other entries carry
    the dummy edge). *)
Theorem rows_are_adjacency fuel bytes startingpoints t :
  FastBuild.read_graph fuel bytes startingpoints = Some t →
  (∀ e segs a b, edgenodes t !! e = Some segs → (a, b) ∈ segs →
                 2 ≤ a ∧ 2 ≤ b ∧ e < edges t ∧
                 (b, e) ∈ adj (graph t) a ∧ (a, e) ∈ adj (graph t) b) ∧
  (∀ v u e, (u, e) ∈ adj (graph t) v →
            e = edges t ∨
            ∃ segs, edgenodes t !! e = Some segs ∧
                    ((v, u) ∈ segs ∨ (u, v) ∈ segs)).
Proof.
  intros H.
  pose proof (read_graph_indexed _ _ _ _ (or_introl H)) as Hix.
  destruct (read_graph_wired_by _ _ _ _ H) as (ts & Hw).
  pose proof (rd_exploded _ _ _ (wired_by_reduced _ _ _ Hw)) as Hex.
  apply wired_by_wired, wired_phase_assembled,
    (assembled_sound terminated) in Hw.
  split.
  - intros e segs a b Hsegs Hin.
    destruct (ix_rows _ Hix e segs a b Hsegs Hin) as (? & ? & ? & ?).
    repeat split; try done.
    apply lookup_lt_Some in Hsegs. by rewrite (sound_edgenodes _ _ Hw) in Hsegs.
  - intros v u e Hin.
    destruct (sound_entries _ _ Hw v u e Hin) as [_ Hle].
    destruct (decide (e = edges t)) as [?|Hne]; [by left|]. right.
    apply (ex_entries _ _ Hex); [done|lia].
Qed.

Lemma rows_are_adjacency_witness :
  ∃ t, FastBuild.read_graph 100 doc_pair [lit "A"] = Some t ∧
       ∀ v u e, (u, e) ∈ adj (graph t) v →
                e = edges t ∨
                ∃ segs, edgenodes t !! e = Some segs ∧
                        ((v, u) ∈ segs ∨ (u, v) ∈ segs).
Proof.
  assert (is_Some (FastBuild.read_graph 100 doc_pair [lit "A"])) as [t Ht]
    by evaluated.
  exists t. split; [exact Ht|].
  apply (rows_are_adjacency 100 doc_pair [lit "A"] t). exact Ht.
Defined.

(** X5: reduction 1 in the default build.  An edge is deleted exactly when
    it has a substitute list; that list has one vertex per recorded segment,
    in order, and the substitute of segment [(a, b)] is a vertex other than
    HEAD and TAIL that carries the name of the edge, is joined to [a] and to
    [b] by the dummy edge, and is joined to HEAD or to TAIL. *)
Theorem substitutes_replace_segments fuel bytes startingpoints t :
  FastBuild.read_graph fuel bytes startingpoints = Some t →
  ∀ e,
    (badedge t !! e = Some true ↔ is_Some (edgevtx t !! e)) ∧
    ∀ vs segs,
      edgevtx t !! e = Some vs → edgenodes t !! e = Some segs →
      length vs = length segs ∧
      ∀ i s p, vs !! i = Some s → segs !! i = Some p →
               2 ≤ s < nodes t ∧ name t !! s = edgename t !! e ∧
               (p.1, edges t) ∈ adj (graph t) s ∧
               (p.2, edges t) ∈ adj (graph t) s ∧
               ((HEAD, edges t) ∈ adj (graph t) s ∨
                (TAIL, edges t) ∈ adj (graph t) s).
Proof.
  intros H e.
  pose proof (read_graph_indexed _ _ _ _ (or_introl H)) as Hix.
  destruct (read_graph_wired_by _ _ _ _ H) as (ts & Hw).
  pose proof (wired_by_reduced _ _ _ Hw) as [Hex Hh Ht].
  apply wired_by_wired, wired_phase_assembled,
    (assembled_sound terminated) in Hw.
  split; [apply (ix_deleted _ Hix)|].
  intros vs segs Hvs Hsegs.
  destruct (ex_subst _ _ Hex e vs segs Hvs Hsegs) as [Hlen Hadj].
  split; [done|]. intros i s p Hi Hp.
  destruct (Hadj i s p Hi Hp) as [H1 H2].
  assert (s ∈ substitutes t e) as Hin.
  { unfold substitutes. rewrite Hvs. by eapply list_elem_of_lookup_2. }
  assert (badedge t !! e = Some true) as Hb
    by (apply (ix_deleted _ Hix); eauto).
  apply (ex_deleted _ _ Hex) in Hb as (id & Hid & He).
  split; [by apply (sound_edgevtx _ _ Hw e vs s Hvs),
            (list_elem_of_lookup_2 vs i)|].
  split.
  { rewrite (ex_edgename _ _ Hex id e He). by apply (ex_named _ _ Hex id e). }
  split; [done|]. split; [done|].
  apply elem_of_app in Hid as [Hid|Hid].
  - left. apply mirrored_elem; [apply (sound_mirrored _ _ Hw)|].
    by apply (wt_edge _ _ _ Hh id e).
  - right. apply mirrored_elem; [apply (sound_mirrored _ _ Hw)|].
    by apply (wt_edge _ _ _ Ht id e).
Qed.

Lemma substitutes_replace_segments_witness :
  ∃ t, FastBuild.read_graph 150 doc_two_segments [lit "A"] = Some t ∧
       (badedge t !! 0 = Some true ↔ is_Some (edgevtx t !! 0)).
Proof.
  assert (is_Some (FastBuild.read_graph 150 doc_two_segments [lit "A"]))
    as [t Ht] by evaluated.
  exists t. split; [exact Ht|].
  apply (substitutes_replace_segments 150 doc_two_segments [lit "A"] t).
  exact Ht.
Defined.

(** X6: the constructor never indexes a table out of its range.  In every
    state reached from the initial one by its operations, adding a row,
    designating a controller or a starting point, and processing a whole
    starting-points file are defined. *)
Theorem constructor_in_range (P : text → Prop) t :
  (∀ s, P (s ++ [newline])) → assembled P t →
  (∀ edge source target,
     P edge → P source → P target →
     is_Some (add_row edge source target t)) ∧
  (∀ id, is_Some (add_controller id t)) ∧
  (∀ line, is_Some (add_start line t)) ∧
  (∀ lines, is_Some (add_starts lines t)).
Proof.
  intros HP Ha. pose proof (assembled_sound P t Ha) as Hs.
  split; [|split; [|split]].
  - intros edge source target. by apply add_row_defined.
  - intros id. apply (designate_defined P).
    + by apply count_controller_sound.
    + unfold TAIL. lia.
  - intros line. apply (designate_defined P); [done|unfold HEAD; lia].
  - intros lines. by apply (add_starts_defined P).
Qed.

Lemma constructor_in_range_witness :
  idx tables_segments !! ident "A" = Some 2 ∧
  edgeidx tables_segments !! ident "E1" = Some 0 ∧
  is_Some (add_row (ident "E1") (ident "C") (ident "D") tables_segments) ∧
  is_Some (add_controller (ident "E1") tables_segments) ∧
  is_Some (add_start (lit "E1") tables_segments) ∧
  is_Some (add_starts [lit "E1"; lit "A"; lit "E1"] tables_segments).
Proof.
  split; [reflexivity|]. split; [reflexivity|].
  destruct (constructor_in_range terminated tables_segments)
    as (Hrow & Hctrl & Hstart & Hstarts).
  - intros s. unfold terminated. apply last_snoc.
  - apply wired_phase_assembled, (FastFacts.parse_wired 150 doc_segments).
    vm_compute. reflexivity.
  - split; [apply Hrow; reflexivity|]. split; [apply Hctrl|].
    split; [apply Hstart|apply Hstarts].
Defined.

(** * The emitter *)

Lemma visited_count_zero (d : list (nat * nat)) u du :
  d !! u = Some du → 0 < du.1 →
  S (visited_count (<[u := (0, du.2)]> d)) = visited_count d.
Proof.
  unfold visited_count. revert u.
  induction d as [|q d IH]; intros u Hu Hpos; [by rewrite lookup_nil in Hu|].
  destruct u as [|u]; simpl in *.
  - injection Hu as ->. rewrite !filter_cons. simpl.
    repeat case_decide; simpl in *; lia.
  - rewrite !filter_cons. specialize (IH u Hu Hpos).
    case_decide; simpl; lia.
Qed.

Section EmitFacts.
Context (g : adjacency) (names edgenames : list text) (up : list bool).
Context (n : nat).
Hypothesis Hg : length g = n.
Hypothesis Hent :
  ∀ v u e, (u, e) ∈ adj g v → u < n ∧ e < length edgenames.
Hypothesis Hup : length up = n.
Hypothesis Hnames : length names = n.

Lemma emit_edges_spec v adjl d stack out :
  length d = n → (∀ x, x ∈ adjl → x ∈ adj g v) → emitted_vertex up v →
  Forall (stacked_vertex up n) stack → Forall (emitted_piece g names edgenames
      up) out →
  ∃ d' stack' out',
    emit_edges names edgenames up v adjl d stack out
      = Some (d', stack', out') ∧
    length d' = n ∧
    visited_count d' + length stack' = visited_count d + length stack ∧
    Forall (stacked_vertex up n) stack' ∧ Forall (emitted_piece g names
        edgenames up) out'.
Proof.
  intros Hd Hadj Hv. revert d stack out Hd.
  induction adjl as [|[u e] adjl IH]; intros d stack out Hd Hst Hout; simpl.
  - by exists d, stack, out.
  - assert ((u, e) ∈ adj g v) as Hin by (apply Hadj; by left).
    destruct (Hent v u e Hin) as [Hu He].
    assert (∀ x, x ∈ adjl → x ∈ adj g v) as Hadj'
      by (intros x Hx; apply Hadj; by right).
    destruct (lookup_lt_is_Some_2 up u) as [b Hb]; [lia|]. rewrite Hb.
    destruct b; [|by apply IH].
    destruct (lookup_lt_is_Some_2 edgenames e He) as [en Hen].
    destruct (lookup_lt_is_Some_2 d u) as [du Hdu]; [lia|].
    destruct (lookup_lt_is_Some_2 names u) as [nu Hnu]; [lia|].
    assert (∃ out1, (if v <? u then en ← edgenames !! e; Some (out ++ [en])
                     else Some out) = Some out1 ∧ Forall (emitted_piece g
                         names edgenames up) out1)
      as (out1 & -> & Hout1).
    { destruct (v <? u) eqn:Hlt.
      - rewrite Hen. simpl. exists (out ++ [en]). split; [done|].
        apply Forall_app. split; [done|]. apply Forall_singleton.
        right. exists v, u, e. apply Nat.ltb_lt in Hlt. done.
      - by exists out. }
    simpl. rewrite Hdu. simpl.
    destruct (0 <? du.1) eqn:Hpos; [|by apply IH].
    rewrite Hnu. simpl. apply Nat.ltb_lt in Hpos.
    destruct (IH Hadj' (<[u := (0, du.2)]> d) (u :: stack) (out1 ++ [nu]))
      as (d' & stack' & out' & -> & ? & Hcount & ? & ?).
    + by rewrite length_insert.
    + apply Forall_cons. split; [|done]. split; [done|]. by right.
    + apply Forall_app. split; [done|]. apply Forall_singleton.
      left. exists u. split; [by right|done].
    + exists d', stack', out'. repeat split; try done.
      rewrite Hcount. simpl.
      pose proof (visited_count_zero d u du Hdu Hpos). lia.
Qed.

Lemma emit_loop_spec fuel d stack out :
  length d = n → Forall (stacked_vertex up n) stack → Forall (emitted_piece g
      names edgenames up) out →
  visited_count d + length stack ≤ fuel →
  ∃ out', emit_loop g names edgenames up fuel d stack out = Some out' ∧
          Forall (emitted_piece g names edgenames up) out'.
Proof.
  revert d stack out.
  induction fuel as [|fuel IH]; intros d stack out Hd Hst Hout Hfuel.
  - destruct stack as [|v stack]; simpl in *; [|lia]. by exists out.
  - destruct stack as [|v stack]; simpl; [by exists out|].
    apply Forall_cons in Hst as [[Hv Hev] Hst].
    destruct (lookup_lt_is_Some_2 names v) as [nv Hnv]; [lia|].
    destruct (lookup_lt_is_Some_2 g v) as [adjl Hadjl]; [lia|].
    rewrite Hnv, Hadjl. simpl.
    destruct (emit_edges_spec v adjl d stack (out ++ [nv]))
      as (d' & stack' & out' & -> & Hd' & Hcount & Hst' & Hout');
      try done.
    + intros x Hx. unfold adj. by rewrite Hadjl.
    + apply Forall_app. split; [done|]. apply Forall_singleton.
      left. by exists v.
    + simpl. apply IH; try done. simpl in Hfuel. lia.
Qed.

Lemma emit_spec fuel d :
  length d = n → 0 < n → n ≤ fuel →
  ∃ out, emit g names edgenames up fuel d = Some out ∧ Forall (emitted_piece g
      names edgenames up) out.
Proof.
  intros Hd Hn Hfuel. unfold emit.
  destruct (lookup_lt_is_Some_2 d 0) as [d0 Hd0]; [lia|].
  rewrite Hd0. simpl. apply emit_loop_spec.
  - by rewrite length_insert.
  - apply Forall_singleton. split; [done|]. by left.
  - done.
  - pose proof (visited_count_room (<[0 := (0, d0.2)]> d) 0 d0.2) as Hroom.
    rewrite list_lookup_insert_eq, length_insert in Hroom by lia.
    specialize (Hroom eq_refl). simpl. lia.
Qed.

(** When HEAD alone is marked the emitter writes the name of HEAD and stops. *)
Lemma emit_edges_unmarked adjl d stack out x :
  d !! HEAD = Some (0, x) →
  (∀ u e, (u, e) ∈ adjl → u < n) →
  (∀ u, up !! u = Some true → u = HEAD) →
  emit_edges names edgenames up HEAD adjl d stack out = Some (d, stack, out).
Proof.
  intros Hd Hlt Honly. induction adjl as [|[u e] adjl IH]; simpl; [done|].
  assert (∀ u e, (u, e) ∈ adjl → u < n) as Hlt'
    by (intros u' e' ?; apply (Hlt u' e'); by right).
  destruct (lookup_lt_is_Some_2 up u) as [b Hb].
  { rewrite Hup. apply (Hlt u e). by left. }
  rewrite Hb. destruct b; [|by apply IH].
  apply Honly in Hb as ->. simpl. rewrite Hd. simpl. by apply IH.
Qed.

Lemma emit_head_only fuel d nm :
  length d = n → 0 < fuel → names !! HEAD = Some nm →
  (∀ u, up !! u = Some true → u = HEAD) →
  emit g names edgenames up fuel d = Some [nm].
Proof.
  intros Hd Hfuel Hnm Honly. unfold emit.
  assert (0 < n) as Hn by (apply lookup_lt_Some in Hnm; unfold HEAD in *; lia).
  destruct (lookup_lt_is_Some_2 d 0) as [d0 Hd0]; [lia|].
  rewrite Hd0. simpl. destruct fuel as [|fuel]; [lia|]. simpl.
  unfold HEAD in Hnm. rewrite Hnm. simpl.
  destruct (lookup_lt_is_Some_2 g 0) as [adjl Hadjl]; [lia|].
  rewrite Hadjl. simpl.
  rewrite (emit_edges_unmarked adjl _ [] [nm] d0.2).
  - simpl. by destruct fuel.
  - unfold HEAD. by rewrite list_lookup_insert_eq by lia.
  - intros u e Hin. apply (Hent 0 u e). unfold adj. by rewrite Hadjl.
  - done.
Qed.

End EmitFacts.

(** * The traversal followed by the emitter *)

Lemma traverse_result g bad n fuel :
  well_formed g bad n → 2 * n ≤ fuel →
  ∃ st up,
    traverse g bad fuel n = Some (dfs st, up) ∧ search_ok g bad n st ∧
    stk st = [] ∧ acc st = [HEAD] ∧ length up = n ∧
    ∀ x, up !! x = Some true ↔ upstream st !! x = Some true ∨ x = HEAD.
Proof.
  intros Hwf Hfuel.
  destruct (run_completes g bad n Hwf fuel Hfuel)
    as (st & Hrun & Hok & Hstk & Hacc).
  destruct (mark_rest_spec (acc st) (upstream st)) as (up & Hmark & Hl & Hup).
  { intros w Hw. rewrite (ok_upstream _ _ _ _ Hok), <-(ok_dfs _ _ _ _ Hok).
    by apply visited_lookup, (ok_acc _ _ _ _ Hok). }
  exists st, up. unfold traverse. rewrite Hrun. simpl. rewrite Hmark. simpl.
  split; [done|]. split; [done|]. split; [done|]. split; [done|].
  split; [by rewrite Hl, (ok_upstream _ _ _ _ Hok)|].
  intros x. split.
  - intros [?|Hin]%Hup; [by left|]. right. rewrite Hacc in Hin.
    by apply list_elem_of_singleton in Hin.
  - intros [?| ->]; apply Hup; [by left|]. right. rewrite Hacc. by left.
Qed.

Lemma analyse_spec fuel t :
  well_formed (graph t) (badedge t) (nodes t) →
  length (name t) = nodes t → length (badedge t) ≤ length (edgename t) →
  2 * nodes t ≤ fuel →
  ∃ up out,
    analyse fuel t = Some out ∧
    Forall (emitted_piece (graph t) (name t) (edgename t) up) out ∧
    (∀ x, up !! x = Some true → reachable (graph t) (badedge t) x) ∧
    (∀ x, up !! x = Some true → x ≠ HEAD →
          reachable (graph t) (badedge t) TAIL).
Proof.
  intros Hwf Hname Hbad Hfuel.
  destruct (traverse_result _ _ _ fuel Hwf Hfuel)
    as (st & up & Htr & Hok & Hstk & Hacc & Hlen & Hup).
  pose proof Hwf as (Hn & Hg & Hent).
  destruct (emit_spec (graph t) (name t) (edgename t) up (nodes t) Hg)
    with (fuel := fuel) (d := dfs st) as (out & Hemit & Hout);
    try done.
  - intros v u e Hin. destruct (Hent v u e Hin). lia.
  - apply (ok_dfs _ _ _ _ Hok).
  - lia.
  - exists up, out. unfold analyse. rewrite Htr. simpl.
    split; [done|]. split; [done|]. split.
    + intros x [Hx| ->]%Hup; [|constructor].
      by apply (ok_reach _ _ _ _ Hok), (ok_marked _ _ _ _ Hok).
    + intros x [Hx|?]%Hup Hne; [|done].
      by apply (ok_marked _ _ _ _ Hok x).
Qed.

Lemma analyse_head_only fuel t nm :
  well_formed (graph t) (badedge t) (nodes t) →
  length (name t) = nodes t → length (badedge t) ≤ length (edgename t) →
  name t !! HEAD = Some nm → 2 * nodes t ≤ fuel →
  ¬ reachable (graph t) (badedge t) TAIL →
  analyse fuel t = Some [nm].
Proof.
  intros Hwf Hname Hbad Hnm Hfuel Hno.
  destruct (traverse_result _ _ _ fuel Hwf Hfuel)
    as (st & up & Htr & Hok & Hstk & Hacc & Hlen & Hup).
  pose proof Hwf as (Hn & Hg & Hent).
  unfold analyse. rewrite Htr. simpl.
  apply (emit_head_only (graph t) (name t) (edgename t) up (nodes t));
    try done.
  - intros v u e Hin. destruct (Hent v u e Hin). lia.
  - apply (ok_dfs _ _ _ _ Hok).
  - lia.
  - intros u [Hu|?]%Hup; [|done].
    by apply (ok_marked _ _ _ _ Hok) in Hu as [_ ?].
Qed.

(** * The tables of either build suit the analysis *)

Lemma add_row_edgeidx edge source target t t' :
  add_row edge source target t = Some t' →
  (edgename t' = edgename t ∧ edgeidx t' = edgeidx t) ∨
  (edgename t' = edgename t ++ [edge] ∧
   edgeidx t' = <[edge := edges t]> (edgeidx t)).
Proof.
  unfold add_row, vertex_of, edge_of. intros H.
  repeat case_match; simplify_option_eq; auto.
Qed.

Lemma assembled_edgenames_known P t : assembled P t → edgenames_known t.
Proof.
  induction 1 as [|t edge source target t' Ha IH ? ? ? Hrow|t Ha IH|t Ha IH
                 |t s id t' Ha IH ? ? Hd]; unfold edgenames_known in *.
  - intros e s. by destruct e.
  - apply add_row_edgeidx in Hrow as [[-> ->]|[-> ->]]; [done|].
    intros e s [Hs|[_ Hs]]%lookup_app_Some.
    + destruct (IH e s Hs) as [?|[x Hx]]; [by left|]. right.
      destruct (decide (s = edge)) as [->|Hne].
      * rewrite lookup_insert_eq. eauto.
      * rewrite lookup_insert_ne by done. eauto.
    + destruct (e - length (edgename t)) as [|k]; simplify_eq/=.
      right. rewrite lookup_insert_eq. eauto.
  - simpl. intros e s [Hs|[_ Hs]]%lookup_app_Some; [by apply (IH e)|].
    destruct (e - length (edgename t)) as [|k]; simplify_eq/=. by left.
  - done.
  - apply designate_frame in Hd as (_ & -> & _ & _ & -> & _). done.
Qed.

Lemma add_row_graph P edge source target t t' w x :
  sound P t → P edge → P source → P target →
  add_row edge source target t = Some t' → x ∈ adj (graph t') w →
  x ∈ adj (graph t) w ∨ (2 ≤ w ∧ x.2 < edges t').
Proof.
  intros Hs He Hso Hta. unfold add_row.
  destruct (vertex_of source t) as [sv t1] eqn:H1.
  destruct (vertex_of target t1) as [tv t2] eqn:H2.
  destruct (edge_of edge t2) as [ev t3] eqn:H3.
  apply (vertex_of_sound P) in H1 as Hv1; [|done..].
  destruct Hv1 as (Ht1 & Hsv & _).
  apply (vertex_of_sound P) in H2 as Hv2; [|done..].
  destruct Hv2 as (Ht2 & Htv & _).
  apply (edge_of_sound P) in H3 as (Ht3 & Hev & Hn3 & Hg3 & _); [|done..].
  intros H. destruct (edgenodes t3 !! ev) as [segs|]; simplify_eq/=.
  destruct (link2 sv tv ev (graph t3)) as [g|] eqn:Hl; simplify_eq/=.
  intros [Hin|Hin]%(link2_iff _ _ _ _ _ _ _ Hl).
  - left. rewrite Hg3 in Hin.
    assert (∀ id t v t1 w, vertex_of id t = (v, t1) →
              adj (graph t1) w = adj (graph t) w) as Hsame.
    { intros id0 t0 v0 t01 w0. unfold vertex_of.
      destruct (idx t0 !! id0); intros; simplify_eq/=; [done|].
      apply adj_grow. }
    by rewrite (Hsame _ _ _ _ _ H2), (Hsame _ _ _ _ _ H1) in Hin.
  - right. destruct Hin as [[-> ->]|[-> ->]]; simpl; split; lia.
Qed.

Lemma add_row_named P edge source target t t' :
  sound P t → P edge → P source → P target → edge_entries_named t →
  add_row edge source target t = Some t' → edge_entries_named t'.
Proof.
  intros Hs He Hso Hta Hn H.
  pose proof (add_row_sound P _ _ _ _ _ Hs He Hso Hta H) as Hs'.
  pose proof (add_row_edges _ _ _ _ _ H) as Hedges.
  intros v u e Hin.
  destruct (add_row_graph P _ _ _ _ _ _ _ Hs He Hso Hta H Hin)
    as [Hold|[_ Hnew]].
  - specialize (Hn v u e Hold).
    destruct Hedges as [(_ & -> & _)|(_ & -> & _)]; [done|].
    rewrite length_app. simpl. lia.
  - pose proof (sound_edges _ _ Hs'). simpl in Hnew. lia.
Qed.

Lemma add_row_head_free P edge source target t t' :
  sound P t → P edge → P source → P target → head_free t →
  add_row edge source target t = Some t' → head_free t'.
Proof.
  intros Hs He Hso Hta Hf H u e Hin.
  destruct (add_row_graph P _ _ _ _ _ _ _ Hs He Hso Hta H Hin)
    as [Hold|[Hw _]]; [by apply (Hf u e)|]. unfold HEAD in Hw. lia.
Qed.

Lemma designate_tail_head_free P id t t' :
  sound P t → indexed t → head_free t → designate TAIL id t = Some t' →
  head_free t'.
Proof.
  intros Hs Hix Hf H u e [Hold|Hnew]%(designate_graph _ _ _ _ _ _ H);
    [by apply (Hf u e)|].
  pose proof (sound_sentinels _ _ Hs) as Htwo.
  destruct Hnew as [(v & Hv & Hor)
                   |[(e0 & v & He0 & Hb & Hin & Hor)
                    |(e0 & segs & i & q & He0 & Hb & Hsegs & Hq & Hor)]].
  - apply (sound_idx _ _ Hs) in Hv as [Hv _].
    destruct Hor as [[? _]|[? _]]; [done|]. unfold HEAD in *. lia.
  - destruct (substitutes_elem _ _ _ Hin) as (vs & Hvs & Hin').
    pose proof (sound_edgevtx _ _ Hs _ _ _ Hvs Hin') as Hv2.
    destruct Hor as [[? _]|[? _]]; [done|]. unfold HEAD in *. lia.
  - destruct (segment_ends _ _ _ _ _ Hix Hsegs Hq) as [Hq1 Hq2].
    unfold HEAD, TAIL in *.
    destruct Hor as [[? _]|[[? _]|[[? _]|[[? _]|[[? _]|[? _]]]]]]; lia.
Qed.

Lemma designate_named P s id t t' :
  sound P t → edge_entries_named t → dummy_ready t →
  designate s id t = Some t' → edge_entries_named t' ∧ dummy_ready t'.
Proof.
  intros Hs Hn Hr H.
  pose proof (designate_frame _ _ _ _ H)
    as (Ee & Een & _ & Eidx & Eei & _).
  split.
  - intros v u e [Hold|Hnew]%(designate_graph _ _ _ _ _ _ H).
    + rewrite Een. by apply (Hn v u e).
    + rewrite Een. pose proof (designated_entry_dummy _ _ _ _ _ Hnew) as He.
      simpl in He. subst e. destruct Hr as [?|[Hi Hei]]; [done|].
      exfalso. unfold designated_entry in Hnew. rewrite Hi, Hei in Hnew.
      destruct Hnew as [(? & Hx & _)|[(? & ? & Hx & _)
                                      |(? & ? & ? & ? & Hx & _)]];
        by rewrite lookup_empty in Hx.
  - unfold dummy_ready. by rewrite Ee, Een, Eidx, Eei.
Qed.

Lemma add_starts_named P lines t t' :
  (∀ s, P (s ++ [newline])) → assembled P t →
  edge_entries_named t → dummy_ready t → add_starts lines t = Some t' →
  edge_entries_named t'.
Proof.
  intros HP. revert t.
  induction lines as [|l lines IH]; intros t Ha Hn Hr H; simplify_eq/=;
    [done|].
  destruct (add_start l t) as [t1|] eqn:H1; simplify_eq/=.
  destruct (designate_named P HEAD (start_key l) t t1) as [Hn1 Hr1];
    try done; [by apply assembled_sound|].
  apply (IH t1); try done.
  apply (as_designate P t HEAD (start_key l) t1); try done; [by left|].
  apply HP.
Qed.

Lemma robust_parse_named fuel bytes t :
  RobustBuild.parse fuel bytes = Some t →
  assembled blank_or_terminated t ∧ edge_entries_named t ∧ dummy_ready t ∧
  head_free t.
Proof.
  unfold RobustBuild.parse. intros H.
  destruct (Robust.scan_field fuel RobustBuild.top_keys
              (RobustBuild.top_action fuel) _) as [[b st]|] eqn:Hs;
    simplify_eq/=.
  eapply (RobustFacts.scan_field_preserves
            (λ t, assembled blank_or_terminated t ∧ edge_entries_named t ∧
                  dummy_ready t ∧ head_free t)) in Hs; [done| |].
  - clear. intros i st st' (Ha & Hn & Hr & Hf) H.
    unfold RobustBuild.top_action in H.
    destruct i as [|[|i]]; simplify_eq/=; [..|done].
    + destruct (Robust.scan_list fuel (RobustBuild.row_action fuel) st)
        as [[b st1]|] eqn:Hs; simplify_eq/=.
      eapply (RobustFacts.scan_list_preserves
                (λ t, assembled blank_or_terminated t ∧
                      edge_entries_named t ∧ head_free t)) in Hs; [| |done].
      * destruct Hs as (Ha1 & Hn1 & Hf1). split; [by apply as_dummy|].
        pose proof (sound_edges _ _ (assembled_sound _ _ Ha1)).
        split; [|split].
        -- intros v u e Hin. specialize (Hn1 v u e Hin). simpl.
           rewrite length_app. simpl. lia.
        -- left. simpl. rewrite length_app. simpl. lia.
        -- done.
      * intros sa sb (Hsa & Hna & Hfa)
          [->|(e & s & g & ? & ? & ? & Hadd)]%RobustFacts.row_action_adds;
          [done|].
        split; [by apply (as_row _ sa.2 e s g)|]. split.
        -- apply (add_row_named blank_or_terminated e s g sa.2); try done.
           by apply assembled_sound.
        -- apply (add_row_head_free blank_or_terminated e s g sa.2);
             try done.
           by apply assembled_sound.
    + destruct (Robust.scan_list fuel (RobustBuild.controller_action fuel) st)
        as [[b st1]|] eqn:Hs; simplify_eq/=.
      eapply (RobustFacts.scan_list_preserves
                (λ t, assembled blank_or_terminated t ∧
                      edge_entries_named t ∧ dummy_ready t ∧ head_free t))
        in Hs; [done| |done].
      intros sa sb (Hsa & Hna & Hra & Hfa)
        [->|(c & ? & Hadd)]%RobustFacts.controller_action_adds; [done|].
      split.
      * eapply as_designate; [by apply as_count, Hsa|by right|done|done].
      * rewrite (assoc _).
        split.
        -- apply (designate_named blank_or_terminated TAIL c
                    (count_controller sa.2)); try done.
           by apply count_controller_sound, assembled_sound.
        -- apply (designate_tail_head_free blank_or_terminated c
                    (count_controller sa.2)); try done.
           ++ by apply count_controller_sound, assembled_sound.
           ++ by apply (assembled_indexed blank_or_terminated), as_count.
  - split; [constructor|].
    assert (∀ v u e, (u, e) ∉ adj (graph init_tables) v) as Hnone.
    { intros v u e. unfold adj. destruct v as [|[|v]]; simpl;
        by intros ?%elem_of_nil. }
    split; [|split].
    + intros v u e Hin. by apply Hnone in Hin.
    + by right.
    + intros u e. apply Hnone.
Qed.

Lemma read_graph_analysable fuel bytes startingpoints t :
  FastBuild.read_graph fuel bytes startingpoints = Some t ∨
  RobustBuild.read_graph fuel bytes startingpoints = Some t →
  well_formed (graph t) (badedge t) (nodes t) ∧
  length (name t) = nodes t ∧ length (badedge t) ≤ length (edgename t) ∧
  name t !! HEAD = Some [] ∧ name t !! TAIL = Some [].
Proof.
  intros [H|H].
  - pose proof (read_graph_well_formed _ _ _ _ H) as Hwf.
    apply FastFacts.read_graph_wired, wired_phase_assembled,
      (assembled_sound terminated) in H.
    split; [done|]. split; [apply (sound_name _ _ H)|].
    split; [by rewrite (sound_edgename _ _ H)|].
    split; [apply (sound_head _ _ H)|apply (sound_tail _ _ H)].
  - unfold RobustBuild.read_graph in H.
    destruct (RobustBuild.parse fuel bytes) as [t0|] eqn:Hp; simplify_eq/=.
    apply robust_parse_named in Hp as (Ha & Hn & Hr & _).
    assert (∀ s, blank_or_terminated (s ++ [newline])) as HP
      by (intros s; right; apply terminated_snoc).
    pose proof (add_starts_named _ _ _ _ HP Ha Hn Hr H) as Hn'.
    pose proof (assembled_sound _ _
                  (add_starts_assembled _ _ _ _ HP Ha H)) as Hs.
    split.
    { split; [pose proof (sound_sentinels _ _ Hs); lia|].
      split; [apply (sound_graph _ _ Hs)|]. intros v u e Hin.
      destruct (sound_entries _ _ Hs v u e Hin) as [Hu _].
      split; [done|]. rewrite <-(sound_edgename _ _ Hs). by apply (Hn' v u). }
    split; [apply (sound_name _ _ Hs)|].
    split; [by rewrite (sound_edgename _ _ Hs)|].
    split; [apply (sound_head _ _ Hs)|apply (sound_tail _ _ Hs)].
Qed.

(** * Starting points that name nothing *)

Lemma designate_unknown s id t :
  idx t !! id = None → edgeidx t !! id = None → designate s id t = Some t.
Proof.
  unfold designate. intros H1 H2. rewrite H1. simpl. by rewrite H2.
Qed.

Lemma add_starts_frame lines t t' :
  add_starts lines t = Some t' → idx t' = idx t ∧ edgeidx t' = edgeidx t.
Proof.
  revert t. induction lines as [|l lines IH]; intros t H; simplify_eq/=;
    [done|].
  destruct (add_start l t) as [t1|] eqn:H1; simplify_eq/=.
  apply designate_frame in H1 as (_ & _ & _ & <- & <- & _). by apply IH.
Qed.

Lemma add_starts_unknown lines t t' :
  (∀ line, line ∈ lines →
           idx t' !! start_key line = None ∧
           edgeidx t' !! start_key line = None) →
  add_starts lines t = Some t' → t' = t.
Proof.
  intros Hun H. pose proof (add_starts_frame _ _ _ H) as [Ei Ee].
  rewrite Ei, Ee in Hun. clear Ei Ee. revert t H Hun.
  induction lines as [|l lines IH]; intros t H Hun; simplify_eq/=; [done|].
  destruct (Hun l) as [H1 H2]; [by left|].
  unfold add_start in H. rewrite (designate_unknown _ _ _ H1 H2) in H.
  simpl in H. apply IH; [done|]. intros line ?. apply Hun. by right.
Qed.

Lemma parse_head_free fuel bytes t :
  FastBuild.parse fuel bytes = Some t ∨ RobustBuild.parse fuel bytes = Some t →
  head_free t.
Proof.
  intros [H|H].
  - apply parse_wired_by in H as (ts & Hw).
    pose proof (rd_head _ _ _ (wired_by_reduced _ _ _ Hw)) as Hh.
    intros u e Hin.
    destruct (wt_only _ _ _ Hh u e Hin) as (_ & _ & id & Hid & _).
    by apply elem_of_nil in Hid.
  - by apply robust_parse_named in H as (_ & _ & _ & ?).
Qed.

Lemma head_free_unreachable t v :
  head_free t → reachable (graph t) (badedge t) v → v = HEAD.
Proof.
  intros Hf. induction 1 as [|u v _ -> (e & Hin & _)]; [done|].
  by apply Hf in Hin.
Qed.

(** * What the emitter covers *)

Lemma zeroed_insert d u x w :
  zeroed d w → zeroed (<[u := (0, x)]> d) w.
Proof.
  intros [y Hy]. unfold zeroed. destruct (decide (w = u)) as [->|Hne].
  - rewrite list_lookup_insert_eq by (by eapply lookup_lt_Some). eauto.
  - rewrite list_lookup_insert_ne by done. eauto.
Qed.

Lemma zeroed_insert_inv d u x w :
  zeroed (<[u := (0, x)]> d) w → w = u ∨ zeroed d w.
Proof.
  intros [y Hy]. destruct (decide (w = u)) as [->|Hne]; [by left|].
  rewrite list_lookup_insert_ne in Hy by done. right. by exists y.
Qed.

Lemma written_mono l out out' i :
  (∀ s, s ∈ out → s ∈ out') → written l out i → written l out' i.
Proof. intros Hsub (s & ? & ?). exists s. auto. Qed.

Section EmitCovers.
Context (g : adjacency) (names edgenames : list text) (up : list bool).

Lemma emit_edges_covers v adjl d stack out d' stack' out' :
  emit_edges names edgenames up v adjl d stack out = Some (d', stack', out') →
  (∀ w, zeroed d w → zeroed d' w) ∧
  (∀ s, s ∈ out → s ∈ out') ∧
  (∀ w, w ∈ stack → w ∈ stack') ∧
  (∀ w, w ∈ stack' → w ∈ stack ∨ (up !! w = Some true ∧ zeroed d' w)) ∧
  (∀ w, zeroed d' w →
        zeroed d w ∨ (w ∈ stack' ∧ up !! w = Some true ∧ written names out'
            w)) ∧
  (∀ u e, (u, e) ∈ adjl → up !! u = Some true →
          zeroed d' u ∧ (v < u → written edgenames out' e)).
Proof.
  revert d stack out.
  induction adjl as [|[u e] adjl IH]; intros d stack out H; simplify_eq/=.
  - split; [done|]. split; [done|]. split; [done|].
    split; [by left|]. split; [by left|].
    by intros u e ?%elem_of_nil.
  - destruct (up !! u) as [[]|] eqn:Hu; simplify_eq/=.
    2:{ destruct (IH _ _ _ H) as (H1 & H2 & H3 & H4 & H5 & H6).
        split; [done|]. split; [done|]. split; [done|].
        split; [done|]. split; [done|].
        intros u' e' [?|Hin]%elem_of_cons Hu'; simplify_eq;
          by apply (H6 u' e'). }
    destruct (if v <? u then _ else _) as [out1|] eqn:Ho; simplify_eq/=.
    assert ((∀ s, s ∈ out → s ∈ out1) ∧
            (v < u → written edgenames out1 e)) as [Hsub1 Hedge].
    { destruct (v <? u) eqn:Hlt.
      - destruct (edgenames !! e) as [en|] eqn:Hen; simplify_eq/=.
        split; [intros s ?; apply elem_of_app; by left|].
        intros _. exists en. split; [done|].
        apply elem_of_app. right. by left.
      - simplify_eq. split; [done|]. apply Nat.ltb_ge in Hlt. lia. }
    destruct (d !! u) as [du|] eqn:Hdu; simplify_eq/=.
    destruct (0 <? du.1) eqn:Hpos.
    + destruct (names !! u) as [nu|] eqn:Hnu; simplify_eq/=.
      destruct (IH _ _ _ H) as (H1 & H2 & H3 & H4 & H5 & H6).
      assert (zeroed (<[u := (0, du.2)]> d) u) as Hzu.
      { exists du.2. apply list_lookup_insert_eq. by eapply lookup_lt_Some. }
      assert (written names out' u) as Hwu.
      { exists nu. split; [done|]. apply H2, elem_of_app. right. by left. }
      split; [intros w Hw; by apply H1, zeroed_insert|].
      split; [intros s Hs; apply H2, elem_of_app; left; by apply Hsub1|].
      split; [intros w Hw; apply H3; by right|].
      split.
      { intros w [Hw|Hw]%H4; [|by right].
        apply elem_of_cons in Hw as [->|Hw]; [|by left].
        right. split; [done|]. by apply H1. }
      split.
      { intros w [Hw|Hw]%H5; [|by right].
        apply zeroed_insert_inv in Hw as [->|Hw]; [|by left].
        right. split; [apply H3; by left|done]. }
      intros u' e' [?|Hin]%elem_of_cons Hu'; [|by apply (H6 u' e')].
      simplify_eq. split; [by apply H1|].
      intros Hlt. eapply written_mono; [|by apply Hedge].
      intros s Hs. apply H2, elem_of_app. by left.
    + destruct (IH _ _ _ H) as (H1 & H2 & H3 & H4 & H5 & H6).
      split; [done|].
      split; [intros s Hs; by apply H2, Hsub1|].
      split; [done|]. split; [done|]. split; [done|].
      intros u' e' [?|Hin]%elem_of_cons Hu'; [|by apply (H6 u' e')].
      simplify_eq. split.
      * apply H1. exists du.2. destruct du as [a b]. simpl in *.
        apply Nat.ltb_ge in Hpos. by replace a with 0 in Hdu by lia.
      * intros Hlt. eapply written_mono; [apply H2|by apply Hedge].
Qed.

Lemma emit_loop_covers fuel d stack out out' :
  covering g names edgenames up d stack out →
  emit_loop g names edgenames up fuel d stack out = Some out' →
  ∃ d', (∀ s, s ∈ out → s ∈ out') ∧
        covering g names edgenames up d' [] out'.
Proof.
  revert d stack out.
  induction fuel as [|fuel IH]; intros d stack out Hc H.
  - destruct stack; simplify_eq/=. by exists d.
  - destruct stack as [|v stack]; simplify_eq/=; [by exists d|].
    destruct (names !! v) as [nv|] eqn:Hnv; simplify_eq/=.
    destruct (g !! v) as [adjl|] eqn:Hadjl; simplify_eq/=.
    destruct (emit_edges _ _ _ _ _ _ _ _) as [[[d1 stack1] out1]|] eqn:He;
      simplify_eq/=.
    apply emit_edges_covers in He as (H1 & H2 & H3 & H4 & H5 & H6).
    destruct Hc as (C1 & C2 & C3 & C4).
    destruct (IH d1 stack1 out1) as (d' & Hsub & Hc'); [|done|].
    + assert (∀ s, s ∈ out → s ∈ out1) as Hsub1
        by (intros s Hs; apply H2, elem_of_app; by left).
      assert (written names out1 v) as Hwv.
      { exists nv. split; [done|]. apply H2, elem_of_app. right. by left. }
      assert (settled g edgenames up d1 out1 v) as Hsv.
      { intros u e Hin Hu. apply (H6 u e); [|done].
        unfold adj in Hin. by rewrite Hadjl in Hin. }
      split; [|split; [|split]].
      * intros w [Hw|[Hw Hz]]%H4; [|by split; [|right]].
        destruct (C1 w) as [? ?]; [by right|]. split; [by apply H1|done].
      * by apply H1.
      * intros w Hw [Hz|(Hin & _)]%H5; [|by left].
        destruct (decide (w = v)) as [->|Hne]; [by right|].
        destruct (C3 w Hw Hz) as [Hin|[Hs Hn]].
        -- left. apply H3. apply elem_of_cons in Hin as [?|?]; done.
        -- right. split; [|by eapply written_mono].
           intros u e Hin Hu. destruct (Hs u e Hin Hu) as [Hz' Hw'].
           split; [by apply H1|]. intros Hlt.
           eapply written_mono; [|by apply Hw']. done.
      * intros w Hw Hne [Hz|(_ & _ & ?)]%H5; [|done].
        eapply written_mono; [|by apply C4]. done.
    + exists d'. split; [|done].
      intros s Hs. apply Hsub, H2, elem_of_app. by left.
Qed.

Lemma emit_covers fuel d out :
  (∀ v, up !! v = Some true → v ≠ HEAD → ¬ zeroed d v) →
  emit g names edgenames up fuel d = Some out →
  ∀ v, emitter_reaches g up v →
       written names out v ∧
       ∀ u e, (u, e) ∈ adj g v → up !! u = Some true → v < u →
              written edgenames out e.
Proof.
  intros Hfresh. unfold emit. intros H.
  destruct (d !! 0) as [d0|] eqn:Hd0; simplify_eq/=.
  apply emit_loop_covers in H as (d' & _ & (_ & C2 & C3 & _)).
  - assert (∀ v, emitter_reaches g up v →
              zeroed d' v ∧ (v = HEAD ∨ up !! v = Some true)) as Hall.
    { induction 1 as [|u v e _ [Hz Hu] Hin Hv]; [by split; [|left]|].
      split; [|by right].
      destruct (C3 u Hu Hz) as [?%elem_of_nil|[Hs _]]; [done|].
      by apply (Hs v e). }
    intros v [Hz Hv]%Hall.
    destruct (C3 v Hv Hz) as [?%elem_of_nil|[Hs Hw]]; [done|].
    split; [done|]. intros u e Hin Hu Hlt. by apply (Hs u e).
  - assert (zeroed (<[0 := (0, d0.2)]> d) HEAD) as Hz0.
    { exists d0.2. apply list_lookup_insert_eq. by eapply lookup_lt_Some. }
    split; [|split; [|split]].
    + intros v ->%list_elem_of_singleton. split; [done|by left].
    + done.
    + intros v [->|Hv] Hz; [left; by left|].
      destruct (decide (v = HEAD)) as [->|Hne]; [left; by left|].
      apply zeroed_insert_inv in Hz as [?|Hz]; [done|].
      by destruct (Hfresh v).
    + intros v Hv Hne [?|Hz]%zeroed_insert_inv; [done|].
      by destruct (Hfresh v).
Qed.

End EmitCovers.

Lemma analyse_covers fuel t :
  well_formed (graph t) (badedge t) (nodes t) →
  length (name t) = nodes t → length (badedge t) ≤ length (edgename t) →
  2 * nodes t ≤ fuel →
  ∃ d up out,
    traverse (graph t) (badedge t) fuel (nodes t) = Some (d, up) ∧
    analyse fuel t = Some out ∧
    ∀ v, emitter_reaches (graph t) up v →
         written (name t) out v ∧
         ∀ u e, (u, e) ∈ adj (graph t) v → up !! u = Some true → v < u →
                written (edgename t) out e.
Proof.
  intros Hwf Hname Hbad Hfuel.
  destruct (traverse_result _ _ _ fuel Hwf Hfuel)
    as (st & up & Htr & Hok & Hstk & Hacc & Hlen & Hup).
  pose proof Hwf as (Hn & Hg & Hent).
  destruct (emit_spec (graph t) (name t) (edgename t) up (nodes t) Hg)
    with (fuel := fuel) (d := dfs st) as (out & Hemit & _);
    try done.
  - intros v u e Hin. destruct (Hent v u e Hin). lia.
  - apply (ok_dfs _ _ _ _ Hok).
  - lia.
  - exists (dfs st), up, out. split; [done|].
    unfold analyse. rewrite Htr. simpl. split; [done|].
    apply (emit_covers _ _ _ _ fuel (dfs st)); [|done].
    intros v [Hv|?]%Hup Hne [x Hx]; [|done].
    apply (ok_marked _ _ _ _ Hok) in Hv as [(p & Hp & Hpos) _].
    rewrite Hx in Hp. simplify_eq/=. lia.
Qed.

(** * The analysis of the tables [read_graph] returns *)

(** X7: once [read_graph] has returned, in either build, the traversal and
    the emitter run to their end within [2 * nodes] turns of their loops
    without indexing any table out of its range, and every piece written is
    empty (the name of HEAD, of TAIL or of the dummy edge), or the identifier
    of a vertex reachable from HEAD through non-deleted edges, or an edge
    identifier of the document. *)
Theorem analysis_returns fuel bytes startingpoints t fuel' :
  FastBuild.read_graph fuel bytes startingpoints = Some t ∨
  RobustBuild.read_graph fuel bytes startingpoints = Some t →
  2 * nodes t ≤ fuel' →
  ∃ out, analyse fuel' t = Some out ∧
         ∀ s, s ∈ out →
              s = [] ∨
              (∃ v, idx t !! s = Some v ∧
                    reachable (graph t) (badedge t) v) ∨
              is_Some (edgeidx t !! s).
Proof.
  intros H Hfuel.
  pose proof (read_graph_analysable _ _ _ _ H)
    as (Hwf & Hname & Hbad & Hhead & Htail).
  pose proof (read_graph_indexed _ _ _ _ H) as Hix.
  assert (edgenames_known t) as Hknown.
  { destruct H as [H|H].
    - apply FastFacts.read_graph_wired, wired_phase_assembled in H.
      by apply (assembled_edgenames_known terminated).
    - apply RobustFacts.read_graph_assembled in H.
      by apply (assembled_edgenames_known blank_or_terminated). }
  destruct (analyse_spec fuel' t Hwf Hname Hbad Hfuel)
    as (up & out & Hout & Hpieces & Hreach & _).
  exists out. split; [done|]. intros s Hs.
  rewrite Forall_forall in Hpieces.
  destruct (Hpieces s Hs)
    as [(v & Hv & Hnv)|(v & u & e & _ & _ & _ & _ & He)].
  - assert (v < 2 ∨ (2 ≤ v ∧ up !! v = Some true)) as [Hlt|[Hge Hup]].
    { destruct Hv as [->|Hv]; [left; unfold HEAD; lia|].
      destruct (decide (v < 2)); [by left|right; split; [lia|done]]. }
    + left. destruct v as [|[|v]]; [| |lia].
      * unfold HEAD in Hhead. congruence.
      * unfold TAIL in Htail. congruence.
    + apply lookup_lt_Some in Hnv as Hlt. rewrite Hname in Hlt.
      destruct (ix_cover _ Hix v) as [(id & Hid)|(id & e & He & _ & Hn)];
        [lia| |].
      * right. left. exists v. split; [|by apply Hreach].
        apply (ix_vertex _ Hix) in Hid as Hn. congruence.
      * right. right. exists e. congruence.
  - destruct (Hknown e s He) as [?|?]; [by left|by right; right].
Qed.

Lemma analysis_returns_witness :
  ∃ t out, FastBuild.read_graph 100 doc_pair [lit "A"] = Some t ∧
           analyse 100 t = Some out.
Proof.
  assert (nodes <$> FastBuild.read_graph 100 doc_pair [lit "A"] = Some 4)
    as H by (vm_compute; reflexivity).
  destruct (FastBuild.read_graph 100 doc_pair [lit "A"]) as [t|] eqn:Ht;
    [|discriminate H].
  injection H as Hn.
  destruct (analysis_returns 100 doc_pair [lit "A"] t 100)
    as (out & Hout & _).
  - left. exact Ht.
  - rewrite Hn. simpl. lia.
  - exists t, out. split; [reflexivity|exact Hout].
Defined.

(** X8: if TAIL cannot be reached from HEAD through non-deleted edges (no
    controller is connected to a starting point), the analysis of the tables
    of either build writes the empty name of HEAD and nothing else. *)
Theorem no_controller_no_output fuel bytes startingpoints t fuel' :
  FastBuild.read_graph fuel bytes startingpoints = Some t ∨
  RobustBuild.read_graph fuel bytes startingpoints = Some t →
  ¬ reachable (graph t) (badedge t) TAIL →
  2 * nodes t ≤ fuel' →
  analyse fuel' t = Some [[]].
Proof.
  intros H Hno Hfuel.
  pose proof (read_graph_analysable _ _ _ _ H)
    as (Hwf & Hname & Hbad & Hhead & Htail).
  by apply analyse_head_only.
Qed.

Lemma no_controller_no_output_witness :
  ∃ t, FastBuild.read_graph 100 doc_pair [] = Some t ∧
       analyse 100 t = Some [[]].
Proof.
  assert (nodes <$> FastBuild.read_graph 100 doc_pair [] = Some 4)
    as H by (vm_compute; reflexivity).
  destruct (FastBuild.read_graph 100 doc_pair []) as [t|] eqn:Ht;
    [|discriminate H].
  injection H as Hn. exists t. split; [reflexivity|].
  apply (no_controller_no_output 100 doc_pair [] t 100).
  - left. exact Ht.
  - intros Hr. apply (head_free_unreachable t) in Hr; [discriminate Hr|].
    apply (parse_head_free 100 doc_pair). left.
    unfold FastBuild.read_graph in Ht.
    destruct (FastBuild.parse 100 doc_pair) as [t0|]; [|discriminate Ht].
    exact Ht.
  - rewrite Hn. simpl. lia.
Defined.

(** X9: if no line of the starting-points file is the identifier of a vertex
    or of an edge (in particular if the file is empty), [read_graph] returns
    the tables of the parse unchanged, HEAD has no neighbour, and the analysis
    writes the empty name of HEAD and nothing else, in either build. *)
Theorem unknown_starting_points fuel bytes startingpoints t fuel' :
  FastBuild.read_graph fuel bytes startingpoints = Some t ∨
  RobustBuild.read_graph fuel bytes startingpoints = Some t →
  (∀ line, line ∈ startingpoints →
           idx t !! start_key line = None ∧
           edgeidx t !! start_key line = None) →
  2 * nodes t ≤ fuel' →
  (FastBuild.parse fuel bytes = Some t ∨
   RobustBuild.parse fuel bytes = Some t) ∧
  adj (graph t) HEAD = [] ∧
  analyse fuel' t = Some [[]].
Proof.
  intros H Hun Hfuel.
  pose proof (read_graph_analysable _ _ _ _ H)
    as (Hwf & Hname & Hbad & Hhead & Htail).
  assert (FastBuild.parse fuel bytes = Some t ∨
          RobustBuild.parse fuel bytes = Some t) as Hparse.
  { destruct H as [H|H]; [left|right].
    - unfold FastBuild.read_graph in H.
      destruct (FastBuild.parse fuel bytes) as [t0|]; simplify_eq/=.
      by rewrite (add_starts_unknown _ _ _ Hun H).
    - unfold RobustBuild.read_graph in H.
      destruct (RobustBuild.parse fuel bytes) as [t0|]; simplify_eq/=.
      by rewrite (add_starts_unknown _ _ _ Hun H). }
  pose proof (parse_head_free _ _ _ Hparse) as Hfree.
  split; [done|]. split.
  - destruct (adj (graph t) HEAD) as [|[u e] l] eqn:Hadj; [done|].
    exfalso. apply (Hfree u e). rewrite Hadj. by left.
  - apply analyse_head_only; try done.
    intros Hr%(head_free_unreachable _ _ Hfree). discriminate Hr.
Qed.

Lemma unknown_starting_points_witness :
  ∃ t, FastBuild.read_graph 100 doc_pair [lit "Z"] = Some t ∧
       analyse 100 t = Some [[]].
Proof.
  assert ((λ t, (nodes t, idx t !! start_key (lit "Z"),
                 edgeidx t !! start_key (lit "Z"))) <$>
            FastBuild.read_graph 100 doc_pair [lit "Z"]
          = Some (4, None, None)) as H by (vm_compute; reflexivity).
  destruct (FastBuild.read_graph 100 doc_pair [lit "Z"]) as [t|] eqn:Ht;
    [|discriminate H].
  injection H as Hn Hi He. exists t. split; [reflexivity|].
  apply (unknown_starting_points 100 doc_pair [lit "Z"] t 100).
  - left. exact Ht.
  - intros line Hin. apply list_elem_of_singleton in Hin. subst line.
    split; [exact Hi|exact He].
  - rewrite Hn. simpl. lia.
Defined.


(** X10: what the emitter covers, in either build.  After the traversal has
    marked the vertices, the emitter writes the name of HEAD and of every
    vertex it can get to from HEAD by stepping to neighbours marked upstream
    (through deleted edges as well), and for every adjacency entry of such a
    vertex that leads to a marked vertex of larger index it writes the name
    of the entry's edge. *)
Theorem emitter_covers fuel bytes startingpoints t fuel' :
  FastBuild.read_graph fuel bytes startingpoints = Some t ∨
  RobustBuild.read_graph fuel bytes startingpoints = Some t →
  2 * nodes t ≤ fuel' →
  ∃ d up out,
    traverse (graph t) (badedge t) fuel' (nodes t) = Some (d, up) ∧
    analyse fuel' t = Some out ∧
    ∀ v, emitter_reaches (graph t) up v →
         written (name t) out v ∧
         ∀ u e, (u, e) ∈ adj (graph t) v → up !! u = Some true → v < u →
                written (edgename t) out e.
Proof.
  intros H Hfuel.
  pose proof (read_graph_analysable _ _ _ _ H)
    as (Hwf & Hname & Hbad & _).
  by apply analyse_covers.
Qed.

Lemma emitter_covers_witness :
  ∃ t d up out,
    FastBuild.read_graph 100 doc_pair [lit "A"] = Some t ∧
    traverse (graph t) (badedge t) 100 (nodes t) = Some (d, up) ∧
    analyse 100 t = Some out ∧ written (name t) out HEAD.
Proof.
  assert (nodes <$> FastBuild.read_graph 100 doc_pair [lit "A"] = Some 4)
    as H by (vm_compute; reflexivity).
  destruct (FastBuild.read_graph 100 doc_pair [lit "A"]) as [t|] eqn:Ht;
    [|discriminate H].
  injection H as Hn.
  destruct (emitter_covers 100 doc_pair [lit "A"] t 100)
    as (d & up & out & Htr & Hout & Hall).
  - left. exact Ht.
  - rewrite Hn. simpl. lia.
  - exists t, d, up, out. split; [reflexivity|]. split; [exact Htr|].
    split; [exact Hout|]. apply (Hall HEAD). apply er_head.
Defined.

(** * Single reads *)

Lemma readc_out_quote rest b k s :
  readc (Scanner (quote :: rest) b k s) = (quote, Scanner rest b k (negb s)).
Proof. done. Qed.

Lemma readc_in c rest b k :
  c ≠ quote → readc (Scanner (c :: rest) b k true) = (c, Scanner rest b k true).
Proof. intros Hc. unfold readc. simpl. by apply Ascii.eqb_neq in Hc as ->. Qed.

Lemma readc_out_plain c rest b k :
  plain_char c →
  readc (Scanner (c :: rest) b k false) = (c, Scanner rest b k false).
Proof.
  intros [Hq Hs]. unfold readc, structural in *. simpl.
  apply Ascii.eqb_neq in Hq as ->.
  destruct (Ascii.eqb c lbrace) eqn:E1; [apply Ascii.eqb_eq in E1; tauto|].
  destruct (Ascii.eqb c rbrace) eqn:E2; [apply Ascii.eqb_eq in E2; tauto|].
  destruct (Ascii.eqb c lbracket) eqn:E3; [apply Ascii.eqb_eq in E3; tauto|].
  destruct (Ascii.eqb c rbracket) eqn:E4; [apply Ascii.eqb_eq in E4; tauto|].
  done.
Qed.

Lemma wrap_small z : (0 ≤ z < uintf_modulus)%Z → wrap z = z.
Proof. intros. unfold wrap. by apply Z.mod_small. Qed.

Lemma readc_lbrace rest b k :
  (0 ≤ b)%Z → (b + 1 < uintf_modulus)%Z →
  readc (Scanner (lbrace :: rest) b k false)
    = (lbrace, Scanner rest (b + 1) k false).
Proof. intros. unfold readc. simpl. rewrite wrap_small by lia. done. Qed.

Lemma readc_rbrace rest b k :
  (1 ≤ b < uintf_modulus)%Z →
  readc (Scanner (rbrace :: rest) b k false)
    = (rbrace, Scanner rest (b - 1) k false).
Proof. intros. unfold readc. simpl. rewrite wrap_small by lia. done. Qed.

Lemma readc_lbracket rest b k :
  (0 ≤ k)%Z → (k + 1 < uintf_modulus)%Z →
  readc (Scanner (lbracket :: rest) b k false)
    = (lbracket, Scanner rest b (k + 1) false).
Proof. intros. unfold readc. simpl. rewrite wrap_small by lia. done. Qed.

Lemma readc_rbracket rest b k :
  (1 ≤ k < uintf_modulus)%Z →
  readc (Scanner (rbracket :: rest) b k false)
    = (rbracket, Scanner rest b (k - 1) false).
Proof. intros. unfold readc. simpl. rewrite wrap_small by lia. done. Qed.

(** * The loops of [json_fast.h] as instances of [read_while] *)

Lemma begin_field_loop_while fuel level stop sc :
  Fast.begin_field_loop fuel level stop sc =
  (λ sc', ((stop <=? brackets sc')%Z, sc')) <$>
    read_while (λ sc, (level =? braces sc)%Z && (stop <=? brackets sc)%Z)
      fuel sc.
Proof.
  revert sc. induction fuel as [|fuel IH]; intros sc; simpl;
    destruct ((level =? braces sc)%Z && (stop <=? brackets sc)%Z); try done.
Qed.

Lemma begin_list_loop_while fuel level stop sc :
  Fast.begin_list_loop fuel level stop sc =
  (λ sc', ((stop <=? braces sc')%Z, sc')) <$>
    read_while (λ sc, (level =? brackets sc)%Z && (stop <=? braces sc)%Z)
      fuel sc.
Proof.
  revert sc. induction fuel as [|fuel IH]; intros sc; simpl;
    destruct ((level =? brackets sc)%Z && (stop <=? braces sc)%Z); try done.
Qed.

Lemma end_field_loop_while fuel level sc :
  Fast.end_field_loop fuel level sc =
  read_while (λ sc, (level <=? braces sc)%Z) fuel sc.
Proof.
  revert sc. induction fuel as [|fuel IH]; intros sc; simpl;
    destruct (level <=? braces sc)%Z; try done.
Qed.

Lemma end_list_loop_while fuel level sc :
  Fast.end_list_loop fuel level sc =
  read_while (λ sc, (level <=? brackets sc)%Z) fuel sc.
Proof.
  revert sc. induction fuel as [|fuel IH]; intros sc; simpl;
    destruct (level <=? brackets sc)%Z; try done.
Qed.

(** * Passing over text without depth *)

Lemma read_while_step cond f sc :
  cond sc = true → read_while cond (S f) sc = read_while cond f (readc sc).2.
Proof. simpl. by intros ->. Qed.

Lemma read_while_stop cond fuel sc :
  cond sc = false → read_while cond fuel sc = Some sc.
Proof. destruct fuel; simpl; by intros ->. Qed.

Lemma read_while_inside cond body rest b k f :
  depth_only cond → cond (Scanner [] b k false) = true → quote ∉ body →
  read_while cond (S (length body + f))
    (Scanner (body ++ quote :: rest) b k true)
  = read_while cond f (Scanner rest b k false).
Proof.
  intros Hd Hc. induction body as [|c body IH]; intros Hq.
  - simpl length. rewrite read_while_step; [done|].
    rewrite <-Hc. by apply Hd.
  - apply not_elem_of_cons in Hq as [Hne Hq]. simpl length.
    rewrite read_while_step by (rewrite <-Hc; by apply Hd).
    simpl app. rewrite readc_in by done. by apply IH.
Qed.

Lemma read_while_passive cond w rest b k f :
  depth_only cond → cond (Scanner [] b k false) = true → passive w →
  read_while cond (length w + f) (Scanner (w ++ rest) b k false)
  = read_while cond f (Scanner rest b k false).
Proof.
  intros Hd Hc. induction 1 as [|c w Hp _ IH|s w Hs _ IH]; [done|..].
  - simpl length. simpl app. rewrite Nat.add_succ_l.
    rewrite read_while_step by (rewrite <-Hc; by apply Hd).
    by rewrite readc_out_plain.
  - simpl length. simpl app. rewrite Nat.add_succ_l.
    rewrite read_while_step by (rewrite <-Hc; by apply Hd).
    rewrite readc_out_quote. cbn [snd negb].
    rewrite length_app. simpl length.
    replace (length s + S (length w) + f)
      with (S (length s + (length w + f))) by lia.
    rewrite <-(assoc_L (++)). simpl app.
    rewrite read_while_inside by done. done.
Qed.

Lemma passive_app w1 w2 : passive w1 → passive w2 → passive (w1 ++ w2).
Proof.
  induction 1 as [|c w Hp _ IH|s w Hs _ IH]; intros H2; simpl; [done|..].
  - by apply passive_char, IH.
  - rewrite <-(assoc_L (++)). simpl. by apply passive_string, IH.
Qed.

Lemma passive_plain w : Forall plain_char w → passive w.
Proof. induction 1; [constructor|by apply passive_char]. Qed.

(** * [begin_field], [begin_list], [end_field], [end_list] *)

Lemma depth_only_begin_field level stop :
  depth_only (λ sc, (level =? braces sc)%Z && (stop <=? brackets sc)%Z).
Proof. by intros sc1 sc2 -> ->. Qed.

Lemma depth_only_begin_list level stop :
  depth_only (λ sc, (level =? brackets sc)%Z && (stop <=? braces sc)%Z).
Proof. by intros sc1 sc2 -> ->. Qed.

Lemma depth_only_end_field level :
  depth_only (λ sc, (level <=? braces sc)%Z).
Proof. by intros sc1 sc2 -> _. Qed.

Lemma depth_only_end_list level :
  depth_only (λ sc, (level <=? brackets sc)%Z).
Proof. by intros sc1 sc2 _ ->. Qed.

Lemma fuel_split n fuel : n < fuel → ∃ f, fuel = n + S f.
Proof. intros H. exists (fuel - n - 1). lia. Qed.

Lemma begin_field_opens fuel w rest b k :
  passive w → (0 ≤ b)%Z → (b + 1 < uintf_modulus)%Z → length w < fuel →
  Fast.begin_field fuel (Scanner (w ++ lbrace :: rest) b k false)
  = Some (true, Scanner rest (b + 1) k false).
Proof.
  intros Hw Hb1 Hb2 (f & ->)%fuel_split. unfold Fast.begin_field.
  rewrite begin_field_loop_while. cbn [braces brackets].
  rewrite read_while_passive;
    [|apply depth_only_begin_field
     |cbn [braces brackets]; by rewrite Z.eqb_refl, Z.leb_refl|done].
  rewrite read_while_step
    by (cbn [braces brackets]; by rewrite Z.eqb_refl, Z.leb_refl).
  rewrite readc_lbrace by done. cbn [snd].
  rewrite read_while_stop.
  - simpl. by rewrite Z.leb_refl.
  - cbn [braces brackets]. apply andb_false_intro1, Z.eqb_neq. lia.
Qed.

Lemma begin_field_leaves fuel w rest b k :
  passive w → (1 ≤ b < uintf_modulus)%Z → length w < fuel →
  Fast.begin_field fuel (Scanner (w ++ rbrace :: rest) b k false)
  = Some (true, Scanner rest (b - 1) k false).
Proof.
  intros Hw Hb (f & ->)%fuel_split. unfold Fast.begin_field.
  rewrite begin_field_loop_while. cbn [braces brackets].
  rewrite read_while_passive;
    [|apply depth_only_begin_field
     |cbn [braces brackets]; by rewrite Z.eqb_refl, Z.leb_refl|done].
  rewrite read_while_step
    by (cbn [braces brackets]; by rewrite Z.eqb_refl, Z.leb_refl).
  rewrite readc_rbrace by done. cbn [snd].
  rewrite read_while_stop.
  - simpl. by rewrite Z.leb_refl.
  - cbn [braces brackets]. apply andb_false_intro1, Z.eqb_neq. lia.
Qed.

Lemma begin_field_ends fuel w rest b k :
  passive w → (1 ≤ k < uintf_modulus)%Z → length w < fuel →
  Fast.begin_field fuel (Scanner (w ++ rbracket :: rest) b k false)
  = Some (false, Scanner rest b (k - 1) false).
Proof.
  intros Hw Hk (f & ->)%fuel_split. unfold Fast.begin_field.
  rewrite begin_field_loop_while. cbn [braces brackets].
  rewrite read_while_passive;
    [|apply depth_only_begin_field
     |cbn [braces brackets]; by rewrite Z.eqb_refl, Z.leb_refl|done].
  rewrite read_while_step
    by (cbn [braces brackets]; by rewrite Z.eqb_refl, Z.leb_refl).
  rewrite readc_rbracket by done. cbn [snd].
  assert ((k <=? k - 1)%Z = false) as Hlt by (apply Z.leb_gt; lia).
  rewrite read_while_stop.
  - simpl. by rewrite Hlt.
  - cbn [braces brackets]. rewrite Hlt. apply andb_false_r.
Qed.

Lemma begin_list_opens fuel w rest b k :
  passive w → (0 ≤ k)%Z → (k + 1 < uintf_modulus)%Z → length w < fuel →
  Fast.begin_list fuel (Scanner (w ++ lbracket :: rest) b k false)
  = Some (true, Scanner rest b (k + 1) false).
Proof.
  intros Hw Hk1 Hk2 (f & ->)%fuel_split. unfold Fast.begin_list.
  rewrite begin_list_loop_while. cbn [braces brackets].
  rewrite read_while_passive;
    [|apply depth_only_begin_list
     |cbn [braces brackets]; by rewrite Z.eqb_refl, Z.leb_refl|done].
  rewrite read_while_step
    by (cbn [braces brackets]; by rewrite Z.eqb_refl, Z.leb_refl).
  rewrite readc_lbracket by done. cbn [snd].
  rewrite read_while_stop.
  - simpl. by rewrite Z.leb_refl.
  - cbn [braces brackets]. apply andb_false_intro1, Z.eqb_neq. lia.
Qed.

Lemma begin_list_leaves fuel w rest b k :
  passive w → (1 ≤ k < uintf_modulus)%Z → length w < fuel →
  Fast.begin_list fuel (Scanner (w ++ rbracket :: rest) b k false)
  = Some (true, Scanner rest b (k - 1) false).
Proof.
  intros Hw Hk (f & ->)%fuel_split. unfold Fast.begin_list.
  rewrite begin_list_loop_while. cbn [braces brackets].
  rewrite read_while_passive;
    [|apply depth_only_begin_list
     |cbn [braces brackets]; by rewrite Z.eqb_refl, Z.leb_refl|done].
  rewrite read_while_step
    by (cbn [braces brackets]; by rewrite Z.eqb_refl, Z.leb_refl).
  rewrite readc_rbracket by done. cbn [snd].
  rewrite read_while_stop.
  - simpl. by rewrite Z.leb_refl.
  - cbn [braces brackets]. apply andb_false_intro1, Z.eqb_neq. lia.
Qed.

Lemma begin_list_ends fuel w rest b k :
  passive w → (1 ≤ b < uintf_modulus)%Z → length w < fuel →
  Fast.begin_list fuel (Scanner (w ++ rbrace :: rest) b k false)
  = Some (false, Scanner rest (b - 1) k false).
Proof.
  intros Hw Hb (f & ->)%fuel_split. unfold Fast.begin_list.
  rewrite begin_list_loop_while. cbn [braces brackets].
  rewrite read_while_passive;
    [|apply depth_only_begin_list
     |cbn [braces brackets]; by rewrite Z.eqb_refl, Z.leb_refl|done].
  rewrite read_while_step
    by (cbn [braces brackets]; by rewrite Z.eqb_refl, Z.leb_refl).
  rewrite readc_rbrace by done. cbn [snd].
  assert ((b <=? b - 1)%Z = false) as Hlt by (apply Z.leb_gt; lia).
  rewrite read_while_stop.
  - simpl. by rewrite Hlt.
  - cbn [braces brackets]. rewrite Hlt. apply andb_false_r.
Qed.

(** A character that is no double quote and no brace leaves [braces] and
    [instring] alone. *)
Lemma readc_out_unbraced c rest b k :
  c ≠ quote → c ≠ lbrace → c ≠ rbrace →
  ∃ k', readc (Scanner (c :: rest) b k false) = (c, Scanner rest b k' false).
Proof.
  intros Hq H1 H2. unfold readc. simpl.
  apply Ascii.eqb_neq in Hq as ->. apply Ascii.eqb_neq in H1 as ->.
  apply Ascii.eqb_neq in H2 as ->. repeat case_match; eauto.
Qed.

Lemma readc_out_unbracketed c rest b k :
  c ≠ quote → c ≠ lbracket → c ≠ rbracket →
  ∃ b', readc (Scanner (c :: rest) b k false) = (c, Scanner rest b' k false).
Proof.
  intros Hq H1 H2. unfold readc. simpl.
  apply Ascii.eqb_neq in Hq as ->. apply Ascii.eqb_neq in H1 as ->.
  apply Ascii.eqb_neq in H2 as ->. repeat case_match; eauto.
Qed.

Lemma end_field_braced level o :
  braced o →
  ∀ rest b k f,
    (level ≤ b)%Z → (0 ≤ b)%Z → (b + Z.of_nat (length o) < uintf_modulus)%Z →
    ∃ k', read_while (λ sc, (level <=? braces sc)%Z) (length o + f)
            (Scanner (o ++ rest) b k false)
          = read_while (λ sc, (level <=? braces sc)%Z) f
              (Scanner rest b k' false).
Proof.
  induction 1 as [|c w Hq H1 H2 _ IH|s w Hs _ IH|o w _ IHo _ IHw];
    intros rest b k f Hl Hb0 Hb.
  - by exists k.
  - simpl length in *. simpl app. rewrite Nat.add_succ_l.
    rewrite read_while_step by (cbn [braces]; by apply Z.leb_le).
    destruct (readc_out_unbraced c (w ++ rest) b k) as [k1 ->]; [done..|].
    cbn [snd]. apply IH; [done..|lia].
  - simpl length in *. simpl app. rewrite Nat.add_succ_l.
    rewrite read_while_step by (cbn [braces]; by apply Z.leb_le).
    rewrite readc_out_quote. cbn [snd negb].
    rewrite length_app in *. simpl length in *.
    replace (length s + S (length w) + f)
      with (S (length s + (length w + f))) by lia.
    rewrite <-(assoc_L (++)). simpl app.
    rewrite read_while_inside;
      [|apply depth_only_end_field|cbn [braces]; by apply Z.leb_le|done].
    apply IH; [done..|lia].
  - simpl length in *. simpl app. rewrite Nat.add_succ_l.
    rewrite length_app in *. simpl length in *.
    rewrite read_while_step by (cbn [braces]; by apply Z.leb_le).
    rewrite readc_lbrace by lia. cbn [snd].
    replace (length o + S (length w) + f)
      with (length o + S (length w + f)) by lia.
    rewrite <-(assoc_L (++)). simpl app.
    destruct (IHo (rbrace :: w ++ rest) (b + 1)%Z k (S (length w + f)))
      as [k1 ->]; [lia..|].
    rewrite read_while_step by (cbn [braces]; apply Z.leb_le; lia).
    rewrite readc_rbrace by lia. cbn [snd].
    replace (b + 1 - 1)%Z with b by lia. apply IHw; [done..|lia].
Qed.

Lemma end_list_bracketed level o :
  bracketed o →
  ∀ rest b k f,
    (level ≤ k)%Z → (0 ≤ k)%Z → (k + Z.of_nat (length o) < uintf_modulus)%Z →
    ∃ b', read_while (λ sc, (level <=? brackets sc)%Z) (length o + f)
            (Scanner (o ++ rest) b k false)
          = read_while (λ sc, (level <=? brackets sc)%Z) f
              (Scanner rest b' k false).
Proof.
  induction 1 as [|c w Hq H1 H2 _ IH|s w Hs _ IH|o w _ IHo _ IHw];
    intros rest b k f Hl Hk0 Hk.
  - by exists b.
  - simpl length in *. simpl app. rewrite Nat.add_succ_l.
    rewrite read_while_step by (cbn [brackets]; by apply Z.leb_le).
    destruct (readc_out_unbracketed c (w ++ rest) b k) as [b1 ->]; [done..|].
    cbn [snd]. apply IH; [done..|lia].
  - simpl length in *. simpl app. rewrite Nat.add_succ_l.
    rewrite read_while_step by (cbn [brackets]; by apply Z.leb_le).
    rewrite readc_out_quote. cbn [snd negb].
    rewrite length_app in *. simpl length in *.
    replace (length s + S (length w) + f)
      with (S (length s + (length w + f))) by lia.
    rewrite <-(assoc_L (++)). simpl app.
    rewrite read_while_inside;
      [|apply depth_only_end_list|cbn [brackets]; by apply Z.leb_le|done].
    apply IH; [done..|lia].
  - simpl length in *. simpl app. rewrite Nat.add_succ_l.
    rewrite length_app in *. simpl length in *.
    rewrite read_while_step by (cbn [brackets]; by apply Z.leb_le).
    rewrite readc_lbracket by lia. cbn [snd].
    replace (length o + S (length w) + f)
      with (length o + S (length w + f)) by lia.
    rewrite <-(assoc_L (++)). simpl app.
    destruct (IHo (rbracket :: w ++ rest) b (k + 1)%Z (S (length w + f)))
      as [b1 ->]; [lia..|].
    rewrite read_while_step by (cbn [brackets]; apply Z.leb_le; lia).
    rewrite readc_rbracket by lia. cbn [snd].
    replace (k + 1 - 1)%Z with k by lia. apply IHw; [done..|lia].
Qed.

Lemma end_field_closes fuel w rest b k :
  passive w → (1 ≤ b < uintf_modulus)%Z → length w < fuel →
  Fast.end_field fuel (Scanner (w ++ rbrace :: rest) b k false)
  = Some (Scanner rest (b - 1) k false).
Proof.
  intros Hw Hb (f & ->)%fuel_split. unfold Fast.end_field.
  rewrite end_field_loop_while. cbn [braces].
  rewrite read_while_passive;
    [|apply depth_only_end_field|cbn [braces]; by rewrite Z.leb_refl|done].
  rewrite read_while_step by (cbn [braces]; by rewrite Z.leb_refl).
  rewrite readc_rbrace by done. cbn [snd].
  apply read_while_stop. cbn [braces]. apply Z.leb_gt. lia.
Qed.

(** * [read_to_key] *)

Lemma key_at_inside key m : NUL ∉ key → m < length key → key_at key m ≠ NUL.
Proof.
  intros Hk Hm. unfold key_at.
  destruct (lookup_lt_is_Some_2 key m Hm) as [c Hc]. rewrite Hc. simpl.
  intros ->. by apply list_elem_of_lookup_2 in Hc.
Qed.

Lemma key_at_nul key m : NUL ∉ key → key_at key m = NUL → length key ≤ m.
Proof.
  intros Hk Hm. destruct (decide (m < length key)) as [Hlt|]; [|lia].
  by destruct (key_at_inside key m Hk Hlt).
Qed.

Lemma key_at_end key : key_at key (length key) = NUL.
Proof. unfold key_at. by rewrite lookup_ge_None_2. Qed.

Lemma read_to_key_exit bytes key level m sc :
  NUL ∉ key → m ≤ length key → partial_match bytes sc key m →
  negb (Ascii.eqb (key_at key m) NUL) && (level <=? braces sc)%Z = false →
  (Ascii.eqb (key_at key m) NUL = true →
   ∃ pre, bytes = pre ++ key ++ input sc) ∧
  (Ascii.eqb (key_at key m) NUL = false → (braces sc < level)%Z).
Proof.
  intros Hnul Hm [pre Hpre] Hc. split.
  - intros Hk%Ascii.eqb_eq%key_at_nul; [|done].
    assert (m = length key) as -> by lia. exists pre.
    by rewrite firstn_all, <-(assoc_L (++)) in Hpre.
  - intros Hk. rewrite Hk in Hc. simpl in Hc. by apply Z.leb_gt.
Qed.

Lemma read_to_key_loop_sound bytes fuel key level m sc b sc' :
  NUL ∉ key → EOF_char ∉ key → m ≤ length key →
  partial_match bytes sc key m →
  Fast.read_to_key_loop fuel key level m sc = Some (b, sc') →
  (b = true → ∃ pre, bytes = pre ++ key ++ input sc') ∧
  (b = false → (braces sc' < level)%Z) ∧
  ∃ l, input sc = l ++ input sc'.
Proof.
  intros Hnul Heof. revert m sc.
  induction fuel as [|fuel IH]; intros m sc Hm Hp H; simpl in H;
    destruct (negb (Ascii.eqb (key_at key m) NUL) && (level <=? braces sc)%Z)
      eqn:Hc; try discriminate H.
  - injection H as <- <-.
    destruct (read_to_key_exit bytes key level m sc Hnul Hm Hp Hc) as [H1 H2].
    split; [done|]. split; [done|]. by exists [].
  - apply andb_true_iff in Hc as [Hk _].
    apply negb_true_iff, Ascii.eqb_neq in Hk.
    assert (m < length key) as Hlt.
    { destruct (decide (m < length key)); [done|].
      destruct Hk. unfold key_at. by rewrite lookup_ge_None_2 by lia. }
    destruct (lookup_lt_is_Some_2 key m Hlt) as [x Hx].
    assert (key_at key m = x) as Hkx by (unfold key_at; by rewrite Hx).
    destruct (readc sc) as [c sc1] eqn:Hr.
    destruct (ScanFacts.readc_consumes sc) as [l1 Hl1].
    rewrite Hr in Hl1. simpl in Hl1.
    apply IH in H as (H1 & H2 & l2 & Hl2).
    + split; [done|]. split; [done|]. exists (l1 ++ l2).
      by rewrite <-(assoc_L (++)), <-Hl2.
    + destruct (Ascii.eqb c (key_at key m)); lia.
    + destruct Hp as [pre Hpre].
      destruct (input sc) as [|c0 rest] eqn:Hin.
      * rewrite (ScanFacts.readc_eof sc Hin) in Hr. injection Hr as <- <-.
        destruct (Ascii.eqb EOF_char (key_at key m)) eqn:He.
        -- apply Ascii.eqb_eq in He. destruct Heof. rewrite He, Hkx.
           by eapply list_elem_of_lookup_2.
        -- exists (pre ++ take m key). rewrite Hin, Hpre. simpl.
           by rewrite !app_nil_r.
      * destruct (ScanFacts.readc_step sc c0 rest Hin) as [Hc Hrest].
        rewrite Hr in Hc, Hrest. simpl in Hc, Hrest. subst c0.
        destruct (Ascii.eqb c (key_at key m)) eqn:He.
        -- apply Ascii.eqb_eq in He. exists pre. rewrite Hrest, Hpre.
           rewrite (take_S_r key m x Hx), He, Hkx, <-!(assoc_L (++)). done.
        -- exists (pre ++ take m key ++ [c]). rewrite Hrest, Hpre.
           simpl. by rewrite <-!(assoc_L (++)).
  - injection H as <- <-.
    destruct (read_to_key_exit bytes key level m sc Hnul Hm Hp Hc) as [H1 H2].
    split; [done|]. split; [done|]. by exists [].
Qed.

Lemma read_to_key_loop_gap body level g rest b k f :
  Forall plain_char g → (level ≤ b)%Z →
  Fast.read_to_key_loop (length g + f) (quote :: body) level 0
    (Scanner (g ++ rest) b k false)
  = Fast.read_to_key_loop f (quote :: body) level 0 (Scanner rest b k false).
Proof.
  intros Hg Hl. induction Hg as [|c g Hc _ IH]; [done|].
  simpl length. simpl app. rewrite Nat.add_succ_l.
  cbn [Fast.read_to_key_loop braces].
  change (key_at (quote :: body) 0) with quote.
  assert ((level <=? b)%Z = true) as -> by (by apply Z.leb_le).
  cbn [Ascii.eqb negb andb]. replace (Ascii.eqb quote NUL) with false by done.
  cbn [negb andb]. rewrite readc_out_plain by done.
  destruct Hc as [Hq _]. apply Ascii.eqb_neq in Hq as ->. apply IH.
Qed.

Lemma read_to_key_loop_body body level pre suf rest b k f :
  body = pre ++ suf → NUL ∉ body → quote ∉ body → (level ≤ b)%Z →
  Fast.read_to_key_loop (length suf + f) (quote :: body ++ [quote]) level
    (S (length pre)) (Scanner (suf ++ rest) b k true)
  = Fast.read_to_key_loop f (quote :: body ++ [quote]) level
      (S (length body)) (Scanner rest b k true).
Proof.
  intros Hb Hnul Hq Hl. revert pre Hb.
  induction suf as [|c suf IH]; intros pre Hb.
  - subst body. by rewrite app_nil_r.
  - simpl length. simpl app. rewrite Nat.add_succ_l.
    cbn [Fast.read_to_key_loop braces].
    assert (key_at (quote :: body ++ [quote]) (S (length pre)) = c) as Hk.
    { unfold key_at. simpl. subst body.
      rewrite <-(assoc_L (++)), lookup_app_r by lia.
      by rewrite Nat.sub_diag. }
    rewrite Hk.
    assert (c ∈ body) as Hin
      by (subst body; apply elem_of_app; right; by left).
    assert (c ≠ NUL) as Hc1 by (intros ->; done).
    assert (c ≠ quote) as Hc2 by (intros ->; done).
    apply Ascii.eqb_neq in Hc1 as ->.
    assert ((level <=? b)%Z = true) as -> by (by apply Z.leb_le).
    cbn [negb andb]. rewrite readc_in by done. rewrite Ascii.eqb_refl.
    specialize (IH (pre ++ [c])). rewrite length_app in IH. simpl in IH.
    replace (length pre + 1) with (S (length pre)) in IH by lia.
    apply IH. by rewrite <-(assoc_L (++)).
Qed.

Lemma read_to_key_finds fuel body g rest b k :
  Forall plain_char g → NUL ∉ body → quote ∉ body →
  length g + S (S (length body)) ≤ fuel →
  Fast.read_to_key fuel (quote :: body ++ [quote])
    (Scanner (g ++ (quote :: body ++ [quote]) ++ rest) b k false)
  = Some (true, Scanner rest b k false).
Proof.
  intros Hg Hnul Hq Hfuel. unfold Fast.read_to_key. cbn [braces].
  replace fuel with (length g + (S (length body + S (fuel - length g
                                   - S (S (length body)))))) by lia.
  rewrite read_to_key_loop_gap by (done || lia).
  set (f := fuel - length g - S (S (length body))).
  cbn [Fast.read_to_key_loop braces].
  change (key_at (quote :: body ++ [quote]) 0) with quote.
  rewrite Z.leb_refl. replace (Ascii.eqb quote NUL) with false by done.
  cbn [negb andb]. simpl app. rewrite readc_out_quote. cbn [negb].
  rewrite Ascii.eqb_refl. rewrite <-(assoc_L (++)).
  rewrite (read_to_key_loop_body body b [] body) by (done || lia).
  cbn [Fast.read_to_key_loop braces]. simpl app.
  assert (key_at (quote :: body ++ [quote]) (S (length body)) = quote) as Hk.
  { unfold key_at. simpl. rewrite lookup_app_r by lia.
    by rewrite Nat.sub_diag. }
  rewrite Hk, Z.leb_refl. replace (Ascii.eqb quote NUL) with false by done.
  cbn [negb andb]. rewrite readc_out_quote. cbn [negb].
  rewrite Ascii.eqb_refl.
  assert (key_at (quote :: body ++ [quote]) (S (S (length body))) = NUL)
    as Hend.
  { unfold key_at. rewrite lookup_ge_None_2; [done|].
    simpl. rewrite length_app. simpl. lia. }
  destruct f; simpl; rewrite Hend; done.
Qed.

(** * [extract_string] after a gap *)

Lemma to_next_string_gap fuel g rest b k :
  Forall plain_char g → length g < fuel →
  to_next_string fuel (Scanner (g ++ quote :: rest) b k false)
  = Some (Scanner rest b k true).
Proof.
  intros Hg. revert fuel. induction Hg as [|c g Hc _ IH]; intros fuel Hf.
  - destruct fuel as [|fuel]; [simpl in Hf; lia|]. simpl.
    by destruct fuel.
  - destruct fuel as [|fuel]; [simpl in Hf; lia|].
    simpl app. cbn [to_next_string instring].
    rewrite readc_out_plain by done. apply IH. simpl in Hf. lia.
Qed.

Lemma extract_string_value fuel g v rest b k :
  Forall plain_char g → quote ∉ v → length g < fuel → length v < fuel →
  extract_string fuel (Scanner (g ++ quote :: v ++ quote :: rest) b k false)
  = Some (v ++ [newline], Scanner rest b k false).
Proof.
  intros Hg Hv Hf1 Hf2. unfold extract_string.
  rewrite to_next_string_gap by done. simpl.
  destruct (copy_string_copies fuel [] (Scanner (v ++ quote :: rest) b k true)
              v rest) as (sc' & -> & H1 & H2 & H3 & H4); [done..|].
  simpl. destruct sc' as [i1 b1 k1 s1]. simpl in *. by subst.
Qed.

(** * What [extract_string] has read when it returns *)

Lemma to_next_string_sound fuel sc sc' :
  instring sc = false → to_next_string fuel sc = Some sc' →
  ∃ pre, (quote ∉ pre) ∧ input sc = pre ++ quote :: input sc' ∧
         instring sc' = true.
Proof.
  revert sc. induction fuel as [|fuel IH]; intros sc Hs H; simpl in H;
    rewrite Hs in H; [done|].
  destruct (input sc) as [|c rest] eqn:Hin.
  - rewrite (ScanFacts.readc_eof sc Hin) in H. simpl in H.
    destruct (IH sc Hs H) as (pre & _ & Hpre & _).
    rewrite Hin in Hpre. by destruct pre.
  - destruct (decide (c = quote)) as [->|Hne].
    + destruct sc as [i b k s]. simpl in *. subst i s.
      rewrite readc_out_quote in H. simpl in H.
      destruct fuel; simpl in H; simplify_eq;
        (exists []; split; [apply not_elem_of_nil|done]).
    + destruct (readc_outside sc c rest Hin Hne Hs) as [H1 H2].
      destruct (IH _ H2 H) as (pre & Hq & Hpre & Hs').
      exists (c :: pre). rewrite H1 in Hpre. subst rest.
      split; [apply not_elem_of_cons; split; [congruence|done]|].
      split; [simpl; by rewrite <-Hpre|done].
Qed.

Lemma copy_string_sound fuel out sc out' sc' :
  instring sc = true → copy_string fuel out sc = Some (out', sc') →
  ∃ body, (quote ∉ body) ∧ input sc = body ++ quote :: input sc' ∧
          out' = out ++ body ∧ instring sc' = false ∧
          braces sc' = braces sc ∧ brackets sc' = brackets sc.
Proof.
  revert out sc. induction fuel as [|fuel IH]; intros out sc Hs H;
    simpl in H; [done|].
  destruct (input sc) as [|c rest] eqn:Hin.
  - rewrite (ScanFacts.readc_eof sc Hin), Hs in H.
    destruct (IH _ sc Hs H) as (body & _ & Hbody & _).
    rewrite Hin in Hbody. by destruct body.
  - destruct (decide (c = quote)) as [->|Hne].
    + destruct sc as [i b k s]. simpl in *. subst i s.
      rewrite readc_out_quote in H. simpl in H. simplify_eq.
      exists []. rewrite app_nil_r. split; [apply not_elem_of_nil|done].
    + destruct sc as [i b k s]. simpl in *. subst i s.
      rewrite readc_in in H by done. simpl in H.
      destruct (IH (out ++ [c]) (Scanner rest b k true) eq_refl H)
        as (body & Hq & Hbody & -> & ? & ? & ?).
      simpl in *. exists (c :: body). subst rest.
      rewrite <-(assoc_L (++)).
      split; [apply not_elem_of_cons; split; [congruence|done]|].
      repeat split; done.
Qed.

(** * The scanners of [json_fast.h] *)

Lemma space_plain : plain_char " "%char.
Proof. split; [done|]. intros [?|[?|[?|?]]]; done. Qed.

Lemma spaces_passive : passive (lit "  ").
Proof. apply passive_plain. repeat constructor; apply space_plain. Qed.

(** X11: when [read_to_key] returns true the characters read last are the
    key, whole and contiguous; when it returns false the brace depth has
    dropped below the depth on entry (the enclosing object was left); in both
    cases it has consumed a prefix of the input.  The key is a C string that
    does not hold the byte [(char)EOF]. *)
Theorem read_to_key_sound fuel key sc b sc' :
  NUL ∉ key → EOF_char ∉ key →
  Fast.read_to_key fuel key sc = Some (b, sc') →
  (b = true → ∃ pre, input sc = pre ++ key ++ input sc') ∧
  (b = false → (braces sc' < braces sc)%Z) ∧
  ∃ l, input sc = l ++ input sc'.
Proof.
  intros Hnul Heof H. unfold Fast.read_to_key in H.
  apply (read_to_key_loop_sound (input sc)) in H; try done; [lia|].
  by exists [].
Qed.

Lemma read_to_key_sound_witness :
  ∃ pre, json " 'rows':1" = pre ++ quoted "rows" ++ lit ":1".
Proof.
  destruct (read_to_key_sound 20 (quoted "rows")
              (open_file (json " 'rows':1")) true
              (Scanner (lit ":1") 0 0 false)) as (H & _).
  - evaluated.
  - evaluated.
  - vm_compute. reflexivity.
  - exact (H eq_refl).
Defined.

(** X12: [begin_field] passes over plain characters and whole strings and
    stops at the first brace or closing bracket outside a string: it returns
    true after an opening brace, true as well after a closing brace (the
    enclosing object was left, no field was entered), and false after a
    closing bracket that takes the list depth below the depth on entry. *)
Theorem begin_field_stops fuel w rest b k :
  passive w → length w < fuel → uintf_range b → uintf_range k →
  ((b + 1 < uintf_modulus)%Z →
   Fast.begin_field fuel (Scanner (w ++ lbrace :: rest) b k false)
   = Some (true, Scanner rest (b + 1) k false)) ∧
  ((1 ≤ b)%Z →
   Fast.begin_field fuel (Scanner (w ++ rbrace :: rest) b k false)
   = Some (true, Scanner rest (b - 1) k false)) ∧
  ((1 ≤ k)%Z →
   Fast.begin_field fuel (Scanner (w ++ rbracket :: rest) b k false)
   = Some (false, Scanner rest b (k - 1) false)).
Proof.
  intros Hw Hf [Hb1 Hb2] [Hk1 Hk2]. split; [|split]; intros H.
  - by apply begin_field_opens.
  - by apply begin_field_leaves.
  - by apply begin_field_ends.
Qed.

Lemma begin_field_stops_witness :
  Fast.begin_field 5 (Scanner (lit "  }x") 1 1 false)
  = Some (true, Scanner (lit "x") 0 1 false).
Proof.
  destruct (begin_field_stops 5 (lit "  ") (lit "x") 1 1) as (_ & H & _).
  - exact spaces_passive.
  - simpl. lia.
  - split; [lia|reflexivity].
  - split; [lia|reflexivity].
  - apply H. lia.
Defined.

(** X13: [begin_list] likewise stops at the first bracket or closing brace
    outside a string: true after an opening bracket, true as well after a
    closing bracket, false after a closing brace that takes the object depth
    below the depth on entry. *)
Theorem begin_list_stops fuel w rest b k :
  passive w → length w < fuel → uintf_range b → uintf_range k →
  ((k + 1 < uintf_modulus)%Z →
   Fast.begin_list fuel (Scanner (w ++ lbracket :: rest) b k false)
   = Some (true, Scanner rest b (k + 1) false)) ∧
  ((1 ≤ k)%Z →
   Fast.begin_list fuel (Scanner (w ++ rbracket :: rest) b k false)
   = Some (true, Scanner rest b (k - 1) false)) ∧
  ((1 ≤ b)%Z →
   Fast.begin_list fuel (Scanner (w ++ rbrace :: rest) b k false)
   = Some (false, Scanner rest (b - 1) k false)).
Proof.
  intros Hw Hf [Hb1 Hb2] [Hk1 Hk2]. split; [|split]; intros H.
  - by apply begin_list_opens.
  - by apply begin_list_leaves.
  - by apply begin_list_ends.
Qed.

Lemma begin_list_stops_witness :
  Fast.begin_list 5 (Scanner (lit "  [x") 1 0 false)
  = Some (true, Scanner (lit "x") 1 1 false).
Proof.
  destruct (begin_list_stops 5 (lit "  ") (lit "x") 1 0) as (H & _).
  - exact spaces_passive.
  - simpl. lia.
  - split; [lia|reflexivity].
  - split; [lia|reflexivity].
  - apply H. reflexivity.
Defined.

(** X14: [end_field] leaves the enclosing object: over text that is balanced
    in braces (plain characters, brackets, whole strings, which may hold
    braces, and whole nested objects) it reads on, and it returns right after
    the closing brace that follows, with the brace depth one less than on
    entry. *)
Theorem end_field_matching fuel o rest b k :
  braced o → (1 ≤ b)%Z → (b + Z.of_nat (length o) < uintf_modulus)%Z →
  length o < fuel →
  ∃ k', Fast.end_field fuel (Scanner (o ++ rbrace :: rest) b k false)
        = Some (Scanner rest (b - 1) k' false).
Proof.
  intros Ho Hb1 Hb2 (f & ->)%fuel_split. unfold Fast.end_field.
  rewrite end_field_loop_while. cbn [braces].
  destruct (end_field_braced b o Ho (rbrace :: rest) b k (S f)) as [k' ->];
    [lia..|].
  exists k'.
  rewrite read_while_step by (cbn [braces]; by rewrite Z.leb_refl).
  rewrite readc_rbrace by lia. cbn [snd].
  apply read_while_stop. cbn [braces]. apply Z.leb_gt. lia.
Qed.

Lemma end_field_matching_witness :
  ∃ k', Fast.end_field 9 (Scanner (json " {'}'} }x") 1 0 false)
        = Some (Scanner (lit "x") 0 k' false).
Proof.
  apply (end_field_matching 9 (json " {'}'} ") (lit "x") 1 0).
  - apply (braced_char " "%char); [discriminate..|].
    apply (braced_object (json "'}'") (lit " ")).
    + apply (braced_string (lit "}") []); [evaluated|apply braced_nil].
    + apply (braced_char " "%char); [discriminate..|]. apply braced_nil.
  - lia.
  - reflexivity.
  - simpl. lia.
Defined.

(** X15: [end_list] leaves the enclosing list: over text that is balanced in
    brackets it reads on, and it returns right after the closing bracket that
    follows, with the list depth one less than on entry. *)
Theorem end_list_matching fuel o rest b k :
  bracketed o → (1 ≤ k)%Z → (k + Z.of_nat (length o) < uintf_modulus)%Z →
  length o < fuel →
  ∃ b', Fast.end_list fuel (Scanner (o ++ rbracket :: rest) b k false)
        = Some (Scanner rest b' (k - 1) false).
Proof.
  intros Ho Hk1 Hk2 (f & ->)%fuel_split. unfold Fast.end_list.
  rewrite end_list_loop_while. cbn [brackets].
  destruct (end_list_bracketed k o Ho (rbracket :: rest) b k (S f))
    as [b' ->]; [lia..|].
  exists b'.
  rewrite read_while_step by (cbn [brackets]; by rewrite Z.leb_refl).
  rewrite readc_rbracket by lia. cbn [snd].
  apply read_while_stop. cbn [brackets]. apply Z.leb_gt. lia.
Qed.

Lemma end_list_matching_witness :
  ∃ b', Fast.end_list 9 (Scanner (lit " [1] ]x") 0 1 false)
        = Some (Scanner (lit "x") b' 0 false).
Proof.
  apply (end_list_matching 9 (lit " [1] ") (lit "x") 0 1).
  - apply bracketed_char; [discriminate..|].
    apply (bracketed_list (lit "1") (lit " ")).
    + apply bracketed_char; [discriminate..|]. apply bracketed_nil.
    + apply bracketed_char; [discriminate..|]. apply bracketed_nil.
  - lia.
  - reflexivity.
  - simpl. lia.
Defined.

(** * [extract_string], the converse *)

(** X16: [extract_string] returns only after an opening and a closing
    double quote: if it returns, called outside a string, the input it has
    consumed is a text without double quote, a double quote, the text it hands
    back (before the newline it appends), and a double quote.  So at the end
    of the file, or with a single double quote left, it does not return. *)
Theorem extract_string_returns_only fuel sc s sc' :
  instring sc = false → extract_string fuel sc = Some (s, sc') →
  ∃ pre body,
    (quote ∉ pre) ∧ (quote ∉ body) ∧
    input sc = pre ++ quote :: body ++ quote :: input sc' ∧
    s = body ++ [newline] ∧ instring sc' = false.
Proof.
  intros Hs H. unfold extract_string in H.
  destruct (to_next_string fuel sc) as [sc1|] eqn:H1; simplify_eq/=.
  destruct (copy_string fuel [] sc1) as [[out sc2]|] eqn:H2; simplify_eq/=.
  apply to_next_string_sound in H1 as (pre & Hpre & Hin & Hs1); [|done].
  apply copy_string_sound in H2 as (body & Hbody & Hin1 & -> & Hs2 & _);
    [|done].
  exists pre, body. rewrite Hin, Hin1. done.
Qed.

Lemma extract_string_returns_only_witness :
  ∃ pre body,
    (quote ∉ pre) ∧ (quote ∉ body) ∧
    json ": 'a' ," = pre ++ quote :: body ++ quote :: lit " ," ∧
    json "a" ++ [newline] = body ++ [newline].
Proof.
  destruct (extract_string_returns_only 9 (open_file (json ": 'a' ,"))
              (json "a" ++ [newline]) (Scanner (lit " ,") 0 0 false))
    as (pre & body & H1 & H2 & H3 & H4 & _).
  - reflexivity.
  - vm_compute. reflexivity.
  - exists pre, body. split; [exact H1|]. split; [exact H2|].
    split; [exact H3|exact H4].
Defined.

(** * Documents read by the default build *)

Lemma blank_plain c : blank c → plain_char c.
Proof.
  unfold blank, plain_char, structural.
  intros [-> |[-> |[-> | ->]]]; (split; [done|]); intros [?|[?|[?|?]]]; done.
Qed.

Lemma colon_plain : plain_char ":"%char.
Proof. split; [done|]. intros [?|[?|[?|?]]]; done. Qed.

Lemma comma_plain : plain_char ","%char.
Proof. split; [done|]. intros [?|[?|[?|?]]]; done. Qed.

Lemma read_to_key_at fuel (key : string) g w rest b k :
  w = g ++ quote :: lit key ++ quote :: rest →
  Forall plain_char g → NUL ∉ lit key → quote ∉ lit key →
  length w ≤ fuel →
  Fast.read_to_key fuel (quoted key) (Scanner w b k false)
  = Some (true, Scanner rest b k false).
Proof.
  intros -> Hg Hn Hq Hf. unfold quoted.
  rewrite <-(read_to_key_finds fuel (lit key) g rest b k); try done.
  - cbn [app]. by rewrite <-!(assoc_L (++)).
  - rewrite length_app in Hf. simpl in Hf. rewrite length_app in Hf.
    simpl in Hf. lia.
Qed.

Lemma extract_string_at fuel g v w rest b k :
  w = g ++ quote :: v ++ quote :: rest →
  Forall plain_char g → quote ∉ v → length w ≤ fuel →
  extract_string fuel (Scanner w b k false)
  = Some (stored v, Scanner rest b k false).
Proof.
  intros -> Hg Hv Hf. rewrite length_app in Hf. simpl in Hf.
  rewrite length_app in Hf. simpl in Hf.
  apply extract_string_value; try done; lia.
Qed.

Lemma begin_field_opens_at fuel g w rest b k :
  w = g ++ lbrace :: rest →
  Forall plain_char g → (0 ≤ b)%Z → (b + 1 < uintf_modulus)%Z →
  length w ≤ fuel →
  Fast.begin_field fuel (Scanner w b k false)
  = Some (true, Scanner rest (b + 1) k false).
Proof.
  intros -> Hg ? ? Hf. rewrite length_app in Hf. simpl in Hf.
  apply begin_field_opens; try done; [by apply passive_plain|lia].
Qed.

Lemma begin_field_ends_at fuel g w rest b k :
  w = g ++ rbracket :: rest →
  Forall plain_char g → (1 ≤ k < uintf_modulus)%Z → length w ≤ fuel →
  Fast.begin_field fuel (Scanner w b k false)
  = Some (false, Scanner rest b (k - 1) false).
Proof.
  intros -> Hg ? Hf. rewrite length_app in Hf. simpl in Hf.
  apply begin_field_ends; try done; [by apply passive_plain|lia].
Qed.

Lemma begin_list_opens_at fuel g w rest b k :
  w = g ++ lbracket :: rest →
  Forall plain_char g → (0 ≤ k)%Z → (k + 1 < uintf_modulus)%Z →
  length w ≤ fuel →
  Fast.begin_list fuel (Scanner w b k false)
  = Some (true, Scanner rest b (k + 1) false).
Proof.
  intros -> Hg ? ? Hf. rewrite length_app in Hf. simpl in Hf.
  apply begin_list_opens; try done; [by apply passive_plain|lia].
Qed.

Lemma end_field_closes_at fuel g w rest b k :
  w = g ++ rbrace :: rest →
  Forall plain_char g → (1 ≤ b < uintf_modulus)%Z → length w ≤ fuel →
  Fast.end_field fuel (Scanner w b k false)
  = Some (Scanner rest (b - 1) k false).
Proof.
  intros -> Hg ? Hf. rewrite length_app in Hf. simpl in Hf.
  apply end_field_closes; try done; [by apply passive_plain|lia].
Qed.

(** The constructor is defined on what a document says. *)
Lemma stored_terminated v : blank_or_terminated (stored v).
Proof. right. unfold terminated, stored. apply last_snoc. Qed.

Lemma fold_items_assembled {A} P (act : A → tables → option tables) items :
  (∀ a t, a ∈ items → assembled P t →
          ∃ t', act a t = Some t' ∧ assembled P t') →
  ∀ t, assembled P t →
       ∃ t', fold_items act items t = Some t' ∧ assembled P t'.
Proof.
  induction items as [|a items IH]; intros Hact t Ht; simpl; [by exists t|].
  destruct (Hact a t) as (t1 & -> & Ht1); [by left|done|]. simpl.
  apply IH; [|done]. intros a' t' Ha'. apply Hact. by right.
Qed.

Lemma add_row_assembled P edge source target t :
  assembled P t → P edge → P source → P target →
  ∃ t', add_row edge source target t = Some t' ∧ assembled P t'.
Proof.
  intros Ht He Hs Hg.
  destruct (add_row_defined P edge source target t
              (assembled_sound P t Ht) He Hs Hg) as [t' Ht'].
  exists t'. split; [done|]. by apply (as_row P t edge source target t').
Qed.

Lemma add_controller_assembled P c t :
  assembled P t → P c →
  ∃ t', add_controller c t = Some t' ∧ assembled P t'.
Proof.
  intros Ht Hc. unfold add_controller.
  destruct (designate_defined P TAIL c (count_controller t)) as [t' Ht'].
  { by apply (assembled_sound P), as_count. }
  { unfold TAIL. lia. }
  exists t'. split; [done|].
  apply (as_designate P (count_controller t) TAIL c t');
    [by apply as_count|by right|done|done].
Qed.

Lemma build_assembled rows ctrls :
  ∃ t, build rows ctrls = Some t ∧ assembled blank_or_terminated t.
Proof.
  unfold build.
  destruct (fold_items_assembled blank_or_terminated row_act rows)
    with (t := init_tables) as (t1 & -> & Ht1); [|apply as_init|].
  { intros r t _ Ht. apply add_row_assembled; [done|..];
      apply stored_terminated. }
  simpl. apply fold_items_assembled; [|by apply as_dummy].
  intros c t _ Ht. apply add_controller_assembled; [done|].
  apply stored_terminated.
Qed.

Section FastDocuments.
Context (ws : text).
Hypothesis Hws : Forall blank ws.

Lemma ws_plain : Forall plain_char ws.
Proof. eapply Forall_impl; [done|]. apply blank_plain. Qed.

Lemma gap_plain G c :
  Forall plain_char G → plain_char c → Forall plain_char (G ++ c :: ws).
Proof.
  intros HG Hc. apply Forall_app. split; [done|].
  apply Forall_cons. split; [done|apply ws_plain].
Qed.

Lemma row_iteration fuel G r rest b k :
  Forall plain_char G → row_ok r → (0 ≤ b)%Z → (b + 1 < uintf_modulus)%Z →
  length (G ++ row_text ws r ++ rest) ≤ fuel →
  ∃ sc1 sc2,
    Fast.begin_field fuel (Scanner (G ++ row_text ws r ++ rest) b k false)
      = Some (true, sc1) ∧
    (∀ t, FastBuild.read_row fuel sc1 t
          = t' ← row_act r t; Some (sc2, t')) ∧
    Fast.end_field fuel sc2 = Some (Scanner rest b k false).
Proof.
  intros HG (Hv & Hf & Ht) Hb1 Hb2 Hfuel.
  pose proof ws_plain as Hw.
  set (R5 := ws ++ rbrace :: rest).
  set (R4 := ws ++ ":"%char :: ws ++ quote :: row_to r ++ quote :: R5).
  set (R3 := ws ++ ","%char :: ws ++ quote :: lit "toGlobalId" ++ quote :: R4).
  set (R2 := ws ++ ":"%char :: ws ++ quote :: row_from r ++ quote :: R3).
  set (R1 := ws ++ ","%char :: ws ++ quote :: lit "fromGlobalId"
                ++ quote :: R2).
  set (R0 := ws ++ ":"%char :: ws ++ quote :: row_via r ++ quote :: R1).
  set (Rin := ws ++ quote :: lit "viaGlobalId" ++ quote :: R0).
  assert (row_text ws r ++ rest = lbrace :: Rin) as Etext.
  { unfold row_text, member, string_text, quoted, Rin, R0, R1, R2, R3, R4, R5.
    text_eq. }
  rewrite Etext in *.
  assert (length R5 ≤ length R4) as L5 by (unfold R4; text_len).
  assert (length R4 ≤ length R3) as L4 by (unfold R3; text_len).
  assert (length R3 ≤ length R2) as L3 by (unfold R2; text_len).
  assert (length R2 ≤ length R1) as L2 by (unfold R1; text_len).
  assert (length R1 ≤ length R0) as L1 by (unfold R0; text_len).
  assert (length R0 ≤ length Rin) as L0 by (unfold Rin; text_len).
  assert (length Rin ≤ fuel) as Lin
    by (rewrite length_app in Hfuel; simpl in Hfuel; lia).
  exists (Scanner Rin (b + 1) k false), (Scanner R5 (b + 1) k false).
  split; [|split].
  - apply (begin_field_opens_at fuel G _ Rin); try done.
  - intros t. unfold FastBuild.read_row.
    rewrite (read_to_key_at fuel "viaGlobalId" ws Rin R0);
      [|done|done|evaluated
       |evaluated|done].
    cbn [mbind option_bind].
    rewrite (extract_string_at fuel (ws ++ ":"%char :: ws) (row_via r) R0 R1);
      [|unfold R0; text_eq|apply gap_plain; [done|apply colon_plain]
       |done|lia].
    cbn [mbind option_bind].
    rewrite (read_to_key_at fuel "fromGlobalId" (ws ++ ","%char :: ws) R1 R2);
      [|unfold R1; text_eq|apply gap_plain; [done|apply comma_plain]
       |evaluated
       |evaluated|lia].
    cbn [mbind option_bind].
    rewrite (extract_string_at fuel (ws ++ ":"%char :: ws) (row_from r) R2 R3);
      [|unfold R2; text_eq|apply gap_plain; [done|apply colon_plain]
       |done|lia].
    cbn [mbind option_bind].
    rewrite (read_to_key_at fuel "toGlobalId" (ws ++ ","%char :: ws) R3 R4);
      [|unfold R3; text_eq|apply gap_plain; [done|apply comma_plain]
       |evaluated
       |evaluated|lia].
    cbn [mbind option_bind].
    rewrite (extract_string_at fuel (ws ++ ":"%char :: ws) (row_to r) R4 R5);
      [|unfold R4; text_eq|apply gap_plain; [done|apply colon_plain]
       |done|lia].
    cbn [mbind option_bind]. done.
  - rewrite (end_field_closes_at fuel ws R5 rest); try done; [|lia..].
    by replace (b + 1 - 1)%Z with b by lia.
Qed.

Lemma controller_iteration fuel G c rest b k :
  Forall plain_char G → quote ∉ c → (0 ≤ b)%Z → (b + 1 < uintf_modulus)%Z →
  length (G ++ controller_text ws c ++ rest) ≤ fuel →
  ∃ sc1 sc2,
    Fast.begin_field fuel (Scanner (G ++ controller_text ws c ++ rest) b k
        false)
      = Some (true, sc1) ∧
    (∀ t, FastBuild.read_controller fuel sc1 t
          = t' ← controller_act c t; Some (sc2, t')) ∧
    Fast.end_field fuel sc2 = Some (Scanner rest b k false).
Proof.
  intros HG Hc Hb1 Hb2 Hfuel.
  pose proof ws_plain as Hw.
  set (R1 := ws ++ rbrace :: rest).
  set (R0 := ws ++ ":"%char :: ws ++ quote :: c ++ quote :: R1).
  set (Rin := ws ++ quote :: lit "globalId" ++ quote :: R0).
  assert (controller_text ws c ++ rest = lbrace :: Rin) as Etext.
  { unfold controller_text, member, string_text, quoted, Rin, R0, R1.
    text_eq. }
  rewrite Etext in *.
  assert (length R1 ≤ length R0) as L1 by (unfold R0; text_len).
  assert (length R0 ≤ length Rin) as L0 by (unfold Rin; text_len).
  assert (length Rin ≤ fuel) as Lin
    by (rewrite length_app in Hfuel; simpl in Hfuel; lia).
  exists (Scanner Rin (b + 1) k false), (Scanner R1 (b + 1) k false).
  split; [|split].
  - apply (begin_field_opens_at fuel G _ Rin); try done.
  - intros t. unfold FastBuild.read_controller.
    rewrite (read_to_key_at fuel "globalId" ws Rin R0);
      [|done|done|evaluated|evaluated|done].
    cbn [mbind option_bind].
    rewrite (extract_string_at fuel (ws ++ ":"%char :: ws) c R0 R1);
      [|unfold R0; text_eq|apply gap_plain; [done|apply colon_plain]
       |done|lia].
    cbn [mbind option_bind]. done.
  - rewrite (end_field_closes_at fuel ws R1 rest); try done; [|lia..].
    by replace (b + 1 - 1)%Z with b by lia.
Qed.

Section Loop.
Context {A : Type} (elem : A → text) (act : A → tables → option tables).
Context (body : scanner → tables → option (scanner * tables)).
Context (fuel : nat) (b k : Z) (good : A → Prop).
Hypothesis Hk : (1 ≤ k < uintf_modulus)%Z.
Hypothesis Helem :
  ∀ a G rest,
    good a → Forall plain_char G → length (G ++ elem a ++ rest) ≤ fuel →
    ∃ sc1 sc2,
      Fast.begin_field fuel (Scanner (G ++ elem a ++ rest) b k false)
        = Some (true, sc1) ∧
      (∀ t, body sc1 t = t' ← act a t; Some (sc2, t')) ∧
      Fast.end_field fuel sc2 = Some (Scanner rest b k false).

Lemma fields_loop_step n a G rest t :
  good a → Forall plain_char G → length (G ++ elem a ++ rest) ≤ fuel →
  FastBuild.fields_loop fuel (S n) body
    (Scanner (G ++ elem a ++ rest) b k false) t
  = t' ← act a t;
    FastBuild.fields_loop fuel n body (Scanner rest b k false) t'.
Proof.
  intros Ha HG Hf.
  destruct (Helem a G rest Ha HG Hf) as (sc1 & sc2 & H1 & H2 & H3).
  cbn [FastBuild.fields_loop]. rewrite H1, H2.
  destruct (act a t) as [t'|]; [|done]. cbn [mbind option_bind].
  by rewrite H3.
Qed.

Lemma fields_loop_more items G rest t n :
  Forall good items → Forall plain_char G → length items < n →
  length (G ++ more ws (map elem items) ++ rbracket :: rest) ≤ fuel →
  FastBuild.fields_loop fuel n body
    (Scanner (G ++ more ws (map elem items) ++ rbracket :: rest) b k false) t
  = t' ← fold_items act items t; Some (Scanner rest b (k - 1) false, t').
Proof.
  intros Hgood. revert G t n.
  induction Hgood as [|a items Ha _ IH]; intros G t n HG Hn Hf.
  - destruct n as [|n]; [simpl in Hn; lia|].
    cbn [FastBuild.fields_loop map more app fold_items mbind option_bind].
    by rewrite (begin_field_ends_at fuel G _ rest).
  - destruct n as [|n]; [simpl in Hn; lia|].
    cbn [map more fold_items] in *.
    set (rest' := ws ++ more ws (map elem items) ++ rbracket :: rest).
    assert (G ++ (","%char :: ws ++ elem a ++ ws ++ more ws (map elem items))
              ++ rbracket :: rest
            = (G ++ ","%char :: ws) ++ elem a ++ rest') as Etext
      by (unfold rest'; text_eq).
    rewrite Etext in *. rewrite fields_loop_step; [|done| |done].
    + destruct (act a t) as [t'|]; [|done]. cbn [mbind option_bind].
      apply IH; [apply ws_plain|simpl in Hn; lia|].
      change (length rest' ≤ fuel). rewrite !length_app in Hf. lia.
    + apply gap_plain; [done|apply comma_plain].
Qed.

Lemma fields_loop_elements items rest t n :
  Forall good items → length items < n →
  length (elements ws (map elem items) ++ rbracket :: rest) ≤ fuel →
  FastBuild.fields_loop fuel n body
    (Scanner (elements ws (map elem items) ++ rbracket :: rest) b k false) t
  = t' ← fold_items act items t; Some (Scanner rest b (k - 1) false, t').
Proof.
  intros Hgood Hn Hf. destruct Hgood as [|a items Ha Hgood].
  - apply (fields_loop_more [] ws rest t n); [done|apply ws_plain|done..].
  - destruct n as [|n]; [simpl in Hn; lia|].
    cbn [map elements fold_items] in *.
    set (rest' := ws ++ more ws (map elem items) ++ rbracket :: rest).
    assert ((ws ++ elem a ++ ws ++ more ws (map elem items))
              ++ rbracket :: rest
            = ws ++ elem a ++ rest') as Etext
      by (unfold rest'; text_eq).
    rewrite Etext in *. rewrite fields_loop_step; [|done|apply ws_plain|done].
    destruct (act a t) as [t'|]; [|done]. cbn [mbind option_bind].
    apply fields_loop_more; [done|apply ws_plain|simpl in Hn; lia|].
    change (length rest' ≤ fuel). rewrite !length_app in Hf. lia.
Qed.

End Loop.

Lemma length_more (items : list text) :
  length items ≤ length (more ws items).
Proof. induction items as [|x items IH]; simpl; [done|]. text_len. Qed.

Lemma length_elements (items : list text) :
  (∀ x, x ∈ items → 0 < length x) →
  length items ≤ length (elements ws items).
Proof.
  destruct items as [|x items]; simpl; [lia|]. intros Hx.
  pose proof (length_more items). pose proof (Hx x (list_elem_of_here _ _)).
  repeat (rewrite ?length_app; cbn [length]). lia.
Qed.

Lemma row_text_length r : 0 < length (row_text ws r).
Proof. unfold row_text. simpl. lia. Qed.

Lemma controller_text_length c : 0 < length (controller_text ws c).
Proof. unfold controller_text. simpl. lia. Qed.

Lemma fast_parse_document fuel rows ctrls :
  Forall row_ok rows → Forall (λ c, quote ∉ c) ctrls →
  length (document ws rows ctrls) < fuel →
  FastBuild.parse fuel (document ws rows ctrls) = build rows ctrls.
Proof.
  intros Hrows Hctrls Hfuel. pose proof ws_plain as Hw.
  set (D7 := ws ++ rbrace :: ws).
  set (D6 := elements ws (map (controller_text ws) ctrls) ++ rbracket :: D7).
  set (D5 := ws ++ ":"%char :: ws ++ lbracket :: D6).
  set (D4 := ws ++ ","%char :: ws ++ quote :: lit "controllers" ++ quote :: D5).
  set (D3 := elements ws (map (row_text ws) rows) ++ rbracket :: D4).
  set (D2 := ws ++ ":"%char :: ws ++ lbracket :: D3).
  set (D1 := ws ++ quote :: lit "rows" ++ quote :: D2).
  assert (document ws rows ctrls = ws ++ lbrace :: D1) as Etext.
  { unfold document, member, list_text, quoted, D1, D2, D3, D4, D5, D6, D7.
    text_eq. }
  rewrite Etext in *.
  assert (length D7 ≤ length D6) as L7 by (unfold D6; text_len).
  assert (length D6 ≤ length D5) as L6 by (unfold D5; text_len).
  assert (length D5 ≤ length D4) as L5 by (unfold D4; text_len).
  assert (length D4 ≤ length D3) as L4 by (unfold D3; text_len).
  assert (length D3 ≤ length D2) as L3 by (unfold D2; text_len).
  assert (length D2 ≤ length D1) as L2 by (unfold D1; text_len).
  assert (length D1 < fuel) as L1
    by (rewrite length_app in Hfuel; simpl in Hfuel; lia).
  assert (length rows < fuel) as Lrows.
  { pose proof (length_elements (map (row_text ws) rows)) as Hl.
    rewrite length_map in Hl.
    assert (length (elements ws (map (row_text ws) rows)) ≤ length D3)
      by (unfold D3; text_len).
    enough (length rows ≤ length (elements ws (map (row_text ws) rows)))
      by lia.
    apply Hl. intros x (r & -> & _)%list_elem_of_fmap.
    apply row_text_length. }
  assert (length ctrls < fuel) as Lctrls.
  { pose proof (length_elements (map (controller_text ws) ctrls)) as Hl.
    rewrite length_map in Hl.
    assert (length (elements ws (map (controller_text ws) ctrls)) ≤ length D6)
      by (unfold D6; text_len).
    enough (length ctrls
            ≤ length (elements ws (map (controller_text ws) ctrls))) by lia.
    apply Hl. intros x (r & -> & _)%list_elem_of_fmap.
    apply controller_text_length. }
  assert (uintf_modulus = 18446744073709551616%Z) as Hmod by done.
  unfold FastBuild.parse, open_file.
  rewrite (begin_field_opens_at fuel ws _ D1); [|done|done|lia..].
  cbn [mbind option_bind].
  rewrite (read_to_key_at fuel "rows" ws D1 D2);
    [|done|done|evaluated|evaluated|lia].
  cbn [mbind option_bind].
  rewrite (begin_list_opens_at fuel (ws ++ ":"%char :: ws) D2 D3);
    [|unfold D2; text_eq|apply gap_plain; [done|apply colon_plain]|lia..].
  cbn [mbind option_bind]. unfold D3.
  rewrite (fields_loop_elements (row_text ws) row_act (FastBuild.read_row fuel)
             fuel (0 + 1)%Z (0 + 1)%Z row_ok); [|lia| |done|done|].
  2:{ intros r G rest Hr HG Hf. apply row_iteration; try done; lia. }
  2:{ fold D3. lia. }
  unfold build.
  destruct (fold_items row_act rows init_tables) as [t1|]; [|done].
  cbn [mbind option_bind].
  rewrite (read_to_key_at fuel "controllers" (ws ++ ","%char :: ws) D4 D5);
    [|unfold D4; text_eq|apply gap_plain; [done|apply comma_plain]
     |evaluated|evaluated|lia].
  cbn [mbind option_bind].
  rewrite (begin_list_opens_at fuel (ws ++ ":"%char :: ws) D5 D6);
    [|unfold D5; text_eq|apply gap_plain; [done|apply colon_plain]|lia..].
  cbn [mbind option_bind]. unfold D6.
  rewrite (fields_loop_elements (controller_text ws) controller_act
             (FastBuild.read_controller fuel) fuel (0 + 1)%Z
             (0 + 1 - 1 + 1)%Z (λ c, quote ∉ c)); [|lia| |done|done|].
  2:{ intros c G rest Hc HG Hf. apply controller_iteration; try done; lia. }
  2:{ fold D6. lia. }
  destruct (fold_items controller_act ctrls (add_dummy t1)) as [t3|]; [|done].
  cbn [mbind option_bind].
  rewrite (end_field_closes_at fuel ws D7 ws); [done|done|done|lia..].
Qed.

End FastDocuments.

(** X17: the default build reads back what a document says.  For the
    document that lists the rows [rows] and then the controllers [ctrls],
    keys in the order the default build expects, laid out with any white
    space [ws] between the tokens, the parse returns, given more fuel than
    the document has characters, and its tables are those the constructor
    builds from the rows in order, the dummy edge, and the controllers in
    order, each identifier with the newline appended.  The identifiers hold
    no double quote. *)
Theorem fast_build_reads_documents ws fuel rows ctrls :
  Forall blank ws → Forall row_ok rows → Forall (λ c, quote ∉ c) ctrls →
  length (document ws rows ctrls) < fuel →
  ∃ t, FastBuild.parse fuel (document ws rows ctrls) = Some t ∧
       build rows ctrls = Some t.
Proof.
  intros. destruct (build_assembled rows ctrls) as (t & Ht & _).
  exists t. split; [|done]. by rewrite fast_parse_document.
Qed.

Lemma fast_build_reads_documents_witness :
  ∃ t, FastBuild.parse 200
         (document (lit " ") [Row (lit "E1") (lit "A") (lit "B")] [lit "B"])
       = Some t ∧
       build [Row (lit "E1") (lit "A") (lit "B")] [lit "B"] = Some t.
Proof.
  apply (fast_build_reads_documents (lit " ") 200
           [Row (lit "E1") (lit "A") (lit "B")] [lit "B"]).
  - repeat constructor.
  - repeat constructor; simpl; evaluated.
  - repeat constructor; evaluated.
  - vm_compute. lia.
Defined.

(** * The sentinels of a document *)

Lemma fold_rows_phase rows t t' :
  rows_phase t → fold_items row_act rows t = Some t' → rows_phase t'.
Proof.
  revert t. induction rows as [|r rows IH]; intros t Ht H; simplify_eq/=;
    [done|].
  destruct (row_act r t) as [t1|] eqn:H1; simplify_eq/=.
  apply (IH t1); [|done].
  apply (rp_row t (stored (row_via r)) (stored (row_from r))
           (stored (row_to r)) t1); try done; apply terminated_snoc.
Qed.

Lemma fold_controllers_wired_by ctrls hs ts t t' :
  wired_by hs ts t → fold_items controller_act ctrls t = Some t' →
  wired_by hs (ts ++ map stored ctrls) t'.
Proof.
  revert ts t. induction ctrls as [|c ctrls IH]; intros ts t Ht H;
    simplify_eq/=.
  - by rewrite app_nil_r.
  - destruct (controller_act c t) as [t1|] eqn:H1; simplify_eq/=.
    rewrite (cons_middle _ ts), (assoc_L (++)). apply (IH _ t1); [|done].
    apply (wb_controller hs ts t (stored c) t1); try done.
    apply terminated_snoc.
Qed.

Lemma build_wired_by rows ctrls t :
  build rows ctrls = Some t → wired_by [] (map stored ctrls) t.
Proof.
  unfold build. intros H.
  destruct (fold_items row_act rows init_tables) as [t1|] eqn:H1;
    simplify_eq/=.
  apply (fold_controllers_wired_by ctrls [] [] (add_dummy t1)); [|done].
  apply wb_dummy. by apply (fold_rows_phase rows init_tables); [constructor|].
Qed.

(** X4: reduction 2 in the default build, on a document of the ordered
    layout with the controllers [ctrls].  [read_graph] returns, one
    controller is counted per element, TAIL is wired to exactly what the
    controllers' identifiers (each with the newline) stand for and HEAD to
    exactly what the lines of the starting-points file stand for: every entry
    of the sentinel's adjacency list carries the dummy edge and leads to a
    vertex other than HEAD and TAIL that is named by one of the identifiers,
    and for each identifier the vertex [idx] gives it and all substitute
    vertices of the edge [edgeidx] gives it are in the sentinel's list.  An
    edge is deleted exactly when one of these identifiers names it. *)
Theorem sentinels_wired ws fuel rows ctrls startingpoints :
  Forall blank ws → Forall row_ok rows → Forall (λ c, quote ∉ c) ctrls →
  length (document ws rows ctrls) < fuel →
  ∃ t, FastBuild.read_graph fuel (document ws rows ctrls) startingpoints
       = Some t ∧
       controllers t = length ctrls ∧
       wired_to HEAD (map start_key startingpoints) t ∧
       wired_to TAIL (map stored ctrls) t ∧
       ∀ e, badedge t !! e = Some true ↔
            ∃ id, id ∈ map start_key startingpoints ++ map stored ctrls ∧
                  edgeidx t !! id = Some e.
Proof.
  intros Hws Hrows Hctrls Hfuel.
  destruct (build_assembled rows ctrls) as (t0 & Ht0 & Ha0).
  pose proof (build_wired_by rows ctrls t0 Ht0) as Hw0.
  destruct (add_starts_defined blank_or_terminated startingpoints t0)
    as [t Ht]; [intros s; apply stored_terminated|done|].
  pose proof (add_starts_wired_by _ _ _ _ _ Hw0 Ht) as Hw. simpl in Hw.
  exists t. unfold FastBuild.read_graph.
  rewrite (fast_parse_document ws Hws fuel rows ctrls Hrows Hctrls Hfuel),
    Ht0.
  split; [done|].
  pose proof (wired_by_reduced _ _ _ Hw) as [Hex Hh Htl].
  split; [by rewrite (wired_by_counter _ _ _ Hw), length_map|].
  split; [done|]. split; [done|]. apply (ex_deleted _ _ Hex).
Qed.

Lemma sentinels_wired_witness :
  ∃ t, FastBuild.read_graph 200
         (document (lit " ") [Row (lit "E1") (lit "A") (lit "B")] [lit "B"])
         [lit "A"] = Some t ∧
       controllers t = 1 ∧
       wired_to HEAD [ident "A"] t ∧ wired_to TAIL [ident "B"] t ∧
       ∀ e, badedge t !! e = Some true ↔
            ∃ id, id ∈ [ident "A"; ident "B"] ∧ edgeidx t !! id = Some e.
Proof.
  apply (sentinels_wired (lit " ") 200 [Row (lit "E1") (lit "A") (lit "B")]
           [lit "B"] [lit "A"]).
  - repeat constructor.
  - repeat constructor; simpl; evaluated.
  - repeat constructor; evaluated.
  - vm_compute. lia.
Defined.

(** * The matcher of [scan_field] *)

Lemma key_char_at k p : p ≤ length k → key_char k p = Some (key_at k p).
Proof.
  intros Hp. unfold key_char, key_at.
  destruct (decide (p < length k)) as [Hlt|Hge].
  - rewrite lookup_app_l by done.
    destruct (lookup_lt_is_Some_2 k p Hlt) as [c Hc]. by rewrite Hc.
  - assert (p = length k) as -> by lia.
    rewrite lookup_app_r, Nat.sub_diag by lia.
    rewrite (lookup_ge_None_2 k) by lia. done.
Qed.

Lemma letter_not_quote c : letter c = true → c ≠ quote.
Proof. by intros H ->. Qed.

Lemma letter_not_nul c : letter c = true → c ≠ NUL.
Proof. by intros H ->. Qed.

Lemma key_at_key_of_0 body : key_at (key_of body) 0 = quote.
Proof. done. Qed.

Lemma key_at_key_of_S body m :
  key_at (key_of body) (S m) = default NUL ((body ++ [quote]) !! m).
Proof. done. Qed.

Lemma key_at_key_of_end body : key_at (key_of body) (S (length body)) = quote.
Proof.
  rewrite key_at_key_of_S, lookup_app_r, Nat.sub_diag by lia. done.
Qed.

Lemma key_at_key_of_past body :
  key_at (key_of body) (S (S (length body))) = NUL.
Proof.
  rewrite key_at_key_of_S, lookup_ge_None_2; [done|].
  rewrite length_app. simpl. lia.
Qed.

Lemma key_at_key_of_in body m c :
  body !! m = Some c → key_at (key_of body) (S m) = c.
Proof.
  intros Hc. rewrite key_at_key_of_S, lookup_app_l; [by rewrite Hc|].
  by eapply lookup_lt_Some.
Qed.

Lemma length_key_of body : length (key_of body) = S (S (length body)).
Proof. unfold key_of. simpl. rewrite length_app. simpl. lia. Qed.

Lemma track_bound word m body :
  m ≤ length word → track word m body ≤ length body + 1.
Proof.
  intros Hm. unfold track. case_bool_decide as Hp; [|lia].
  apply prefix_length in Hp. rewrite length_take in Hp. lia.
Qed.

(** One more letter of the word: a key keeps matching exactly when the
    letter is its next one, and no key is completed. *)
Lemma track_next word m c body :
  word !! m = Some c → c ≠ quote → NUL ∉ body →
  (c = key_at (key_of body) (track word m body) ∧
   track word (S m) body = S (track word m body) ∧
   key_at (key_of body) (S (track word m body)) ≠ NUL)
  ∨ (c ≠ key_at (key_of body) (track word m body) ∧
     track word (S m) body = 0).
Proof.
  intros Hc Hq Hn.
  assert (m < length word) as Hm by by eapply lookup_lt_Some.
  assert (take (S m) word = take m word ++ [c]) as HS
    by by apply take_S_r.
  unfold track at 1 3 4 5. case_bool_decide as Hp.
  - destruct Hp as [suf Hp].
    assert (length (take m word) = m) as Hlen by (rewrite length_take; lia).
    assert (key_at (key_of body) (S m) = default NUL ((suf ++ [quote]) !! 0))
      as Hat.
    { rewrite key_at_key_of_S, Hp, <- app_assoc.
      rewrite lookup_app_r by lia. by rewrite Hlen, Nat.sub_diag. }
    rewrite Hat. destruct suf as [|x suf]; simpl.
    + right. split; [done|]. unfold track. case_bool_decide as Hp'; [|done].
      apply prefix_length in Hp'. rewrite Hp, HS, !length_app in Hp'.
      simpl in Hp'. lia.
    + destruct (decide (c = x)) as [<-|Hx].
      * left. split; [done|]. split.
        { unfold track. rewrite bool_decide_eq_true_2; [done|].
          exists suf. by rewrite HS, <- app_assoc. }
        rewrite key_at_key_of_S, Hp.
        replace (take m word ++ c :: suf) with ((take m word ++ [c]) ++ suf)
          by by rewrite <- app_assoc.
        rewrite <- app_assoc, lookup_app_r
          by (rewrite length_app; simpl; lia).
        rewrite length_app, Hlen. simpl.
        replace (S m - (m + 1)) with 0 by lia.
        destruct suf as [|y suf]; simpl; [done|].
        intros ->. apply Hn. rewrite Hp. set_solver.
      * right. split; [done|]. unfold track.
        case_bool_decide as Hp'; [|done]. destruct Hp' as [suf' Hp'].
        rewrite HS, Hp, <- !app_assoc in Hp'.
        apply app_inv_head in Hp'. simpl in Hp'. congruence.
  - right. split; [by rewrite key_at_key_of_0|].
    unfold track. case_bool_decide as Hp'; [|done]. destruct Hp.
    etrans; [|exact Hp']. rewrite HS. by apply prefix_app_r.
Qed.

(** The closing quote of the word: its own key is completed, the others
    are not. *)
Lemma matched_own word :
  quote = key_at (key_of word) (track word (length word) word) ∧
  matched word word = S (track word (length word) word) ∧
  key_at (key_of word) (S (track word (length word) word)) = NUL.
Proof.
  unfold track, matched. rewrite firstn_all.
  rewrite !bool_decide_eq_true_2 by done.
  rewrite key_at_key_of_end, key_at_key_of_past. repeat split; lia.
Qed.

Lemma matched_other word body :
  body ≠ word → quote ∉ body → NUL ∉ body →
  (quote = key_at (key_of body) (track word (length word) body) ∧
   matched word body = S (track word (length word) body) ∧
   key_at (key_of body) (S (track word (length word) body)) ≠ NUL)
  ∨ (quote ≠ key_at (key_of body) (track word (length word) body) ∧
     matched word body = 0).
Proof.
  intros Hne Hq Hn. unfold track, matched. rewrite firstn_all.
  rewrite (bool_decide_eq_false_2 (body = word)) by done.
  case_bool_decide as Hp.
  - right. split; [|done]. destruct Hp as [suf Hp].
    destruct suf as [|x suf]; [by rewrite app_nil_r in Hp|].
    rewrite key_at_key_of_S, Hp, <- app_assoc, lookup_app_r by lia.
    rewrite Nat.sub_diag. simpl. intros <-. apply Hq. rewrite Hp. set_solver.
  - left. rewrite key_at_key_of_0. split; [done|]. split; [done|].
    rewrite key_at_key_of_S. destruct body as [|x body]; simpl; [done|].
    intros ->. apply Hn. set_solver.
Qed.

Lemma matched_bound word body : matched word body ≤ length body + 2.
Proof. unfold matched. repeat case_bool_decide; subst; lia. Qed.

Lemma letters_no_quote body :
  Forall (λ x, letter x = true) body → quote ∉ body.
Proof.
  intros H Hq. rewrite Forall_forall in H. by specialize (H _ Hq).
Qed.

Lemma letters_no_nul body :
  Forall (λ x, letter x = true) body → NUL ∉ body.
Proof.
  intros H Hq. rewrite Forall_forall in H. by specialize (H _ Hq).
Qed.

Section Matcher.
Context {U : Type} (action : Robust.handler U).

(** A separator, or any character that is no letter, no double quote and
    not NUL, resets every match. *)
Lemma match_keys_reset c i bodies pos st :
  c ≠ NUL → c ≠ quote → letter c = false →
  Forall (Forall (λ x, letter x = true)) bodies →
  Forall2 (λ b p, p ≤ length b + 2) bodies pos →
  Robust.match_keys action c i (map key_of bodies) pos st
  = Some (replicate (length bodies) 0, st).
Proof.
  intros Hn Hq Hl Hb Hp. revert i.
  induction Hp as [|b p bodies pos Hle _ IH]; intros i; [done|].
  apply Forall_cons in Hb as [Hb1 Hb].
  cbn [map Robust.match_keys].
  rewrite (key_char_at _ p) by (rewrite length_key_of; lia).
  cbn [mbind option_bind].
  assert (Ascii.eqb c (key_at (key_of b) p) = false) as ->.
  { apply Ascii.eqb_neq. destruct p as [|p]; [done|].
    rewrite key_at_key_of_S.
    destruct ((b ++ [quote]) !! p) as [x|] eqn:Hx; simpl; [|done].
    apply lookup_app_Some in Hx as [Hx|[_ Hx]].
    - apply list_elem_of_lookup_2 in Hx. rewrite Forall_forall in Hb1.
      intros ->. rewrite (Hb1 _ Hx) in Hl. done.
    - destruct (p - length b); simplify_eq/=; done. }
  rewrite (IH Hb). done.
Qed.

(** The opening quote starts a match of every key. *)
Lemma match_keys_open word0 i bodies st :
  Forall (Forall (λ x, letter x = true)) bodies →
  Robust.match_keys action quote i (map key_of bodies)
    (replicate (length bodies) 0) st
  = Some (map (track word0 0) bodies, st).
Proof.
  intros Hb. revert i. induction Hb as [|b bodies Hb1 _ IH]; intros i; [done|].
  cbn [map length replicate Robust.match_keys].
  rewrite (key_char_at _ 0) by (rewrite length_key_of; lia).
  cbn [mbind option_bind]. rewrite key_at_key_of_0, Ascii.eqb_refl.
  rewrite (key_char_at _ 1) by (rewrite length_key_of; lia).
  cbn [mbind option_bind].
  assert (Ascii.eqb (key_at (key_of b) 1) NUL = false) as ->.
  { apply Ascii.eqb_neq. rewrite key_at_key_of_S.
    destruct Hb1 as [|x b Hx _]; simpl; [done|]. by apply letter_not_nul. }
  cbn [mbind option_bind]. rewrite IH. done.
Qed.

(** One more letter of a word. *)
Lemma match_keys_letter word m c i bodies st :
  Forall (Forall (λ x, letter x = true)) bodies →
  word !! m = Some c → c ≠ quote →
  Robust.match_keys action c i (map key_of bodies)
    (map (track word m) bodies) st
  = Some (map (track word (S m)) bodies, st).
Proof.
  intros Hb Hc Hq. revert i.
  induction Hb as [|b bodies Hb1 _ IH]; intros i; [done|].
  assert (m ≤ length word) as Hm by (apply lookup_lt_Some in Hc; lia).
  pose proof (track_bound word m b Hm) as Hle.
  cbn [map Robust.match_keys].
  rewrite (key_char_at _ (track word m b)) by (rewrite length_key_of; lia).
  cbn [mbind option_bind].
  destruct (track_next word m c b Hc Hq (letters_no_nul _ Hb1))
    as [(Heq & HS & Hno)|(Hne & HS)].
  - rewrite <- Heq, Ascii.eqb_refl.
    rewrite (key_char_at _ (S (track word m b)))
      by (rewrite length_key_of; lia).
    cbn [mbind option_bind].
    apply Ascii.eqb_neq in Hno as ->. cbn [mbind option_bind].
    rewrite IH, HS. done.
  - apply Ascii.eqb_neq in Hne as ->. rewrite IH, HS. done.
Qed.

(** The closing quote of a word that is no key. *)
Lemma match_keys_unknown word i bodies st :
  Forall (Forall (λ x, letter x = true)) bodies → word ∉ bodies →
  Robust.match_keys action quote i (map key_of bodies)
    (map (track word (length word)) bodies) st
  = Some (map (matched word) bodies, st).
Proof.
  intros Hb Hw. revert i.
  induction Hb as [|b bodies Hb1 _ IH]; intros i; [done|].
  apply not_elem_of_cons in Hw as [Hne Hw].
  pose proof (track_bound word (length word) b (le_n _)) as Hle.
  cbn [map Robust.match_keys].
  rewrite (key_char_at _ (track word (length word) b))
    by (rewrite length_key_of; lia).
  cbn [mbind option_bind].
  destruct (matched_other word b (not_eq_sym Hne) (letters_no_quote _ Hb1)
              (letters_no_nul _ Hb1)) as [(Heq & HS & Hno)|(Hn & HS)].
  - rewrite <- Heq, Ascii.eqb_refl.
    rewrite (key_char_at _ (S (track word (length word) b)))
      by (rewrite length_key_of; lia).
    cbn [mbind option_bind].
    apply Ascii.eqb_neq in Hno as ->. cbn [mbind option_bind].
    rewrite (IH Hw), HS. done.
  - apply Ascii.eqb_neq in Hn as ->. rewrite (IH Hw), HS. done.
Qed.

(** The closing quote of key [j]: its handler runs, and only it. *)
Lemma match_keys_close word i j bodies st :
  Forall (Forall (λ x, letter x = true)) bodies → NoDup bodies →
  bodies !! j = Some word →
  Robust.match_keys action quote i (map key_of bodies)
    (map (track word (length word)) bodies) st
  = st' ← action (i + j) st; Some (map (matched word) bodies, st').
Proof.
  intros Hb Hd. revert i j.
  induction Hb as [|b bodies Hb1 Hb IH]; intros i j Hj; [done|].
  apply NoDup_cons in Hd as [Hnot Hd].
  pose proof (track_bound word (length word) b (le_n _)) as Hle.
  cbn [map Robust.match_keys].
  rewrite (key_char_at _ (track word (length word) b))
    by (rewrite length_key_of; lia).
  cbn [mbind option_bind].
  destruct j as [|j]; simpl in Hj.
  - injection Hj as ->. destruct (matched_own word) as (Heq & HS & Hfire).
    rewrite <- Heq, Ascii.eqb_refl.
    rewrite (key_char_at _ (S (track word (length word) word)))
      by (rewrite length_key_of; lia).
    cbn [mbind option_bind]. rewrite Hfire, Ascii.eqb_refl, Nat.add_0_r.
    destruct (action i st) as [st'|]; [|done]. cbn [mbind option_bind].
    rewrite (match_keys_unknown word (S i) bodies st' Hb Hnot), HS. done.
  - assert (b ≠ word) as Hne.
    { intros ->. apply Hnot. by eapply list_elem_of_lookup_2. }
    replace (i + S j) with (S i + j) by lia.
    destruct (matched_other word b Hne (letters_no_quote _ Hb1)
                (letters_no_nul _ Hb1)) as [(Heq & HS & Hno)|(Hn & HS)].
    + rewrite <- Heq, Ascii.eqb_refl.
      rewrite (key_char_at _ (S (track word (length word) b)))
        by (rewrite length_key_of; lia).
      cbn [mbind option_bind].
      apply Ascii.eqb_neq in Hno as ->. cbn [mbind option_bind].
      rewrite (IH Hd _ _ Hj), HS. by destruct (action (S i + j) st).
    + apply Ascii.eqb_neq in Hn as ->. rewrite (IH Hd _ _ Hj), HS.
      by destruct (action (S i + j) st).
Qed.

End Matcher.

(** * The loops of [scan_field] and [scan_list] *)

Lemma scan_keys_step {U} f (action : Robust.handler U) keys bl bkl pos c
    sc sc' u :
  (bl <? braces sc)%Z = true → readc sc = (c, sc') →
  nested bl bkl sc' = false →
  Robust.scan_keys (S f) action keys bl bkl pos (sc, u)
  = '(pos', st') ← Robust.match_keys action c 0 keys pos (sc', u);
    Robust.scan_keys f action keys bl bkl pos' st'.
Proof. intros H1 H2 H3. simpl. rewrite H1, H2, H3. done. Qed.

Lemma scan_keys_done {U} f (action : Robust.handler U) keys bl bkl pos st :
  (bl <? braces st.1)%Z = false →
  Robust.scan_keys f action keys bl bkl pos st = Some st.
Proof. intros H. destruct f; simpl; by rewrite H. Qed.

Lemma valid_pos_zeros bodies : valid_pos bodies (replicate (length bodies) 0).
Proof.
  unfold valid_pos. induction bodies; simpl; constructor; [lia|done].
Qed.

Lemma valid_pos_matched word bodies :
  valid_pos bodies (map (matched word) bodies).
Proof.
  unfold valid_pos. induction bodies; simpl; constructor; [|done].
  apply matched_bound.
Qed.

Lemma enter_field_done f b k sc :
  (b =? braces sc)%Z = false → Robust.enter_field f b k sc = Some (true, sc).
Proof. intros H. destruct f; simpl; by rewrite H. Qed.

Lemma enter_list_done f b k sc :
  (k =? brackets sc)%Z = false → Robust.enter_list f k b sc = Some (true, sc).
Proof. intros H. destruct f; simpl; by rewrite H. Qed.

Lemma run_list_done {U} f (act : Robust.thunk U) k st :
  (k <? brackets st.1)%Z = false → Robust.run_list f act k st = Some st.
Proof. intros H. destruct f; simpl; by rewrite H. Qed.

(** [enter_field] passes plain text and stops behind the opening brace. *)
Lemma enter_field_opens fuel g rest b k :
  Forall plain_char g → (0 ≤ b)%Z → (b + 1 < uintf_modulus)%Z →
  length g < fuel →
  Robust.enter_field fuel b k (Scanner (g ++ lbrace :: rest) b k false)
  = Some (true, Scanner rest (b + 1) k false).
Proof.
  intros Hg Hb Hu. revert fuel.
  induction Hg as [|c g Hc _ IH]; intros fuel Hf;
    (destruct fuel as [|f]; [simpl in Hf; lia|]);
    cbn [app Robust.enter_field braces]; rewrite Z.eqb_refl.
  - rewrite readc_lbrace by done. cbn [snd brackets].
    rewrite Z.ltb_irrefl. apply enter_field_done. simpl.
    apply Z.eqb_neq. lia.
  - rewrite readc_out_plain by done. cbn [snd brackets].
    rewrite Z.ltb_irrefl. apply IH. simpl in Hf. lia.
Qed.

(** ... and reports the end of the enclosing list. *)
Lemma enter_field_leaves fuel g rest b k :
  Forall plain_char g → (1 ≤ k < uintf_modulus)%Z → length g < fuel →
  Robust.enter_field fuel b k (Scanner (g ++ rbracket :: rest) b k false)
  = Some (false, Scanner rest b (k - 1) false).
Proof.
  intros Hg Hk. revert fuel.
  induction Hg as [|c g Hc _ IH]; intros fuel Hf;
    (destruct fuel as [|f]; [simpl in Hf; lia|]);
    cbn [app Robust.enter_field braces]; rewrite Z.eqb_refl.
  - rewrite readc_rbracket by done. cbn [snd brackets].
    by rewrite (proj2 (Z.ltb_lt _ _)) by lia.
  - rewrite readc_out_plain by done. cbn [snd brackets].
    rewrite Z.ltb_irrefl. apply IH. simpl in Hf. lia.
Qed.

(** [enter_list] passes plain text and stops behind the opening bracket. *)
Lemma enter_list_opens fuel g rest b k :
  Forall plain_char g → (0 ≤ k)%Z → (k + 1 < uintf_modulus)%Z →
  length g < fuel →
  Robust.enter_list fuel k b (Scanner (g ++ lbracket :: rest) b k false)
  = Some (true, Scanner rest b (k + 1) false).
Proof.
  intros Hg Hb Hu. revert fuel.
  induction Hg as [|c g Hc _ IH]; intros fuel Hf;
    (destruct fuel as [|f]; [simpl in Hf; lia|]);
    cbn [app Robust.enter_list brackets]; rewrite Z.eqb_refl.
  - rewrite readc_lbracket by done. cbn [snd braces].
    rewrite Z.ltb_irrefl. apply enter_list_done. simpl.
    apply Z.eqb_neq. lia.
  - rewrite readc_out_plain by done. cbn [snd braces].
    rewrite Z.ltb_irrefl. apply IH. simpl in Hf. lia.
Qed.

Lemma scan_field_leaves {U} fuel keys (action : Robust.handler U) g rest
    b k u :
  Forall plain_char g → (1 ≤ k < uintf_modulus)%Z → length g < fuel →
  Robust.scan_field fuel keys action (Scanner (g ++ rbracket :: rest) b k
      false, u)
  = Some (false, (Scanner rest b (k - 1) false, u)).
Proof.
  intros Hg Hk Hf. unfold Robust.scan_field. cbn [fst snd braces brackets].
  by rewrite enter_field_leaves.
Qed.

Section Scan.
Context {U : Type} (action : Robust.handler U) (bodies : list text).
Context (bl bkl : Z).
Hypothesis Hletters : Forall (Forall (λ x, letter x = true)) bodies.
Hypothesis Hnodup : NoDup bodies.
Hypothesis Hbl : (0 ≤ bl)%Z.
Hypothesis Hbu : (bl + 1 < uintf_modulus)%Z.


Lemma nested_inside w s : nested bl bkl (inside bl bkl w s) = false.
Proof.
  unfold nested. simpl. rewrite wrap_small by lia.
  apply orb_false_iff. split; apply Z.ltb_ge; lia.
Qed.

Lemma below_inside w s : (bl <? braces (inside bl bkl w s))%Z = true.
Proof. simpl. apply Z.ltb_lt. lia. Qed.

Lemma scan_keys_idle f pos c rest u :
  idle c → valid_pos bodies pos →
  scan_from action bodies bl bkl (S f) pos (inside bl bkl (c :: rest) false, u)
  = scan_from action bodies bl bkl f (zeros bodies) (inside bl bkl rest false,
      u).
Proof.
  intros (Hp & Hl & Hn) Hv.
  rewrite (scan_keys_step f action (keys_of bodies) bl bkl pos c _ (inside bl
      bkl rest false));
    [|apply below_inside|by apply readc_out_plain|apply nested_inside].
  rewrite match_keys_reset; [done..|by destruct Hp|done|done|done].
Qed.

Lemma scan_keys_gap_zeros g f rest u :
  Forall idle g →
  scan_from action bodies bl bkl (length g + f) (zeros bodies) (inside bl bkl
      (g ++ rest) false, u)
  = scan_from action bodies bl bkl f (zeros bodies) (inside bl bkl rest false,
      u).
Proof.
  induction 1 as [|c g Hc _ IH]; [done|].
  cbn [length app Nat.add]. rewrite scan_keys_idle; [done|done|].
  apply valid_pos_zeros.
Qed.

Lemma scan_keys_gap g f pos rest u :
  Forall idle g → valid_pos bodies pos →
  ∃ pos', valid_pos bodies pos' ∧
    scan_from action bodies bl bkl (length g + f) pos (inside bl bkl (g ++
        rest) false, u)
    = scan_from action bodies bl bkl f pos' (inside bl bkl rest false, u).
Proof.
  intros Hg Hv. destruct Hg as [|c g Hc Hg]; [by exists pos|].
  exists (zeros bodies). split; [apply valid_pos_zeros|].
  cbn [length app Nat.add]. rewrite scan_keys_idle by done.
  by apply scan_keys_gap_zeros.
Qed.

(** The letters of a word, inside its quotes. *)
Lemma scan_keys_letters word w2 : ∀ w1 f rest u,
  word = w1 ++ w2 → quote ∉ w2 →
  scan_from action bodies bl bkl (length w2 + f) (map (track word (length w1))
      bodies)
    (inside bl bkl (w2 ++ rest) true, u)
  = scan_from action bodies bl bkl f (map (track word (length word)) bodies)
      (inside bl bkl rest true, u).
Proof.
  induction w2 as [|c w2 IH]; intros w1 f rest u Hw Hq.
  { rewrite app_nil_r in Hw. by subst. }
  apply not_elem_of_cons in Hq as [Hc Hq].
  cbn [length app Nat.add].
  rewrite (scan_keys_step _ action (keys_of bodies) bl bkl _ c _ (inside bl
      bkl (w2 ++ rest) true));
    [|apply below_inside|by apply readc_in|apply nested_inside].
  rewrite (match_keys_letter action word (length w1) c); [|done| |done].
  2:{ rewrite Hw, lookup_app_r, Nat.sub_diag by lia. done. }
  cbn [mbind option_bind].
  specialize (IH (w1 ++ [c]) f rest u).
  rewrite length_app in IH. simpl in IH.
  rewrite Nat.add_1_r in IH. apply IH; [|done].
  by rewrite <- app_assoc.
Qed.

(** A key between its quotes, read from the zero positions: its handler is
    called behind the closing quote. *)
Lemma scan_keys_token j word f rest u :
  bodies !! j = Some word →
  scan_from action bodies bl bkl (length word + 2 + f) (zeros bodies) (inside
      bl bkl (key_of word ++ rest) false, u)
  = st' ← action j (inside bl bkl rest false, u);
    scan_from action bodies bl bkl f (map (matched word) bodies) st'.
Proof.
  intros Hj.
  assert (quote ∉ word) as Hq.
  { apply letters_no_quote. rewrite Forall_forall in Hletters.
    apply Hletters. by eapply list_elem_of_lookup_2. }
  replace (length word + 2 + f) with (S (length word + S f)) by lia.
  unfold key_of. cbn [app].
  rewrite (scan_keys_step _ action (keys_of bodies) bl bkl _ quote _
             (inside bl bkl ((word ++ [quote]) ++ rest) true));
    [|apply below_inside|apply readc_out_quote|apply nested_inside].
  rewrite (match_keys_open action word) by done.
  cbn [mbind option_bind]. rewrite <- app_assoc.
  rewrite (scan_keys_letters word word [] (S f)); [|done|done].
  cbn [app].
  rewrite (scan_keys_step _ action (keys_of bodies) bl bkl _ quote _ (inside
      bl bkl rest false));
    [|apply below_inside|apply readc_out_quote|apply nested_inside].
  rewrite (match_keys_close action word 0 j) by done.
  simpl. destruct (action j _) as [st'|]; done.
Qed.

(** The brace that closes the object. *)
Lemma scan_keys_close f pos rest u :
  valid_pos bodies pos →
  scan_from action bodies bl bkl (S f) pos (inside bl bkl (rbrace :: rest)
      false, u)
  = Some (Scanner rest bl bkl false, u).
Proof.
  intros Hv.
  rewrite (scan_keys_step _ action (keys_of bodies) bl bkl _ rbrace _
             (Scanner rest bl bkl false)).
  - rewrite match_keys_reset by done. cbn [mbind option_bind].
    apply scan_keys_done. simpl. apply Z.ltb_ge. lia.
  - apply below_inside.
  - rewrite readc_rbrace by lia. do 2 f_equal. lia.
  - unfold nested. simpl. rewrite wrap_small by lia.
    apply orb_false_iff. split; apply Z.ltb_ge; lia.
Qed.

(** The members of an object whose keys are all known: each handler takes
    its payload, and the scan ends behind the closing brace. *)
Section Members.
Context {M : Type} (ix : M → nat) (payload : M → text).
Context (eff : M → U → option U) (good : M → Prop).
Context (gap : text) (hfuel : nat).
Hypothesis Hgap : Forall idle gap.
Hypothesis Hgood : ∀ m, good m → is_Some (bodies !! ix m).
Hypothesis Hact : ∀ m rest u,
  good m → length (payload m ++ rest) ≤ hfuel →
  action (ix m) (inside bl bkl (payload m ++ rest) false, u)
  = u' ← eff m u; Some (inside bl bkl rest false, u').


Lemma scan_keys_member m f pos rest u :
  good m → length (payload m ++ rest) ≤ hfuel →
  (pos = (zeros bodies) ∨ ∃ c g, gap = c :: g) →
  valid_pos bodies pos →
  ∃ pos', valid_pos bodies pos' ∧
    scan_from action bodies bl bkl (length gap + (length (default [] (bodies
        !! ix m)) + 2 + f)) pos
      (inside bl bkl (gap ++ key_of (default [] (bodies !! ix m))
                 ++ payload m ++ rest) false, u)
    = u' ← eff m u; scan_from action bodies bl bkl f pos' (inside bl bkl rest
        false, u').
Proof.
  intros Hm Hlen Hpos Hv. destruct (Hgood m Hm) as [word Hw].
  rewrite Hw. change (default [] (Some word)) with word.
  exists (map (matched word) bodies).
  split; [apply valid_pos_matched|].
  assert (scan_from action bodies bl bkl (length gap + (length word + 2 + f))
      pos
            (inside bl bkl (gap ++ key_of word ++ payload m ++ rest) false, u)
          = scan_from action bodies bl bkl (length word + 2 + f) (zeros bodies)
              (inside bl bkl (key_of word ++ payload m ++ rest) false, u)) as
                  ->.
  { destruct Hpos as [-> |(c & g & Hg)]; [by apply scan_keys_gap_zeros|].
    rewrite Hg in *. apply Forall_cons in Hgap as [Hc Hg'].
    cbn [length app Nat.add]. rewrite scan_keys_idle by done.
    by apply scan_keys_gap_zeros. }
  rewrite (scan_keys_token _ word) by done.
  rewrite Hact by done. by destruct (eff m u).
Qed.

Lemma scan_keys_after ms : ∀ pos u F rest,
  Forall good ms → valid_pos bodies pos →
  length (gap ++ after (map (member_of bodies ix payload gap) ms) ++ rbrace ::
      rest) ≤ hfuel →
  length (gap ++ after (map (member_of bodies ix payload gap) ms) ++ rbrace ::
      rest) ≤ F →
  scan_from action bodies bl bkl F pos (inside bl bkl (gap ++ after (map
      (member_of bodies ix payload gap) ms) ++ rbrace :: rest) false, u)
  = u' ← fold_items eff ms u; Some (Scanner rest bl bkl false, u').
Proof.
  induction ms as [|m ms IH]; intros pos u F rest Hms Hv Hh HF.
  - cbn [map after app fold_items] in *.
    rewrite length_app in HF. cbn [length] in HF.
    destruct (fuel_split (length gap) F ltac:(lia)) as [f ->].
    destruct (scan_keys_gap gap (S f) pos (rbrace :: rest) u Hgap Hv)
      as (pos' & Hv' & ->).
    by apply scan_keys_close.
  - apply Forall_cons in Hms as [Hm Hms].
    cbn [map after fold_items] in *.
    set (word := default [] (bodies !! ix m)) in *.
    set (tail := gap ++ after (map (member_of bodies ix payload gap) ms) ++
        rbrace :: rest) in *.
    assert (gap ++ (","%char :: (gap ++ key_of word ++ payload m ++ gap)
                      ++ after (map (member_of bodies ix payload gap) ms)) ++
                          rbrace :: rest
            = gap ++ ","%char :: gap ++ key_of word ++ payload m ++ tail)
      as Heq.
    { unfold tail. repeat (rewrite <-?(assoc_L (++)); cbn [app]). done. }
    rewrite Heq in *. clear Heq.
    rewrite !length_app in HF, Hh. cbn [length] in HF, Hh.
    rewrite !length_app in HF, Hh. rewrite length_key_of in HF, Hh.
    destruct (fuel_split (length gap) F ltac:(lia)) as [f0 ->].
    destruct (scan_keys_gap gap (S f0) pos
                (","%char :: gap ++ key_of word ++ payload m ++ tail) u
                Hgap Hv) as (pos' & Hv' & ->).
    rewrite scan_keys_idle; [|split; [apply comma_plain|done]|done].
    assert (∃ f, f0 = length gap + (length word + 2 + f)) as [f ->].
    { exists (f0 - length gap - length word - 2). lia. }
    destruct (scan_keys_member m f (zeros bodies) tail u Hm) as (pos2 & Hv2 &
        Hr);
      [..|fold word in Hr; rewrite Hr].
    { rewrite length_app. lia. }
    { by left. }
    { apply valid_pos_zeros. }
    destruct (eff m u) as [u'|]; [|done]. cbn [mbind option_bind].
    apply IH; [done|done|fold tail; lia|fold tail; lia].
Qed.

Lemma scan_keys_fields ms pos u F rest :
  Forall good ms → pos = (zeros bodies) →
  length (fields gap (map (member_of bodies ix payload gap) ms) ++ rbrace ::
      rest) ≤ hfuel →
  length (fields gap (map (member_of bodies ix payload gap) ms) ++ rbrace ::
      rest) ≤ F →
  scan_from action bodies bl bkl F pos (inside bl bkl (fields gap (map
      (member_of bodies ix payload gap) ms) ++ rbrace :: rest) false, u)
  = u' ← fold_items eff ms u; Some (Scanner rest bl bkl false, u').
Proof.
  intros Hms -> Hh HF. destruct ms as [|m ms].
  - cbn [map fields fold_items] in *.
    apply (scan_keys_after [] (zeros bodies) u F rest);
      [done|apply valid_pos_zeros|done|done].
  - apply Forall_cons in Hms as [Hm Hms].
    cbn [map fields fold_items] in *.
    set (word := default [] (bodies !! ix m)) in *.
    set (tail := gap ++ after (map (member_of bodies ix payload gap) ms) ++
        rbrace :: rest) in *.
    assert (((gap ++ key_of word ++ payload m ++ gap)
              ++ after (map (member_of bodies ix payload gap) ms)) ++ rbrace
                  :: rest
            = gap ++ key_of word ++ payload m ++ tail) as Heq.
    { unfold tail. repeat (rewrite <-?(assoc_L (++)); cbn [app]). done. }
    rewrite Heq in *. clear Heq.
    rewrite !length_app in HF, Hh. rewrite length_key_of in HF, Hh.
    assert (∃ f, F = length gap + (length word + 2 + f)) as [f ->].
    { exists (F - length gap - length word - 2). lia. }
    destruct (scan_keys_member m f (zeros bodies) tail u Hm) as (pos2 & Hv2 &
        Hr);
      [..|fold word in Hr; rewrite Hr].
    { rewrite length_app. lia. }
    { by left. }
    { apply valid_pos_zeros. }
    destruct (eff m u) as [u'|]; [|done]. cbn [mbind option_bind].
    apply scan_keys_after; [done|done|fold tail; lia|fold tail; lia].
Qed.

Lemma scan_field_fields fuel g ms u rest :
  Forall plain_char g → Forall good ms →
  length (g ++ lbrace :: fields gap (map (member_of bodies ix payload gap) ms)
      ++ rbrace :: rest)
    ≤ hfuel →
  length (g ++ lbrace :: fields gap (map (member_of bodies ix payload gap) ms)
      ++ rbrace :: rest)
    ≤ fuel →
  Robust.scan_field fuel (keys_of bodies) action
    (Scanner (g ++ lbrace :: fields gap (map (member_of bodies ix payload gap)
        ms) ++ rbrace :: rest)
       bl bkl false, u)
  = u' ← fold_items eff ms u; Some (true, (Scanner rest bl bkl false, u')).
Proof.
  intros Hg Hms Hh HF. unfold Robust.scan_field. cbn [fst snd braces brackets].
  rewrite length_app in Hh, HF. cbn [length] in Hh, HF.
  rewrite enter_field_opens by (done || lia).
  rewrite length_map, (scan_keys_fields ms) by (done || lia).
  by destruct (fold_items eff ms u).
Qed.

End Members.

End Scan.

(** The elements of a list handed to [scan_list], one by one. *)
Section Elements.
Context {A U : Type} (elem : A → text) (eff : A → U → option U).
Context (act : Robust.thunk U) (good : A → Prop).
Context (ws : text) (fuel : nat) (b k : Z).
Hypothesis Hws : Forall plain_char ws.
Hypothesis Hk : (0 ≤ k)%Z.
Hypothesis Hku : (k + 1 < uintf_modulus)%Z.
Hypothesis Helem : ∀ a g rest u,
  good a → Forall plain_char g → length (g ++ elem a ++ rest) ≤ fuel →
  act (Scanner (g ++ elem a ++ rest) b (k + 1) false, u)
  = u' ← eff a u; Some (Scanner rest b (k + 1) false, u').
Hypothesis Hend : ∀ g rest u,
  Forall plain_char g → length (g ++ rbracket :: rest) ≤ fuel →
  act (Scanner (g ++ rbracket :: rest) b (k + 1) false, u)
  = Some (Scanner rest b k false, u).

Lemma run_list_more items : ∀ g rest u n,
  Forall good items → Forall plain_char g → length items < n →
  length (g ++ more ws (map elem items) ++ rbracket :: rest) ≤ fuel →
  Robust.run_list n act k
    (Scanner (g ++ more ws (map elem items) ++ rbracket :: rest) b (k + 1)
        false, u)
  = u' ← fold_items eff items u; Some (Scanner rest b k false, u').
Proof.
  induction items as [|a items IH]; intros g rest u n Hgood Hg Hn Hf;
    (destruct n as [|n]; [simpl in Hn; lia|]);
    cbn [Robust.run_list fst brackets];
    rewrite (proj2 (Z.ltb_lt _ _)) by lia.
  - cbn [map more app fold_items mbind option_bind] in *.
    rewrite Hend by done. cbn [mbind option_bind].
    apply run_list_done. simpl. apply Z.ltb_irrefl.
  - apply Forall_cons in Hgood as [Ha Hgood].
    cbn [map more fold_items] in *.
    set (rest' := ws ++ more ws (map elem items) ++ rbracket :: rest) in *.
    assert (g ++ (","%char :: ws ++ elem a ++ ws ++ more ws (map elem items))
              ++ rbracket :: rest
            = (g ++ ","%char :: ws) ++ elem a ++ rest') as Heq.
    { unfold rest'. repeat (rewrite <-?(assoc_L (++)); cbn [app]). done. }
    rewrite Heq in *. clear Heq.
    rewrite Helem; [|done| |done].
    2:{ apply Forall_app. split; [done|]. apply Forall_cons.
        split; [apply comma_plain|done]. }
    destruct (eff a u) as [u'|]; [|done]. cbn [mbind option_bind].
    apply (IH ws rest u' n); [done|done|simpl in Hn; lia|].
    fold rest'. rewrite !length_app in Hf. lia.
Qed.

Lemma run_list_elements items rest u n :
  Forall good items → length items < n →
  length (elements ws (map elem items) ++ rbracket :: rest) ≤ fuel →
  Robust.run_list n act k
    (Scanner (elements ws (map elem items) ++ rbracket :: rest) b (k + 1)
        false, u)
  = u' ← fold_items eff items u; Some (Scanner rest b k false, u').
Proof.
  intros Hgood Hn Hf. destruct items as [|a items].
  - apply (run_list_more [] ws rest u n); done.
  - apply Forall_cons in Hgood as [Ha Hgood].
    destruct n as [|n]; [simpl in Hn; lia|].
    cbn [Robust.run_list fst brackets].
    rewrite (proj2 (Z.ltb_lt _ _)) by lia.
    cbn [map elements fold_items] in *.
    set (rest' := ws ++ more ws (map elem items) ++ rbracket :: rest) in *.
    assert ((ws ++ elem a ++ ws ++ more ws (map elem items))
              ++ rbracket :: rest
            = ws ++ elem a ++ rest') as Heq.
    { unfold rest'. repeat (rewrite <-?(assoc_L (++)); cbn [app]). done. }
    rewrite Heq in *. clear Heq.
    rewrite Helem by done.
    destruct (eff a u) as [u'|]; [|done]. cbn [mbind option_bind].
    apply (run_list_more items ws rest u' n); [done|done|simpl in Hn; lia|].
    fold rest'. rewrite !length_app in Hf. lia.
Qed.

Lemma scan_list_elements g items rest u :
  Forall plain_char g → Forall good items → length items < fuel →
  length (g ++ list_text ws (map elem items) ++ rest) ≤ fuel →
  Robust.scan_list fuel act
    (Scanner (g ++ list_text ws (map elem items) ++ rest) b k false, u)
  = u' ← fold_items eff items u; Some (true, (Scanner rest b k false, u')).
Proof.
  intros Hg Hgood Hn Hf. unfold Robust.scan_list, list_text in *.
  cbn [fst snd braces brackets app] in *.
  rewrite <- (assoc_L (++)) in Hf |- *. cbn [app] in *.
  rewrite !length_app in Hf. cbn [length] in Hf.
  rewrite enter_list_opens by (done || lia).
  rewrite run_list_elements; [|done|done|lia].
  by destruct (fold_items eff items u).
Qed.

End Elements.

(** * Documents read by the ROBUST build *)

Lemma fold_items_total {A U} (f : A → U → U) items u :
  fold_items (λ a u, Some (f a u)) items u = Some (foldl (λ u a, f a u) u
      items).
Proof. revert u. induction items as [|a items IH]; intros u; simpl;
    [done|apply IH]. Qed.

Lemma blank_idle c : blank c → idle c.
Proof.
  intros H. split; [by apply blank_plain|].
  destruct H as [-> |[-> |[-> | ->]]]; done.
Qed.

Lemma row_words_letters : Forall (Forall (λ x, letter x = true)) row_words.
Proof. repeat constructor. Qed.

Lemma controller_words_letters :
  Forall (Forall (λ x, letter x = true)) controller_words.
Proof. repeat constructor. Qed.

Lemma top_words_letters : Forall (Forall (λ x, letter x = true)) top_words.
Proof. repeat constructor. Qed.

Lemma row_words_nodup : NoDup row_words.
Proof. evaluated. Qed.

Lemma controller_words_nodup : NoDup controller_words.
Proof. evaluated. Qed.

Lemma top_words_nodup : NoDup top_words.
Proof. evaluated. Qed.

Section RobustDocuments.
Context (ws : text) (fuel : nat).
Hypothesis Hws : Forall blank ws.

Lemma ws_idle : Forall idle ws.
Proof. eapply Forall_impl; [done|]. apply blank_idle. Qed.

Lemma value_gap : Forall plain_char (ws ++ ":"%char :: ws).
Proof. apply (gap_plain ws Hws); [by apply ws_plain|apply colon_plain]. Qed.

(** The handler of a row's member takes the value. *)
Lemma row_key_action_entry (e : entry) rest vars b k :
  entry_ok row_words e →
  length (value_text ws (string_text e.2) ++ rest) ≤ fuel →
  RobustBuild.row_key_action fuel e.1
    (Scanner (value_text ws (string_text e.2) ++ rest) b k false, vars)
  = u' ← Some (assign e vars); Some (Scanner rest b k false, u').
Proof.
  intros [Hi Hq] Hf. destruct vars as [[edge source] target].
  assert (extract_string fuel
            (Scanner (value_text ws (string_text e.2) ++ rest) b k false)
          = Some (stored e.2, Scanner rest b k false)) as Hx.
  { apply (extract_string_at fuel (ws ++ ":"%char :: ws) e.2);
      [|apply value_gap|done|done].
    unfold value_text, string_text. text_eq. }
  unfold RobustBuild.row_key_action, assign. destruct e as [i v].
  simpl in *. destruct i as [|[|[|i]]]; [..|lia]; by rewrite Hx.
Qed.

Lemma controller_key_action_entry (e : entry) rest (c : text) b k :
  entry_ok controller_words e →
  length (value_text ws (string_text e.2) ++ rest) ≤ fuel →
  RobustBuild.controller_key_action fuel e.1
    (Scanner (value_text ws (string_text e.2) ++ rest) b k false, c)
  = u' ← Some (stored e.2); Some (Scanner rest b k false, u').
Proof.
  intros [Hi Hq] Hf.
  assert (extract_string fuel
            (Scanner (value_text ws (string_text e.2) ++ rest) b k false)
          = Some (stored e.2, Scanner rest b k false)) as Hx.
  { apply (extract_string_at fuel (ws ++ ":"%char :: ws) e.2);
      [|apply value_gap|done|done].
    unfold value_text, string_text. text_eq. }
  unfold RobustBuild.controller_key_action. simpl. by rewrite Hx.
Qed.

Lemma record_text_at words es g rest :
  g ++ record_text ws words es ++ rest
  = g ++ lbrace :: fields ws (map (entry_text ws words) es) ++ rbrace :: rest.
Proof. unfold record_text, object_text. text_eq. Qed.

Lemma entry_ok_key words e : entry_ok words e → is_Some (words !! e.1).
Proof. intros [Hi _]. by apply lookup_lt_is_Some_2. Qed.

(** One row: the object is scanned, then the constructor is called. *)
Lemma row_action_record es g rest t b k :
  Forall (entry_ok row_words) es → Forall plain_char g →
  (0 ≤ b)%Z → (b + 1 < uintf_modulus)%Z →
  length (g ++ record_text ws row_words es ++ rest) ≤ fuel →
  RobustBuild.row_action fuel
    (Scanner (g ++ record_text ws row_words es ++ rest) b k false, t)
  = t' ← row_entries_act es t; Some (Scanner rest b k false, t').
Proof.
  intros Hes Hg Hb Hbu Hf. rewrite record_text_at in Hf |- *.
  unfold RobustBuild.row_action. cbn [fst snd].
  change RobustBuild.row_keys with (map key_of row_words).
  assert (Robust.scan_field fuel (map key_of row_words)
            (RobustBuild.row_key_action fuel)
            (Scanner (g ++ lbrace :: fields ws (map (entry_text ws row_words)
                es)
                        ++ rbrace :: rest) b k false, ([], [], []))
          = u' ← fold_items (λ e v, Some (assign e v)) es ([], [], []);
            Some (true, (Scanner rest b k false, u'))) as ->.
  { apply (scan_field_fields (RobustBuild.row_key_action fuel) row_words b k
             row_words_letters row_words_nodup Hb Hbu
             fst (λ e, value_text ws (string_text e.2))
             (λ e v, Some (assign e v)) (entry_ok row_words) ws fuel
             ws_idle (entry_ok_key row_words)
             (λ e rest u, row_key_action_entry e rest u (b + 1) k)
             fuel g es ([], [], []) rest Hg Hes Hf Hf). }
  rewrite fold_items_total. cbn [mbind option_bind]. unfold row_entries_act.
  by destruct (foldl _ _ es) as [[edge source] target].
Qed.

Lemma controller_action_record es g rest t b k :
  Forall (entry_ok controller_words) es → Forall plain_char g →
  (0 ≤ b)%Z → (b + 1 < uintf_modulus)%Z →
  length (g ++ record_text ws controller_words es ++ rest) ≤ fuel →
  RobustBuild.controller_action fuel
    (Scanner (g ++ record_text ws controller_words es ++ rest) b k false, t)
  = t' ← controller_entries_act es t; Some (Scanner rest b k false, t').
Proof.
  intros Hes Hg Hb Hbu Hf. rewrite record_text_at in Hf |- *.
  unfold RobustBuild.controller_action. cbn [fst snd].
  change [quoted "globalId"] with (map key_of controller_words).
  assert (Robust.scan_field fuel (map key_of controller_words)
            (RobustBuild.controller_key_action fuel)
            (Scanner (g ++ lbrace
                        :: fields ws (map (entry_text ws controller_words) es)
                        ++ rbrace :: rest) b k false, [])
          = u' ← fold_items (λ (e : entry) (_ : text), Some (stored e.2)) es [];
            Some (true, (Scanner rest b k false, u'))) as ->.
  { apply (scan_field_fields (RobustBuild.controller_key_action fuel)
             controller_words b k
             controller_words_letters controller_words_nodup Hb Hbu
             fst (λ e, value_text ws (string_text e.2))
             (λ e _, Some (stored e.2)) (entry_ok controller_words) ws fuel
             ws_idle (entry_ok_key controller_words)
             (λ e rest u, controller_key_action_entry e rest u (b + 1) k)
             fuel g es [] rest Hg Hes Hf Hf). }
  rewrite fold_items_total. cbn [mbind option_bind].
  unfold controller_entries_act. done.
Qed.

(** Behind the last element the handlers see the closing bracket. *)
Lemma row_action_end g rest t b k :
  Forall plain_char g → (1 ≤ k < uintf_modulus)%Z →
  length (g ++ rbracket :: rest) ≤ fuel →
  RobustBuild.row_action fuel (Scanner (g ++ rbracket :: rest) b k false, t)
  = Some (Scanner rest b (k - 1) false, t).
Proof.
  intros Hg Hk Hf. unfold RobustBuild.row_action. cbn [fst snd].
  rewrite length_app in Hf. simpl in Hf.
  rewrite scan_field_leaves; [done|done|done|lia].
Qed.

Lemma controller_action_end g rest t b k :
  Forall plain_char g → (1 ≤ k < uintf_modulus)%Z →
  length (g ++ rbracket :: rest) ≤ fuel →
  RobustBuild.controller_action fuel
    (Scanner (g ++ rbracket :: rest) b k false, t)
  = Some (Scanner rest b (k - 1) false, t).
Proof.
  intros Hg Hk Hf. unfold RobustBuild.controller_action. cbn [fst snd].
  rewrite length_app in Hf. simpl in Hf.
  rewrite scan_field_leaves; [done|done|done|lia].
Qed.

Lemma record_text_length words es : 0 < length (record_text ws words es).
Proof. unfold record_text, object_text. simpl. lia. Qed.

Lemma list_text_items (items : list text) :
  (∀ x, x ∈ items → 0 < length x) →
  length items < length (list_text ws items).
Proof.
  intros Hx. pose proof (length_elements ws items Hx).
  unfold list_text. simpl. rewrite length_app. simpl. lia.
Qed.

Lemma records_items words (rs : list (list entry)) g rest :
  length (g ++ list_text ws (map (record_text ws words) rs) ++ rest) ≤ fuel →
  length rs < fuel.
Proof.
  intros Hf. rewrite !length_app in Hf.
  pose proof (list_text_items (map (record_text ws words) rs)) as Hl.
  rewrite length_map in Hl. apply Nat.lt_le_trans with
    (length (list_text ws (map (record_text ws words) rs))); [|lia].
  apply Hl. intros x (es & -> & _)%list_elem_of_fmap.
  apply record_text_length.
Qed.

(** The handler of a top-level key takes the whole list. *)
Lemma top_action_part p rest t b k :
  part_ok p → (0 ≤ b)%Z → (b + 1 < uintf_modulus)%Z →
  (0 ≤ k)%Z → (k + 1 < uintf_modulus)%Z →
  length (part_value ws p ++ rest) ≤ fuel →
  RobustBuild.top_action fuel (part_index p)
    (Scanner (part_value ws p ++ rest) b k false, t)
  = t' ← part_act p t; Some (Scanner rest b k false, t').
Proof.
  intros Hp Hb Hbu Hk Hku Hf. pose proof (ws_plain ws Hws) as Hw.
  destruct p as [rs|cs]; cbn [part_index part_value part_act part_ok] in *;
    unfold value_text in *; unfold RobustBuild.top_action.
  - assert ((ws ++ ":"%char :: ws
               ++ list_text ws (map (record_text ws row_words) rs)) ++ rest
            = (ws ++ ":"%char :: ws)
                ++ list_text ws (map (record_text ws row_words) rs) ++ rest)
      as Heq by text_eq.
    rewrite Heq in *. clear Heq.
    rewrite (scan_list_elements (record_text ws row_words) row_entries_act
               (RobustBuild.row_action fuel) (Forall (entry_ok row_words))
               ws fuel b k Hw Hk Hku).
    + by destruct (fold_items row_entries_act rs t).
    + intros es g rest' u Hes Hg Hlen.
      by apply row_action_record.
    + intros g rest' u Hg Hlen.
      rewrite row_action_end by (done || lia). do 3 f_equal. lia.
    + apply value_gap.
    + done.
    + by eapply records_items.
    + done.
  - assert ((ws ++ ":"%char :: ws
               ++ list_text ws (map (record_text ws controller_words) cs))
              ++ rest
            = (ws ++ ":"%char :: ws)
                ++ list_text ws (map (record_text ws controller_words) cs)
                ++ rest)
      as Heq by text_eq.
    rewrite Heq in *. clear Heq.
    rewrite (scan_list_elements (record_text ws controller_words)
               controller_entries_act
               (RobustBuild.controller_action fuel)
               (Forall (entry_ok controller_words))
               ws fuel b k Hw Hk Hku).
    + by destruct (fold_items controller_entries_act cs t).
    + intros es g rest' u Hes Hg Hlen.
      by apply controller_action_record.
    + intros g rest' u Hg Hlen.
      rewrite controller_action_end by (done || lia). do 3 f_equal. lia.
    + apply value_gap.
    + done.
    + by eapply records_items.
    + done.
Qed.

Lemma part_ok_key p : part_ok p → is_Some (top_words !! part_index p).
Proof. intros _. by destruct p. Qed.

Lemma robust_parse_document ps :
  Forall part_ok ps → length (robust_document ws ps) < fuel →
  RobustBuild.parse fuel (robust_document ws ps)
  = fold_items part_act ps init_tables.
Proof.
  intros Hps Hf. pose proof (ws_plain ws Hws) as Hw.
  unfold RobustBuild.parse, open_file.
  assert (robust_document ws ps
          = ws ++ lbrace :: fields ws (map (part_text ws) ps) ++ rbrace :: ws)
    as Heq by (unfold robust_document, object_text; text_eq).
  rewrite Heq in *. clear Heq.
  change RobustBuild.top_keys with (map key_of top_words).
  assert (Robust.scan_field fuel (map key_of top_words)
            (RobustBuild.top_action fuel)
            (Scanner (ws ++ lbrace :: fields ws (map (part_text ws) ps)
                        ++ rbrace :: ws) 0 0 false, init_tables)
          = u' ← fold_items part_act ps init_tables;
            Some (true, (Scanner ws 0 0 false, u'))) as ->.
  { apply (scan_field_fields (RobustBuild.top_action fuel) top_words 0 0
             top_words_letters top_words_nodup ltac:(done) ltac:(done)
             part_index (part_value ws) part_act part_ok ws fuel
             ws_idle part_ok_key);
      [|done|done|exact (Nat.lt_le_incl _ _ Hf)..].
    intros p rest u Hp Hlen.
    by apply top_action_part. }
  by destruct (fold_items part_act ps init_tables).
Qed.

End RobustDocuments.

(** The constructor is defined on every document of the ROBUST build. *)
Lemma foldl_assign_terminated es vars :
  (blank_or_terminated vars.1.1 ∧ blank_or_terminated vars.1.2
   ∧ blank_or_terminated vars.2) →
  let vars' := foldl (λ v e, assign e v) vars es in
  blank_or_terminated vars'.1.1 ∧ blank_or_terminated vars'.1.2
  ∧ blank_or_terminated vars'.2.
Proof.
  revert vars. induction es as [|e es IH]; intros vars H; simpl; [done|].
  apply IH. destruct vars as [[edge source] target], e as [i v].
  destruct H as (H1 & H2 & H3). pose proof (stored_terminated v).
  simpl in *. by destruct i as [|[|[|i]]].
Qed.

Lemma foldl_stored_terminated (es : list entry) c :
  blank_or_terminated c →
  blank_or_terminated (foldl (λ _ e, stored e.2) c es).
Proof.
  revert c. induction es as [|e es IH]; intros c H; simpl; [done|].
  apply IH, stored_terminated.
Qed.

Lemma part_act_assembled p t :
  assembled blank_or_terminated t →
  ∃ t', part_act p t = Some t' ∧ assembled blank_or_terminated t'.
Proof.
  intros Ht. destruct p as [rs|cs]; simpl.
  - destruct (fold_items_assembled blank_or_terminated row_entries_act rs)
      with (t := t) as (t1 & -> & Ht1); [|done|].
    { intros es t0 _ Ht0. unfold row_entries_act.
      pose proof (foldl_assign_terminated es ([], [], [])) as H.
      destruct (foldl _ _ es) as [[edge source] target].
      destruct H as (H1 & H2 & H3); [by repeat split; left|].
      by apply add_row_assembled. }
    simpl. exists (add_dummy t1). split; [done|]. by apply as_dummy.
  - apply fold_items_assembled; [|done].
    intros es t0 _ Ht0. unfold controller_entries_act.
    apply add_controller_assembled; [done|].
    apply foldl_stored_terminated. by left.
Qed.

Lemma parts_assembled ps :
  ∃ t, fold_items part_act ps init_tables = Some t
       ∧ assembled blank_or_terminated t.
Proof.
  apply fold_items_assembled; [|apply as_init].
  intros p t _ Ht. by apply part_act_assembled.
Qed.

(** The documents of the default build are documents of the ROBUST build. *)
Lemma document_parts ws rows ctrls :
  document ws rows ctrls
  = robust_document ws
      [Rows (map row_entries rows); Controllers (map (λ c, [(0, c)]) ctrls)].
Proof.
  unfold document, robust_document, object_text, member.
  cbn [map fields after]. unfold part_text. cbn [part_index part_value].
  rewrite !map_map.
  assert (map (row_text ws) rows
          = map (λ r, record_text ws row_words (row_entries r)) rows) as ->.
  { apply map_ext. intros r.
    unfold row_text, record_text, object_text, member, entry_text, value_text.
    cbn [map fields after row_entries fst snd]. text_eq. }
  assert (map (controller_text ws) ctrls
          = map (λ c, record_text ws controller_words [(0, c)]) ctrls) as ->.
  { apply map_ext. intros c.
    unfold controller_text, record_text, object_text, member, entry_text,
      value_text.
    cbn [map fields after fst snd]. text_eq. }
  unfold value_text. text_eq.
Qed.

Lemma fold_items_ext {A B U} (f : A → U → option U) (g : B → U → option U)
    (h : A → B) items u :
  (∀ a u, f a u = g (h a) u) →
  fold_items f items u = fold_items g (map h items) u.
Proof.
  intros Hfg. revert u. induction items as [|a items IH]; intros u; simpl;
    [done|].
  rewrite <- Hfg. destruct (f a u); simpl; [apply IH|done].
Qed.

Lemma parts_build rows ctrls :
  fold_items part_act
    [Rows (map row_entries rows); Controllers (map (λ c, [(0, c)]) ctrls)]
    init_tables
  = build rows ctrls.
Proof.
  unfold build. cbn [fold_items part_act].
  rewrite <- (fold_items_ext row_act row_entries_act row_entries) by done.
  destruct (fold_items row_act rows init_tables) as [t|]; [|done].
  cbn [mbind option_bind].
  rewrite <- (fold_items_ext controller_act controller_entries_act
                (λ c, [(0, c)])) by done.
  by destruct (fold_items controller_act ctrls (add_dummy t)).
Qed.

Lemma row_entries_ok r : row_ok r → Forall (entry_ok row_words) (row_entries r).
Proof.
  intros (H1 & H2 & H3). unfold row_entries, entry_ok.
  repeat constructor; simpl; (lia || done).
Qed.

Lemma document_parts_ok rows ctrls :
  Forall row_ok rows → Forall (λ c, quote ∉ c) ctrls →
  Forall part_ok
    [Rows (map row_entries rows); Controllers (map (λ c, [(0, c)]) ctrls)].
Proof.
  intros Hr Hc. repeat constructor; simpl.
  - apply Forall_fmap. eapply Forall_impl; [done|]. apply row_entries_ok.
  - apply Forall_fmap. eapply Forall_impl; [done|]. intros c Hq.
    repeat constructor; simpl; (lia || done).
Qed.

Lemma robust_parse_plain_document ws fuel rows ctrls :
  Forall blank ws → Forall row_ok rows → Forall (λ c, quote ∉ c) ctrls →
  length (document ws rows ctrls) < fuel →
  RobustBuild.parse fuel (document ws rows ctrls) = build rows ctrls.
Proof.
  intros Hws Hr Hc Hf. rewrite document_parts in Hf |- *.
  rewrite robust_parse_document by (done || by apply document_parts_ok).
  apply parts_build.
Qed.

(** Members with different keys can be exchanged. *)
Lemma assign_comm e1 e2 vars :
  e1.1 ≠ e2.1 → assign e1 (assign e2 vars) = assign e2 (assign e1 vars).
Proof.
  destruct e1 as [i v], e2 as [j w], vars as [[edge source] target]. simpl.
  intros Hne. destruct i as [|[|[|i]]], j as [|[|[|j]]]; done.
Qed.

Lemma foldl_assign_perm es es' :
  es ≡ₚ es' → NoDup es.*1 →
  ∀ vars, foldl (λ v e, assign e v) vars es
          = foldl (λ v e, assign e v) vars es'.
Proof.
  induction 1 as [|e es es' Hp IH|e1 e2 es|es es' es'' Hp1 IH1 Hp2 IH2];
    intros Hd vars.
  - done.
  - simpl. apply IH. by apply NoDup_cons in Hd as [_ Hd].
  - simpl. f_equal. apply assign_comm.
    cbn [fmap list_fmap] in Hd. apply NoDup_cons in Hd as [Hn _].
    intros Heq. apply Hn. rewrite Heq. by left.
  - rewrite IH1 by done. apply IH2. by rewrite <- Hp1.
Qed.

Lemma row_entries_act_perm es es' t :
  es ≡ₚ es' → NoDup es.*1 → row_entries_act es t = row_entries_act es' t.
Proof.
  intros Hp Hd. unfold row_entries_act. by rewrite (foldl_assign_perm es es').
Qed.

Lemma fold_rows_perm rs rs' t :
  Forall2 (λ es es', es ≡ₚ es' ∧ NoDup es.*1) rs rs' →
  fold_items row_entries_act rs t = fold_items row_entries_act rs' t.
Proof.
  intros H. revert t. induction H as [|es es' rs rs' [Hp Hd] _ IH];
    intros t; simpl; [done|].
  rewrite (row_entries_act_perm es es') by done.
  destruct (row_entries_act es' t); simpl; [apply IH|done].
Qed.

(** Controllers that come before every row only count. *)
Lemma fold_controllers_unknown cs t :
  idx t = ∅ → edgeidx t = ∅ →
  fold_items controller_entries_act cs t
  = Some (Nat.iter (length cs) count_controller t).
Proof.
  revert t. induction cs as [|es cs IH]; intros t Hi He; [done|].
  cbn [fold_items length].
  assert (controller_entries_act es t = Some (count_controller t)) as ->.
  { unfold controller_entries_act, add_controller.
    apply designate_unknown; simpl; [by rewrite Hi|by rewrite He]. }
  cbn [mbind option_bind]. rewrite IH by done. by rewrite Nat.iter_succ_r.
Qed.

(** X18: the ROBUST build reads every document of known keys.  A document
    is an object whose members are lists under the keys "rows" and
    "controllers", in any order and any number; every list holds objects
    whose members are strings under the keys of a row (of a controller),
    again in any order and any number, with any white space [ws] between
    the tokens and no double quote inside a value.  Given more fuel than the
    document has characters the parse returns, and its tables are those of
    the parts in order: a list of rows calls the constructor once per object
    with the values last assigned to the three keys (empty where a key is
    missing) and then appends the dummy edge; a list of controllers
    designates once per object. *)
Theorem robust_build_reads_documents ws fuel ps :
  Forall blank ws → Forall part_ok ps →
  length (robust_document ws ps) < fuel →
  ∃ t, RobustBuild.parse fuel (robust_document ws ps) = Some t ∧
       fold_items part_act ps init_tables = Some t.
Proof.
  intros Hws Hps Hf. destruct (parts_assembled ps) as (t & Ht & _).
  exists t. split; [|done]. by rewrite robust_parse_document.
Qed.

Lemma robust_build_reads_documents_witness :
  ∃ t, RobustBuild.parse 200
         (robust_document (lit " ")
            [Controllers [[(0, lit "B")]];
             Rows [[(1, lit "A"); (2, lit "B"); (0, lit "E1")]]]) = Some t ∧
       fold_items part_act
         [Controllers [[(0, lit "B")]];
          Rows [[(1, lit "A"); (2, lit "B"); (0, lit "E1")]]] init_tables
       = Some t.
Proof.
  apply (robust_build_reads_documents (lit " ") 200).
  - repeat constructor.
  - repeat constructor; simpl; evaluated.
  - vm_compute. lia.
Defined.

(** X19: on a document in the order the default build expects (the rows,
    then the controllers; in a row the keys viaGlobalId, fromGlobalId,
    toGlobalId) both builds return, and return the same tables, whatever
    the starting points. *)
Theorem builds_agree_on_documents ws fuel rows ctrls startingpoints :
  Forall blank ws → Forall row_ok rows → Forall (λ c, quote ∉ c) ctrls →
  length (document ws rows ctrls) < fuel →
  ∃ t, FastBuild.read_graph fuel (document ws rows ctrls) startingpoints
       = Some t ∧
       RobustBuild.read_graph fuel (document ws rows ctrls) startingpoints
       = Some t.
Proof.
  intros Hws Hr Hc Hf. unfold FastBuild.read_graph, RobustBuild.read_graph.
  rewrite fast_parse_document, robust_parse_plain_document by done.
  destruct (build_assembled rows ctrls) as (t & -> & Ht). simpl.
  destruct (add_starts_defined blank_or_terminated startingpoints t)
    as [t' Ht']; [|done|by exists t'].
  intros s. right. apply last_snoc.
Qed.

Lemma builds_agree_on_documents_witness :
  ∃ t, FastBuild.read_graph 200
         (document (lit " ") [Row (lit "E1") (lit "A") (lit "B")] [lit "B"])
         [lit "A"] = Some t ∧
       RobustBuild.read_graph 200
         (document (lit " ") [Row (lit "E1") (lit "A") (lit "B")] [lit "B"])
         [lit "A"] = Some t.
Proof.
  apply (builds_agree_on_documents (lit " ") 200
           [Row (lit "E1") (lit "A") (lit "B")] [lit "B"] [lit "A"]).
  - repeat constructor.
  - repeat constructor; simpl; evaluated.
  - repeat constructor; evaluated.
  - vm_compute. lia.
Defined.

(** X20: in the ROBUST build the order of the members of a row does not
    matter.  Two documents whose rows agree up to the order of their
    members, no row naming a key twice, are read into the same tables. *)
Theorem robust_member_order ws fuel rs rs' cs :
  Forall blank ws →
  Forall2 (λ es es', es ≡ₚ es' ∧ NoDup es.*1) rs rs' →
  Forall (Forall (entry_ok row_words)) rs →
  Forall (Forall (entry_ok controller_words)) cs →
  length (robust_document ws [Rows rs; Controllers cs]) < fuel →
  length (robust_document ws [Rows rs'; Controllers cs]) < fuel →
  ∃ t, RobustBuild.parse fuel (robust_document ws [Rows rs; Controllers cs])
       = Some t ∧
       RobustBuild.parse fuel (robust_document ws [Rows rs'; Controllers cs])
       = Some t.
Proof.
  intros Hws Hperm Hrs Hcs Hf Hf'.
  assert (Forall (Forall (entry_ok row_words)) rs') as Hrs'.
  { clear Hf Hf'. induction Hperm as [|es es' rs rs' [Hp _] _ IH];
      [done|].
    apply Forall_cons in Hrs as [Hes Hrs]. constructor; [|by apply IH].
    by rewrite <- Hp. }
  rewrite !robust_parse_document by (done || by repeat constructor).
  destruct (parts_assembled [Rows rs; Controllers cs]) as (t & Ht & _).
  exists t. split; [done|]. rewrite <- Ht. cbn [fold_items part_act].
  by rewrite (fold_rows_perm rs rs').
Qed.

Lemma robust_member_order_witness :
  ∃ t, RobustBuild.parse 200
         (robust_document (lit " ")
            [Rows [[(0, lit "E1"); (1, lit "A"); (2, lit "B")]];
             Controllers [[(0, lit "B")]]]) = Some t ∧
       RobustBuild.parse 200
         (robust_document (lit " ")
            [Rows [[(1, lit "A"); (0, lit "E1"); (2, lit "B")]];
             Controllers [[(0, lit "B")]]]) = Some t.
Proof.
  apply (robust_member_order (lit " ") 200).
  - repeat constructor.
  - constructor; [|constructor]. split; [apply perm_swap|evaluated].
  - repeat constructor; simpl; evaluated.
  - repeat constructor; simpl; evaluated.
  - vm_compute. lia.
  - vm_compute. lia.
Defined.

(** X21: in the ROBUST build controllers that are listed before the rows
    designate nothing.  The tables of such a document are those of its rows
    alone, built from the initial tables with the counter of controllers
    already at the number of controllers, and then the dummy edge. *)
Theorem robust_controllers_first ws fuel cs rs :
  Forall blank ws →
  Forall (Forall (entry_ok controller_words)) cs →
  Forall (Forall (entry_ok row_words)) rs →
  length (robust_document ws [Controllers cs; Rows rs]) < fuel →
  ∃ t, fold_items row_entries_act rs
         (Nat.iter (length cs) count_controller init_tables) = Some t ∧
       RobustBuild.parse fuel (robust_document ws [Controllers cs; Rows rs])
       = Some (add_dummy t).
Proof.
  intros Hws Hcs Hrs Hf.
  rewrite robust_parse_document by (done || by repeat constructor).
  destruct (parts_assembled [Controllers cs; Rows rs]) as (t' & Ht' & _).
  rewrite Ht'. cbn [fold_items part_act] in Ht'.
  rewrite fold_controllers_unknown in Ht' by done.
  cbn [mbind option_bind] in Ht'.
  destruct (fold_items row_entries_act rs _) as [t|]; [|done].
  exists t. split; [done|]. simpl in Ht'. congruence.
Qed.

Lemma robust_controllers_first_witness :
  ∃ t, fold_items row_entries_act
         [[(0, lit "E1"); (1, lit "A"); (2, lit "B")]]
         (Nat.iter (length [[(0, lit "B")]]) count_controller init_tables)
       = Some t ∧
       RobustBuild.parse 200
         (robust_document (lit " ")
            [Controllers [[(0, lit "B")]];
             Rows [[(0, lit "E1"); (1, lit "A"); (2, lit "B")]]])
       = Some (add_dummy t).
Proof.
  apply (robust_controllers_first (lit " ") 200).
  - repeat constructor.
  - repeat constructor; simpl; evaluated.
  - repeat constructor; simpl; evaluated.
  - vm_compute. lia.
Defined.

(** * Input that ends too early *)

(** More fuel does not change a result. *)
Lemma begin_field_loop_mono f f' level stop sc r :
  f ≤ f' → Fast.begin_field_loop f level stop sc = Some r →
  Fast.begin_field_loop f' level stop sc = Some r.
Proof.
  revert f' sc. induction f as [|f IH]; intros f' sc Hle H; simpl in H;
    destruct ((level =? braces sc)%Z && (stop <=? brackets sc)%Z) eqn:Hc;
    try done.
  - destruct f'; simpl; by rewrite Hc.
  - destruct f' as [|f']; [lia|]. simpl. rewrite Hc. apply IH; [lia|done].
  - destruct f'; simpl; by rewrite Hc.
Qed.

Lemma begin_list_loop_mono f f' level stop sc r :
  f ≤ f' → Fast.begin_list_loop f level stop sc = Some r →
  Fast.begin_list_loop f' level stop sc = Some r.
Proof.
  revert f' sc. induction f as [|f IH]; intros f' sc Hle H; simpl in H;
    destruct ((level =? brackets sc)%Z && (stop <=? braces sc)%Z) eqn:Hc;
    try done.
  - destruct f'; simpl; by rewrite Hc.
  - destruct f' as [|f']; [lia|]. simpl. rewrite Hc. apply IH; [lia|done].
  - destruct f'; simpl; by rewrite Hc.
Qed.

Lemma end_field_loop_mono f f' level sc r :
  f ≤ f' → Fast.end_field_loop f level sc = Some r →
  Fast.end_field_loop f' level sc = Some r.
Proof.
  revert f' sc. induction f as [|f IH]; intros f' sc Hle H; simpl in H;
    destruct (level <=? braces sc)%Z eqn:Hc; try done.
  - destruct f'; simpl; by rewrite Hc.
  - destruct f' as [|f']; [lia|]. simpl. rewrite Hc. apply IH; [lia|done].
  - destruct f'; simpl; by rewrite Hc.
Qed.

Lemma read_to_key_loop_mono f f' key level m sc r :
  f ≤ f' → Fast.read_to_key_loop f key level m sc = Some r →
  Fast.read_to_key_loop f' key level m sc = Some r.
Proof.
  revert f' m sc. induction f as [|f IH]; intros f' m sc Hle H; simpl in H;
    destruct (negb (Ascii.eqb (key_at key m) NUL) && (level <=? braces sc)%Z)
      eqn:Hc; try done.
  - destruct f'; simpl; by rewrite Hc.
  - destruct f' as [|f']; [lia|]. simpl. rewrite Hc.
    destruct (readc sc) as [c sc']. apply IH; [lia|done].
  - destruct f'; simpl; by rewrite Hc.
Qed.

Lemma to_next_string_mono f f' sc r :
  f ≤ f' → to_next_string f sc = Some r → to_next_string f' sc = Some r.
Proof.
  revert f' sc. induction f as [|f IH]; intros f' sc Hle H; simpl in H;
    destruct (instring sc) eqn:Hc; try done.
  - destruct f'; simpl; by rewrite Hc.
  - destruct f'; simpl; by rewrite Hc.
  - destruct f' as [|f']; [lia|]. simpl. rewrite Hc. apply IH; [lia|done].
Qed.

Lemma copy_string_mono f f' out sc r :
  f ≤ f' → copy_string f out sc = Some r → copy_string f' out sc = Some r.
Proof.
  revert f' out sc. induction f as [|f IH]; intros f' out sc Hle H;
    simpl in H; [done|].
  destruct f' as [|f']; [lia|]. simpl.
  destruct (readc sc) as [c sc']. destruct (instring sc'); [|done].
  apply IH; [lia|done].
Qed.

Lemma extract_string_mono f f' sc r :
  f ≤ f' → extract_string f sc = Some r → extract_string f' sc = Some r.
Proof.
  intros Hle H. unfold extract_string in *.
  destruct (to_next_string f sc) as [sc1|] eqn:H1; [|done].
  rewrite (to_next_string_mono f f' sc sc1) by done. simpl in *.
  destruct (copy_string f [] sc1) as [[out sc2]|] eqn:H2; [|done].
  by rewrite (copy_string_mono f f' [] sc1 (out, sc2)).
Qed.

Lemma read_row_mono f f' sc t r :
  f ≤ f' → FastBuild.read_row f sc t = Some r →
  FastBuild.read_row f' sc t = Some r.
Proof.
  intros Hle H. unfold FastBuild.read_row, Fast.read_to_key in *.
  destruct (Fast.read_to_key_loop f _ _ 0 sc) as [[b1 sc1]|] eqn:H1; [|done].
  rewrite (read_to_key_loop_mono f f' _ _ _ _ _ Hle H1). simpl in *.
  destruct (extract_string f sc1) as [[edge sc2]|] eqn:H2; [|done].
  rewrite (extract_string_mono f f' _ _ Hle H2). simpl in *.
  destruct (Fast.read_to_key_loop f _ _ 0 sc2) as [[b3 sc3]|] eqn:H3; [|done].
  rewrite (read_to_key_loop_mono f f' _ _ _ _ _ Hle H3). simpl in *.
  destruct (extract_string f sc3) as [[source sc4]|] eqn:H4; [|done].
  rewrite (extract_string_mono f f' _ _ Hle H4). simpl in *.
  destruct (Fast.read_to_key_loop f _ _ 0 sc4) as [[b5 sc5]|] eqn:H5; [|done].
  rewrite (read_to_key_loop_mono f f' _ _ _ _ _ Hle H5). simpl in *.
  destruct (extract_string f sc5) as [[target sc6]|] eqn:H6; [|done].
  by rewrite (extract_string_mono f f' _ _ Hle H6).
Qed.

Lemma read_controller_mono f f' sc t r :
  f ≤ f' → FastBuild.read_controller f sc t = Some r →
  FastBuild.read_controller f' sc t = Some r.
Proof.
  intros Hle H. unfold FastBuild.read_controller, Fast.read_to_key in *.
  destruct (Fast.read_to_key_loop f _ _ 0 sc) as [[b1 sc1]|] eqn:H1; [|done].
  rewrite (read_to_key_loop_mono f f' _ _ _ _ _ Hle H1). simpl in *.
  destruct (extract_string f sc1) as [[ctrl sc2]|] eqn:H2; [|done].
  by rewrite (extract_string_mono f f' _ _ Hle H2).
Qed.

Lemma fields_loop_mono f f' n n' body body' sc t r :
  f ≤ f' → n ≤ n' →
  (∀ sc t r, body sc t = Some r → body' sc t = Some r) →
  FastBuild.fields_loop f n body sc t = Some r →
  FastBuild.fields_loop f' n' body' sc t = Some r.
Proof.
  intros Hf Hn Hbody. revert n' sc t Hn.
  induction n as [|n IH]; intros n' sc t Hn H; simpl in H; [done|].
  destruct n' as [|n']; [lia|]. simpl. unfold Fast.begin_field in *.
  destruct (Fast.begin_field_loop f _ _ sc) as [[b1 sc1]|] eqn:H1; [|done].
  rewrite (begin_field_loop_mono f f' _ _ _ _ Hf H1).
  destruct b1; [|done].
  destruct (body sc1 t) as [[sc2 t']|] eqn:H2; [|done].
  rewrite (Hbody _ _ _ H2). simpl in *. unfold Fast.end_field in *.
  destruct (Fast.end_field_loop f _ sc2) as [sc3|] eqn:H3; [|done].
  rewrite (end_field_loop_mono f f' _ _ _ Hf H3). simpl in *.
  apply IH; [lia|done].
Qed.

Lemma fast_parse_mono f f' bytes t :
  f ≤ f' → FastBuild.parse f bytes = Some t →
  FastBuild.parse f' bytes = Some t.
Proof.
  intros Hle H.
  unfold FastBuild.parse, Fast.begin_field, Fast.read_to_key,
    Fast.begin_list, Fast.end_field in *.
  destruct (Fast.begin_field_loop f _ _ (open_file bytes))
    as [[b1 sc1]|] eqn:H1; [|done].
  rewrite (begin_field_loop_mono f f' _ _ _ _ Hle H1). simpl in *.
  destruct (Fast.read_to_key_loop f _ _ 0 sc1) as [[b2 sc2]|] eqn:H2; [|done].
  rewrite (read_to_key_loop_mono f f' _ _ _ _ _ Hle H2). simpl in *.
  destruct (Fast.begin_list_loop f _ _ sc2) as [[b3 sc3]|] eqn:H3; [|done].
  rewrite (begin_list_loop_mono f f' _ _ _ _ Hle H3). simpl in *.
  destruct (FastBuild.fields_loop f f (FastBuild.read_row f) sc3 init_tables)
    as [[sc4 t1]|] eqn:H4; [|done].
  rewrite (fields_loop_mono f f' f f' _ (FastBuild.read_row f') _ _ _
             Hle Hle (λ sc t r, read_row_mono f f' sc t r Hle) H4).
  simpl in *.
  destruct (Fast.read_to_key_loop f _ _ 0 sc4) as [[b5 sc5]|] eqn:H5; [|done].
  rewrite (read_to_key_loop_mono f f' _ _ _ _ _ Hle H5). simpl in *.
  destruct (Fast.begin_list_loop f _ _ sc5) as [[b6 sc6]|] eqn:H6; [|done].
  rewrite (begin_list_loop_mono f f' _ _ _ _ Hle H6). simpl in *.
  destruct (FastBuild.fields_loop f f (FastBuild.read_controller f) sc6
              (add_dummy t1)) as [[sc7 t3]|] eqn:H7; [|done].
  rewrite (fields_loop_mono f f' f f' _ (FastBuild.read_controller f') _ _ _
             Hle Hle (λ sc t r, read_controller_mono f f' sc t r Hle) H7).
  simpl in *.
  destruct (Fast.end_field_loop f _ sc7) as [sc8|] eqn:H8; [|done].
  by rewrite (end_field_loop_mono f f' _ _ _ Hle H8).
Qed.

(** A parse that does not return with some large fuel never returns. *)
Lemma fast_parse_never bytes n :
  (∀ fuel, n ≤ fuel → FastBuild.parse fuel bytes = None) →
  ∀ fuel, FastBuild.parse fuel bytes = None.
Proof.
  intros Hn fuel. destruct (FastBuild.parse fuel bytes) as [t|] eqn:H; [|done].
  apply (fast_parse_mono fuel (max fuel n)) in H; [|lia].
  rewrite Hn in H by lia. done.
Qed.

(** Behind the end of the file [readc] keeps returning the same character
    and changes nothing. *)
Lemma readc_past_end b k : readc (Scanner [] b k false) = (EOF_char, Scanner
    [] b k false).
Proof. done. Qed.

Lemma begin_list_loop_hangs fuel : ∀ w b k stop,
  Forall plain_char w → (stop ≤ b)%Z →
  Fast.begin_list_loop fuel k stop (Scanner w b k false) = None.
Proof.
  induction fuel as [|fuel IH]; intros w b k stop Hw Hs;
    cbn [Fast.begin_list_loop braces brackets];
    rewrite Z.eqb_refl, (proj2 (Z.leb_le _ _) Hs); [done|].
  cbn [andb]. destruct Hw as [|c w Hc Hw].
  - rewrite readc_past_end. by apply IH.
  - rewrite readc_out_plain by done. by apply IH.
Qed.

(** [read_to_key] gives up at the brace that closes the object. *)
Lemma read_to_key_leaves fuel body g rest b k :
  Forall plain_char g → (1 ≤ b < uintf_modulus)%Z → length g < fuel →
  Fast.read_to_key fuel (quote :: body) (Scanner (g ++ rbrace :: rest) b k
      false)
  = Some (false, Scanner rest (b - 1) k false).
Proof.
  intros Hg Hb (f & ->)%fuel_split. unfold Fast.read_to_key. cbn [braces].
  rewrite read_to_key_loop_gap by (done || lia).
  cbn [Fast.read_to_key_loop braces].
  change (key_at (quote :: body) 0) with quote.
  rewrite Z.leb_refl. cbn [Ascii.eqb negb andb]. 
  change (Ascii.eqb quote NUL) with false. cbn [negb andb].
  rewrite readc_rbrace by done.
  change (Ascii.eqb rbrace quote) with false. cbn iota.
  destruct f; cbn [Fast.read_to_key_loop braces];
    change (key_at (quote :: body) 0) with quote;
    change (Ascii.eqb quote NUL) with false;
    rewrite (proj2 (Z.leb_gt _ _)) by lia; done.
Qed.

(** Without a brace in the file the scanner stays where it started. *)
Lemma readc_braceless sc :
  lbrace ∉ input sc → rbrace ∉ input sc →
  braces (readc sc).2 = braces sc ∧
  (lbrace ∉ input (readc sc).2) ∧ (rbrace ∉ input (readc sc).2) ∧
  ((0 ≤ brackets sc)%Z → (0 ≤ brackets (readc sc).2)%Z).
Proof.
  destruct sc as [w b k s]. simpl. intros Hl Hr.
  assert (∀ z, (0 ≤ wrap z)%Z) as Hwrap.
  { intros z. unfold wrap. by apply Z.mod_pos_bound. }
  destruct w as [|c w].
  - unfold readc. simpl. by destruct s.
  - apply not_elem_of_cons in Hl as [Hl1 Hl]. apply not_elem_of_cons in Hr as
      [Hr1 Hr].
    unfold readc. simpl.
    destruct (Ascii.eqb c quote); [done|]. destruct s; [done|].
    destruct (Ascii.eqb c lbrace) eqn:E1; [by apply Ascii.eqb_eq in E1|].
    destruct (Ascii.eqb c rbrace) eqn:E2; [by apply Ascii.eqb_eq in E2|].
    destruct (Ascii.eqb c lbracket); [by simpl|].
    destruct (Ascii.eqb c rbracket); by simpl.
Qed.

Lemma begin_field_loop_braceless fuel : ∀ sc,
  lbrace ∉ input sc → rbrace ∉ input sc → (0 ≤ brackets sc)%Z →
  Fast.begin_field_loop fuel (braces sc) 0 sc = None.
Proof.
  induction fuel as [|fuel IH]; intros sc Hl Hr Hk;
    cbn [Fast.begin_field_loop];
    rewrite Z.eqb_refl, (proj2 (Z.leb_le _ _) Hk); [done|].
  cbn [andb]. destruct (readc_braceless sc Hl Hr) as (Hb & Hl' & Hr' & Hk').
  rewrite <- Hb. apply IH; auto.
Qed.

Lemma enter_field_braceless fuel : ∀ sc,
  lbrace ∉ input sc → rbrace ∉ input sc → (0 ≤ brackets sc)%Z →
  Robust.enter_field fuel (braces sc) 0 sc = None.
Proof.
  induction fuel as [|fuel IH]; intros sc Hl Hr Hk;
    cbn [Robust.enter_field]; rewrite Z.eqb_refl; [done|].
  destruct (readc_braceless sc Hl Hr) as (Hb & Hl' & Hr' & Hk').
  rewrite (proj2 (Z.ltb_ge _ _)) by auto.
  rewrite <- Hb. apply IH; auto.
Qed.

Section Truncated.
Context (ws : text).
Hypothesis Hws : Forall blank ws.

Lemma row_texts rows :
  map (record_text ws row_words) (map row_entries rows)
  = map (row_text ws) rows.
Proof.
  rewrite map_map. apply map_ext. intros r.
  unfold row_text, record_text, object_text, member, entry_text, value_text.
  cbn [map fields after row_entries fst snd]. text_eq.
Qed.

(** The default build on a document that has rows and no controllers. *)
Lemma fast_parse_rows_only rows fuel :
  Forall row_ok rows →
  length (robust_document ws [Rows (map row_entries rows)]) < fuel →
  FastBuild.parse fuel (robust_document ws [Rows (map row_entries rows)])
  = None.
Proof.
  intros Hrows Hfuel. pose proof (ws_plain ws Hws) as Hw.
  set (D4 := ws ++ rbrace :: ws).
  set (D3 := elements ws (map (row_text ws) rows) ++ rbracket :: D4).
  set (D2 := ws ++ ":"%char :: ws ++ lbracket :: D3).
  set (D1 := ws ++ quote :: lit "rows" ++ quote :: D2).
  assert (robust_document ws [Rows (map row_entries rows)]
          = ws ++ lbrace :: D1) as Etext.
  { unfold robust_document, object_text.
    cbn [map fields after]. unfold part_text. cbn [part_index part_value].
    rewrite row_texts.
    unfold value_text, list_text, D1, D2, D3, D4. text_eq. }
  rewrite Etext in *.
  assert (length D4 ≤ length D3) as L4 by (unfold D3; text_len).
  assert (length D3 ≤ length D2) as L3 by (unfold D2; text_len).
  assert (length D2 ≤ length D1) as L2 by (unfold D1; text_len).
  assert (length D1 < fuel) as L1
    by (rewrite length_app in Hfuel; simpl in Hfuel; lia).
  assert (length ws < fuel) as L0 by (unfold D4 in L4; revert L4; text_len).
  assert (length rows < fuel) as Lrows.
  { pose proof (length_elements ws (map (row_text ws) rows)) as Hl.
    rewrite length_map in Hl.
    assert (length (elements ws (map (row_text ws) rows)) ≤ length D3)
      by (unfold D3; text_len).
    enough (length rows ≤ length (elements ws (map (row_text ws) rows)))
      by lia.
    apply Hl. intros x (r & -> & _)%list_elem_of_fmap.
    apply row_text_length. }
  assert (uintf_modulus = 18446744073709551616%Z) as Hmod by done.
  unfold FastBuild.parse, open_file.
  rewrite (begin_field_opens_at fuel ws _ D1); [|done|done|lia..].
  cbn [mbind option_bind].
  rewrite (read_to_key_at fuel "rows" ws D1 D2);
    [|done|done|evaluated|evaluated|lia].
  cbn [mbind option_bind].
  rewrite (begin_list_opens_at fuel (ws ++ ":"%char :: ws) D2 D3);
    [|unfold D2; text_eq|apply (gap_plain ws Hws); [done|apply colon_plain]
     |lia..].
  cbn [mbind option_bind]. unfold D3.
  rewrite (fields_loop_elements ws Hws (row_text ws) row_act
             (FastBuild.read_row fuel)
             fuel (0 + 1)%Z (0 + 1)%Z row_ok); [|lia| |done|done|].
  2:{ intros r G rest Hr HG Hf. apply (row_iteration ws Hws); try done; lia. }
  2:{ fold D3. lia. }
  destruct (fold_items row_act rows init_tables) as [t1|]; [|done].
  cbn [mbind option_bind]. unfold D4.
  change (quoted "controllers")
    with (quote :: (lit "controllers" ++ [quote])).
  rewrite (read_to_key_leaves fuel _ ws ws) by (done || lia).
  cbn [mbind option_bind]. unfold Fast.begin_list. cbn [braces brackets].
  rewrite begin_list_loop_hangs; [done|done|lia].
Qed.

End Truncated.

(** X22: a file without a brace is never read to the end.  On the empty
    file, and on any file that holds neither an opening nor a closing brace,
    [read_graph] does not return in either build: the scanner waits for the
    opening brace, and behind the end of the file [readc] keeps handing out
    the end-of-file character without any loop testing for it. *)
Theorem no_brace_no_return bytes fuel startingpoints :
  lbrace ∉ bytes → rbrace ∉ bytes →
  FastBuild.read_graph fuel bytes startingpoints = None ∧
  RobustBuild.read_graph fuel bytes startingpoints = None.
Proof.
  intros Hl Hr. split.
  - unfold FastBuild.read_graph, FastBuild.parse, Fast.begin_field.
    assert (Fast.begin_field_loop fuel (braces (open_file bytes))
              (brackets (open_file bytes)) (open_file bytes) = None) as ->;
      [|done].
    apply (begin_field_loop_braceless fuel (open_file bytes)); done.
  - unfold RobustBuild.read_graph, RobustBuild.parse, Robust.scan_field.
    cbn [fst snd].
    assert (Robust.enter_field fuel (braces (open_file bytes))
              (brackets (open_file bytes)) (open_file bytes) = None) as ->;
      [|done].
    apply (enter_field_braceless fuel (open_file bytes)); done.
Qed.

Lemma no_brace_no_return_witness :
  FastBuild.read_graph 1000 [] [lit "A"] = None ∧
  RobustBuild.read_graph 1000 [] [lit "A"] = None.
Proof.
  apply (no_brace_no_return [] 1000 [lit "A"]); apply not_elem_of_nil.
Defined.

(** X23: the default build needs the key "controllers".  On a document
    whose only member is the list of rows the default build never returns:
    looking for the key it leaves the object, and then waits for an opening
    bracket behind the end of the file.  The ROBUST build returns the tables
    of the rows and the dummy edge. *)
Theorem default_build_needs_controllers ws rows fuel :
  Forall blank ws → Forall row_ok rows →
  FastBuild.parse fuel (robust_document ws [Rows (map row_entries rows)])
  = None ∧
  (length (robust_document ws [Rows (map row_entries rows)]) < fuel →
   ∃ t, fold_items row_act rows init_tables = Some t ∧
        RobustBuild.parse fuel
          (robust_document ws [Rows (map row_entries rows)])
        = Some (add_dummy t)).
Proof.
  intros Hws Hrows. split.
  - apply (fast_parse_never _
             (S (length (robust_document ws [Rows (map row_entries rows)])))).
    intros f Hf. apply fast_parse_rows_only; [done|done|lia].
  - intros Hf. rewrite robust_parse_document; [|done| |done].
    2:{ repeat constructor. simpl. apply Forall_fmap.
        eapply Forall_impl; [done|]. apply row_entries_ok. }
    cbn [fold_items part_act].
    rewrite <- (fold_items_ext row_act row_entries_act row_entries) by done.
    destruct (fold_items_assembled blank_or_terminated row_act rows)
      with (t := init_tables) as (t & Ht & _); [|apply as_init|].
    { intros r t0 _ Ht0. apply add_row_assembled; [done|..];
        apply stored_terminated. }
    exists t. by rewrite Ht.
Qed.

Lemma default_build_needs_controllers_witness :
  FastBuild.parse 1000
    (robust_document (lit " ")
       [Rows (map row_entries [Row (lit "E1") (lit "A") (lit "B")])])
  = None ∧
  (length (robust_document (lit " ")
             [Rows (map row_entries [Row (lit "E1") (lit "A") (lit "B")])])
   < 1000 →
   ∃ t, fold_items row_act [Row (lit "E1") (lit "A") (lit "B")] init_tables
        = Some t ∧
        RobustBuild.parse 1000
          (robust_document (lit " ")
             [Rows (map row_entries [Row (lit "E1") (lit "A") (lit "B")])])
        = Some (add_dummy t)).
Proof.
  apply (default_build_needs_controllers (lit " ")
           [Row (lit "E1") (lit "A") (lit "B")] 1000).
  - repeat constructor.
  - repeat constructor; simpl; evaluated.
Defined.

(** * What the ROBUST build passes over *)

Lemma scan_keys_skip {U} f (action : Robust.handler U) keys bl bkl pos c
    sc sc' u :
  (bl <? braces sc)%Z = true → readc sc = (c, sc') →
  nested bl bkl sc' = true →
  Robust.scan_keys (S f) action keys bl bkl pos (sc, u)
  = Robust.scan_keys f action keys bl bkl pos (sc', u).
Proof. intros H1 H2 H3. simpl. rewrite H1, H2, H3. done. Qed.

Section Skip.
Context {U : Type} (action : Robust.handler U) (keys : list text).
Context (bl bkl : Z).
Hypothesis Hbl : (0 ≤ bl)%Z.
Hypothesis Hbu : (bl + 1 < uintf_modulus)%Z.

Lemma deep_nested b k w s :
  deep bl bkl b k → nested bl bkl (Scanner w b k s) = true.
Proof.
  intros [_ [H|H]]; unfold nested; simpl; rewrite wrap_small by lia;
    apply orb_true_iff; [left|right]; apply Z.ltb_lt; lia.
Qed.

Lemma deep_below b k w s :
  deep bl bkl b k → (bl <? braces (Scanner w b k s))%Z = true.
Proof. intros [H _]. simpl. apply Z.ltb_lt. lia. Qed.

Lemma scan_keys_skip_string s : ∀ f pos rest b k u,
  quote ∉ s → deep bl bkl b k →
  Robust.scan_keys (length s + f) action keys bl bkl pos
    (Scanner (s ++ rest) b k true, u)
  = Robust.scan_keys f action keys bl bkl pos (Scanner rest b k true, u).
Proof.
  induction s as [|c s IH]; intros f pos rest b k u Hq Hd; [done|].
  apply not_elem_of_cons in Hq as [Hc Hq]. cbn [length app Nat.add].
  rewrite (scan_keys_skip _ action keys bl bkl pos c _
             (Scanner (s ++ rest) b k true));
    [by apply IH|by apply deep_below|by apply readc_in|by apply deep_nested].
Qed.

Lemma scan_keys_balanced o : balanced o → ∀ f pos rest b k u,
  deep bl bkl b k → (0 ≤ k)%Z →
  (b + Z.of_nat (length o) < uintf_modulus)%Z →
  (k + Z.of_nat (length o) < uintf_modulus)%Z →
  Robust.scan_keys (length o + f) action keys bl bkl pos
    (Scanner (o ++ rest) b k false, u)
  = Robust.scan_keys f action keys bl bkl pos (Scanner rest b k false, u).
Proof.
  induction 1 as [|c w Hc _ IH|s w Hs _ IH|o w _ IHo _ IHw|o w _ IHo _ IHw];
    intros f pos rest b k u Hd Hk Hb Hku.
  - done.
  - cbn [length app Nat.add] in *.
    rewrite (scan_keys_skip _ action keys bl bkl pos c _
               (Scanner (w ++ rest) b k false));
      [apply IH; (done || lia)|by apply deep_below|by apply readc_out_plain
      |by apply deep_nested].
  - cbn [length app Nat.add] in *. rewrite length_app in *.
    cbn [length] in *. rewrite <- !(assoc_L (++)). cbn [app].
    rewrite (scan_keys_skip _ action keys bl bkl pos quote _
               (Scanner (s ++ quote :: w ++ rest) b k true));
      [|by apply deep_below|apply readc_out_quote|by apply deep_nested].
    rewrite <- Nat.add_assoc, scan_keys_skip_string by done.
    cbn [Nat.add].
    rewrite (scan_keys_skip _ action keys bl bkl pos quote _
               (Scanner (w ++ rest) b k false));
      [apply IH; (done || lia)|by apply deep_below|apply readc_out_quote
      |by apply deep_nested].
  - cbn [length app Nat.add] in *. rewrite length_app in *.
    cbn [length] in *. rewrite <- !(assoc_L (++)). cbn [app].
    assert (deep bl bkl (b + 1) k) as Hd'.
    { destruct Hd as [H1 H2]. split; lia. }
    rewrite (scan_keys_skip _ action keys bl bkl pos lbrace _
               (Scanner (o ++ rbrace :: w ++ rest) (b + 1) k false));
      [|by apply deep_below|apply readc_lbrace; destruct Hd; lia
       |by apply deep_nested].
    rewrite <- Nat.add_assoc, IHo by (done || lia).
    cbn [Nat.add].
    rewrite (scan_keys_skip _ action keys bl bkl pos rbrace _
               (Scanner (w ++ rest) b k false));
      [apply IHw; (done || lia)|by apply deep_below| |by apply deep_nested].
    rewrite readc_rbrace by (destruct Hd; lia). do 2 f_equal. lia.
  - cbn [length app Nat.add] in *. rewrite length_app in *.
    cbn [length] in *. rewrite <- !(assoc_L (++)). cbn [app].
    assert (deep bl bkl b (k + 1)) as Hd'.
    { destruct Hd as [H1 H2]. split; lia. }
    rewrite (scan_keys_skip _ action keys bl bkl pos lbracket _
               (Scanner (o ++ rbracket :: w ++ rest) b (k + 1) false));
      [|by apply deep_below|apply readc_lbracket; lia|by apply deep_nested].
    rewrite <- Nat.add_assoc, IHo by (done || lia).
    cbn [Nat.add].
    rewrite (scan_keys_skip _ action keys bl bkl pos rbracket _
               (Scanner (w ++ rest) b k false));
      [apply IHw; (done || lia)|by apply deep_below| |by apply deep_nested].
    rewrite readc_rbracket by lia. do 2 f_equal. lia.
Qed.

End Skip.

Lemma match_keys_zeros {U} (action : Robust.handler U) c i bodies st :
  c ≠ quote →
  Robust.match_keys action c i (map key_of bodies)
    (replicate (length bodies) 0) st
  = Some (replicate (length bodies) 0, st).
Proof.
  intros Hc. revert i. induction bodies as [|b bodies IH]; intros i; [done|].
  cbn [map length replicate Robust.match_keys].
  rewrite (key_char_at _ 0) by (rewrite length_key_of; lia).
  cbn [mbind option_bind]. rewrite key_at_key_of_0.
  apply Ascii.eqb_neq in Hc as ->. by rewrite IH.
Qed.

Section Ignore.
Context {U : Type} (action : Robust.handler U) (bodies : list text).
Context (bl bkl : Z).
Hypothesis Hletters : Forall (Forall (λ x, letter x = true)) bodies.
Hypothesis Hnodup : NoDup bodies.
Hypothesis Hbl : (0 ≤ bl)%Z.
Hypothesis Hbu : (bl + 1 < uintf_modulus)%Z.
Hypothesis Hbk : (0 ≤ bkl)%Z.

Lemma scan_keys_plain f c rest u :
  plain_char c →
  scan_from action bodies bl bkl (S f) (zeros bodies)
    (inside bl bkl (c :: rest) false, u)
  = scan_from action bodies bl bkl f (zeros bodies)
      (inside bl bkl rest false, u).
Proof.
  intros Hp.
  rewrite (scan_keys_step f action (keys_of bodies) bl bkl _ c _
             (inside bl bkl rest false));
    [|apply (below_inside bl bkl)|by apply readc_out_plain|apply
        (nested_inside bl bkl Hbl Hbu)].
  rewrite match_keys_zeros by (by destruct Hp). done.
Qed.

(** A string that is no key calls no handler. *)
Lemma scan_keys_other_string s f rest u :
  quote ∉ s → s ∉ bodies →
  scan_from action bodies bl bkl (length s + 2 + f) (zeros bodies)
    (inside bl bkl (quote :: s ++ quote :: rest) false, u)
  = scan_from action bodies bl bkl f (map (matched s) bodies)
      (inside bl bkl rest false, u).
Proof.
  intros Hq Hs.
  replace (length s + 2 + f) with (S (length s + S f)) by lia.
  rewrite (scan_keys_step _ action (keys_of bodies) bl bkl _ quote _
             (inside bl bkl (s ++ quote :: rest) true));
    [|apply (below_inside bl bkl)|apply readc_out_quote|apply (nested_inside
        bl bkl Hbl Hbu)].
  rewrite (match_keys_open action s) by done.
  cbn [mbind option_bind].
  rewrite (scan_keys_letters action bodies bl bkl Hletters Hbl Hbu s s []
             (S f)); [|done|done].
  rewrite (scan_keys_step _ action (keys_of bodies) bl bkl _ quote _
             (inside bl bkl rest false));
    [|apply (below_inside bl bkl)|apply readc_out_quote|apply (nested_inside
        bl bkl Hbl Hbu)].
  rewrite (match_keys_unknown action s 0) by done. done.
Qed.

(** A nested object is passed over, and its closing brace resets every
    match. *)
Lemma scan_keys_object o f pos rest u :
  balanced o → valid_pos bodies pos →
  (bl + 2 + Z.of_nat (length o) < uintf_modulus)%Z →
  (bkl + Z.of_nat (length o) < uintf_modulus)%Z →
  scan_from action bodies bl bkl (length o + 2 + f) pos
    (inside bl bkl (lbrace :: o ++ rbrace :: rest) false, u)
  = scan_from action bodies bl bkl f (zeros bodies)
      (inside bl bkl rest false, u).
Proof.
  intros Ho Hv Hb Hk.
  assert (deep bl bkl (bl + 1 + 1) bkl) as Hd by (split; lia).
  replace (length o + 2 + f) with (S (length o + S f)) by lia.
  rewrite (scan_keys_skip _ action (keys_of bodies) bl bkl pos lbrace _
             (Scanner (o ++ rbrace :: rest) (bl + 1 + 1) bkl false));
    [|apply (below_inside bl bkl)|apply readc_lbrace; lia
     |by apply deep_nested].
  rewrite scan_keys_balanced by (done || lia).
  rewrite (scan_keys_step _ action (keys_of bodies) bl bkl _ rbrace _
             (inside bl bkl rest false)).
  - by rewrite match_keys_reset.
  - by apply (deep_below bl bkl (bl + 1 + 1) bkl).
  - rewrite readc_rbrace by lia. do 2 f_equal. lia.
  - apply (nested_inside bl bkl Hbl Hbu).
Qed.

(** So is a nested list. *)
Lemma scan_keys_list o f pos rest u :
  balanced o → valid_pos bodies pos →
  (bl + 1 + Z.of_nat (length o) < uintf_modulus)%Z →
  (bkl + 1 + Z.of_nat (length o) < uintf_modulus)%Z →
  scan_from action bodies bl bkl (length o + 2 + f) pos
    (inside bl bkl (lbracket :: o ++ rbracket :: rest) false, u)
  = scan_from action bodies bl bkl f (zeros bodies)
      (inside bl bkl rest false, u).
Proof.
  intros Ho Hv Hb Hk.
  assert (deep bl bkl (bl + 1) (bkl + 1)) as Hd by (split; lia).
  replace (length o + 2 + f) with (S (length o + S f)) by lia.
  rewrite (scan_keys_skip _ action (keys_of bodies) bl bkl pos lbracket _
             (Scanner (o ++ rbracket :: rest) (bl + 1) (bkl + 1) false));
    [|apply (below_inside bl bkl)|apply readc_lbracket; lia
     |by apply deep_nested].
  rewrite scan_keys_balanced by (done || lia).
  rewrite (scan_keys_step _ action (keys_of bodies) bl bkl _ rbracket _
             (inside bl bkl rest false)).
  - by rewrite match_keys_reset.
  - by apply (deep_below bl bkl (bl + 1) (bkl + 1)).
  - rewrite readc_rbracket by lia. do 2 f_equal. lia.
  - apply (nested_inside bl bkl Hbl Hbu).
Qed.

Section Members.
Context {M : Type} (payload : nat → text → M → Prop).
Context (eff : M → U → option U) (hfuel : nat).
Hypothesis Hact : ∀ i p m rest u,
  payload i p m → length (p ++ rest) ≤ hfuel →
  (bl + 2 + Z.of_nat (length p) < uintf_modulus)%Z →
  (bkl + 1 + Z.of_nat (length p) < uintf_modulus)%Z →
  action i (inside bl bkl (p ++ rest) false, u)
  = u' ← eff m u; Some (inside bl bkl rest false, u').

Lemma scan_keys_members z w ms :
  members bodies payload z w ms → ∀ pos u F rest,
  (if z then pos = zeros bodies else valid_pos bodies pos) →
  length (w ++ rbrace :: rest) ≤ hfuel →
  length (w ++ rbrace :: rest) ≤ F →
  (bl + 2 + Z.of_nat (length w) < uintf_modulus)%Z →
  (bkl + 1 + Z.of_nat (length w) < uintf_modulus)%Z →
  scan_from action bodies bl bkl F pos
    (inside bl bkl (w ++ rbrace :: rest) false, u)
  = u' ← fold_items eff ms u; Some (Scanner rest bl bkl false, u').
Proof.
  induction 1 as [z|z c w ms Hc _ IH|c w ms Hc _ IH|s w ms Hq Hs _ IH
                 |z o w ms Ho _ IH|z o w ms Ho _ IH
                 |i word p m w ms Hi Hp _ IH];
    intros pos u F rest Hpos Hh HF Hb Hk.
  - cbn [app fold_items mbind option_bind] in *.
    destruct F as [|F]; [simpl in HF; lia|].
    apply (scan_keys_close action bodies bl bkl Hletters Hbl Hbu).
    destruct z; [subst; apply valid_pos_zeros|done].
  - cbn [app length] in *. destruct F as [|F]; [lia|].
    rewrite (scan_keys_idle action bodies bl bkl Hletters Hbl Hbu); [|done|].
    + apply IH; [done|lia..].
    + destruct z; [subst; apply valid_pos_zeros|done].
  - cbn [app length] in *. destruct F as [|F]; [lia|]. subst pos.
    rewrite scan_keys_plain by done. apply IH; [done|lia..].
  - subst pos.
    assert ((quote :: s ++ quote :: w) ++ rbrace :: rest
            = quote :: s ++ quote :: w ++ rbrace :: rest) as Heq
      by (repeat (rewrite <-?(assoc_L (++)); cbn [app]); done).
    rewrite Heq in *. clear Heq. cbn [length] in *.
    rewrite !length_app in *. cbn [length] in *.
    assert (∃ f, F = length s + 2 + f) as [f ->]
      by (exists (F - length s - 2); lia).
    rewrite scan_keys_other_string by done.
    apply IH; [apply valid_pos_matched|(lia || (rewrite ?length_app; simpl;
        lia))..|lia|lia].
  - assert ((lbrace :: o ++ rbrace :: w) ++ rbrace :: rest
            = lbrace :: o ++ rbrace :: w ++ rbrace :: rest) as Heq
      by (repeat (rewrite <-?(assoc_L (++)); cbn [app]); done).
    rewrite Heq in *. clear Heq. cbn [length] in *.
    rewrite !length_app in *. cbn [length] in *.
    assert (∃ f, F = length o + 2 + f) as [f ->]
      by (exists (F - length o - 2); lia).
    rewrite scan_keys_object; [|done| |lia..].
    + apply IH; [done|(lia || (rewrite ?length_app; simpl; lia))..|lia|lia].
    + destruct z; [subst; apply valid_pos_zeros|done].
  - assert ((lbracket :: o ++ rbracket :: w) ++ rbrace :: rest
            = lbracket :: o ++ rbracket :: w ++ rbrace :: rest) as Heq
      by (repeat (rewrite <-?(assoc_L (++)); cbn [app]); done).
    rewrite Heq in *. clear Heq. cbn [length] in *.
    rewrite !length_app in *. cbn [length] in *.
    assert (∃ f, F = length o + 2 + f) as [f ->]
      by (exists (F - length o - 2); lia).
    rewrite scan_keys_list; [|done| |lia..].
    + apply IH; [done|(lia || (rewrite ?length_app; simpl; lia))..|lia|lia].
    + destruct z; [subst; apply valid_pos_zeros|done].
  - subst pos.
    assert ((key_of word ++ p ++ w) ++ rbrace :: rest
            = key_of word ++ p ++ w ++ rbrace :: rest) as Heq
      by (by rewrite <- !(assoc_L (++))).
    rewrite Heq in *. clear Heq.
    rewrite !length_app, length_key_of in *. cbn [length] in *.
    assert (∃ f, F = length word + 2 + f) as [f ->]
      by (exists (F - length word - 2); lia).
    rewrite (scan_keys_token action bodies bl bkl Hletters Hnodup Hbl Hbu
               i word) by done.
    rewrite (Hact i p m) by (done || lia || (rewrite ?length_app; simpl; lia)).
    cbn [fold_items]. destruct (eff m u) as [u'|]; [|done].
    cbn [mbind option_bind].
    apply IH; [apply valid_pos_matched|(lia || (rewrite ?length_app; simpl;
        lia))..
              |lia|lia].
Qed.

(** An object with such members, entered by [scan_field]. *)
Lemma scan_field_members fuel g w ms u rest :
  Forall plain_char g → members bodies payload true w ms →
  length (g ++ lbrace :: w ++ rbrace :: rest) ≤ hfuel →
  length (g ++ lbrace :: w ++ rbrace :: rest) ≤ fuel →
  (bl + 2 + Z.of_nat (length w) < uintf_modulus)%Z →
  (bkl + 1 + Z.of_nat (length w) < uintf_modulus)%Z →
  Robust.scan_field fuel (keys_of bodies) action
    (Scanner (g ++ lbrace :: w ++ rbrace :: rest) bl bkl false, u)
  = u' ← fold_items eff ms u; Some (true, (Scanner rest bl bkl false, u')).
Proof.
  intros Hg Hw Hh HF Hb Hk. unfold Robust.scan_field.
  cbn [fst snd braces brackets].
  rewrite length_app in Hh, HF. cbn [length] in Hh, HF.
  rewrite enter_field_opens by (done || lia).
  rewrite length_map, (scan_keys_members true w ms Hw) by (done || lia).
  by destruct (fold_items eff ms u).
Qed.

End Members.

End Ignore.

(** The objects of a list handed to [scan_list], with plain characters
    around them. *)
Lemma items_length {A} (obj : text → A → Prop) w l :
  items obj w l → 2 * length l ≤ length w.
Proof.
  induction 1 as [g Hg|g o a w l Hg Ho _ IH]; simpl; [lia|].
  rewrite length_app. simpl. rewrite length_app. simpl. lia.
Qed.

Section Items.
Context {A U : Type} (obj : text → A → Prop) (eff : A → U → option U).
Context (act : Robust.thunk U) (fuel : nat) (b k : Z).
Hypothesis Hk : (0 ≤ k)%Z.
Hypothesis Hku : (k + 1 < uintf_modulus)%Z.
Hypothesis Hitem : ∀ a g o rest u,
  obj o a → Forall plain_char g →
  length (g ++ lbrace :: o ++ rbrace :: rest) ≤ fuel →
  (b + 2 + Z.of_nat (length o) < uintf_modulus)%Z →
  (k + 2 + Z.of_nat (length o) < uintf_modulus)%Z →
  act (Scanner (g ++ lbrace :: o ++ rbrace :: rest) b (k + 1) false, u)
  = u' ← eff a u; Some (Scanner rest b (k + 1) false, u').
Hypothesis Hend : ∀ g rest u,
  Forall plain_char g → length (g ++ rbracket :: rest) ≤ fuel →
  act (Scanner (g ++ rbracket :: rest) b (k + 1) false, u)
  = Some (Scanner rest b k false, u).

Lemma run_list_items w l :
  items obj w l → ∀ rest u n,
  length l < n → length (w ++ rbracket :: rest) ≤ fuel →
  (b + 2 + Z.of_nat (length w) < uintf_modulus)%Z →
  (k + 2 + Z.of_nat (length w) < uintf_modulus)%Z →
  Robust.run_list n act k (Scanner (w ++ rbracket :: rest) b (k + 1) false, u)
  = u' ← fold_items eff l u; Some (Scanner rest b k false, u').
Proof.
  induction 1 as [g Hg|g o a w l Hg Ho _ IH]; intros rest u n Hn Hf Hb Hkk;
    (destruct n as [|n]; [simpl in Hn; lia|]);
    cbn [Robust.run_list fst brackets];
    rewrite (proj2 (Z.ltb_lt _ _)) by lia.
  - rewrite Hend by done. cbn [fold_items mbind option_bind].
    apply run_list_done. simpl. apply Z.ltb_irrefl.
  - assert ((g ++ lbrace :: o ++ rbrace :: w) ++ rbracket :: rest
            = g ++ lbrace :: o ++ rbrace :: w ++ rbracket :: rest) as Heq
      by (repeat (rewrite <-?(assoc_L (++)); cbn [app]); done).
    rewrite Heq in *. clear Heq.
    rewrite length_app in Hb, Hkk, Hf. cbn [length] in Hb, Hkk, Hf.
    rewrite length_app in Hb, Hkk, Hf. cbn [length] in Hb, Hkk, Hf.
    rewrite (Hitem a); [|done|done| |lia|lia].
    2:{ rewrite length_app. cbn [length]. rewrite length_app. cbn [length].
        lia. }
    cbn [fold_items]. destruct (eff a u) as [u'|]; [|done].
    cbn [mbind option_bind].
    apply IH; [simpl in Hn; lia|lia|lia|lia].
Qed.

Lemma scan_list_items g w l rest u :
  Forall plain_char g → items obj w l →
  length (g ++ lbracket :: w ++ rbracket :: rest) ≤ fuel →
  (b + 2 + Z.of_nat (length w) < uintf_modulus)%Z →
  (k + 2 + Z.of_nat (length w) < uintf_modulus)%Z →
  Robust.scan_list fuel act
    (Scanner (g ++ lbracket :: w ++ rbracket :: rest) b k false, u)
  = u' ← fold_items eff l u; Some (true, (Scanner rest b k false, u')).
Proof.
  intros Hg Hw Hf Hb Hkk. unfold Robust.scan_list.
  cbn [fst snd braces brackets].
  pose proof (items_length obj w l Hw) as Hl.
  rewrite length_app in Hf. cbn [length] in Hf.
  rewrite enter_list_opens by (done || lia).
  rewrite (run_list_items w l Hw); [|rewrite length_app in Hf; lia|lia..].
  by destruct (fold_items eff l u).
Qed.

End Items.

(** The handlers of [read_graph] on such documents. *)
Section RobustTexts.
Context (fuel : nat).

Lemma row_key_action_string i p (e : entry) rest vars b k :
  string_payload 3 i p e → length (p ++ rest) ≤ fuel →
  RobustBuild.row_key_action fuel i (Scanner (p ++ rest) b k false, vars)
  = u' ← Some (assign e vars); Some (Scanner rest b k false, u').
Proof.
  intros (Hi & He & Hq & g & Hg & ->) Hf.
  destruct vars as [[edge source] target].
  assert (extract_string fuel
            (Scanner ((g ++ quote :: e.2 ++ [quote]) ++ rest) b k false)
          = Some (stored e.2, Scanner rest b k false)) as Hx.
  { apply (extract_string_at fuel g e.2); [text_eq|done|done|done]. }
  unfold RobustBuild.row_key_action, assign. destruct e as [j v].
  simpl in *. subst j. destruct i as [|[|[|i]]]; [..|lia]; by rewrite Hx.
Qed.

Lemma controller_key_action_string i p (e : entry) rest (c : text) b k :
  string_payload 1 i p e → length (p ++ rest) ≤ fuel →
  RobustBuild.controller_key_action fuel i (Scanner (p ++ rest) b k false, c)
  = u' ← Some (stored e.2); Some (Scanner rest b k false, u').
Proof.
  intros (Hi & He & Hq & g & Hg & ->) Hf.
  assert (extract_string fuel
            (Scanner ((g ++ quote :: e.2 ++ [quote]) ++ rest) b k false)
          = Some (stored e.2, Scanner rest b k false)) as Hx.
  { apply (extract_string_at fuel g e.2); [text_eq|done|done|done]. }
  unfold RobustBuild.controller_key_action. simpl. by rewrite Hx.
Qed.

Lemma row_action_members es g o rest t b k :
  members row_words (string_payload 3) true o es → Forall plain_char g →
  (0 ≤ b)%Z → (0 ≤ k)%Z →
  length (g ++ lbrace :: o ++ rbrace :: rest) ≤ fuel →
  (b + 2 + Z.of_nat (length o) < uintf_modulus)%Z →
  (k + 1 + Z.of_nat (length o) < uintf_modulus)%Z →
  RobustBuild.row_action fuel
    (Scanner (g ++ lbrace :: o ++ rbrace :: rest) b k false, t)
  = t' ← row_entries_act es t; Some (Scanner rest b k false, t').
Proof.
  intros Ho Hg Hb Hk Hf Hbb Hkk.
  unfold RobustBuild.row_action. cbn [fst snd].
  change RobustBuild.row_keys with (map key_of row_words).
  assert (Robust.scan_field fuel (map key_of row_words)
            (RobustBuild.row_key_action fuel)
            (Scanner (g ++ lbrace :: o ++ rbrace :: rest) b k false,
             ([], [], []))
          = u' ← fold_items (λ e v, Some (assign e v)) es ([], [], []);
            Some (true, (Scanner rest b k false, u'))) as ->.
  { apply (scan_field_members (RobustBuild.row_key_action fuel) row_words
             b k row_words_letters row_words_nodup Hb ltac:(lia) Hk
             (string_payload 3) (λ e v, Some (assign e v)) fuel
             (λ i p e rest u Hp Hl _ _,
                row_key_action_string i p e rest u (b + 1) k Hp Hl)
             fuel g o es ([], [], []) rest Hg Ho Hf Hf Hbb Hkk). }
  rewrite fold_items_total. cbn [mbind option_bind]. unfold row_entries_act.
  by destruct (foldl _ _ es) as [[edge source] target].
Qed.

Lemma controller_action_members es g o rest t b k :
  members controller_words (string_payload 1) true o es →
  Forall plain_char g → (0 ≤ b)%Z → (0 ≤ k)%Z →
  length (g ++ lbrace :: o ++ rbrace :: rest) ≤ fuel →
  (b + 2 + Z.of_nat (length o) < uintf_modulus)%Z →
  (k + 1 + Z.of_nat (length o) < uintf_modulus)%Z →
  RobustBuild.controller_action fuel
    (Scanner (g ++ lbrace :: o ++ rbrace :: rest) b k false, t)
  = t' ← controller_entries_act es t; Some (Scanner rest b k false, t').
Proof.
  intros Ho Hg Hb Hk Hf Hbb Hkk.
  unfold RobustBuild.controller_action. cbn [fst snd].
  change [quoted "globalId"] with (map key_of controller_words).
  assert (Robust.scan_field fuel (map key_of controller_words)
            (RobustBuild.controller_key_action fuel)
            (Scanner (g ++ lbrace :: o ++ rbrace :: rest) b k false, [])
          = u' ← fold_items (λ (e : entry) (_ : text), Some (stored e.2))
                   es [];
            Some (true, (Scanner rest b k false, u'))) as ->.
  { apply (scan_field_members (RobustBuild.controller_key_action fuel)
             controller_words b k
             controller_words_letters controller_words_nodup Hb ltac:(lia) Hk
             (string_payload 1) (λ (e : entry) (_ : text), Some (stored e.2))
             fuel
             (λ i p e rest u Hp Hl _ _,
                controller_key_action_string i p e rest u (b + 1) k Hp Hl)
             fuel g o es [] rest Hg Ho Hf Hf Hbb Hkk). }
  rewrite fold_items_total. cbn [mbind option_bind].
  unfold controller_entries_act. done.
Qed.

Lemma top_action_list i p x rest t b k :
  list_payload i p x → (0 ≤ b)%Z → (0 ≤ k)%Z →
  length (p ++ rest) ≤ fuel →
  (b + 1 + Z.of_nat (length p) < uintf_modulus)%Z →
  (k + 1 + Z.of_nat (length p) < uintf_modulus)%Z →
  RobustBuild.top_action fuel i (Scanner (p ++ rest) b k false, t)
  = t' ← part_act x t; Some (Scanner rest b k false, t').
Proof.
  intros (g & l & Hg & -> & Hx) Hb Hk Hf Hbb Hkk.
  assert ((g ++ lbracket :: l ++ [rbracket]) ++ rest
          = g ++ lbracket :: l ++ rbracket :: rest) as Heq by text_eq.
  rewrite Heq in *. clear Heq.
  rewrite length_app in Hbb, Hkk. cbn [length] in Hbb, Hkk.
  rewrite length_app in Hbb, Hkk. cbn [length] in Hbb, Hkk.
  destruct x as [rs|cs]; destruct Hx as [-> Hl];
    unfold RobustBuild.top_action; cbn [part_act].
  - rewrite (scan_list_items (members row_words (string_payload 3) true)
               row_entries_act (RobustBuild.row_action fuel) fuel b k Hk
               ltac:(lia)) with (l := rs); [|..|done|done|done|lia|lia].
    + by destruct (fold_items row_entries_act rs t).
    + intros es g' o rest' u Ho Hg' Hlen Hb' Hk'.
      apply row_action_members; (done || lia).
    + intros g' rest' u Hg' Hlen.
      rewrite row_action_end by (done || lia). do 3 f_equal. lia.
  - rewrite (scan_list_items
               (members controller_words (string_payload 1) true)
               controller_entries_act (RobustBuild.controller_action fuel)
               fuel b k Hk ltac:(lia)) with (l := cs);
      [|..|done|done|done|lia|lia].
    + by destruct (fold_items controller_entries_act cs t).
    + intros es g' o rest' u Ho Hg' Hlen Hb' Hk'.
      apply controller_action_members; (done || lia).
    + intros g' rest' u Hg' Hlen.
      rewrite controller_action_end by (done || lia). do 3 f_equal. lia.
Qed.

Lemma robust_parse_text w ps :
  robust_text w ps → length w < fuel →
  (Z.of_nat (length w) + 3 < uintf_modulus)%Z →
  RobustBuild.parse fuel w = fold_items part_act ps init_tables.
Proof.
  intros (g & body & rest & Hg & Hbody & ->) Hf Hb.
  unfold RobustBuild.parse, open_file.
  change RobustBuild.top_keys with (map key_of top_words).
  rewrite length_app in Hb. cbn [length] in Hb.
  rewrite length_app in Hb. cbn [length] in Hb.
  assert (Robust.scan_field fuel (map key_of top_words)
            (RobustBuild.top_action fuel)
            (Scanner (g ++ lbrace :: body ++ rbrace :: rest) 0 0 false,
             init_tables)
          = u' ← fold_items part_act ps init_tables;
            Some (true, (Scanner rest 0 0 false, u'))) as ->.
  { apply (scan_field_members (RobustBuild.top_action fuel) top_words 0 0
             top_words_letters top_words_nodup ltac:(done) ltac:(done)
             ltac:(done) list_payload part_act fuel);
      [|done|done|lia|lia|lia|lia].
    intros i p x rest' u Hp Hl Hb' Hk'.
    apply top_action_list; (done || lia). }
  by destruct (fold_items part_act ps init_tables).
Qed.

End RobustTexts.

(** X24: the ROBUST build passes over what it does not look for.  Let a
    document be an object that holds, among members of any other keys, lists
    under "rows" and "controllers", and let the objects of these lists hold,
    among members of any other keys, strings under the keys of a row (of a
    controller); the other members may be strings that are no key of the
    scan, numbers, nested objects and lists.  Then the parse returns, given
    more fuel than the document has characters, and its tables are those of
    the lists in order, as if the other members were not there. *)
Theorem robust_build_passes_over fuel w ps :
  robust_text w ps → length w < fuel →
  (Z.of_nat (length w) + 3 < uintf_modulus)%Z →
  ∃ t, RobustBuild.parse fuel w = Some t ∧
       fold_items part_act ps init_tables = Some t.
Proof.
  intros Hw Hf Hb. destruct (parts_assembled ps) as (t & Ht & _).
  exists t. split; [|done]. by rewrite (robust_parse_text fuel w ps).
Qed.

Lemma robust_build_passes_over_witness :
  ∃ t, RobustBuild.parse 400 doc_mixed = Some t ∧
       fold_items part_act
         [Rows [[(0, lit "E1"); (1, lit "A"); (2, lit "B")]];
          Controllers [[(0, lit "B")]]] init_tables = Some t.
Proof.
  apply (robust_build_passes_over 400 doc_mixed).
  - exists [],
      (json "'type':'x','rows':[{'viaNetworkSourceId':14,'viaGlobalId':'E1','viaGeometry':{'p':[1,2]},'fromGlobalId':'A','toGlobalId':'B'}],'controllers':[{'networkSourceId':4,'globalId':'B'}]"),
      [].
    split; [constructor|]. split; [|vm_compute; reflexivity].
    eval_text.
    apply (mb_string _ _ (lit "type")); [evaluated|evaluated|].
    apply mb_idle; [idle_solved|].
    apply (mb_string _ _ (lit "x")); [evaluated|evaluated|].
    apply mb_idle; [idle_solved|].
    apply (mb_key _ _ 0 (lit "rows")
             (json ":[{'viaNetworkSourceId':14,'viaGlobalId':'E1','viaGeometry':{'p':[1,2]},'fromGlobalId':'A','toGlobalId':'B'}]"));
      [reflexivity| |].
    { exists [":"%char],
        (json "{'viaNetworkSourceId':14,'viaGlobalId':'E1','viaGeometry':{'p':[1,2]},'fromGlobalId':'A','toGlobalId':'B'}").
      split; [constructor; [plain_solved|constructor]|].
      split; [vm_compute; reflexivity|]. split; [done|].
      eval_text.
      apply (it_object _ []
               (json "'viaNetworkSourceId':14,'viaGlobalId':'E1','viaGeometry':{'p':[1,2]},'fromGlobalId':'A','toGlobalId':'B'"));
        [constructor| |apply (it_end _ []); constructor].
      eval_text.
      apply (mb_string _ _ (lit "viaNetworkSourceId")); [evaluated|evaluated|].
      do 4 (apply mb_idle; [idle_solved|]).
      apply (mb_key _ _ 0 (lit "viaGlobalId") (json ":'E1'"));
        [reflexivity|string_payload_solved|].
      apply mb_idle; [idle_solved|].
      apply (mb_string _ _ (lit "viaGeometry")); [evaluated|evaluated|].
      apply mb_idle; [idle_solved|].
      apply (mb_object _ _ _ (json "'p':[1,2]")).
      { eval_text. apply (bal_string (lit "p")); [evaluated|].
        apply bal_char; [plain_solved|].
        apply (bal_list (json "1,2")); [|apply bal_nil].
        eval_text. do 3 (apply bal_char; [plain_solved|]). apply bal_nil. }
      apply mb_idle; [idle_solved|].
      apply (mb_key _ _ 1 (lit "fromGlobalId") (json ":'A'"));
        [reflexivity|string_payload_solved|].
      apply mb_idle; [idle_solved|].
      apply (mb_key _ _ 2 (lit "toGlobalId") (json ":'B'"));
        [reflexivity|string_payload_solved|].
      apply mb_end. }
    apply mb_idle; [idle_solved|].
    apply (mb_key _ _ 1 (lit "controllers")
             (json ":[{'networkSourceId':4,'globalId':'B'}]"));
      [reflexivity| |apply mb_end].
    exists [":"%char], (json "{'networkSourceId':4,'globalId':'B'}").
    split; [constructor; [plain_solved|constructor]|].
    split; [vm_compute; reflexivity|]. split; [done|].
    eval_text.
    apply (it_object _ [] (json "'networkSourceId':4,'globalId':'B'"));
      [constructor| |apply (it_end _ []); constructor].
    eval_text.
    apply (mb_string _ _ (lit "networkSourceId")); [evaluated|evaluated|].
    do 3 (apply mb_idle; [idle_solved|]).
    apply (mb_key _ _ 0 (lit "globalId") (json ":'B'"));
      [reflexivity|string_payload_solved|].
    apply mb_end.
  - vm_compute. lia.
  - evaluated.
Defined.

(** * What the default build passes over *)

Lemma occurs_app_l key t s : occurs key t → occurs key (t ++ s).
Proof.
  intros (pre & post & ->). exists pre, (post ++ s).
  by rewrite <- !(assoc_L (++)).
Qed.

Lemma occursb_correct key w : occurs key w → occursb key w = true.
Proof.
  intros (pre & post & ->). unfold occursb. apply existsb_exists.
  exists (length pre). split.
  - apply in_seq. rewrite length_app. lia.
  - apply bool_decide_eq_true_2.
    rewrite drop_app_length, take_app_length. done.
Qed.

Lemma matching_nil key : matching key [] 0.
Proof. split; [lia|]. by exists []. Qed.

Lemma matching_below key t m :
  matching key t m → ¬ occurs key t → m < length key.
Proof.
  intros [Hm [pre Hpre]] Hno.
  destruct (decide (m < length key)) as [|Hge]; [done|]. destruct Hno.
  assert (m = length key) as -> by lia. rewrite firstn_all in Hpre.
  exists pre, []. by rewrite app_nil_r.
Qed.

Lemma matching_last key t m c :
  matching key t m → last t = Some c → c ∉ key → m = 0.
Proof.
  intros [Hm [pre Hpre]] Hlast Hc. destruct m as [|m]; [done|].
  destruct Hc.
  assert (is_Some (key !! m)) as [x Hx] by (apply lookup_lt_is_Some_2; lia).
  rewrite (take_S_r key m x Hx) in Hpre.
  rewrite Hpre, (assoc_L (++)), last_snoc in Hlast.
  injection Hlast as <-. by eapply list_elem_of_lookup_2.
Qed.

Section Passing.
Context (key : text) (level : Z).
Hypothesis Hnul : NUL ∉ key.

(** One character read without completing the key. *)
Lemma read_to_key_loop_one f t m c sc sc' :
  matching key t m → ¬ occurs key (t ++ [c]) →
  (level ≤ braces sc)%Z → readc sc = (c, sc') →
  ∃ m', matching key (t ++ [c]) m' ∧
        Fast.read_to_key_loop (S f) key level m sc
        = Fast.read_to_key_loop f key level m' sc'.
Proof.
  intros Hm Hno Hl Hr.
  assert (m < length key) as Hlt.
  { apply (matching_below key t m Hm). intros H. apply Hno.
    by apply occurs_app_l. }
  exists (if Ascii.eqb c (key_at key m) then S m else 0). split.
  - destruct (Ascii.eqb c (key_at key m)) eqn:E;
      [|split; [lia|exists (t ++ [c]); simpl; by rewrite app_nil_r]].
    apply Ascii.eqb_eq in E. destruct Hm as [_ [pre Hpre]].
    split; [lia|]. exists pre.
    destruct (lookup_lt_is_Some_2 key m Hlt) as [x Hx].
    rewrite (take_S_r key m x Hx), Hpre, <- (assoc_L (++)).
    unfold key_at in E. rewrite Hx in E. simpl in E. by subst.
  - cbn [Fast.read_to_key_loop].
    pose proof (key_at_inside key m Hnul Hlt) as Hin.
    apply Ascii.eqb_neq in Hin as ->.
    rewrite (proj2 (Z.leb_le _ _) Hl). cbn [negb andb]. by rewrite Hr.
Qed.

Lemma read_to_key_loop_string s : ∀ f t m rest b k,
  quote ∉ s → matching key t m → ¬ occurs key (t ++ s) → (level ≤ b)%Z →
  ∃ m', matching key (t ++ s) m' ∧
        Fast.read_to_key_loop (length s + f) key level m
          (Scanner (s ++ rest) b k true)
        = Fast.read_to_key_loop f key level m' (Scanner rest b k true).
Proof.
  induction s as [|c s IH]; intros f t m rest b k Hq Hm Hno Hl.
  { exists m. by rewrite app_nil_r. }
  apply not_elem_of_cons in Hq as [Hc Hq].
  replace (t ++ c :: s) with ((t ++ [c]) ++ s) in *
    by (by rewrite <- (assoc_L (++))).
  destruct (read_to_key_loop_one (length s + f) t m c
              (Scanner (c :: s ++ rest) b k true)
              (Scanner (s ++ rest) b k true))
    as (m1 & Hm1 & H1); [done| |done|by apply readc_in|].
  { intros H. apply Hno. by apply occurs_app_l. }
  destruct (IH f (t ++ [c]) m1 rest b k) as (m' & Hm' & H2); [done..|].
  exists m'. split; [done|]. cbn [length app Nat.add]. by rewrite H1.
Qed.

Lemma read_to_key_loop_balanced s : balanced s → ∀ f t m rest b k,
  matching key t m → ¬ occurs key (t ++ s) → (level ≤ b)%Z → (0 ≤ b)%Z →
  (0 ≤ k)%Z →
  (b + Z.of_nat (length s) < uintf_modulus)%Z →
  (k + Z.of_nat (length s) < uintf_modulus)%Z →
  ∃ m', matching key (t ++ s) m' ∧
        Fast.read_to_key_loop (length s + f) key level m
          (Scanner (s ++ rest) b k false)
        = Fast.read_to_key_loop f key level m' (Scanner rest b k false).
Proof.
  induction 1 as [|c w Hc _ IH|s w Hs _ IH|o w _ IHo _ IHw|o w _ IHo _ IHw];
    intros f t m rest b k Hm Hno Hl Hb Hk Hbu Hku.
  - exists m. by rewrite app_nil_r.
  - replace (t ++ c :: w) with ((t ++ [c]) ++ w) in *
      by (by rewrite <- (assoc_L (++))).
    cbn [length] in *.
    destruct (read_to_key_loop_one (length w + f) t m c
                (Scanner (c :: w ++ rest) b k false)
                (Scanner (w ++ rest) b k false))
      as (m1 & Hm1 & H1); [done| |done|by apply readc_out_plain|].
    { intros H. apply Hno. by apply occurs_app_l. }
    destruct (IH f (t ++ [c]) m1 rest b k) as (m' & Hm' & H2);
      [done|done|done|done|done|lia|lia|].
    exists m'. split; [done|]. cbn [app Nat.add]. by rewrite H1.
  - replace (t ++ quote :: s ++ quote :: w)
      with ((((t ++ [quote]) ++ s) ++ [quote]) ++ w) in *
      by (by repeat (rewrite <- ?(assoc_L (++)); cbn [app])).
    cbn [length] in *. rewrite length_app in *. cbn [length] in *.
    destruct (read_to_key_loop_one (length s + S (length w + f)) t m quote
                (Scanner (quote :: s ++ quote :: w ++ rest) b k false)
                (Scanner (s ++ quote :: w ++ rest) b k true))
      as (m1 & Hm1 & H1); [done| |done|apply readc_out_quote|].
    { intros H. apply Hno. by do 3 apply occurs_app_l. }
    destruct (read_to_key_loop_string s (S (length w + f)) (t ++ [quote]) m1
                (quote :: w ++ rest) b k)
      as (m2 & Hm2 & H2); [done|done| |done|].
    { intros H. apply Hno. by do 2 apply occurs_app_l. }
    destruct (read_to_key_loop_one (length w + f) ((t ++ [quote]) ++ s) m2
                quote (Scanner (quote :: w ++ rest) b k true)
                (Scanner (w ++ rest) b k false))
      as (m3 & Hm3 & H3); [done| |done|apply readc_out_quote|].
    { intros H. apply Hno. by apply occurs_app_l. }
    destruct (IH f (((t ++ [quote]) ++ s) ++ [quote]) m3 rest b k)
      as (m' & Hm' & H4); [done|done|done|done|done|lia|lia|].
    exists m'. split; [done|].
    repeat (rewrite <- ?(assoc_L (++)); cbn [app]).
    replace (S (length s + S (length w)) + f)
      with (S (length s + S (length w + f))) by lia.
    rewrite H1, H2, H3. done.
  - replace (t ++ lbrace :: o ++ rbrace :: w)
      with ((((t ++ [lbrace]) ++ o) ++ [rbrace]) ++ w) in *
      by (by repeat (rewrite <- ?(assoc_L (++)); cbn [app])).
    cbn [length] in *. rewrite length_app in *. cbn [length] in *.
    destruct (read_to_key_loop_one (length o + S (length w + f)) t m lbrace
                (Scanner (lbrace :: o ++ rbrace :: w ++ rest) b k false)
                (Scanner (o ++ rbrace :: w ++ rest) (b + 1) k false))
      as (m1 & Hm1 & H1); [done| |done|apply readc_lbrace; lia|].
    { intros H. apply Hno. by do 3 apply occurs_app_l. }
    destruct (IHo (S (length w + f)) (t ++ [lbrace]) m1
                (rbrace :: w ++ rest) (b + 1)%Z k)
      as (m2 & Hm2 & H2); [done| |lia..|].
    { intros H. apply Hno. by do 2 apply occurs_app_l. }
    destruct (read_to_key_loop_one (length w + f) ((t ++ [lbrace]) ++ o) m2
                rbrace (Scanner (rbrace :: w ++ rest) (b + 1) k false)
                (Scanner (w ++ rest) b k false))
      as (m3 & Hm3 & H3); [done| |simpl; lia| |].
    { intros H. apply Hno. by apply occurs_app_l. }
    { rewrite readc_rbrace by lia. do 2 f_equal. lia. }
    destruct (IHw f (((t ++ [lbrace]) ++ o) ++ [rbrace]) m3 rest b k)
      as (m' & Hm' & H4); [done|done|done|done|done|lia|lia|].
    exists m'. split; [done|].
    repeat (rewrite <- ?(assoc_L (++)); cbn [app]).
    replace (S (length o + S (length w)) + f)
      with (S (length o + S (length w + f))) by lia.
    rewrite H1, H2, H3. done.
  - replace (t ++ lbracket :: o ++ rbracket :: w)
      with ((((t ++ [lbracket]) ++ o) ++ [rbracket]) ++ w) in *
      by (by repeat (rewrite <- ?(assoc_L (++)); cbn [app])).
    cbn [length] in *. rewrite length_app in *. cbn [length] in *.
    destruct (read_to_key_loop_one (length o + S (length w + f)) t m lbracket
                (Scanner (lbracket :: o ++ rbracket :: w ++ rest) b k false)
                (Scanner (o ++ rbracket :: w ++ rest) b (k + 1) false))
      as (m1 & Hm1 & H1); [done| |done|apply readc_lbracket; lia|].
    { intros H. apply Hno. by do 3 apply occurs_app_l. }
    destruct (IHo (S (length w + f)) (t ++ [lbracket]) m1
                (rbracket :: w ++ rest) b (k + 1)%Z)
      as (m2 & Hm2 & H2); [done| |lia..|].
    { intros H. apply Hno. by do 2 apply occurs_app_l. }
    destruct (read_to_key_loop_one (length w + f) ((t ++ [lbracket]) ++ o) m2
                rbracket (Scanner (rbracket :: w ++ rest) b (k + 1) false)
                (Scanner (w ++ rest) b k false))
      as (m3 & Hm3 & H3); [done| |done| |].
    { intros H. apply Hno. by apply occurs_app_l. }
    { rewrite readc_rbracket by lia. do 2 f_equal. lia. }
    destruct (IHw f (((t ++ [lbracket]) ++ o) ++ [rbracket]) m3 rest b k)
      as (m' & Hm' & H4); [done|done|done|done|done|lia|lia|].
    exists m'. split; [done|].
    repeat (rewrite <- ?(assoc_L (++)); cbn [app]).
    replace (S (length o + S (length w)) + f)
      with (S (length o + S (length w + f))) by lia.
    rewrite H1, H2, H3. done.
Qed.

End Passing.

Lemma matching_empty key m : key ≠ [] → matching key [] m → m = 0.
Proof.
  intros Hk [_ [pre Hpre]]. destruct m as [|m]; [done|].
  destruct key as [|c key]; [done|]. by destruct pre.
Qed.

(** [read_to_key] finds its key behind what it passes over. *)
Lemma read_to_key_passes fuel (key : string) s rest b k :
  skipped (quoted key) s → NUL ∉ lit key → quote ∉ lit key →
  (0 ≤ b)%Z → (0 ≤ k)%Z →
  (b + Z.of_nat (length s) < uintf_modulus)%Z →
  (k + Z.of_nat (length s) < uintf_modulus)%Z →
  length (s ++ quoted key ++ rest) ≤ fuel →
  Fast.read_to_key fuel (quoted key) (Scanner (s ++ quoted key ++ rest) b k
      false)
  = Some (true, Scanner rest b k false).
Proof.
  intros (Hbal & Hno & Hlast) Hn Hq Hb Hk Hbu Hku Hf.
  assert (NUL ∉ quoted key) as Hn'.
  { unfold quoted. rewrite not_elem_of_cons, not_elem_of_app.
    split; [done|]. split; [done|]. by intros ?%list_elem_of_singleton. }
  rewrite !length_app in Hf.
  assert (length (quoted key) = S (S (length (lit key)))) as Hlen.
  { unfold quoted. simpl. rewrite length_app. simpl. lia. }
  destruct (fuel_split (length s) fuel ltac:(lia)) as [f ->].
  unfold Fast.read_to_key. cbn [braces].
  destruct (read_to_key_loop_balanced (quoted key) b Hn' s Hbal (S f) [] 0
              (quoted key ++ rest) b k)
    as (m' & Hm' & ->); [apply matching_nil|done|lia|done|done|done|done|].
  assert (m' = 0) as ->.
  { simpl in Hm'. destruct (last s) as [c|] eqn:Hc.
    - apply (matching_last (quoted key) s m' c); [done|done|by apply Hlast].
    - apply last_None in Hc. subst s.
      by apply (matching_empty (quoted key)). }
  apply (read_to_key_finds (S f) (lit key) [] rest b k); [done|done|done|].
  simpl. lia.
Qed.

Lemma end_field_loop_balanced level o : balanced o → ∀ f rest b k,
  (level ≤ b)%Z → (0 ≤ b)%Z → (0 ≤ k)%Z →
  (b + Z.of_nat (length o) < uintf_modulus)%Z →
  (k + Z.of_nat (length o) < uintf_modulus)%Z →
  Fast.end_field_loop (length o + f) level (Scanner (o ++ rest) b k false)
  = Fast.end_field_loop f level (Scanner rest b k false).
Proof.
  assert (∀ s f rest b k, quote ∉ s → (level ≤ b)%Z →
            Fast.end_field_loop (length s + f) level
              (Scanner (s ++ rest) b k true)
            = Fast.end_field_loop f level (Scanner rest b k true)) as Hstr.
  { induction s as [|c s IH]; intros f rest b k Hq Hl; [done|].
    apply not_elem_of_cons in Hq as [Hc Hq].
    cbn [length app Nat.add Fast.end_field_loop braces].
    rewrite (proj2 (Z.leb_le _ _) Hl), readc_in by done. by apply IH. }
  induction 1 as [|c w Hc _ IH|s w Hs _ IH|o w _ IHo _ IHw|o w _ IHo _ IHw];
    intros f rest b k Hl Hb Hk Hbu Hku.
  - done.
  - cbn [length] in *. cbn [length app Nat.add Fast.end_field_loop braces].
    rewrite (proj2 (Z.leb_le _ _) Hl), readc_out_plain by done.
    apply IH; (done || lia).
  - cbn [length] in *. rewrite length_app in *. cbn [length] in *.
    repeat (rewrite <- ?(assoc_L (++)); cbn [app]).
    replace (S (length s + S (length w)) + f)
      with (S (length s + S (length w + f))) by lia.
    cbn [Fast.end_field_loop braces].
    rewrite (proj2 (Z.leb_le _ _) Hl), readc_out_quote. cbn [snd negb].
    rewrite Hstr by done.
    cbn [Fast.end_field_loop braces].
    rewrite (proj2 (Z.leb_le _ _) Hl), readc_out_quote. cbn [snd negb].
    apply IH; (done || lia).
  - cbn [length] in *. rewrite length_app in *. cbn [length] in *.
    repeat (rewrite <- ?(assoc_L (++)); cbn [app]).
    replace (S (length o + S (length w)) + f)
      with (S (length o + S (length w + f))) by lia.
    cbn [Fast.end_field_loop braces].
    rewrite (proj2 (Z.leb_le _ _) Hl), readc_lbrace by lia. cbn [snd].
    rewrite IHo by lia.
    cbn [Fast.end_field_loop braces].
    rewrite (proj2 (Z.leb_le level (b + 1))) by lia.
    rewrite readc_rbrace by lia. cbn [snd].
    replace (b + 1 - 1)%Z with b by lia.
    apply IHw; (done || lia).
  - cbn [length] in *. rewrite length_app in *. cbn [length] in *.
    repeat (rewrite <- ?(assoc_L (++)); cbn [app]).
    replace (S (length o + S (length w)) + f)
      with (S (length o + S (length w + f))) by lia.
    cbn [Fast.end_field_loop braces].
    rewrite (proj2 (Z.leb_le _ _) Hl), readc_lbracket by lia. cbn [snd].
    rewrite IHo by lia.
    cbn [Fast.end_field_loop braces].
    rewrite (proj2 (Z.leb_le _ _) Hl).
    rewrite readc_rbracket by lia. cbn [snd].
    replace (k + 1 - 1)%Z with k by lia.
    apply IHw; (done || lia).
Qed.

(** [end_field] leaves the object over anything balanced. *)
Lemma end_field_balanced fuel o rest b k :
  balanced o → (1 ≤ b)%Z → (0 ≤ k)%Z →
  (b + Z.of_nat (length o) < uintf_modulus)%Z →
  (k + Z.of_nat (length o) < uintf_modulus)%Z →
  length o < fuel →
  Fast.end_field fuel (Scanner (o ++ rbrace :: rest) b k false)
  = Some (Scanner rest (b - 1) k false).
Proof.
  intros Ho Hb Hk Hbu Hku (f & ->)%fuel_split. unfold Fast.end_field.
  cbn [braces]. rewrite end_field_loop_balanced by (done || lia).
  cbn [Fast.end_field_loop braces]. rewrite Z.leb_refl.
  rewrite readc_rbrace by lia. cbn [snd].
  destruct f; cbn [Fast.end_field_loop braces];
    by rewrite (proj2 (Z.leb_gt _ _)) by lia.
Qed.

(** A key of the default build and its value. *)
Lemma read_sought fuel (key : string) v w rest b k :
  sought key v w → NUL ∉ lit key → quote ∉ lit key →
  (0 ≤ b)%Z → (0 ≤ k)%Z →
  (b + Z.of_nat (length w) < uintf_modulus)%Z →
  (k + Z.of_nat (length w) < uintf_modulus)%Z →
  length (w ++ rest) ≤ fuel →
  ∃ sc1, Fast.read_to_key fuel (quoted key) (Scanner (w ++ rest) b k false)
         = Some (true, sc1) ∧
         extract_string fuel sc1 = Some (stored v, Scanner rest b k false).
Proof.
  intros (s & g & Hs & Hg & Hv & ->) Hn Hq Hb Hk Hbu Hku Hf.
  exists (Scanner (g ++ quote :: v ++ quote :: rest) b k false).
  assert ((s ++ quoted key ++ g ++ quote :: v ++ [quote]) ++ rest
          = s ++ quoted key ++ g ++ quote :: v ++ quote :: rest) as Heq
    by text_eq.
  rewrite Heq in *. clear Heq.
  assert (length (g ++ quote :: v ++ quote :: rest) ≤ fuel) as Hf2.
  { revert Hf. text_len. }
  rewrite !length_app in Hbu, Hku.
  split.
  - apply read_to_key_passes; try done; lia.
  - by apply (extract_string_at fuel g v).
Qed.

Lemma ordered_row_iteration fuel G o r rest b k :
  Forall plain_char G → ordered_row o r → (0 ≤ b)%Z → (0 ≤ k)%Z →
  (b + 1 + Z.of_nat (length o) < uintf_modulus)%Z →
  (k + Z.of_nat (length o) < uintf_modulus)%Z →
  length (G ++ lbrace :: o ++ rbrace :: rest) ≤ fuel →
  ∃ sc1 sc2,
    Fast.begin_field fuel (Scanner (G ++ lbrace :: o ++ rbrace :: rest) b k
        false)
      = Some (true, sc1) ∧
    (∀ t, FastBuild.read_row fuel sc1 t
          = t' ← row_act r t; Some (sc2, t')) ∧
    Fast.end_field fuel sc2 = Some (Scanner rest b k false).
Proof.
  intros HG (w1 & w2 & w3 & w4 & H1 & H2 & H3 & H4 & ->) Hb Hk Hbu Hku Hf.
  set (R4 := w4 ++ rbrace :: rest).
  set (R3 := w3 ++ R4). set (R2 := w2 ++ R3). set (R1 := w1 ++ R2).
  assert ((w1 ++ w2 ++ w3 ++ w4) ++ rbrace :: rest = R1) as Heq
    by (unfold R1, R2, R3, R4; text_eq).
  rewrite Heq in *. clear Heq.
  rewrite !length_app in Hbu, Hku.
  assert (length R1 < fuel) as L1
    by (rewrite length_app in Hf; simpl in Hf; lia).
  assert (length R2 ≤ length R1) as L2 by (unfold R1; text_len).
  assert (length R3 ≤ length R2) as L3 by (unfold R2; text_len).
  assert (length R4 ≤ length R3) as L4 by (unfold R3; text_len).
  assert (length w4 < length R4) as L5 by (unfold R4; text_len).
  destruct (read_sought fuel "viaGlobalId" (row_via r) w1 R2 (b + 1) k H1)
    as (s1 & E1 & X1); [evaluated|evaluated|lia..|fold R1; lia|].
  destruct (read_sought fuel "fromGlobalId" (row_from r) w2 R3 (b + 1) k H2)
    as (s2 & E2 & X2); [evaluated|evaluated|lia..|fold R2; lia|].
  destruct (read_sought fuel "toGlobalId" (row_to r) w3 R4 (b + 1) k H3)
    as (s3 & E3 & X3); [evaluated|evaluated|lia..|fold R3; lia|].
  exists (Scanner R1 (b + 1) k false), (Scanner R4 (b + 1) k false).
  split; [|split].
  - apply (begin_field_opens_at fuel G _ R1); (done || lia).
  - intros t. unfold FastBuild.read_row.
    fold R1 in E1. rewrite E1. cbn [mbind option_bind]. rewrite X1.
    cbn [mbind option_bind]. fold R2 in E2. rewrite E2.
    cbn [mbind option_bind]. rewrite X2. cbn [mbind option_bind].
    fold R3 in E3. rewrite E3. cbn [mbind option_bind]. rewrite X3.
    cbn [mbind option_bind]. done.
  - unfold R4. rewrite end_field_balanced by (done || lia).
    by replace (b + 1 - 1)%Z with b by lia.
Qed.

Lemma ordered_controller_iteration fuel G o c rest b k :
  Forall plain_char G → ordered_controller o c → (0 ≤ b)%Z → (0 ≤ k)%Z →
  (b + 1 + Z.of_nat (length o) < uintf_modulus)%Z →
  (k + Z.of_nat (length o) < uintf_modulus)%Z →
  length (G ++ lbrace :: o ++ rbrace :: rest) ≤ fuel →
  ∃ sc1 sc2,
    Fast.begin_field fuel (Scanner (G ++ lbrace :: o ++ rbrace :: rest) b k
        false)
      = Some (true, sc1) ∧
    (∀ t, FastBuild.read_controller fuel sc1 t
          = t' ← controller_act c t; Some (sc2, t')) ∧
    Fast.end_field fuel sc2 = Some (Scanner rest b k false).
Proof.
  intros HG (w1 & w4 & H1 & H4 & ->) Hb Hk Hbu Hku Hf.
  set (R4 := w4 ++ rbrace :: rest). set (R1 := w1 ++ R4).
  assert ((w1 ++ w4) ++ rbrace :: rest = R1) as Heq
    by (unfold R1, R4; text_eq).
  rewrite Heq in *. clear Heq.
  rewrite !length_app in Hbu, Hku.
  assert (length R1 < fuel) as L1
    by (rewrite length_app in Hf; simpl in Hf; lia).
  assert (length R4 ≤ length R1) as L4 by (unfold R1; text_len).
  assert (length w4 < length R4) as L5 by (unfold R4; text_len).
  destruct (read_sought fuel "globalId" c w1 R4 (b + 1) k H1)
    as (s1 & E1 & X1); [evaluated|evaluated|lia..|fold R1; lia|].
  exists (Scanner R1 (b + 1) k false), (Scanner R4 (b + 1) k false).
  split; [|split].
  - apply (begin_field_opens_at fuel G _ R1); (done || lia).
  - intros t. unfold FastBuild.read_controller.
    fold R1 in E1. rewrite E1. cbn [mbind option_bind]. rewrite X1.
    cbn [mbind option_bind]. done.
  - unfold R4. rewrite end_field_balanced by (done || lia).
    by replace (b + 1 - 1)%Z with b by lia.
Qed.

(** The loop of the default build over the objects of a list. *)
Section OrderedLoop.
Context {A : Type} (obj : text → A → Prop) (act : A → tables → option tables).
Context (body : scanner → tables → option (scanner * tables)).
Context (fuel : nat) (b k : Z).
Hypothesis Hk : (1 ≤ k < uintf_modulus)%Z.
Hypothesis Hitem :
  ∀ a G o rest,
    obj o a → Forall plain_char G →
    (b + 1 + Z.of_nat (length o) < uintf_modulus)%Z →
    (k + Z.of_nat (length o) < uintf_modulus)%Z →
    length (G ++ lbrace :: o ++ rbrace :: rest) ≤ fuel →
    ∃ sc1 sc2,
      Fast.begin_field fuel
        (Scanner (G ++ lbrace :: o ++ rbrace :: rest) b k false)
        = Some (true, sc1) ∧
      (∀ t, body sc1 t = t' ← act a t; Some (sc2, t')) ∧
      Fast.end_field fuel sc2 = Some (Scanner rest b k false).

Lemma fields_loop_items w l :
  items obj w l → ∀ rest t n,
  length l < n → length (w ++ rbracket :: rest) ≤ fuel →
  (b + 1 + Z.of_nat (length w) < uintf_modulus)%Z →
  (k + Z.of_nat (length w) < uintf_modulus)%Z →
  FastBuild.fields_loop fuel n body (Scanner (w ++ rbracket :: rest) b k
      false) t
  = t' ← fold_items act l t; Some (Scanner rest b (k - 1) false, t').
Proof.
  induction 1 as [g Hg|g o a w l Hg Ho _ IH]; intros rest t n Hn Hf Hb Hkk;
    (destruct n as [|n]; [simpl in Hn; lia|]).
  - cbn [FastBuild.fields_loop fold_items mbind option_bind].
    by rewrite (begin_field_ends_at fuel g _ rest).
  - assert ((g ++ lbrace :: o ++ rbrace :: w) ++ rbracket :: rest
            = g ++ lbrace :: o ++ rbrace :: w ++ rbracket :: rest) as Heq
      by text_eq.
    rewrite Heq in *. clear Heq.
    assert (length (w ++ rbracket :: rest) ≤ fuel) as Hf'
      by (revert Hf; text_len).
    rewrite length_app in Hb, Hkk. cbn [length] in Hb, Hkk.
    rewrite length_app in Hb, Hkk. cbn [length] in Hb, Hkk.
    destruct (Hitem a g o (w ++ rbracket :: rest) Ho Hg)
      as (sc1 & sc2 & H1 & H2 & H3); [lia|lia|done|].
    cbn [FastBuild.fields_loop fold_items]. rewrite H1, H2.
    destruct (act a t) as [t'|]; [|done]. cbn [mbind option_bind].
    rewrite H3. cbn [mbind option_bind].
    apply IH; [simpl in Hn; lia|done|lia|lia].
Qed.

End OrderedLoop.

Lemma fast_parse_text fuel w rows ctrls :
  ordered_text w rows ctrls → length w < fuel →
  (Z.of_nat (length w) + 3 < uintf_modulus)%Z →
  FastBuild.parse fuel w = build rows ctrls.
Proof.
  intros (g & s1 & g1 & l1 & s2 & g2 & l2 & w3 & rest & Hg & Hs1 & Hg1 & Hl1
          & Hs2 & Hg2 & Hl2 & Hw3 & ->) Hfuel Hmod.
  set (D7 := w3 ++ rbrace :: rest).
  set (D6 := l2 ++ rbracket :: D7).
  set (D5 := g2 ++ lbracket :: D6).
  set (D4 := s2 ++ quoted "controllers" ++ D5).
  set (D3 := l1 ++ rbracket :: D4).
  set (D2 := g1 ++ lbracket :: D3).
  set (D1 := s1 ++ quoted "rows" ++ D2).
  assert (g ++ lbrace :: s1 ++ quoted "rows" ++ g1 ++ lbracket :: l1
            ++ rbracket :: s2 ++ quoted "controllers" ++ g2 ++ lbracket :: l2
            ++ rbracket :: w3 ++ rbrace :: rest = g ++ lbrace :: D1) as Etext.
  { unfold D1, D2, D3, D4, D5, D6, D7. text_eq. }
  rewrite Etext in *. clear Etext.
  assert (length w3 < length D7) as L8 by (unfold D7; text_len).
  assert (length l2 + length D7 < length D6) as L7 by (unfold D6; text_len).
  assert (length g2 + length D6 < length D5) as L6 by (unfold D5; text_len).
  assert (length s2 + length D5 < length D4) as L5.
  { unfold D4, quoted. text_len. }
  assert (length l1 + length D4 < length D3) as L4 by (unfold D3; text_len).
  assert (length g1 + length D3 < length D2) as L3 by (unfold D2; text_len).
  assert (length s1 + length D2 < length D1) as L2.
  { unfold D1, quoted. text_len. }
  assert (length D1 < fuel) as L1
    by (rewrite length_app in Hfuel; simpl in Hfuel; lia).
  assert (Z.of_nat (length D1) + 3 < uintf_modulus)%Z as M1.
  { rewrite length_app in Hmod. simpl in Hmod. lia. }
  pose proof (items_length _ _ _ Hl1) as N1.
  pose proof (items_length _ _ _ Hl2) as N2.
  unfold FastBuild.parse, open_file.
  rewrite (begin_field_opens_at fuel g _ D1); [|done|done|lia..].
  cbn [mbind option_bind].
  unfold D1.
  rewrite (read_to_key_passes fuel "rows" s1 D2);
    [|done|evaluated|evaluated|lia..|fold D1; lia].
  cbn [mbind option_bind].
  rewrite (begin_list_opens_at fuel g1 D2 D3); [|done|done|lia..].
  cbn [mbind option_bind]. unfold D3.
  rewrite (fields_loop_items ordered_row row_act (FastBuild.read_row fuel)
             fuel (0 + 1)%Z (0 + 1)%Z) with (l := rows);
    [|lia| |done|lia|fold D3; lia|lia|lia].
  2:{ intros r G o rest' Ho HG Hb Hk Hf.
      apply ordered_row_iteration; (done || lia). }
  unfold build.
  destruct (fold_items row_act rows init_tables) as [t1|]; [|done].
  cbn [mbind option_bind]. unfold D4.
  rewrite (read_to_key_passes fuel "controllers" s2 D5);
    [|done|evaluated|evaluated|lia..|fold D4; lia].
  cbn [mbind option_bind].
  rewrite (begin_list_opens_at fuel g2 D5 D6); [|done|done|lia..].
  cbn [mbind option_bind]. unfold D6.
  rewrite (fields_loop_items ordered_controller controller_act
             (FastBuild.read_controller fuel) fuel (0 + 1)%Z
             (0 + 1 - 1 + 1)%Z) with (l := ctrls);
    [|lia| |done|lia|fold D6; lia|lia|lia].
  2:{ intros c G o rest' Ho HG Hb Hk Hf.
      apply ordered_controller_iteration; (done || lia). }
  destruct (fold_items controller_act ctrls (add_dummy t1)) as [t3|]; [|done].
  cbn [mbind option_bind]. unfold D7.
  rewrite end_field_balanced by (done || lia). done.
Qed.

(** X25: the default build passes over what it does not look for, as long
    as the keys come in its order.  Let a document be an object that holds
    the list under "rows" and behind it the list under "controllers", and
    let every row hold the values of viaGlobalId, fromGlobalId, toGlobalId in
    this order (every controller the value of globalId); before each key
    sought and behind the last value there may be anything balanced in
    braces, brackets and double quotes (members of other keys, with strings,
    numbers, nested objects or lists as values) that does not hold the key
    sought and does not end with one of its characters.  Then the parse
    returns, given more fuel than the document has characters, and its
    tables are those the constructor builds from the rows in order, the dummy
    edge, and the controllers in order. *)
Theorem default_build_passes_over fuel w rows ctrls :
  ordered_text w rows ctrls → length w < fuel →
  (Z.of_nat (length w) + 3 < uintf_modulus)%Z →
  ∃ t, FastBuild.parse fuel w = Some t ∧ build rows ctrls = Some t.
Proof.
  intros Hw Hf Hb. destruct (build_assembled rows ctrls) as (t & Ht & _).
  exists t. split; [|done]. by rewrite (fast_parse_text fuel w rows ctrls).
Qed.

Lemma default_build_passes_over_witness :
  ∃ t, FastBuild.parse 400 doc_mixed = Some t ∧
       build [Row (lit "E1") (lit "A") (lit "B")] [lit "B"] = Some t.
Proof.
  apply (default_build_passes_over 400 doc_mixed).
  - exists [], (json "'type':'x',"), [":"%char],
      (json "{'viaNetworkSourceId':14,'viaGlobalId':'E1','viaGeometry':{'p':[1,2]},'fromGlobalId':'A','toGlobalId':'B'}"),
      (json ","), [":"%char], (json "{'networkSourceId':4,'globalId':'B'}"),
      [], [].
    split; [constructor|]. split.
    { split; [|split; [intros H%occursb_correct; by vm_compute in H
                      |last_solved]].
      eval_text. apply (bal_string (lit "type")); [evaluated|].
      apply bal_char; [plain_solved|].
      apply (bal_string (lit "x")); [evaluated|].
      apply bal_char; [plain_solved|]. apply bal_nil. }
    split; [constructor; [plain_solved|constructor]|]. split.
    { eval_text.
      apply (it_object _ []
               (json "'viaNetworkSourceId':14,'viaGlobalId':'E1','viaGeometry':{'p':[1,2]},'fromGlobalId':'A','toGlobalId':'B'"));
        [constructor| |apply (it_end _ []); constructor].
      exists (json "'viaNetworkSourceId':14,'viaGlobalId':'E1'"),
        (json ",'viaGeometry':{'p':[1,2]},'fromGlobalId':'A'"),
        (json ",'toGlobalId':'B'"), [].
      split.
      { exists (json "'viaNetworkSourceId':14,"), [":"%char].
        split; [|split; [constructor; [plain_solved|constructor]
                        |split; [evaluated|vm_compute; reflexivity]]].
        split; [|split; [intros H%occursb_correct; by vm_compute in H
                        |last_solved]].
        eval_text. apply (bal_string (lit "viaNetworkSourceId")); [evaluated|].
        do 4 (apply bal_char; [plain_solved|]). apply bal_nil. }
      split.
      { exists (json ",'viaGeometry':{'p':[1,2]},"), [":"%char].
        split; [|split; [constructor; [plain_solved|constructor]
                        |split; [evaluated|vm_compute; reflexivity]]].
        split; [|split; [intros H%occursb_correct; by vm_compute in H
                        |last_solved]].
        eval_text. apply bal_char; [plain_solved|].
        apply (bal_string (lit "viaGeometry")); [evaluated|].
        apply bal_char; [plain_solved|].
        apply (bal_object (json "'p':[1,2]")).
        { eval_text. apply (bal_string (lit "p")); [evaluated|].
          apply bal_char; [plain_solved|].
          apply (bal_list (json "1,2")); [|apply bal_nil].
          eval_text. do 3 (apply bal_char; [plain_solved|]). apply bal_nil. }
        apply bal_char; [plain_solved|]. apply bal_nil. }
      split.
      { exists (json ","), [":"%char].
        split; [|split; [constructor; [plain_solved|constructor]
                        |split; [evaluated|vm_compute; reflexivity]]].
        split; [|split; [intros H%occursb_correct; by vm_compute in H
                        |last_solved]].
        eval_text. apply bal_char; [plain_solved|]. apply bal_nil. }
      split; [apply bal_nil|vm_compute; reflexivity]. }
    split.
    { split; [|split; [intros H%occursb_correct; by vm_compute in H
                      |last_solved]].
      eval_text. apply bal_char; [plain_solved|]. apply bal_nil. }
    split; [constructor; [plain_solved|constructor]|]. split.
    { eval_text.
      apply (it_object _ [] (json "'networkSourceId':4,'globalId':'B'"));
        [constructor| |apply (it_end _ []); constructor].
      exists (json "'networkSourceId':4,'globalId':'B'"), [].
      split.
      { exists (json "'networkSourceId':4,"), [":"%char].
        split; [|split; [constructor; [plain_solved|constructor]
                        |split; [evaluated|vm_compute; reflexivity]]].
        split; [|split; [intros H%occursb_correct; by vm_compute in H
                        |last_solved]].
        eval_text. apply (bal_string (lit "networkSourceId")); [evaluated|].
        do 3 (apply bal_char; [plain_solved|]). apply bal_nil. }
      split; [apply bal_nil|vm_compute; reflexivity]. }
    split; [apply bal_nil|vm_compute; reflexivity].
  - vm_compute. lia.
  - evaluated.
Defined.

(** * Lookups of the designations *)

Lemma add_row_lookups edge source target t t' :
  add_row edge source target t = Some t' →
  edgevtx t' = edgevtx t ∧
  (∀ id v, idx t' !! id = Some v → idx t !! id = Some v ∨ nodes t ≤ v) ∧
  (∀ id e, edgeidx t !! id = Some e → edgeidx t' !! id = Some e) ∧
  (∀ e b, badedge t !! e = Some b → badedge t' !! e = Some b).
Proof.
  unfold add_row, vertex_of, edge_of. intros H.
  repeat case_match; simplify_option_eq; (split; [done|]);
    (split; [|split]); intros i x Hx; try by auto.
  all: repeat match goal with
         | H : <[?a := _]> _ !! ?b = Some _ |- _ =>
             destruct (decide (a = b)) as [->|];
             [rewrite lookup_insert_eq in H; simplify_eq
             |rewrite lookup_insert_ne in H by done]
         end; try (by auto); try (right; lia).
  all: try (destruct (decide (edge = i)) as [->|];
            [congruence|by rewrite lookup_insert_ne]).
  all: try by apply lookup_app_l_Some.
Qed.

(** The vertices [idx] knows and the substitute vertices are apart. *)
Lemma assembled_apart P t id v e :
  assembled P t → idx t !! id = Some v → v ∉ substitutes t e.
Proof.
  intros Ha. revert id v.
  induction Ha as [|t edge source target t' Ha IH ? ? ? Hrow|t Ha IH|t Ha IH
                  |t s id' t' Ha IH ? ? Hd]; intros id v Hv.
  - simpl in Hv. by rewrite lookup_empty in Hv.
  - apply add_row_lookups in Hrow as (Hvtx & Hidx & _).
    unfold substitutes. rewrite Hvtx.
    destruct (Hidx id v Hv) as [Hold|Hnew]; [by apply (IH id)|].
    intros Hin. unfold substitutes in *.
    destruct (edgevtx t !! e) as [vs|] eqn:Hvs; [|by apply elem_of_nil in Hin].
    pose proof (sound_edgevtx _ _ (assembled_sound P t Ha) e vs v Hvs Hin).
    lia.
  - by apply (IH id).
  - by apply (IH id).
  - pose proof (designate_frame _ _ _ _ Hd) as (_ & _ & _ & Hidx & _).
    rewrite Hidx in Hv.
    pose proof (sound_idx _ _ (assembled_sound P t Ha) id v Hv) as [Hlt _].
    destruct (designate_substitutes _ _ _ _ e Hd)
      as [(_ & _ & segs & _ & -> & _)|[(-> & _)|(_ & -> & _)]];
      [|by apply (IH id)..].
    intros [Hin|Hin]%elem_of_app; [by apply (IH id v)|].
    apply elem_of_seq in Hin. lia.
Qed.

(** A designation reaches what the tables hold under its identifier ... *)
Lemma designate_hits_vertex s id t t' v :
  designate s id t = Some t' → idx t !! id = Some v →
  (v, edges t) ∈ adj (graph t') s ∧ (s, edges t) ∈ adj (graph t') v.
Proof.
  intros H Hv. split; apply (designate_graph _ _ _ _ _ _ H); right; left;
    exists v; auto.
Qed.

Lemma designate_hits_edge s id t t' e :
  indexed t → designate s id t = Some t' → edgeidx t !! id = Some e →
  badedge t' !! e = Some true ∧
  ∀ v, v ∈ substitutes t' e →
       (v, edges t) ∈ adj (graph t') s ∧ (s, edges t) ∈ adj (graph t') v.
Proof.
  intros Hix H He.
  destruct (designate_substitutes _ _ _ _ e H)
    as [(_ & Hb & segs & Hsegs & Hsub & _ & _ & Hbad)
       |[(Hsub & _ & _ & Hbad & Hb & _)|(Hne & _)]]; [| |done].
  - split.
    { rewrite Hbad. apply list_lookup_insert_eq. by eapply lookup_lt_Some. }
    assert (substitutes t e = []) as Hnone.
    { unfold substitutes. destruct (edgevtx t !! e) eqn:Hv; [|done].
      assert (badedge t !! e = Some true) by (apply (ix_deleted _ Hix); eauto).
      congruence. }
    rewrite Hsub, Hnone. simpl. intros v [Hlo Hhi]%elem_of_seq.
    assert (∃ p, segs !! (v - nodes t) = Some p) as [p Hp]
      by (apply lookup_lt_is_Some_2; lia).
    split; apply (designate_graph _ _ _ _ _ _ H); right; right; right;
      exists e, segs, (v - nodes t), p;
      (repeat split; [done..|]); unfold segment_entry;
      replace (nodes t + (v - nodes t)) with v by lia; auto.
  - specialize (Hb He). split; [by rewrite Hbad|].
    rewrite Hsub. intros v Hv.
    split; apply (designate_graph _ _ _ _ _ _ H); right; right; left;
      exists e, v; repeat split; auto.
Qed.

(** ... and nothing the tables hold under another identifier. *)
Lemma designate_misses_vertex P s id id' t t' v x :
  assembled P t → s < 2 → designate s id' t = Some t' →
  idx t !! id = Some v → id' ≠ id → x.1 = v →
  x ∈ adj (graph t') s → x ∈ adj (graph t) s.
Proof.
  intros Ha Hs H Hv Hne Hx.
  pose proof (assembled_sound P t Ha) as Hso.
  pose proof (assembled_indexed P t Ha) as Hix.
  pose proof (sound_idx _ _ Hso id v Hv) as [[Hv2 Hlt] _].
  destruct x as [xv xe]. simpl in Hx. subst xv.
  intros [Hold|Hnew]%(designate_graph _ _ _ _ _ _ H); [done|]. exfalso.
  destruct Hnew as [(v' & Hv' & Hc)|[(e & v' & He & _ & Hin & Hc)
                                    |(e & segs & i & p & He & _ & Hsegs & Hp
                                      & Hc)]].
  - pose proof (sound_idx _ _ Hso id' v' Hv') as [[Hv2' _] _].
    destruct Hc as [[_ Hc]|[Hc _]]; [|lia].
    injection Hc as <- _.
    apply (ix_vertex _ Hix) in Hv, Hv'. congruence.
  - destruct Hc as [[_ Hc]|[_ Hc]]; injection Hc as Hc _; [|lia].
    subst v'. by apply (assembled_apart P t id v e Ha Hv).
  - pose proof (sound_segments _ _ Hso e segs p Hsegs
                  (list_elem_of_lookup_2 _ _ _ Hp)) as [H1 H2].
    unfold segment_entry in Hc.
    destruct Hc as [[_ Hc]|[[Hw Hc]|[[Hw Hc]|[[Hw Hc]|[[Hw Hc]|[Hw Hc]]]]]];
      injection Hc as Hc _; lia.
Qed.

Lemma designate_misses_edge s id id' t t' e :
  indexed t → designate s id' t = Some t' → edgeidx t !! id = Some e →
  id' ≠ id →
  badedge t' !! e = badedge t !! e ∧ substitutes t' e = substitutes t e.
Proof.
  intros Hix H He Hne.
  pose proof (designate_frame _ _ _ _ H) as (_ & _ & _ & _ & _ & _ & _ & Hb
                                             & Hv).
  assert (edgeidx t !! id' ≠ Some e) as Hother.
  { intros He'. apply Hne. by apply (ix_edge_inj _ Hix id' id e). }
  split; [by apply Hb|]. unfold substitutes. by rewrite Hv.
Qed.

(** * The string extractor and the lookup of starting points *)

(** C8: [extract_string] skips to the next double quote, copies the text up
    to the following double quote unchanged (a backslash is an ordinary
    character) and appends one newline.  A line of the starting-points file
    is looked up in [idx] and [edgeidx] with a newline appended, in every
    state of the constructor, so it meets the tables' entry for the extracted
    identifier exactly when the line equals the raw text: then HEAD is
    wired to the vertex of that entry, or the edge of that entry is deleted
    and HEAD wired to all its substitute vertices; a line that differs wires
    HEAD to nothing of that entry and leaves the edge as it is; and a line
    no table knows changes nothing. *)
Theorem extract_string_verbatim fuel sc pre body rest :
  instring sc = false → quote ∉ pre → quote ∉ body →
  input sc = pre ++ quote :: body ++ quote :: rest →
  length pre < fuel → length body < fuel →
  ∃ sc', extract_string fuel sc = Some (body ++ [newline], sc') ∧
         input sc' = rest ∧ instring sc' = false ∧
         (∀ line, start_key line = body ++ [newline] ↔ line = body) ∧
         ∀ P t line,
           (∀ s, P (s ++ [newline])) → assembled P t →
           ∃ t',
             add_start line t = Some t' ∧
             (idx t !! (line ++ [newline]) = None →
              edgeidx t !! (line ++ [newline]) = None → t' = t) ∧
             (∀ v, idx t !! (body ++ [newline]) = Some v →
                (line = body →
                 (v, edges t) ∈ adj (graph t') HEAD ∧
                 (HEAD, edges t) ∈ adj (graph t') v) ∧
                (line ≠ body →
                 ∀ e, (v, e) ∈ adj (graph t') HEAD ↔
                      (v, e) ∈ adj (graph t) HEAD)) ∧
             (∀ e, edgeidx t !! (body ++ [newline]) = Some e →
                (line = body →
                 badedge t' !! e = Some true ∧
                 ∀ v, v ∈ substitutes t' e →
                      (v, edges t) ∈ adj (graph t') HEAD ∧
                      (HEAD, edges t) ∈ adj (graph t') v) ∧
                (line ≠ body →
                 badedge t' !! e = badedge t !! e ∧
                 substitutes t' e = substitutes t e)).
Proof.
  intros Hin Hpre Hbody Hsc Hf1 Hf2.
  destruct (extract_string_copies fuel sc pre body rest)
    as (sc' & Hx & Hrest & Hout); [done..|].
  exists sc'. split; [done|]. split; [done|]. split; [done|]. split.
  { intros line. unfold start_key. split; [|by intros ->].
    by intros ?%(inj (λ l, l ++ [newline])). }
  intros P t line HP Ha.
  pose proof (assembled_sound P t Ha) as Hso.
  pose proof (assembled_indexed P t Ha) as Hix.
  destruct (designate_defined P HEAD (start_key line) t Hso) as [t' Ht'];
    [unfold HEAD; lia|].
  assert (line ≠ body → start_key line ≠ body ++ [newline]) as Hother.
  { intros Hne Heq. apply Hne. unfold start_key in Heq.
    by apply (inj (λ l, l ++ [newline])) in Heq. }
  exists t'. unfold add_start. split; [done|]. split; [|split].
  - intros Hv He. pose proof (designate_unknown HEAD _ t Hv He) as Hu.
    unfold start_key in Ht'. congruence.
  - intros v Hv. split.
    + intros ->. by apply (designate_hits_vertex HEAD (start_key body) t).
    + intros Hne e. split.
      * by apply (designate_misses_vertex P HEAD (body ++ [newline])
                    (start_key line) t t' v (v, e));
          [|unfold HEAD; lia|..|apply Hother|].
      * apply (designate_entries _ _ _ _ _ _ Ht').
  - intros e He. split.
    + intros ->. by apply (designate_hits_edge HEAD (start_key body) t).
    + intros Hne.
      by apply (designate_misses_edge HEAD (body ++ [newline])
                  (start_key line) t t' e); [..|apply Hother].
Qed.

Lemma extract_string_verbatim_witness :
  ∃ sc' t',
    extract_string 9 (open_file (json ": 'E\1' ,")) =
      Some (lit "E\1" ++ [newline], sc') ∧
    input sc' = lit " ," ∧
    edgeidx tables_backslash !! (lit "E\1" ++ [newline]) = Some 0 ∧
    badedge tables_backslash !! 0 = Some false ∧
    add_start (lit "E\1") tables_backslash = Some t' ∧
    badedge t' !! 0 = Some true ∧
    ∀ v, v ∈ substitutes t' 0 →
         (v, edges tables_backslash) ∈ adj (graph t') HEAD ∧
         (HEAD, edges tables_backslash) ∈ adj (graph t') v.
Proof.
  destruct (extract_string_verbatim 9 (open_file (json ": 'E\1' ,"))
              (lit ": ") (lit "E\1") (lit " ,"))
    as (sc' & Hx & Hin & _ & _ & Htab).
  - reflexivity.
  - evaluated.
  - evaluated.
  - reflexivity.
  - simpl; lia.
  - simpl; lia.
  - destruct (Htab terminated tables_backslash (lit "E\1"))
      as (t' & Ht' & _ & _ & Hedge).
    + intros s. unfold terminated. apply last_snoc.
    + apply wired_phase_assembled, (FastFacts.parse_wired 150 doc_backslash).
      vm_compute. reflexivity.
    + destruct (Hedge 0) as [Hhit _]; [vm_compute; reflexivity|].
      destruct (Hhit eq_refl) as [Hb Hw].
      exists sc', t'. split; [exact Hx|]. split; [exact Hin|].
      split; [vm_compute; reflexivity|]. split; [vm_compute; reflexivity|].
      split; [exact Ht'|]. split; [exact Hb|exact Hw].
Defined.

(** * Reduction 1 is applied once per edge *)

(** A designating step is [designate] on tables that differ from the given
    ones in the controller count at most. *)
Lemma perform_designate o s id t t1 :
  designates o s id → perform o t = Some t1 →
  ∃ t0, designate s id t0 = Some t1 ∧
        graph t0 = graph t ∧ name t0 = name t ∧ nodes t0 = nodes t ∧
        edges t0 = edges t ∧ badedge t0 = badedge t ∧ idx t0 = idx t ∧
        edgeidx t0 = edgeidx t ∧ edgevtx t0 = edgevtx t ∧
        edgenodes t0 = edgenodes t.
Proof.
  destruct o as [| |ctrl|line]; simpl; [done..| |]; intros [-> ->] H.
  - exists (count_controller t). by rewrite <-H.
  - exists t. by rewrite <-H.
Qed.

(** No step of the constructor undoes an explosion or renames an edge. *)
Lemma perform_keeps o e t t' :
  badedge t !! e = Some true → perform o t = Some t' →
  badedge t' !! e = Some true ∧ substitutes t' e = substitutes t e ∧
  ∀ id, edgeidx t !! id = Some e → edgeidx t' !! id = Some e.
Proof.
  intros Hb H. destruct o as [edge source target| |ctrl|line]; simpl in H.
  - apply add_row_lookups in H as (Hv & _ & He & Hbad).
    unfold substitutes. rewrite Hv. split; [by apply Hbad|]. split; [done|].
    intros id. apply He.
  - injection H as <-. simpl. split; [by apply lookup_app_l_Some|].
    done.
  - apply (designate_keeps _ _ e) in H as (? & ? & ->); [|done].
    done.
  - apply (designate_keeps _ _ e) in H as (? & ? & ->); [|done].
    done.
Qed.

Lemma perform_all_keeps os e t t' :
  badedge t !! e = Some true → perform_all os t = Some t' →
  badedge t' !! e = Some true ∧ substitutes t' e = substitutes t e ∧
  ∀ id, edgeidx t !! id = Some e → edgeidx t' !! id = Some e.
Proof.
  revert t. induction os as [|o os IH]; intros t Hb H; simplify_eq/=;
    [done|].
  destruct (perform o t) as [t1|] eqn:H1; simplify_eq/=.
  apply (perform_keeps _ e) in H1 as (Hb1 & Hs1 & He1); [|done].
  destruct (IH t1 Hb1 H) as (? & ? & He2). split; [done|].
  split; [congruence|]. intros id Hid. by apply He2, He1.
Qed.

(** C4: an edge identifier [id] of edge [e] that has not been exploded is
    exploded by its first designation, as a controller or as a starting
    point: the deleted flag is set and one substitute vertex, named [id], is
    created per recorded segment and joined by the dummy edge to the sentinel
    and to both ends of its segment.  After that, whatever steps of the
    constructor follow (rows, controllers, starting points, also of [id]
    itself), a further designation of [id] creates no vertex, keeps the
    substitute set, and adds to the adjacency lists exactly the mirrored
    entries that join its sentinel to each of those substitutes (and to the
    vertex named [id], if there is one). *)
Theorem exploded_once o s id e segs t t1 :
  designates o s id →
  edgeidx t !! id = Some e → badedge t !! e = Some false →
  edgevtx t !! e = None → edgenodes t !! e = Some segs →
  perform o t = Some t1 →
  (badedge t1 !! e = Some true ∧
   substitutes t1 e = seq (nodes t) (length segs) ∧
   nodes t1 = nodes t + length segs ∧
   name t1 = name t ++ replicate (length segs) id ∧
   ∀ i p, segs !! i = Some p →
          (nodes t + i, edges t) ∈ adj (graph t1) s ∧
          (s, edges t) ∈ adj (graph t1) (nodes t + i) ∧
          (p.1, edges t) ∈ adj (graph t1) (nodes t + i) ∧
          (p.2, edges t) ∈ adj (graph t1) (nodes t + i)) ∧
  ∀ os t2 o' s' t3,
    perform_all os t1 = Some t2 → designates o' s' id →
    perform o' t2 = Some t3 →
    nodes t3 = nodes t2 ∧ name t3 = name t2 ∧
    badedge t3 !! e = Some true ∧
    substitutes t3 e = substitutes t1 e ∧
    ∀ w x, x ∈ adj (graph t3) w ↔
           x ∈ adj (graph t2) w ∨
           ∃ v, (idx t2 !! id = Some v ∨ v ∈ substitutes t1 e) ∧
                ((w = s' ∧ x = (v, edges t2)) ∨
                 (w = v ∧ x = (s', edges t2))).
Proof.
  intros Ho He Hb Hv Hs H1.
  destruct (perform_designate o s id t t1 Ho H1)
    as (t0 & Hd & Eg & Ena & En & Ee & Eb & Ei & Eei & Eev & Een).
  rewrite <-Eei in He. rewrite <-Eb in Hb. rewrite <-Eev in Hv.
  rewrite <-Een in Hs.
  destruct (designate_first s id e segs t0 t1 He Hb Hv Hs Hd)
    as (Hb1 & Hsub & Hn & Hname & Hei).
  rewrite En, Ena in *. split.
  { repeat split; try done;
      apply (designate_graph _ _ _ _ _ _ Hd); right; right; right;
      exists e, segs, i, p; rewrite En, Ee;
      (repeat split; [done..|]); unfold segment_entry; auto 10. }
  intros os t2 o' s' t3 Hos Ho' H3.
  destruct (perform_all_keeps os e t1 t2 Hb1 Hos) as (Hb2 & Hs2 & Hei2).
  assert (edgeidx t2 !! id = Some e) as He2 by (apply Hei2; congruence).
  destruct (perform_designate o' s' id t2 t3 Ho' H3)
    as (t0' & Hd' & Eg' & Ena' & En' & Ee' & Eb' & Ei' & Eei' & Eev' & _).
  rewrite <-Eei' in He2. rewrite <-Eb' in Hb2.
  destruct (designate_again s' id e t0' t3 He2 Hb2 Hd')
    as (Hn3 & Hna3 & Hs3 & _).
  pose proof (designate_keeps s' id e t0' t3 Hb2 Hd') as (Hb3 & _).
  assert (substitutes t0' e = substitutes t1 e) as Hsame.
  { unfold substitutes in *. by rewrite Eev'. }
  repeat split; try congruence.
  - intros [Hold|Hnew]%(designate_graph _ _ _ _ _ _ Hd').
    + left. by rewrite <-Eg'.
    + right. rewrite <-Ee', <-Ei'.
      destruct Hnew as [(v & ? & ?)|[(e' & v & He' & _ & Hin & ?)
                                    |(e' & ? & ? & ? & He' & Hb' & _)]].
      * exists v. auto.
      * assert (e' = e) as -> by congruence.
        exists v. rewrite <-Hsame. auto.
      * assert (e' = e) as -> by congruence. congruence.
  - intros Hx. apply (designate_graph _ _ _ _ _ _ Hd').
    destruct Hx as [Hold|(v & [Hv'|Hv'] & Hc)].
    + left. by rewrite Eg'.
    + right. left. exists v. rewrite Ei', Ee'. auto.
    + right. right. left. exists e, v. rewrite Hsame, Ee'. auto.
Qed.

Lemma exploded_once_witness :
  ∃ t1 t2 t3,
    perform (op_controller (ident "E1")) tables_segments = Some t1 ∧
    perform_all [op_controller (ident "B"); op_start (lit "E1")] t1
      = Some t2 ∧
    perform (op_controller (ident "E1")) t2 = Some t3 ∧
    badedge t1 !! 0 = Some true ∧
    substitutes t1 0 = seq (nodes tables_segments) 2 ∧
    nodes t3 = nodes t2 ∧ substitutes t3 0 = substitutes t1 0 ∧
    (nodes tables_segments, edges t2) ∈ adj (graph t3) TAIL.
Proof.
  assert (is_Some (perform (op_controller (ident "E1")) tables_segments))
    as [t1 Ht1] by evaluated.
  assert (is_Some (perform_all [op_controller (ident "B");
                                op_start (lit "E1")] t1)) as [t2 Ht2].
  { apply (bool_decide_unpack _). vm_compute in Ht1. injection Ht1 as <-.
    vm_compute. exact I. }
  assert (is_Some (perform (op_controller (ident "E1")) t2)) as [t3 Ht3].
  { apply (bool_decide_unpack _). vm_compute in Ht1. injection Ht1 as <-.
    vm_compute in Ht2. injection Ht2 as <-. vm_compute. exact I. }
  exists t1, t2, t3.
  destruct (exploded_once (op_controller (ident "E1")) TAIL (ident "E1") 0
              [(2, 3); (3, 4)] tables_segments t1)
    as [(Hbad & Hsub & _) Hlater].
  - split; reflexivity.
  - vm_compute. reflexivity.
  - vm_compute. reflexivity.
  - vm_compute. reflexivity.
  - vm_compute. reflexivity.
  - exact Ht1.
  - destruct (Hlater [op_controller (ident "B"); op_start (lit "E1")] t2
                (op_controller (ident "E1")) TAIL t3 Ht2)
      as (Hn & _ & _ & Hsame & Hadj); [split; reflexivity|exact Ht3|].
    split; [exact Ht1|]. split; [exact Ht2|]. split; [exact Ht3|].
    split; [exact Hbad|]. split; [exact Hsub|]. split; [exact Hn|].
    split; [exact Hsame|].
    apply Hadj. right. exists (nodes tables_segments).
    split; [|left; split; reflexivity].
    right. rewrite Hsub. left.
Defined.

(** * Rows that lack a key *)

Lemma value_of_snoc i es (e : entry) :
  value_of i (es ++ [e]) = if decide (e.1 = i) then stored e.2
                           else value_of i es.
Proof.
  unfold value_of. rewrite filter_app, filter_cons, filter_nil.
  case_decide.
  - by rewrite last_snoc.
  - by rewrite app_nil_r.
Qed.

Lemma foldl_assign_values es :
  foldl (λ v e, assign e v) ([], [], []) es
  = (value_of 0 es, value_of 1 es, value_of 2 es).
Proof.
  induction es as [|e es IH] using rev_ind; [done|].
  rewrite foldl_app. simpl. rewrite IH, !value_of_snoc.
  unfold assign. destruct e as [[|[|[|i]]] v]; simpl; done.
Qed.

Lemma row_entries_act_values es t :
  row_entries_act es t
  = add_row (value_of 0 es) (value_of 1 es) (value_of 2 es) t.
Proof. unfold row_entries_act. by rewrite foldl_assign_values. Qed.

Lemma value_of_blank_or_terminated i es : blank_or_terminated (value_of i es).
Proof.
  unfold value_of. destruct (last _); [apply stored_terminated|by left].
Qed.

Lemma vertex_of_lookup id t v t1 :
  vertex_of id t = (v, t1) →
  idx t1 !! id = Some v ∧
  ∀ id' v', idx t !! id' = Some v' → idx t1 !! id' = Some v'.
Proof.
  unfold vertex_of. destruct (idx t !! id) as [v0|] eqn:Hv; intros;
    simplify_eq/=; [done|].
  rewrite lookup_insert_eq. split; [done|]. intros id' v' Hv'.
  rewrite lookup_insert_ne; [done|congruence].
Qed.

Lemma edge_of_lookup id t e t1 :
  edge_of id t = (e, t1) →
  edgeidx t1 !! id = Some e ∧ idx t1 = idx t ∧ graph t1 = graph t.
Proof.
  unfold edge_of. destruct (edgeidx t !! id) as [e0|] eqn:He; intros;
    simplify_eq/=; [done|].
  by rewrite lookup_insert_eq.
Qed.

(** What a row contributes: both identifiers name vertices, the edge
    identifier names an edge record whose last segment joins them, and the
    two adjacency lists hold the mirrored entries. *)
Lemma add_row_contributes edge source target t t' :
  add_row edge source target t = Some t' →
  ∃ a b e segs,
    idx t' !! source = Some a ∧ idx t' !! target = Some b ∧
    edgeidx t' !! edge = Some e ∧
    edgenodes t' !! e = Some (segs ++ [(a, b)]) ∧
    (b, e) ∈ adj (graph t') a ∧ (a, e) ∈ adj (graph t') b.
Proof.
  unfold add_row.
  destruct (vertex_of source t) as [a t1] eqn:H1.
  destruct (vertex_of target t1) as [b t2] eqn:H2.
  destruct (edge_of edge t2) as [e t3] eqn:H3. intros H.
  destruct (edgenodes t3 !! e) as [segs|] eqn:Hs; simplify_eq/=.
  destruct (link2 a b e (graph t3)) as [g|] eqn:Hl; simplify_eq/=.
  apply vertex_of_lookup in H1 as [Ha _].
  apply vertex_of_lookup in H2 as [Hb Hkeep].
  apply edge_of_lookup in H3 as (He & Hidx & _).
  exists a, b, e, segs. rewrite Hidx.
  split; [by apply Hkeep|]. split; [done|]. split; [done|].
  split; [apply list_lookup_insert_eq; by eapply lookup_lt_Some|].
  by apply (link2_adds a b e (graph t3)).
Qed.

(** The default build on an element without "toGlobalId": [read_to_key]
    leaves the element at its closing brace, and the next string of the
    file, whatever it is, becomes the third identifier. *)
Lemma read_row_short fuel v1 v2 w1 w2 g pre s rest b k :
  sought "viaGlobalId" v1 w1 → sought "fromGlobalId" v2 w2 →
  Forall plain_char g → quote ∉ pre → quote ∉ s →
  (1 ≤ b)%Z → (0 ≤ k)%Z →
  (b + Z.of_nat (length (w1 ++ w2)) < uintf_modulus)%Z →
  (k + Z.of_nat (length (w1 ++ w2)) < uintf_modulus)%Z →
  length (w1 ++ w2 ++ g ++ rbrace :: pre ++ quote :: s ++ quote :: rest)
    < fuel →
  ∃ sc', input sc' = rest ∧
         ∀ t, FastBuild.read_row fuel
                (Scanner (w1 ++ w2 ++ g ++ rbrace :: pre ++ quote :: s
                            ++ quote :: rest) b k false) t
              = t' ← add_row (stored v1) (stored v2) (stored s) t;
                Some (sc', t').
Proof.
  intros H1 H2 Hg Hpre Hs Hb Hk Hbu Hku Hf.
  set (R3 := pre ++ quote :: s ++ quote :: rest) in *.
  set (R2 := g ++ rbrace :: R3) in *. set (R1 := w2 ++ R2) in *.
  rewrite length_app in Hbu, Hku.
  assert (length R1 ≤ length (w1 ++ R1)) as L1 by text_len.
  assert (length R2 ≤ length R1) as L2 by (unfold R1; text_len).
  assert (length g < length R2) as L3 by (unfold R2; text_len).
  assert (length pre < length R3 ∧ length s < length R3) as [L4 L5]
    by (unfold R3; split; text_len).
  assert (length R3 < length R2) as L6 by (unfold R2; text_len).
  destruct (read_sought fuel "viaGlobalId" v1 w1 R1 b k)
    as (sc1 & Hk1 & Hx1); [done|evaluated|evaluated|lia..|].
  destruct (read_sought fuel "fromGlobalId" v2 w2 R2 b k)
    as (sc2 & Hk2 & Hx2);
    [done|evaluated|evaluated|lia|lia|lia|lia|fold R1; lia|].
  destruct (extract_string_copies fuel (Scanner R3 (b - 1) k false) pre s
              rest) as (sc' & Hx3 & Hin & _); [done..|lia|lia|].
  exists sc'. split; [done|]. intros t. unfold FastBuild.read_row.
  rewrite Hk1. cbn [mbind option_bind]. rewrite Hx1. cbn [mbind option_bind].
  unfold R1 at 1.
  rewrite Hk2. cbn [mbind option_bind]. rewrite Hx2. cbn [mbind option_bind].
  change (quoted "toGlobalId") with (quote :: (lit "toGlobalId" ++ [quote])).
  unfold R2 at 1. rewrite read_to_key_leaves by (done || lia).
  cbn [mbind option_bind]. rewrite Hx3. cbn [mbind option_bind]. done.
Qed.

(** C6 (amended).  ROBUST build: the field scan reports failure for an
    element of "rows" only when the list closes before a field is entered,
    and then nothing is contributed.  Every element that is entered, whatever
    keys it holds among its members, takes the scan to the text behind its
    closing brace and contributes an edge record: the identifier of each of
    the three keys is the string extracted for the last member under that
    key, or the empty string when the element has no such member; both
    identifiers name vertices, joined by mirrored adjacency entries and
    recorded as the last segment of the edge; and the elements of the list
    are handled one after the other in this way, followed by the dummy edge.
    Default build: nothing is reported, every return of the row reader is a
    contribution; an element that ends without "toGlobalId" takes the next
    string of the file as its third identifier. *)
Theorem entered_row_contributes fuel :
  (∀ es g o rest t b k,
     members row_words (string_payload 3) true o es → Forall plain_char g →
     (0 ≤ b)%Z → (0 ≤ k)%Z →
     length (g ++ lbrace :: o ++ rbrace :: rest) ≤ fuel →
     (b + 2 + Z.of_nat (length o) < uintf_modulus)%Z →
     (k + 1 + Z.of_nat (length o) < uintf_modulus)%Z →
     assembled blank_or_terminated t →
     ∃ t' u v e segs,
       RobustBuild.row_action fuel
         (Scanner (g ++ lbrace :: o ++ rbrace :: rest) b k false, t)
       = Some (Scanner rest b k false, t') ∧
       add_row (value_of 0 es) (value_of 1 es) (value_of 2 es) t = Some t' ∧
       idx t' !! value_of 1 es = Some u ∧ idx t' !! value_of 2 es = Some v ∧
       edgeidx t' !! value_of 0 es = Some e ∧
       edgenodes t' !! e = Some (segs ++ [(u, v)]) ∧
       (v, e) ∈ adj (graph t') u ∧ (u, e) ∈ adj (graph t') v) ∧
  (∀ rs g l rest t b k,
     items (members row_words (string_payload 3) true) l rs →
     Forall plain_char g → (0 ≤ b)%Z → (0 ≤ k)%Z →
     length (g ++ lbracket :: l ++ rbracket :: rest) ≤ fuel →
     (b + 1 + Z.of_nat (length (g ++ lbracket :: l ++ [rbracket]))
        < uintf_modulus)%Z →
     (k + 1 + Z.of_nat (length (g ++ lbracket :: l ++ [rbracket]))
        < uintf_modulus)%Z →
     RobustBuild.top_action fuel 0
       (Scanner (g ++ lbracket :: l ++ rbracket :: rest) b k false, t)
     = t' ← fold_items
              (λ es, add_row (value_of 0 es) (value_of 1 es) (value_of 2 es))
              rs t;
       Some (Scanner rest b k false, add_dummy t')) ∧
  (∀ st st',
     RobustBuild.row_action fuel st = Some st' →
     (st'.2 = st.2 ∧ (brackets st'.1 < brackets st.1)%Z) ∨
     ∃ edge source target,
       blank_or_terminated edge ∧ blank_or_terminated source ∧
       blank_or_terminated target ∧
       add_row edge source target st.2 = Some st'.2) ∧
  (∀ sc t sc' t',
     FastBuild.read_row fuel sc t = Some (sc', t') →
     ∃ edge source target,
       terminated edge ∧ terminated source ∧ terminated target ∧
       add_row edge source target t = Some t') ∧
  (∀ v1 v2 w1 w2 g pre s rest b k,
     sought "viaGlobalId" v1 w1 → sought "fromGlobalId" v2 w2 →
     Forall plain_char g → quote ∉ pre → quote ∉ s →
     (1 ≤ b)%Z → (0 ≤ k)%Z →
     (b + Z.of_nat (length (w1 ++ w2)) < uintf_modulus)%Z →
     (k + Z.of_nat (length (w1 ++ w2)) < uintf_modulus)%Z →
     length (w1 ++ w2 ++ g ++ rbrace :: pre ++ quote :: s ++ quote :: rest)
       < fuel →
     ∃ sc', input sc' = rest ∧
            ∀ t, FastBuild.read_row fuel
                   (Scanner (w1 ++ w2 ++ g ++ rbrace :: pre ++ quote :: s
                               ++ quote :: rest) b k false) t
                 = t' ← add_row (stored v1) (stored v2) (stored s) t;
                   Some (sc', t')).
Proof.
  split; [|split; [|split; [|split]]].
  - intros es g o rest t b k Ho Hg Hb Hk Hf Hbu Hku Ha.
    destruct (add_row_defined blank_or_terminated (value_of 0 es)
                (value_of 1 es) (value_of 2 es) t) as [t' Ht'];
      [by apply assembled_sound|apply value_of_blank_or_terminated..|].
    destruct (add_row_contributes _ _ _ _ _ Ht')
      as (u & v & e & segs & ? & ? & ? & ? & ? & ?).
    exists t', u, v, e, segs.
    rewrite (row_action_members fuel es g o rest t b k) by done.
    rewrite row_entries_act_values, Ht'. done.
  - intros rs g l rest t b k Hl Hg Hb Hk Hf Hbu Hku.
    assert (g ++ lbracket :: l ++ rbracket :: rest
            = (g ++ lbracket :: l ++ [rbracket]) ++ rest) as -> by text_eq.
    rewrite (top_action_list fuel 0 _ (Rows rs)); [| |done|done| |done|done].
    + cbn [part_act].
      rewrite (fold_items_ext row_entries_act
                 (λ es, add_row (value_of 0 es) (value_of 1 es)
                                (value_of 2 es)) id)
        by (intros; apply row_entries_act_values).
      rewrite list_fmap_id.
      by destruct (fold_items _ rs t).
    + by exists g, l.
    + revert Hf. text_len.
  - apply row_action_outcome.
  - apply FastFacts.read_row_adds.
  - intros. by apply read_row_short.
Qed.

Lemma entered_row_contributes_witness :
  value_of 2 [(0, lit "E1"); (1, lit "A")] = [] ∧
  (∃ t' u v e segs,
     RobustBuild.row_action 100
       (Scanner ([] ++ lbrace :: json "'viaGlobalId':'E1','fromGlobalId':'A'"
                   ++ rbrace :: json ",{") 0 1 false, init_tables)
     = Some (Scanner (json ",{") 0 1 false, t') ∧
     add_row (value_of 0 [(0, lit "E1"); (1, lit "A")])
       (value_of 1 [(0, lit "E1"); (1, lit "A")])
       (value_of 2 [(0, lit "E1"); (1, lit "A")]) init_tables = Some t' ∧
     idx t' !! value_of 1 [(0, lit "E1"); (1, lit "A")] = Some u ∧
     idx t' !! value_of 2 [(0, lit "E1"); (1, lit "A")] = Some v ∧
     edgeidx t' !! value_of 0 [(0, lit "E1"); (1, lit "A")] = Some e ∧
     edgenodes t' !! e = Some (segs ++ [(u, v)]) ∧
     (v, e) ∈ adj (graph t') u ∧ (u, e) ∈ adj (graph t') v) ∧
  (∃ sc', input sc' = json ":'E2'}" ∧
          ∀ t, FastBuild.read_row 100
                 (Scanner (json "'viaGlobalId':'E1'"
                             ++ json ",'fromGlobalId':'A'" ++ []
                             ++ rbrace :: json ",{" ++ quote
                             :: lit "viaGlobalId" ++ quote :: json ":'E2'}")
                    1 1 false) t
               = t' ← add_row (stored (lit "E1")) (stored (lit "A"))
                        (stored (lit "viaGlobalId")) t;
                 Some (sc', t')).
Proof.
  split; [reflexivity|].
  destruct (entered_row_contributes 100) as (Hrow & _ & _ & _ & Hshort).
  split.
  - apply (Hrow [(0, lit "E1"); (1, lit "A")] []
             (json "'viaGlobalId':'E1','fromGlobalId':'A'") (json ",{")
             init_tables 0%Z 1%Z).
    + eval_text.
      apply (mb_key _ _ 0 (lit "viaGlobalId") (json ":'E1'"));
        [reflexivity|string_payload_solved|].
      apply mb_idle; [idle_solved|].
      apply (mb_key _ _ 1 (lit "fromGlobalId") (json ":'A'"));
        [reflexivity|string_payload_solved|].
      apply mb_end.
    + constructor.
    + lia.
    + lia.
    + vm_compute. lia.
    + evaluated.
    + evaluated.
    + apply as_init.
  - apply (Hshort (lit "E1") (lit "A") (json "'viaGlobalId':'E1'")
             (json ",'fromGlobalId':'A'") [] (json ",{")
             (lit "viaGlobalId") (json ":'E2'}") 1%Z 1%Z).
    + exists [], [":"%char].
      split; [|split; [constructor; [plain_solved|constructor]
                      |split; [evaluated|vm_compute; reflexivity]]].
      split; [apply bal_nil|].
      split; [intros H%occursb_correct; by vm_compute in H|last_solved].
    + exists [","%char], [":"%char].
      split; [|split; [constructor; [plain_solved|constructor]
                      |split; [evaluated|vm_compute; reflexivity]]].
      split; [apply bal_char; [plain_solved|apply bal_nil]|].
      split; [intros H%occursb_correct; by vm_compute in H|last_solved].
    + constructor.
    + evaluated.
    + evaluated.
    + lia.
    + lia.
    + evaluated.
    + evaluated.
    + vm_compute. lia.
Defined.


(** * The field scan and the matcher of the specification *)

Lemma matched_length_snoc k w c :
  matched_length k (w ++ [c]) = advance k (matched_length k w) c.
Proof. unfold matched_length. by rewrite foldl_snoc. Qed.

Lemma advance_bound k p c : advance k p c ≤ length k.
Proof.
  unfold advance. case_decide as H; [|lia].
  apply lookup_lt_Some in H. lia.
Qed.

Lemma matched_length_bound k w : matched_length k w ≤ length k.
Proof.
  induction w as [|c w _] using rev_ind; [unfold matched_length; simpl; lia|].
  rewrite matched_length_snoc. apply advance_bound.
Qed.

(** What is matched has just been compared. *)
Lemma matched_suffix k w : take (matched_length k w) k `suffix_of` w.
Proof.
  induction w as [|c w IH] using rev_ind.
  - unfold matched_length. simpl. rewrite take_0. apply suffix_nil.
  - rewrite matched_length_snoc. unfold advance. case_decide as H.
    + rewrite (take_S_r _ _ _ H). by apply suffix_app.
    + rewrite take_0. apply suffix_nil.
Qed.

Lemma completes_suffix k w c : completes k w c → k `suffix_of` w ++ [c].
Proof.
  intros [Hc Hl]. pose proof (matched_suffix k w) as Hs.
  apply (suffix_app _ _ [c]) in Hs.
  rewrite <-(take_S_r _ _ _ Hc), Hl, firstn_all in Hs. done.
Qed.

(** From the start of a match the characters of the key advance it. *)
Lemma matched_length_key k w j :
  matched_length k w = 0 → j ≤ length k →
  matched_length k (w ++ take j k) = j.
Proof.
  intros Hw. induction j as [|j IH]; intros Hj.
  - by rewrite take_0, app_nil_r.
  - destruct (lookup_lt_is_Some_2 k j) as [c Hc]; [lia|].
    rewrite (take_S_r _ _ _ Hc), (assoc_L (++)), matched_length_snoc, IH
      by lia.
    unfold advance. by rewrite decide_True.
Qed.

Lemma completes_from_start k k' c w :
  matched_length k w = 0 → k = k' ++ [c] → completes k (w ++ k') c.
Proof.
  intros Hw ->. unfold completes.
  pose proof (matched_length_key (k' ++ [c]) w (length k') Hw) as Hm.
  rewrite take_app_length in Hm. rewrite Hm by (rewrite length_app; lia).
  split; [by apply list_lookup_middle|rewrite length_app; simpl; lia].
Qed.

(** A character that is not in the key makes the match start over. *)
Lemma matched_length_restart k w c :
  c ∉ k → matched_length k (w ++ [c]) = 0.
Proof.
  intros Hc. rewrite matched_length_snoc. unfold advance.
  case_decide as H; [|done]. by apply list_elem_of_lookup_2 in H.
Qed.

Lemma elem_of_completed_from i keys w c x :
  x ∈ completed_from i keys w c ↔
  ∃ j k, x = i + j ∧ keys !! j = Some k ∧ completes k w c.
Proof.
  revert i. induction keys as [|k keys IH]; intros i; simpl.
  - split; [by intros ?%elem_of_nil|by intros (? & ? & _ & ? & _)].
  - case_decide as Hk.
    + rewrite elem_of_cons, IH. split.
      * intros [->|(j & k' & -> & ? & ?)].
        -- exists 0, k. split; [lia|done].
        -- exists (S j), k'. split; [lia|done].
      * intros ([|j] & k' & -> & Hj & ?); simpl in Hj.
        -- left. lia.
        -- right. exists j, k'. split; [lia|done].
    + rewrite IH. split.
      * intros (j & k' & -> & ? & ?). exists (S j), k'. split; [lia|done].
      * intros ([|j] & k' & -> & Hj & ?); simpl in Hj.
        -- by simplify_eq.
        -- exists j, k'. split; [lia|done].
Qed.

Lemma NoDup_completed_from i keys w c : NoDup (completed_from i keys w c).
Proof.
  revert i. induction keys as [|k keys IH]; intros i; simpl; [constructor|].
  case_decide; [|apply IH]. constructor; [|apply IH].
  intros (j & ? & ? & _)%elem_of_completed_from. lia.
Qed.

(** ** The keys as C strings *)

Lemma key_char_inner k p : p < length k → key_char k p = k !! p.
Proof. intros Hp. unfold key_char. by rewrite lookup_app_l. Qed.

Lemma key_char_last k : key_char k (length k) = Some NUL.
Proof. unfold key_char. by rewrite list_lookup_middle. Qed.

Lemma key_char_outside k : key_char k (S (length k)) = None.
Proof.
  unfold key_char. apply lookup_ge_None_2. rewrite length_app. simpl. lia.
Qed.

Lemma eqb_decide (c x : ascii) :
  Ascii.eqb c x = bool_decide (c = x).
Proof.
  destruct (Ascii.eqb c x) eqn:E.
  - apply Ascii.eqb_eq in E. by rewrite bool_decide_eq_true_2.
  - apply Ascii.eqb_neq in E. by rewrite bool_decide_eq_false_2.
Qed.

Section Refinement.
Context {U : Type} (action : Robust.handler U).

(** One pass over the keys for a character, the positions being those of the
    matcher. *)
Lemma match_keys_overrun c i keys w (st : scanner * U) :
  Forall (λ k, NUL ∉ k) keys → overrun keys w c →
  Robust.match_keys action c i keys (map (λ k, matched_length k w) keys) st
  = None.
Proof.
  intros Hkeys [-> (k0 & Hin & Hend)]. revert i st.
  induction Hkeys as [|k keys Hk Hkeys IH]; intros i st;
    [by apply elem_of_nil in Hin|].
  cbn [Robust.match_keys map]. pose proof (matched_length_bound k w) as Hp.
  destruct (decide (matched_length k w = length k)) as [Heq|Hne].
  - rewrite Heq, key_char_last. cbn [mbind option_bind].
    change (Ascii.eqb NUL NUL) with true. cbn iota.
    by rewrite key_char_outside.
  - apply elem_of_cons in Hin as [->|Hin]; [done|].
    destruct (lookup_lt_is_Some_2 k (matched_length k w)) as [x Hx]; [lia|].
    rewrite (key_char_inner k (matched_length k w)), Hx by lia.
    cbn [mbind option_bind].
    assert (Ascii.eqb NUL x = false) as ->.
    { apply Ascii.eqb_neq. intros <-. by apply list_elem_of_lookup_2 in Hx. }
    by rewrite IH.
Qed.

Lemma match_keys_completed c i keys w (st : scanner * U) :
  Forall (λ k, NUL ∉ k) keys → ¬ overrun keys w c →
  Robust.match_keys action c i keys (map (λ k, matched_length k w) keys) st
  = st' ← call_all action (completed_from i keys w c) st;
    Some (map (λ k, matched_length k (w ++ [c])) keys, st').
Proof.
  intros Hkeys. revert i st.
  induction Hkeys as [|k keys Hk Hkeys IH]; intros i st Hover; [done|].
  assert (¬ overrun keys w c) as Hover'.
  { intros [? (k0 & ? & ?)]. apply Hover. split; [done|].
    exists k0. split; [by right|done]. }
  cbn [Robust.match_keys map completed_from].
  pose proof (matched_length_bound k w) as Hp.
  rewrite matched_length_snoc.
  destruct (decide (matched_length k w = length k)) as [Heq|Hne].
  - rewrite Heq, key_char_last. cbn [mbind option_bind].
    assert (c ≠ NUL) as Hc.
    { intros ->. apply Hover. split; [done|]. exists k. split; [by left|done]. }
    rewrite (proj2 (Ascii.eqb_neq c NUL) Hc).
    assert (k !! length k = None) as Hnone by (by apply lookup_ge_None_2).
    rewrite (decide_False (P := completes k w c))
      by (intros [Hl _]; congruence).
    unfold advance. rewrite (decide_False (P := k !! length k = Some c))
      by congruence.
    rewrite IH by done.
    by destruct (call_all action (completed_from (S i) keys w c) st).
  - destruct (lookup_lt_is_Some_2 k (matched_length k w)) as [x Hx]; [lia|].
    rewrite (key_char_inner k (matched_length k w)), Hx by lia.
    cbn [mbind option_bind]. rewrite eqb_decide. unfold advance.
    destruct (decide (c = x)) as [->|Hcx].
    + rewrite bool_decide_eq_true_2 by done.
      rewrite (decide_True (P := k !! matched_length k w = Some x)) by done.
      destruct (decide (S (matched_length k w) = length k)) as [Hl|Hl].
      * rewrite Hl, key_char_last. cbn [mbind option_bind].
        change (Ascii.eqb NUL NUL) with true. cbn iota.
        rewrite (decide_True (P := completes k w x)) by done.
        cbn [call_all].
        destruct (action i st) as [st1|]; cbn [mbind option_bind]; [|done].
        rewrite IH by done.
        by destruct (call_all action (completed_from (S i) keys w x) st1).
      * destruct (lookup_lt_is_Some_2 k (S (matched_length k w)))
          as [y Hy]; [lia|].
        rewrite (key_char_inner k (S (matched_length k w))), Hy by lia.
        cbn [mbind option_bind].
        assert (Ascii.eqb y NUL = false) as ->.
        { apply Ascii.eqb_neq. intros ->.
          by apply list_elem_of_lookup_2 in Hy. }
        rewrite (decide_False (P := completes k w x)) by (by intros [_ ?]).
        cbn [mbind option_bind]. rewrite IH by done.
        by destruct (call_all action (completed_from (S i) keys w x) st).
    + rewrite bool_decide_eq_false_2 by done.
      rewrite (decide_False (P := k !! matched_length k w = Some c))
        by congruence.
      rewrite (decide_False (P := completes k w c))
        by (intros [? _]; congruence).
      rewrite IH by done.
      by destruct (call_all action (completed_from (S i) keys w c) st).
Qed.

End Refinement.

Section Loop.
Context {U : Type} (action : Robust.handler U) (keys : list text).
Context (bl bkl : Z).
Hypothesis Hkeys : Forall (λ k, NUL ∉ k) keys.
Hypothesis Hbl : (0 ≤ bl)%Z.
Hypothesis Hbu : (bl + 1 < uintf_modulus)%Z.

Lemma nested_deep sc :
  nested bl bkl sc = true ↔ (bl + 1 < braces sc ∨ bkl < brackets sc)%Z.
Proof.
  unfold nested, wrap. rewrite Z.mod_small by lia.
  rewrite orb_true_iff, !Z.ltb_lt. done.
Qed.

Lemma nested_level sc :
  nested bl bkl sc = false ↔ (braces sc ≤ bl + 1 ∧ brackets sc ≤ bkl)%Z.
Proof.
  unfold nested, wrap. rewrite Z.mod_small by lia.
  rewrite orb_false_iff, !Z.ltb_ge. done.
Qed.

Lemma overrun_decided w c : overrun keys w c ∨ ¬ overrun keys w c.
Proof.
  unfold overrun. destruct (decide (c = NUL)) as [->|Hc]; [|right; tauto].
  destruct (decide (Exists (λ k, matched_length k w = length k) keys))
    as [He|He].
  - left. split; [done|]. by apply Exists_exists in He.
  - right. intros [_ Hk]. apply He. by apply Exists_exists.
Qed.

(** Every run of the loop that returns is a scan of the specification ... *)
Lemma scan_keys_scans fuel w st st' :
  Robust.scan_keys fuel action keys bl bkl
    (map (λ k, matched_length k w) keys) st = Some st' →
  ∃ n, n ≤ fuel ∧ scans action keys bl bkl n w st st'.
Proof.
  revert w st. induction fuel as [|fuel IH]; intros w st H; simpl in H.
  { destruct (bl <? braces st.1)%Z eqn:Hb; [discriminate H|].
    injection H as <-. exists 0. split; [done|]. constructor.
    by apply Z.ltb_ge. }
  destruct (bl <? braces st.1)%Z eqn:Hb.
  2:{ injection H as <-. exists 0. split; [lia|]. constructor.
      by apply Z.ltb_ge. }
  apply Z.ltb_lt in Hb. destruct st as [sc u]. simpl in *.
  destruct (readc sc) as [c sc'] eqn:Hr.
  destruct (nested bl bkl sc') eqn:Hn.
  - apply IH in H as (n & Hle & Hs). exists (S n). split; [lia|].
    apply scans_pass; [done| |by rewrite Hr].
    rewrite Hr. simpl. by apply nested_deep.
  - destruct (overrun_decided w c) as [Ho|Ho].
    { by rewrite (match_keys_overrun action c 0 keys w (sc', u) Hkeys Ho)
        in H. }
    rewrite (match_keys_completed action c 0 keys w (sc', u) Hkeys Ho) in H.
    destruct (call_all action (completed_from 0 keys w c) (sc', u))
      as [st1|] eqn:Hc; [|discriminate H].
    simpl in H. apply IH in H as (n & Hle & Hs). exists (S n).
    split; [lia|]. apply nested_level in Hn as [? ?].
    apply (scans_compare action keys bl bkl n w sc u st1); rewrite ?Hr;
      done.
Qed.

(** ... and every scan of the specification is a run of the loop, given
    fuel for the characters it reads. *)
Lemma scans_scan_keys n w st st' fuel :
  scans action keys bl bkl n w st st' → n ≤ fuel →
  Robust.scan_keys fuel action keys bl bkl
    (map (λ k, matched_length k w) keys) st = Some st'.
Proof.
  intros Hs. revert fuel.
  induction Hs as [w st Hb|n w sc u st' Hb Hd Hs IH
                  |n w sc u st1 st' Hb Hl1 Hl2 Ho Hc Hs IH]; intros fuel Hf.
  - destruct fuel; simpl; by rewrite (proj2 (Z.ltb_ge _ _) Hb).
  - destruct fuel as [|fuel]; [lia|]. simpl.
    rewrite (proj2 (Z.ltb_lt _ _) Hb).
    destruct (readc sc) as [c sc'] eqn:Hr. simpl in *.
    rewrite (proj2 (nested_deep sc') Hd). apply IH. lia.
  - destruct fuel as [|fuel]; [lia|]. simpl.
    rewrite (proj2 (Z.ltb_lt _ _) Hb).
    destruct (readc sc) as [c sc'] eqn:Hr. simpl in *.
    rewrite (proj2 (nested_level sc') (conj Hl1 Hl2)).
    rewrite (match_keys_completed action c 0 keys w (sc', u) Hkeys Ho).
    unfold completed in Hc. rewrite Hc. simpl. apply IH. lia.
Qed.

End Loop.

Lemma positions_start keys :
  replicate (length keys) 0 = map (λ k, matched_length k []) keys.
Proof. induction keys as [|k keys IH]; simpl; [done|]. by rewrite IH. Qed.

(** C3 (amended): for keys that are C strings without braces and brackets,
    and any handlers, also handlers that read the file themselves: once
    [scan_field] has entered a field, its run is a scan as the specification
    describes it.  Of the characters the loop itself reads, those read inside
    a nested object or list are passed over and the others are compared; each
    key is matched against the compared characters by a matcher that advances
    when the next character continues the match and starts over otherwise;
    the handler of key [i] is called exactly when a compared character
    completes key [i], once, in the order of the keys and on the state the
    handler before it left.  So a call for key [i] comes right behind the
    full text of key [i] as consecutive compared characters, at brace depth
    one more than on entry, and the full text of a key that is compared from
    where its matcher stood at the start (at the beginning of the field, or
    behind a character that is not in the key) is always reported.  Not every
    occurrence in the file is reported and not every report is an occurrence
    in the file (see [scan_field_misses_occurrence]). *)
Theorem scan_field_reports {U} (action : Robust.handler U) fuel keys st st' :
  Forall plain_key keys →
  (0 ≤ braces st.1)%Z → (braces st.1 + 1 < uintf_modulus)%Z →
  (Robust.scan_field fuel keys action st = Some (true, st') ↔
   ∃ sc1 n,
     Robust.enter_field fuel (braces st.1) (brackets st.1) st.1
       = Some (true, sc1) ∧
     n ≤ fuel ∧
     scans action keys (braces st.1) (brackets st.1) n [] (sc1, st.2) st') ∧
  (∀ i w c, i ∈ completed keys w c ↔
            ∃ k, keys !! i = Some k ∧ completes k w c) ∧
  (∀ w c, NoDup (completed keys w c)) ∧
  (∀ k w c, k ∈ keys → completes k w c →
            k `suffix_of` w ++ [c] ∧ ¬ structural c) ∧
  (∀ k k' c w, k = k' ++ [c] → matched_length k w = 0 →
               completes k (w ++ k') c) ∧
  (∀ k w c, matched_length k [] = 0 ∧
            (c ∉ k → matched_length k (w ++ [c]) = 0)) ∧
  (∀ sc k w, k ∈ keys → completes k w (readc sc).1 →
             (braces st.1 < braces sc)%Z →
             (braces (readc sc).2 ≤ braces st.1 + 1)%Z →
             braces (readc sc).2 = (braces st.1 + 1)%Z).
Proof.
  intros Hplain Hbl Hbu.
  assert (Forall (λ k, NUL ∉ k) keys) as Hkeys.
  { eapply Forall_impl; [done|]. by intros k [? _]. }
  assert (∀ k w c, k ∈ keys → completes k w c → ¬ structural c) as Hns.
  { intros k w c Hk [Hc _]. rewrite Forall_forall in Hplain.
    destruct (Hplain k Hk) as [_ Hs]. apply Hs.
    by eapply list_elem_of_lookup_2. }
  split; [|split; [|split; [|split; [|split; [|split]]]]].
  - unfold Robust.scan_field. cbn zeta. rewrite positions_start. split.
    + intros H.
      destruct (Robust.enter_field fuel (braces st.1) (brackets st.1) st.1)
        as [[[] sc1]|]; [|discriminate H..].
      destruct (Robust.scan_keys fuel action keys _ _ _ _) as [st1|] eqn:Hs;
        [|discriminate H].
      injection H as <-.
      apply (scan_keys_scans action keys _ _ Hkeys Hbl Hbu) in Hs
        as (n & Hn & Hs).
      by exists sc1, n.
    + intros (sc1 & n & -> & Hn & Hs).
      by rewrite (scans_scan_keys action keys _ _ Hkeys Hbl Hbu n [] _ st'
                    fuel Hs Hn).
  - intros i w c. unfold completed. rewrite elem_of_completed_from. split.
    + intros (j & k & -> & ? & ?). by exists k.
    + intros (k & ? & ?). by exists i, k.
  - intros w c. apply NoDup_completed_from.
  - intros k w c Hk Hc. split; [by apply completes_suffix|by eapply Hns].
  - intros k k' c w Hk Hw. by apply completes_from_start.
  - intros k w c. split; [done|apply matched_length_restart].
  - intros sc k w Hk Hc Hlt Hle.
    destruct (ScanFacts.readc_plain sc (Hns k w _ Hk Hc)) as [Hsame _].
    lia.
Qed.

Lemma scan_field_reports_witness :
  ∃ sc1 n st',
    Robust.scan_field 100 RobustBuild.top_keys (RobustBuild.top_action 100)
      (open_file doc_split_key, init_tables) = Some (true, st') ∧
    controllers st'.2 = 1 ∧
    Robust.enter_field 100 0 0 (open_file doc_split_key) = Some (true, sc1) ∧
    n ≤ 100 ∧
    scans (RobustBuild.top_action 100) RobustBuild.top_keys 0 0 n []
      (sc1, init_tables) st'.
Proof.
  assert (∃ st',
            Robust.scan_field 100 RobustBuild.top_keys
              (RobustBuild.top_action 100)
              (open_file doc_split_key, init_tables) = Some (true, st') ∧
            controllers st'.2 = 1) as (st' & Hrun & Hc).
  { eexists. split; vm_compute; reflexivity. }
  destruct (scan_field_reports (RobustBuild.top_action 100) 100
              RobustBuild.top_keys (open_file doc_split_key, init_tables)
              st') as [Hiff _].
  - repeat constructor; apply ScanFacts.plain_keyb_correct; reflexivity.
  - simpl. lia.
  - vm_compute. reflexivity.
  - destruct (proj1 Hiff Hrun) as (sc1 & n & He & Hn & Hs).
    exists sc1, n, st'. split; [exact Hrun|]. split; [exact Hc|].
    split; [exact He|]. split; [exact Hn|exact Hs].
Defined.

(** C3 as stated fails in both directions.  The key "aab" occurs in the
    field [{aaab}], at brace depth 1, and the handler is never called,
    because the third "a" only makes the match of "aa" start over.  And in
    [doc_split_key] the quoted key "controllers" occurs nowhere, yet its
    handler is called and counts a controller: the double quote that closes
    "rows" is compared with both keys, the handler of "rows" then takes the
    list out of the file, and the scan reads on with the letters of
    "controllers". *)
Lemma scan_field_misses_occurrence :
  (∃ sc', Robust.scan_field 10 [lit "aab"] record
            (open_file (lit "{aaab}"), []) = Some (true, (sc', [])) ∧
          lit "{aaab}" = lit "{a" ++ lit "aab" ++ lit "}" ∧
          braces (Nat.iter 5 (λ sc, (readc sc).2) (open_file (lit "{aaab}")))
          = 1%Z) ∧
  controllers <$> RobustBuild.parse 100 doc_split_key = Some 1 ∧
  ¬ occurs (quoted "controllers") doc_split_key.
Proof.
  split; [eexists; repeat split; vm_compute; reflexivity|].
  split; [vm_compute; reflexivity|].
  intros H%occursb_correct. by vm_compute in H.
Qed.
